(** * Trespasser: rotating-ring laser puzzle — generator and solvability oracle

    A shallow embedding of the JavaScript sources

    - [src/puzzle.js]                            (module [Puzzle])
    - [src/difficulty-analyzer.js]               (module [Analyzer])
    - [src/simplified-evolutionary-generator.js] (module [Simplified])
    - [src/evolutionary-generator.js]            (module [Evolutionary])

    followed by the properties proved about them.

    Conventions of the embedding.

    - JavaScript numbers that hold slot indices, edge indices, counts and
      angles in whole degrees are integers ([Z]); the [%] operator on them is
      the truncated remainder [Z.rem] (the sign follows the dividend).
    - JavaScript numbers that hold scores, coordinates and ray parameters are
      exact rationals ([Q]): the rounding of IEEE doubles is idealised away.
      [Infinity] is [None] where the source uses it as an initial minimum.
    - [Math.cos], [Math.sin], [Math.sqrt] and [Math.exp] are parameters of the
      sections that need them.
    - [Math.random()] reads the next element of a tape of rationals; a
      computation that needs a draw when the tape is exhausted, or that finds
      an element outside [[0,1)], is [Starved] (it has no result), and an
      uncaught exception is [Threw].  Rejection-sampling loops therefore
      recurse on the tape.
    - The generation loops of the two evolutionary generators take the
      fitness function as a parameter ([generatePuzzleBy]); [generatePuzzle]
      is the instance with the fitness function of the source.
    - The full evolutionary generator copies chromosome objects shallowly,
      so its circle objects and [litEdges] arrays live in a store and a
      chromosome object holds references into it.
    - A puzzle or a chromosome always carries exactly three rings (every
      constructor in the sources pushes three circles and every consumer
      indexes [0..2]), so the [circles] array is the record [Rings]. *)

From Stdlib Require Import String ZArith QArith Qround Qabs Qminmax List Sorted Permutation Lia Lqa Bool.
Import ListNotations.

Open Scope Z_scope.

(** * Part I — the embedding *)

(** ** JavaScript helpers *)

Module JS.

(** [Math.floor] and [Math.round] (round half up) on exact rationals. *)
Definition Math_floor (q : Q) : Z := Qfloor q.
Definition Math_round (q : Q) : Z := Qfloor (q + (1 # 2))%Q.

(** Comparison operators of rationals as booleans. *)
Definition Qltb (x y : Q) : bool := (Qnum x * QDen y <? Qnum y * QDen x).
Definition Qleb (x y : Q) : bool := Qle_bool x y.

(** [Array.prototype.includes] on arrays of integers. *)
Definition includes (l : list Z) (x : Z) : bool := existsb (Z.eqb x) l.

(** [for (let i = 0; i < n; i++)] ranges over [range n]. *)
Definition range (n : nat) : list Z := map Z.of_nat (seq 0 n).

(** [arr.sort((a, b) => a - b)]: a stable ascending sort. *)
Fixpoint insertAsc (x : Z) (l : list Z) : list Z :=
  match l with
  | [] => [x]
  | y :: l' => if x <? y then x :: l else y :: insertAsc x l'
  end.

Definition sortAsc (l : list Z) : list Z := fold_left (fun acc x => insertAsc x acc) l [].

(** [new Set(arr)] spread back into an array: first occurrences, in order. *)
Fixpoint dedup (l : list Z) (seen : list Z) : list Z :=
  match l with
  | [] => []
  | x :: l' => if includes seen x then dedup l' seen else x :: dedup l' (seen ++ [x])
  end.

(** [Math.max(...xs)] and [Math.min(...xs)] of three integers. *)
Definition max3 (a b c : Z) : Z := Z.max a (Z.max b c).
Definition min3 (a b c : Z) : Z := Z.min a (Z.min b c).

(** One draw of [Math.random()]. *)
Definition Tape := list Q.

Definition tape_ok (t : Tape) : Prop := Forall (fun r => (0 <= r /\ r < 1)%Q) t.

(** [Math.floor(Math.random() * n)] for the draw [r]. *)
Definition randomInt (r : Q) (n : Z) : Z := Math_floor (r * inject_Z n)%Q.

(** A draw is legal when it lies in [[0,1)]. *)
Definition legal (r : Q) : bool := Qle_bool 0 r && Qltb r 1.

(** The outcome of a randomised computation run on a tape: a result with
    the unread rest of the tape, no result because the tape ran out (or held
    an illegal draw), or a [TypeError]. *)
Inductive Outcome (A : Type) : Type :=
| Done (a : A) (rest : Tape)
| Starved
| Threw.
Arguments Done {A} _ _.
Arguments Starved {A}.
Arguments Threw {A}.

Definition Rand (A : Type) : Type := Tape -> Outcome A.

Definition ret {A} (a : A) : Rand A := fun tape => Done a tape.

Definition bind {A B} (m : Rand A) (k : A -> Rand B) : Rand B :=
  fun tape =>
    match m tape with
    | Done a rest => k a rest
    | Starved => Starved
    | Threw => Threw
    end.

Definition throw {A} : Rand A := fun _ => Threw.

(** [Math.random()]. *)
Definition random : Rand Q :=
  fun tape =>
    match tape with
    | [] => Starved
    | r :: rest => if legal r then Done r rest else Starved
    end.

(** [do { x = Math.floor(Math.random() * n); } while (rejected(x));] *)
Fixpoint drawUntil (n : Z) (rejected : Z -> bool) (tape : Tape) : Outcome Z :=
  match tape with
  | [] => Starved
  | r :: rest =>
      if legal r then
        let x := randomInt r n in
        if rejected x then drawUntil n rejected rest else Done x rest
      else Starved
  end.

(** [arr.splice(index, 1)]. *)
Fixpoint removeAt {A} (index : nat) (l : list A) : list A :=
  match index, l with
  | _, [] => []
  | O, _ :: l' => l'
  | S i, x :: l' => x :: removeAt i l'
  end.

(** [arr[index] = x] for an index inside the array. *)
Fixpoint setAt {A} (index : nat) (x : A) (l : list A) : list A :=
  match index, l with
  | _, [] => []
  | O, _ :: l' => x :: l'
  | S i, y :: l' => y :: setAt i x l'
  end.

End JS.

Notation "x <- m ;; k" := (JS.bind m (fun x => k))
  (at level 61, m at next level, right associativity).

(** ** Three rings *)

Record Rings (A : Type) : Type := mkRings { ring0 : A; ring1 : A; ring2 : A }.
Arguments mkRings {A} _ _ _.
Arguments ring0 {A} _.
Arguments ring1 {A} _.
Arguments ring2 {A} _.

Definition rings_list {A} (r : Rings A) : list A := [ring0 r; ring1 r; ring2 r].

Definition rings_map {A B} (f : A -> B) (r : Rings A) : Rings B :=
  mkRings (f (ring0 r)) (f (ring1 r)) (f (ring2 r)).

(** [circles[i]] for the loop counters [i = 0, 1, 2]. *)
Definition ring_at {A} (r : Rings A) (i : nat) : A :=
  match i with
  | O => ring0 r
  | S O => ring1 r
  | _ => ring2 r
  end.

Definition ring_set {A} (r : Rings A) (i : nat) (a : A) : Rings A :=
  match i with
  | O => mkRings a (ring1 r) (ring2 r)
  | S O => mkRings (ring0 r) a (ring2 r)
  | _ => mkRings (ring0 r) (ring1 r) a
  end.

(** ** puzzle.js *)

Module Puzzle.

Definition SIDES : Z := 12.
Definition RADIUS : Q := 180.
Definition CENTER : Q := 200.
Definition SHAPE_ROTATION : Z := 15.

(** [{ radius, lasers, blockers }]: lasers and blockers are angles in degrees. *)
Record Circle : Type := mkCircle {
  radius : Q;
  lasers : list Z;
  blockers : list Z
}.

(** [{ litEdges, circles }]. *)
Record Puzzle : Type := mkPuzzle {
  litEdges : list Z;
  circles : Rings Circle
}.

(** [mod360(angle) = ((angle % 360) + 360) % 360]. *)
Definition mod360 (angle : Z) : Z := Z.rem (Z.rem angle 360 + 360) 360.

(** [hasAngleOrOpposite(list, angle)]: the one-degree tolerance test. *)
Definition hasAngleOrOpposite (l : list Z) (angle : Z) : bool :=
  let a0 := mod360 angle in
  let a180 := mod360 (angle + 180) in
  existsb (fun a =>
    let ma := mod360 a in
    (Z.abs (ma - a0) <? 1) || (Z.abs (ma - a180) <? 1)) l.

(** [positionToAngle(pos) = (pos * 30 + 15) % 360]. *)
Definition positionToAngle (pos : Z) : Z := Z.rem (pos * 30 + 15) 360.

(** [angleToPosition(angle)]:
    [normalized = (angle - 15 + 360) % 360;
     return Math.round(normalized / 30) % 12]. *)
Definition angleToPosition (angle : Z) : Z :=
  let normalized := Z.rem (angle - 15 + 360) 360 in
  Z.rem (JS.Math_round (inject_Z normalized / 30)%Q) 12.

(** [areAtSamePosition(angle1, angle2)]. *)
Definition areAtSamePosition (angle1 angle2 : Z) : bool :=
  let pos1 := angleToPosition angle1 in
  let pos2 := angleToPosition angle2 in
  (pos1 =? pos2) || (pos1 =? Z.rem (pos2 + 6) 12) || (pos2 =? Z.rem (pos1 + 6) 12).

(** *** The solvability oracle [isPuzzleSolvable] *)

(** [Math.PI], the double nearest to pi, is the rational [884279719003555 / 2^48]. *)
Definition PI : Q := 884279719003555 # 281474976710656.

Definition degToRad (deg : Q) : Q := (deg * PI / 180)%Q.

(** The objects built for one rotation vector.  An emitter is identified by
    its ring [idx] and its index [laserIdx] in the ring ([other === emitter]
    in the source compares object identity, and [flatMap] builds one object
    per such pair). *)
Record Emitter : Type := mkEmitter {
  e_idx : nat;
  e_angle : Z;
  e_x : Q;
  e_y : Q;
  e_radius : Q;
  e_laserIdx : nat;
  e_originalAngle : Z
}.

Record Blocker : Type := mkBlocker {
  b_idx : nat;
  b_angle : Z;
  b_x : Q;
  b_y : Q;
  b_radius : Q;
  b_originalAngle : Z
}.

Record EdgeLine : Type := mkEdgeLine {
  ed_i : nat;
  ed_x1 : Q;
  ed_y1 : Q;
  ed_x2 : Q;
  ed_y2 : Q
}.

(** [hitType] and [hitObj] together; [minT = Infinity, hitType = null] is
    [None] below. *)
Inductive HitObj : Type :=
| HitBlocker (blocker : Blocker)
| HitEmitter (other : Emitter)
| HitEdge (edge : EdgeLine).

Definition Nearest : Type := option (Q * HitObj).

(** [arr.map((x, i) => ...)] sees each element with its index. *)
Definition indexed {A} (l : list A) : list (nat * A) := combine (seq 0 (length l)) l.

(** [if (t < minT)] *)
Definition closer (t : Q) (n : Nearest) : bool :=
  match n with
  | None => true
  | Some (minT, _) => JS.Qltb t minT
  end.

(** [if (t < minT) { minT = t; hitType = ...; hitObj = ...; }] *)
Definition consider (n : Nearest) (cand : option (Q * HitObj)) : Nearest :=
  match cand with
  | Some (t, h) => if closer t n then Some (t, h) else n
  | None => n
  end.

Definition sameEmitter (other emitter : Emitter) : bool :=
  ((e_idx other =? e_idx emitter) && (e_laserIdx other =? e_laserIdx emitter))%nat.

(** [const denom = ...; if (Math.abs(denom) < 1e-6) continue; ...
     if (t2 > 0 && t1 >= 0 && t1 <= 1) ...]: the parameter [t2] at which
    the ray from [(ex, ey)] along [(dx, dy)] crosses the edge. *)
Definition rayEdge (ex ey dx dy : Q) (edge : EdgeLine) : option Q :=
  let x3 := ed_x1 edge in
  let y3 := ed_y1 edge in
  let x4 := ed_x2 edge in
  let y4 := ed_y2 edge in
  let denom := (dx * (y4 - y3) - dy * (x4 - x3))%Q in
  if JS.Qltb (Qabs denom) (1 # 1000000) then None
  else
    let t2 := (((x3 - ex) * (y4 - y3) - (y3 - ey) * (x4 - x3)) / denom)%Q in
    let t1 := (((x3 - ex) * dy - (y3 - ey) * dx) / denom)%Q in
    if JS.Qltb 0 t2 && JS.Qleb 0 t1 && JS.Qleb t1 1 then Some t2 else None.

Section Oracle.

Variables cos sin sqrt : Q -> Q.

(** [getPolygonPoints(sides, radius, center)]. *)
Definition getPolygonPoints (sides : Z) (radius center : Q) : list (Q * Q) :=
  map (fun i =>
    let angle := ((2 * PI * inject_Z i) / inject_Z sides - PI / 2
                  + degToRad (inject_Z SHAPE_ROTATION))%Q in
    ((center + radius * cos angle)%Q, (center + radius * sin angle)%Q))
    (JS.range (Z.to_nat sides)).

(** [puzzle.circles.flatMap((circle, idx) => circle.lasers.map((angle, i) => ...))]. *)
Definition emittersOf (puzzle : Puzzle) (rotations : Rings Z) : list Emitter :=
  flat_map (fun '(idx, circle) =>
    map (fun '(i, angle) =>
      let rotated := angle + ring_at rotations idx + SHAPE_ROTATION in
      let rad := degToRad (inject_Z rotated) in
      mkEmitter idx (rotated + 180)
                (CENTER + radius circle * cos rad)%Q
                (CENTER + radius circle * sin rad)%Q
                (radius circle) i angle)
      (indexed (lasers circle)))
    (indexed (rings_list (circles puzzle))).

(** [puzzle.circles.flatMap((circle, idx) => circle.blockers.map((angle) => ...))]. *)
Definition blockersOf (puzzle : Puzzle) (rotations : Rings Z) : list Blocker :=
  flat_map (fun '(idx, circle) =>
    map (fun angle =>
      let rotated := angle + ring_at rotations idx + SHAPE_ROTATION in
      let rad := degToRad (inject_Z rotated) in
      mkBlocker idx rotated
                (CENTER + radius circle * cos rad)%Q
                (CENTER + radius circle * sin rad)%Q
                (radius circle) angle)
      (blockers circle))
    (indexed (rings_list (circles puzzle))).

(** [points.map((pt, i) => { const next = points[(i + 1) % SIDES]; ... })].
    When [points[(i + 1) % SIDES]] is [undefined] reading [next[0]]
    raises a [TypeError]: the result is then [None]. *)
Fixpoint edgeLinesFrom (points : list (Q * Q)) (l : list (nat * (Q * Q)))
    : option (list EdgeLine) :=
  match l with
  | [] => Some []
  | (i, pt) :: l' =>
      match nth_error points (S i mod Z.to_nat SIDES) with
      | None => None
      | Some next =>
          match edgeLinesFrom points l' with
          | None => None
          | Some edges => Some (mkEdgeLine i (fst pt) (snd pt) (fst next) (snd next) :: edges)
          end
      end
  end.

Definition edgeLines (points : list (Q * Q)) : option (list EdgeLine) :=
  edgeLinesFrom points (indexed points).

(** The ray-circle test shared by the blocker and the emitter loops:
    [bx, by, proj, perp2] and [t = proj - Math.sqrt(r2 - perp2)]. *)
Definition rayCircle (ex ey dx dy cx cy r2 : Q) : option Q :=
  let bx := (cx - ex)%Q in
  let by_ := (cy - ey)%Q in
  let proj := (bx * dx + by_ * dy)%Q in
  if JS.Qleb proj 0 then None
  else
    let perp2 := ((bx * bx + by_ * by_) - proj * proj)%Q in
    if JS.Qltb perp2 r2 then Some (proj - sqrt (r2 - perp2))%Q else None.

(** The direction of the beam: [rad = degToRad(emitter.angle)],
    [dx = Math.cos(rad)], [dy = Math.sin(rad)]. *)
Definition beam_dx (emitter : Emitter) : Q := cos (degToRad (inject_Z (e_angle emitter))).
Definition beam_dy (emitter : Emitter) : Q := sin (degToRad (inject_Z (e_angle emitter))).

(** One iteration of [for (const blocker of blockers)]. *)
Definition blockerStep (emitter : Emitter) (n : Nearest) (blocker : Blocker) : Nearest :=
  let dx := beam_dx emitter in
  let dy := beam_dy emitter in
  if (b_idx blocker =? e_idx emitter)%nat
     && areAtSamePosition (b_originalAngle blocker) (e_originalAngle emitter)
  then
    match rayCircle (e_x emitter) (e_y emitter) dx dy (b_x blocker) (b_y blocker) (12 * 12) with
    | Some t => if closer t n then Some (t, HitBlocker blocker) else n
    | None => n
    end
  else if negb (b_idx blocker =? e_idx emitter)%nat
  then
    match rayCircle (e_x emitter) (e_y emitter) dx dy (b_x blocker) (b_y blocker) (12 * 12) with
    | Some t => if closer t n then Some (t, HitBlocker blocker) else n
    | None => n
    end
  else n.

(** One iteration of [for (const other of emitters)]. *)
Definition emitterStep (emitter : Emitter) (n : Nearest) (other : Emitter) : Nearest :=
  if sameEmitter other emitter then n
  else
    match rayCircle (e_x emitter) (e_y emitter) (beam_dx emitter) (beam_dy emitter)
                    (e_x other) (e_y other) (13 * 13) with
    | Some t => if closer t n then Some (t, HitEmitter other) else n
    | None => n
    end.

(** One iteration of [for (const edge of edgeLines)]. *)
Definition edgeStep (emitter : Emitter) (n : Nearest) (edge : EdgeLine) : Nearest :=
  match rayEdge (e_x emitter) (e_y emitter) (beam_dx emitter) (beam_dy emitter) edge with
  | Some t2 => if closer t2 n then Some (t2, HitEdge edge) else n
  | None => n
  end.

(** The ray cast of one emitter: blockers, then the other emitters, then
    the polygon edges. *)
Definition castRay (emitter : Emitter) (blockers : list Blocker)
    (emitters : list Emitter) (edges : list EdgeLine) : Nearest :=
  let n := fold_left (blockerStep emitter) blockers None in
  let n := fold_left (emitterStep emitter) emitters n in
  fold_left (edgeStep emitter) edges n.

(** [if (hitType === 'edge' && hitObj.i === litIdx)] *)
Definition emitterLights (emitter : Emitter) (blockers : list Blocker)
    (emitters : list Emitter) (edges : list EdgeLine) (litIdx : Z) : bool :=
  match castRay emitter blockers emitters edges with
  | Some (_, HitEdge edge) => Z.of_nat (ed_i edge) =? litIdx
  | _ => false
  end.

(** The body of the three rotation loops: [allLit] for one rotation vector. *)
Definition allLit (puzzle : Puzzle) (edges : list EdgeLine) (rotations : Rings Z) : bool :=
  let emitters := emittersOf puzzle rotations in
  let blockers := blockersOf puzzle rotations in
  forallb (fun litIdx =>
    existsb (fun emitter => emitterLights emitter blockers emitters edges litIdx) emitters)
    (litEdges puzzle).

(** [isPuzzleSolvable(puzzle, points)]; [None] is the [TypeError] of a
    vertex list on which [edgeLines] fails (raised in the first pass of
    the loops). *)
Definition isPuzzleSolvable (puzzle : Puzzle) (points : list (Q * Q)) : option bool :=
  match edgeLines points with
  | None => None
  | Some edges =>
      Some (existsb (fun r0 =>
              existsb (fun r1 =>
                existsb (fun r2 =>
                  allLit puzzle edges (mkRings (r0 * 30) (r1 * 30) (r2 * 30)))
                  (JS.range (Z.to_nat SIDES)))
                (JS.range (Z.to_nat SIDES)))
              (JS.range (Z.to_nat SIDES)))
  end.

End Oracle.

(** *** The random generator [generatePuzzle] *)

(** [while (litEdges.length < numLit) { idx = ...; if (!litEdges.includes(idx)) litEdges.push(idx); }] *)
Fixpoint pickLitEdges (numLit : Z) (litEdges : list Z) (tape : JS.Tape)
  : JS.Outcome (list Z) :=
  if Z.of_nat (length litEdges) <? numLit then
    match tape with
    | [] => JS.Starved
    | r :: rest =>
        if JS.legal r then
          let idx := JS.randomInt r SIDES in
          if negb (JS.includes litEdges idx)
          then pickLitEdges numLit (litEdges ++ [idx]) rest
          else pickLitEdges numLit litEdges rest
        else JS.Starved
    end
  else JS.Done litEdges tape.

(** The placement loops of one circle: a slot and its opposite are taken
    together; [placed] collects the angles pushed to [lasers] or [blockers]. *)
Fixpoint placeSlots (count : Z) (usedPositions placed : list Z) (tape : JS.Tape)
  : JS.Outcome (list Z * list Z) :=
  if Z.of_nat (length placed) <? count then
    match tape with
    | [] => JS.Starved
    | r :: rest =>
        if JS.legal r then
          let pos := JS.randomInt r SIDES in
          let oppositePos := Z.rem (pos + 6) 12 in
          if negb (JS.includes usedPositions pos) && negb (JS.includes usedPositions oppositePos)
          then placeSlots count (usedPositions ++ [pos; oppositePos])
                          (placed ++ [positionToAngle pos]) rest
          else placeSlots count usedPositions placed rest
        else JS.Starved
    end
  else JS.Done (usedPositions, placed) tape.

(** The body of [[50, 90, 130].map((radius) => ...)]. *)
Definition makeCircle (radius : Q) : JS.Rand Circle :=
  r1 <- JS.random ;;
  let numEmit := JS.randomInt r1 3 + 1 in
  r2 <- JS.random ;;
  let numBlock := JS.randomInt r2 2 + 1 in
  placedLasers <- placeSlots numEmit [] [] ;;
  placedBlockers <- placeSlots numBlock (fst placedLasers) [] ;;
  JS.ret (mkCircle radius (snd placedLasers) (snd placedBlockers)).

(** The positions the third step finds taken on a circle: those of
    [lasers.slice(1)] and of the blockers, each with its opposite. *)
Definition takenPositions (circle : Circle) : list Z :=
  flat_map (fun angle =>
    let pos := angleToPosition angle in
    [pos; Z.rem (pos + 6) 12]) (tl (lasers circle) ++ blockers circle).

(** [lasers[0] = targetAngle]. *)
Definition setFirst (x : Z) (l : list Z) : list Z :=
  match l with
  | [] => [x]
  | _ :: l' => x :: l'
  end.

(** Step 3: [for (let i = 0; i < litEdges.length; ++i) ...]. *)
Definition alignEmitters (litEdges : list Z) (circles : Rings Circle) : Rings Circle :=
  fold_left (fun circles '(i, targetPos) =>
    let cidx := (i mod 3)%nat in
    let targetAngle := positionToAngle targetPos in
    let circle := ring_at circles cidx in
    let usedPositions := takenPositions circle in
    if negb (JS.includes usedPositions targetPos)
       && negb (JS.includes usedPositions (Z.rem (targetPos + 6) 12))
    then ring_set circles cidx
           (mkCircle (radius circle) (setFirst targetAngle (lasers circle)) (blockers circle))
    else circles)
    (indexed litEdges) circles.

(** [numLit = Math.floor(Math.random() * (maxLit - minLit + 1)) + minLit]. *)
Definition numLitOf (r : Q) (minLit maxLit : Z) : Z :=
  JS.randomInt r (maxLit - minLit + 1) + minLit.

(** [generatePuzzle(minLit, maxLit)]. *)
Definition generatePuzzle (minLit maxLit : Z) : JS.Rand Puzzle :=
  r <- JS.random ;;
  let numLit := numLitOf r minLit maxLit in
  litEdges <- pickLitEdges numLit [] ;;
  let litEdges := JS.sortAsc litEdges in
  c0 <- makeCircle 50%Q ;;
  c1 <- makeCircle 90%Q ;;
  c2 <- makeCircle 130%Q ;;
  let circles := alignEmitters litEdges (mkRings c0 c1 c2) in
  JS.ret (mkPuzzle litEdges circles).

End Puzzle.

(** ** difficulty-analyzer.js *)

Module Analyzer.

Import Puzzle.

Local Open Scope Q_scope.

Definition inZ (z : Z) : Q := inject_Z z.
Definition len (l : list Z) : Z := Z.of_nat (length l).

(** [puzzle.circles.reduce((sum, circle) => sum + circle.lasers.length, 0)]
    and its companion for blockers. *)
Definition totalEmitters (p : Puzzle) : Z :=
  fold_left (fun sum circle => (sum + len (lasers circle))%Z) (rings_list (circles p)) 0%Z.

Definition totalBlockers (p : Puzzle) : Z :=
  fold_left (fun sum circle => (sum + len (blockers circle))%Z) (rings_list (circles p)) 0%Z.

(** [calculateBasicMetrics(puzzle).score]. *)
Definition calculateBasicMetrics (p : Puzzle) : Q :=
  let numLitEdges := len (litEdges p) in
  let emitterScore := Qmin (inZ (totalEmitters p) / 12) 1 in
  let blockerScore := Qmin (inZ (totalBlockers p) / 8) 1 in
  let edgeScore := Qmin (inZ numLitEdges / 8) 1 in
  (emitterScore + blockerScore + edgeScore) / 3.

(** [Math.min(minRotationsForEdge, rotationNeeded)] with [Infinity] as [None]. *)
Definition minInf (m : option Q) (x : Q) : option Q :=
  match m with
  | None => Some x
  | Some y => Some (Qmin y x)
  end.

(** [estimateMinimumRotations(puzzle)]. *)
Definition estimateMinimumRotations (p : Puzzle) : Q :=
  let totalRotations :=
    fold_left (fun totalRotations edge =>
      let minRotationsForEdge :=
        fold_left (fun acc circle =>
          fold_left (fun acc emitterAngle =>
            let targetAngle := Z.rem (edge * 30 + 15) 360 in
            let currentDirection := Z.rem (emitterAngle + 180) 360 in
            let rotationNeeded :=
              inZ (Z.min (Z.abs (targetAngle - currentDirection))
                         (360 - Z.abs (targetAngle - currentDirection))) / 30 in
            minInf acc rotationNeeded) (lasers circle) acc)
          (rings_list (circles p)) None in
      totalRotations + match minRotationsForEdge with None => 3 | Some m => m end)
      (litEdges p) 0 in
  Qmin totalRotations 20.

(** The conflicts counted between the emitters of [circle1] and the
    blockers of [circle2], divided by
    [(circle1.lasers.length * circle2.blockers.length || 1)]. *)
Definition pairInterdependency (circle1 circle2 : Circle) : Q :=
  let conflicts :=
    fold_left (fun conflicts emitter1 =>
      fold_left (fun conflicts blocker2 =>
        let angleDiff := Z.abs (Z.rem (emitter1 - blocker2 + 180) 360 - 180) in
        if (angleDiff <? 45)%Z then (conflicts + 1)%Z else conflicts)
        (blockers circle2) conflicts)
      (lasers circle1) 0%Z in
  let product := (len (lasers circle1) * len (blockers circle2))%Z in
  inZ conflicts / inZ (if (product =? 0)%Z then 1%Z else product).

(** [calculateCircleInterdependency(puzzle)]: the pairs [i < j]. *)
Definition calculateCircleInterdependency (p : Puzzle) : Q :=
  let c := circles p in
  let interdependency :=
    0 + pairInterdependency (ring0 c) (ring1 c)
      + pairInterdependency (ring0 c) (ring2 c)
      + pairInterdependency (ring1 c) (ring2 c) in
  Qmin interdependency 1.

(** [calculateSolutionUniqueness(puzzle)]. *)
Definition calculateSolutionUniqueness (p : Puzzle) : Q :=
  let numLitEdges := len (litEdges p) in
  if (numLitEdges =? 0)%Z then 1
  else
    let ratio := inZ (totalEmitters p) / inZ numLitEdges in
    Qmin (ratio / 3) 1.

(** [calculateSolutionComplexity(puzzle).score]. *)
Definition calculateSolutionComplexity (p : Puzzle) : Q :=
  let minRotations := estimateMinimumRotations p in
  let interdependency := calculateCircleInterdependency p in
  let uniqueness := calculateSolutionUniqueness p in
  Qmin (minRotations / 10) 1 * (4 # 10) +
  interdependency * (4 # 10) +
  (1 - uniqueness) * (2 # 10).

(** [calculateWorkingMemoryLoad(puzzle)]. *)
Definition calculateWorkingMemoryLoad (p : Puzzle) : Q :=
  let itemsToTrack :=
    inZ (len (litEdges p)) + inZ (totalEmitters p) * (5 # 10) + inZ (totalBlockers p) * (3 # 10) in
  Qmin (itemsToTrack / 9) 1.

(** [hasRotationalSymmetry(litEdges, fold)]. *)
Definition hasRotationalSymmetry (litEdges : list Z) (fold : Z) : bool :=
  forallb (fun edge =>
    existsb (fun i =>
      let symmetricEdge := Z.rem (edge + (i * 12) / fold) 12 in
      JS.includes litEdges symmetricEdge)
      (map (fun k => Z.of_nat (S k)) (seq 0 (Z.to_nat fold - 1))))
    litEdges.

(** [calculateSymmetryFactor(puzzle)]. *)
Definition calculateSymmetryFactor (p : Puzzle) : Q :=
  fold_left (fun symmetryScore fold =>
    if hasRotationalSymmetry (litEdges p) fold
    then Qmax symmetryScore (1 / inZ fold)
    else symmetryScore) [2; 3; 4; 6]%Z 0.

(** [calculateVisualComplexity(puzzle)]. *)
Definition calculateVisualComplexity (p : Puzzle) : Q :=
  let totalElements :=
    (len (litEdges p) +
     fold_left (fun sum circle => sum + len (lasers circle) + len (blockers circle))
               (rings_list (circles p)) 0)%Z in
  let symmetryFactor := calculateSymmetryFactor p in
  let baseComplexity := Qmin (inZ totalElements / 20) 1 in
  baseComplexity * (1 - symmetryFactor * (3 # 10)).

(** [checkForCommonPatterns(puzzle)]. *)
Definition checkForCommonPatterns (p : Puzzle) : Q :=
  let '(consecutiveGroups, currentGroup) :=
    fold_left (fun '(consecutiveGroups, currentGroup) i =>
      if JS.includes (litEdges p) i
      then (consecutiveGroups, currentGroup + 1)%Z
      else if (currentGroup >? 0)%Z
           then (consecutiveGroups + 1, 0)%Z
           else (consecutiveGroups, currentGroup))
      (JS.range 12) (0, 0)%Z in
  let consecutiveGroups :=
    if (currentGroup >? 0)%Z then (consecutiveGroups + 1)%Z else consecutiveGroups in
  let patternScore := if (consecutiveGroups <=? 2)%Z then 0 + (3 # 10) else 0 in
  let oppositePairs :=
    fold_left (fun oppositePairs edge =>
      let opposite := Z.rem (edge + 6) 12 in
      if JS.includes (litEdges p) opposite then (oppositePairs + 1)%Z else oppositePairs)
      (litEdges p) 0%Z in
  let patternScore := if (oppositePairs >=? 2)%Z then patternScore + (3 # 10) else patternScore in
  Qmin patternScore 1.

(** [calculateSpacingRegularity(puzzle)].  The index [(i + 1) % length] is
    always inside [sortedEdges]. *)
Definition calculateSpacingRegularity (p : Puzzle) : Q :=
  if (len (litEdges p) <? 2)%Z then 1
  else
    let sortedEdges := JS.sortAsc (litEdges p) in
    let n := length sortedEdges in
    let spacings :=
      map (fun i =>
        let cur := nth i sortedEdges 0%Z in
        let next := nth (S i mod n) sortedEdges 0%Z in
        if (next >? cur)%Z then (next - cur)%Z else ((12 - cur) + next)%Z)
        (seq 0 n) in
    let meanSpacing := inZ (fold_left Z.add spacings 0%Z) / inZ (len spacings) in
    let variance :=
      fold_left (fun sum s => sum + (inZ s - meanSpacing) * (inZ s - meanSpacing)) spacings 0
      / inZ (len spacings) in
    Qmax 0 (1 - variance / 10).

(** [calculatePatternDifficulty(puzzle)]. *)
Definition calculatePatternDifficulty (p : Puzzle) : Q :=
  let hasCommonPatterns := checkForCommonPatterns p in
  let spacingRegularity := calculateSpacingRegularity p in
  (1 - hasCommonPatterns) * (6 # 10) + (1 - spacingRegularity) * (4 # 10).

(** [calculateCognitiveLoad(puzzle).score]. *)
Definition calculateCognitiveLoad (p : Puzzle) : Q :=
  (calculateWorkingMemoryLoad p + calculateVisualComplexity p + calculatePatternDifficulty p) / 3.

(** [calculateVisualBalance(puzzle)]. *)
Definition calculateVisualBalance (p : Puzzle) : Q :=
  let emitterDistribution := rings_map (fun circle => len (lasers circle)) (circles p) in
  let blockerDistribution := rings_map (fun circle => len (blockers circle)) (circles p) in
  let spread (d : Rings Z) :=
    (JS.max3 (ring0 d) (ring1 d) (ring2 d) - JS.min3 (ring0 d) (ring1 d) (ring2 d))%Z in
  let emitterBalance := 1 - inZ (spread emitterDistribution) / 5 in
  let blockerBalance := 1 - inZ (spread blockerDistribution) / 3 in
  Qmax 0 ((emitterBalance + blockerBalance) / 2).

(** [calculateElegance(puzzle)].  With no element at all the quotient
    [numLitEdges / totalElements] is [Infinity] (the result is then 1) or,
    for [0 / 0], [NaN]: the latter is [None]. *)
Definition calculateElegance (p : Puzzle) : option Q :=
  let totalElements :=
    fold_left (fun sum circle => sum + len (lasers circle) + len (blockers circle))%Z
              (rings_list (circles p)) 0%Z in
  let numLitEdges := len (litEdges p) in
  if (totalElements =? 0)%Z then
    if (numLitEdges =? 0)%Z then None else Some 1
  else
    let efficiency := inZ numLitEdges / inZ totalElements in
    let complexityPenalty := Qmax 0 ((inZ totalElements - 15) / 10) in
    Some (Qmax 0 (Qmin 1 (efficiency - complexityPenalty))).

(** [calculateAestheticScore(puzzle).score]. *)
Definition calculateAestheticScore (p : Puzzle) : option Q :=
  let symmetryScore := calculateSymmetryFactor p in
  let balance := calculateVisualBalance p in
  match calculateElegance p with
  | Some elegance => Some ((symmetryScore + balance + elegance) / 3)
  | None => None
  end.

(** [analyzePuzzleDifficulty(puzzle).overallDifficulty]. *)
Definition overallDifficulty (p : Puzzle) : option Q :=
  match calculateAestheticScore p with
  | Some aestheticScore =>
      Some (calculateBasicMetrics p * (3 # 10) +
            calculateSolutionComplexity p * (4 # 10) +
            calculateCognitiveLoad p * (2 # 10) +
            (1 - aestheticScore) * (1 # 10))
  | None => None
  end.

(** [analysis.difficultyLevel]: both comparisons are false on [NaN], which
    leaves the last branch. *)
Definition difficultyLevel (p : Puzzle) : string :=
  match overallDifficulty p with
  | Some overall =>
      if JS.Qltb overall (3 # 10) then "easy"%string
      else if JS.Qltb overall (7 # 10) then "medium"%string
      else "hard"%string
  | None => "hard"%string
  end.

End Analyzer.

(** ** Chromosomes of the evolutionary generators

    [{ litEdges, circles: [{ emitters, blockers }, ...] }]: emitters and
    blockers are slot indices.  The [fitness] and breakdown fields are kept
    beside the chromosome where the generation loop needs them. *)

Module Genome.

Record Circle : Type := mkCircle {
  emitters : list Z;
  blockers : list Z
}.

Record Chromosome : Type := mkChromosome {
  litEdges : list Z;
  circles : Rings Circle
}.

(** [circles.map(circle => circle.emitters.length)]. *)
Definition emitterCounts (c : Chromosome) : Rings Z :=
  rings_map (fun circle => Z.of_nat (length (emitters circle))) (circles c).

(** [counts.reduce((sum, count) => sum + count, 0)]. *)
Definition total (counts : Rings Z) : Z :=
  fold_left Z.add (rings_list counts) 0.

(** [counts.filter(count => count === 0).length]. *)
Definition emptyCircles (counts : Rings Z) : Z :=
  Z.of_nat (length (filter (fun count => count =? 0) (rings_list counts))).

(** *** Loops that both generators contain verbatim *)

(** [lo + Math.floor(Math.random() * (hi - lo + 1))]. *)
Definition randomInRange (range : Z * Z) : JS.Rand Z :=
  r <- JS.random ;;
  JS.ret (fst range + JS.randomInt r (snd range - fst range + 1)).

(** [while (litEdges.length < n) { edge = ...; if (!litEdges.includes(edge)) litEdges.push(edge); }].
    The repair loop
    [while (litEdges.length < n) { do { newEdge = ...; } while (litEdges.includes(newEdge)); litEdges.push(newEdge); }]
    reads the tape and grows the array in exactly the same way. *)
Fixpoint pickEdges (n : Z) (litEdges : list Z) (tape : JS.Tape) : JS.Outcome (list Z) :=
  if Z.of_nat (length litEdges) <? n then
    match tape with
    | [] => JS.Starved
    | r :: rest =>
        if JS.legal r then
          let edge := JS.randomInt r 12 in
          if negb (JS.includes litEdges edge)
          then pickEdges n (litEdges ++ [edge]) rest
          else pickEdges n litEdges rest
        else JS.Starved
    end
  else JS.Done litEdges tape.

(** [distribution[circle]++] for [circle = 0, 1, 2]. *)
Definition increment (distribution : Rings Z) (circle : Z) : Rings Z :=
  if circle =? 0 then ring_set distribution 0 (ring0 distribution + 1)
  else if circle =? 1 then ring_set distribution 1 (ring1 distribution + 1)
  else if circle =? 2 then ring_set distribution 2 (ring2 distribution + 1)
  else distribution.

(** [while (remaining > 0) { circle = ...; distribution[circle]++; remaining--; }] *)
Fixpoint distributeLoop (remaining : nat) (distribution : Rings Z) : JS.Rand (Rings Z) :=
  match remaining with
  | O => JS.ret distribution
  | S remaining' =>
      r <- JS.random ;;
      distributeLoop remaining' (increment distribution (JS.randomInt r 3))
  end.

(** [while (slots.length < target) { pos = ...; if (!circle.emitters.includes(pos)
    && !circle.blockers.includes(pos)) slots.push(pos); }]: [slots] is the
    array being filled, [others] the circle's other array. *)
Fixpoint fillSlots (target : Z) (slots others : list Z) (tape : JS.Tape)
  : JS.Outcome (list Z) :=
  if Z.of_nat (length slots) <? target then
    match tape with
    | [] => JS.Starved
    | r :: rest =>
        if JS.legal r then
          let pos := JS.randomInt r 12 in
          if negb (JS.includes slots pos) && negb (JS.includes others pos)
          then fillSlots target (slots ++ [pos]) others rest
          else fillSlots target slots others rest
        else JS.Starved
    end
  else JS.Done slots tape.

(** A free slot of the circle:
    [do { newPos = ...; } while (circle.emitters.includes(newPos) || circle.blockers.includes(newPos));] *)
Definition freeSlot (circle : Circle) : JS.Rand Z :=
  JS.drawUntil 12 (fun newPos =>
    JS.includes (emitters circle) newPos || JS.includes (blockers circle) newPos).

(** [Math.floor(Math.random() * arr.length)]. *)
Definition randomIndex {A} (l : list A) : JS.Rand nat :=
  r <- JS.random ;;
  JS.ret (Z.to_nat (JS.randomInt r (Z.of_nat (length l)))).

End Genome.

(** ** simplified-evolutionary-generator.js: solvability and fitness *)

Module Simplified.

Import Genome.

Definition SIDES : Z := 12.
Definition CENTER : Q := 150.
Definition SHAPE_ROTATION : Z := -15.

(** A JavaScript number that may be [NaN] ([None]). *)
Definition Num : Type := option Q.

(** [chromosomeToPuzzle(chromosome)]: radii 50, 90, 130 and the angle
    [15 + 30 * pos] of every slot. *)
Definition chromosomeToPuzzle (c : Chromosome) : Puzzle.Puzzle :=
  let convert (radius : Q) (circle : Circle) :=
    Puzzle.mkCircle radius
      (map (fun pos => 15 + 30 * pos) (emitters circle))
      (map (fun pos => 15 + 30 * pos) (blockers circle)) in
  Puzzle.mkPuzzle (litEdges c)
    (mkRings (convert 50%Q (ring0 (circles c)))
             (convert 90%Q (ring1 (circles c)))
             (convert 130%Q (ring2 (circles c)))).

Section Physics.

Variables cos sin sqrt : Q -> Q.

(** The module-level constant [points]. *)
Definition points : list (Q * Q) :=
  map (fun i =>
    let angle := (i * 360) / SIDES + SHAPE_ROTATION in
    let rad := Puzzle.degToRad (inject_Z angle) in
    ((CENTER + 180 * cos rad)%Q, (CENTER + 180 * sin rad)%Q))
    (JS.range (Z.to_nat SIDES)).

(** The emitters and blockers of one rotation vector; this copy of the
    oracle keeps no [originalAngle] (the field repeats the slot angle
    here and is never read). *)
Definition emittersOf (puzzle : Puzzle.Puzzle) (rotations : Rings Z) : list Puzzle.Emitter :=
  flat_map (fun '(idx, circle) =>
    map (fun '(i, angle) =>
      let rotated := angle + ring_at rotations idx + SHAPE_ROTATION in
      let rad := Puzzle.degToRad (inject_Z rotated) in
      Puzzle.mkEmitter idx (rotated + 180)
                (CENTER + Puzzle.radius circle * cos rad)%Q
                (CENTER + Puzzle.radius circle * sin rad)%Q
                (Puzzle.radius circle) i angle)
      (Puzzle.indexed (Puzzle.lasers circle)))
    (Puzzle.indexed (rings_list (Puzzle.circles puzzle))).

Definition blockersOf (puzzle : Puzzle.Puzzle) (rotations : Rings Z) : list Puzzle.Blocker :=
  flat_map (fun '(idx, circle) =>
    map (fun angle =>
      let rotated := angle + ring_at rotations idx + SHAPE_ROTATION in
      let rad := Puzzle.degToRad (inject_Z rotated) in
      Puzzle.mkBlocker idx rotated
                (CENTER + Puzzle.radius circle * cos rad)%Q
                (CENTER + Puzzle.radius circle * sin rad)%Q
                (Puzzle.radius circle) angle)
      (Puzzle.blockers circle))
    (Puzzle.indexed (rings_list (Puzzle.circles puzzle))).

(** [points.map((pt, i) => ...)] on the twelve module-level points:
    [points[(i + 1) % SIDES]] always exists. *)
Definition edgeLines : list Puzzle.EdgeLine :=
  map (fun '(i, pt) =>
    let next := nth (S i mod Z.to_nat SIDES) points (0%Q, 0%Q) in
    Puzzle.mkEdgeLine i (fst pt) (snd pt) (fst next) (snd next))
    (Puzzle.indexed points).

(** [if (t < minT)] with [minT = Infinity] as [None]. *)
Definition below (t : Q) (minT : option Q) : bool :=
  match minT with
  | None => true
  | Some m => JS.Qltb t m
  end.

(** One iteration of the blocker loop: only [minT] matters afterwards. *)
Definition blockerStep (emitter : Puzzle.Emitter) (minT : option Q)
    (blocker : Puzzle.Blocker) : option Q :=
  let sameCircle := (Puzzle.b_idx blocker =? Puzzle.e_idx emitter)%nat in
  let sameOrOppositePos :=
    Z.abs (Z.rem (Puzzle.b_angle blocker - Puzzle.e_angle emitter + 180) 360 - 180) <? 1 in
  if negb sameCircle || sameOrOppositePos then
    match Puzzle.rayCircle sqrt (Puzzle.e_x emitter) (Puzzle.e_y emitter)
            (Puzzle.beam_dx cos emitter) (Puzzle.beam_dy sin emitter)
            (Puzzle.b_x blocker) (Puzzle.b_y blocker) (12 * 12) with
    | Some t => if below t minT then Some t else minT
    | None => minT
    end
  else minT.

Definition emitterStep (emitter : Puzzle.Emitter) (minT : option Q)
    (other : Puzzle.Emitter) : option Q :=
  if Puzzle.sameEmitter other emitter then minT
  else
    match Puzzle.rayCircle sqrt (Puzzle.e_x emitter) (Puzzle.e_y emitter)
            (Puzzle.beam_dx cos emitter) (Puzzle.beam_dy sin emitter)
            (Puzzle.e_x other) (Puzzle.e_y other) (13 * 13) with
    | Some t => if below t minT then Some t else minT
    | None => minT
    end.

(** The edge loop: [hit = true; break] as soon as the lit edge lowers the
    running minimum. *)
Fixpoint edgeLoop (emitter : Puzzle.Emitter) (litIdx : Z) (minT : option Q)
    (edges : list Puzzle.EdgeLine) : bool :=
  match edges with
  | [] => false
  | edge :: rest =>
      match Puzzle.rayEdge (Puzzle.e_x emitter) (Puzzle.e_y emitter)
              (Puzzle.beam_dx cos emitter) (Puzzle.beam_dy sin emitter) edge with
      | Some t2 =>
          if below t2 minT then
            if Z.of_nat (Puzzle.ed_i edge) =? litIdx then true
            else edgeLoop emitter litIdx (Some t2) rest
          else edgeLoop emitter litIdx minT rest
      | None => edgeLoop emitter litIdx minT rest
      end
  end.

Definition emitterHits (emitter : Puzzle.Emitter) (blockers : list Puzzle.Blocker)
    (emitters : list Puzzle.Emitter) (litIdx : Z) : bool :=
  let minT := fold_left (blockerStep emitter) blockers None in
  let minT := fold_left (emitterStep emitter) emitters minT in
  edgeLoop emitter litIdx minT edgeLines.

(** [isChromosomeSolvable(chromosome)].  The cache is keyed by the
    serialised chromosome and stores this very result, so it is
    transparent. *)
Definition isChromosomeSolvable (c : Chromosome) : bool :=
  let puzzle := chromosomeToPuzzle c in
  existsb (fun r0 =>
    existsb (fun r1 =>
      existsb (fun r2 =>
        let rotations := mkRings (r0 * 30) (r1 * 30) (r2 * 30) in
        let emitters := emittersOf puzzle rotations in
        let blockers := blockersOf puzzle rotations in
        forallb (fun litIdx =>
          existsb (fun emitter => emitterHits emitter blockers emitters litIdx) emitters)
          (Puzzle.litEdges puzzle))
        (JS.range (Z.to_nat SIDES)))
      (JS.range (Z.to_nat SIDES)))
    (JS.range (Z.to_nat SIDES)).

End Physics.

Local Open Scope Q_scope.

(** [calculateDistributionScore(chromosome)]. *)
Definition calculateDistributionScore (c : Chromosome) : Q :=
  let counts := emitterCounts c in
  let totalEmitters := total counts in
  if (totalEmitters =? 0)%Z then 0
  else if (emptyCircles counts >? 0)%Z then 1 # 10
  else
    let maxCount := JS.max3 (ring0 counts) (ring1 counts) (ring2 counts) in
    let minCount := JS.min3 (ring0 counts) (ring1 counts) (ring2 counts) in
    1 - inject_Z (maxCount - minCount) / inject_Z totalEmitters.

(** [calculateVarietyScore(chromosome)]; with no emitter at all
    [diversityBonus] is [0 / 0 = NaN] and so is the result. *)
Definition calculateVarietyScore (c : Chromosome) : Num :=
  let varietyScore :=
    fold_left (fun varietyScore circle =>
      if (Z.of_nat (length (emitters circle)) >? 4)%Z
      then varietyScore - (2 # 10) else varietyScore)
      (rings_list (circles c)) 1 in
  let allPositions := flat_map emitters (rings_list (circles c)) in
  let uniquePositions := JS.dedup allPositions [] in
  match allPositions with
  | [] => None
  | _ :: _ =>
      let diversityBonus :=
        inject_Z (Z.of_nat (length uniquePositions)) / inject_Z (Z.of_nat (length allPositions)) in
      Some (Qmax 0 (varietyScore * diversityBonus))
  end.

(** [calculateAestheticScore(chromosome)]. *)
Definition calculateAestheticScore (c : Chromosome) : Q :=
  let score := 5 # 10 in
  let litEdges := litEdges c in
  let score :=
    if (Z.of_nat (length litEdges) >=? 2)%Z then
      let oppositePairs :=
        fold_left (fun oppositePairs edge =>
          let opposite := Z.rem (edge + 6) 12 in
          if JS.includes litEdges opposite then (oppositePairs + 1)%Z else oppositePairs)
          litEdges 0%Z in
      let score := score + inject_Z oppositePairs * (1 # 10) in
      let consecutiveGroups :=
        fold_left (fun consecutiveGroups i =>
          if (nth (S i) litEdges 0 =? nth i litEdges 0 + 1)%Z
          then (consecutiveGroups + 1)%Z else consecutiveGroups)
          (seq 0 (length litEdges - 1)) 0%Z in
      score + inject_Z consecutiveGroups * (5 # 100)
    else score in
  Qmin score 1.

(** The weighted sum of [calculateFitness] for a given verdict of the
    oracle. *)
Definition fitnessOf (solvable : bool) (c : Chromosome) : Num :=
  let distributionScore := calculateDistributionScore c in
  let aestheticScore := calculateAestheticScore c in
  match calculateVarietyScore c with
  | None => None
  | Some varietyScore =>
      if solvable
      then Some ((6 # 10) + (2 # 10) * distributionScore + (1 # 10) * varietyScore
                 + (1 # 10) * aestheticScore)
      else Some ((3 # 10) * distributionScore + (1 # 10) * varietyScore
                 + (1 # 10) * aestheticScore)
  end.

(** A member of the population: the chromosome with its [fitness] and
    [solvable] fields. *)
Record Individual : Type := mkIndividual {
  chromosome : Chromosome;
  fitness : Num;
  solvable : bool
}.

(** The generation loop is stated for an arbitrary verdict [judge] in the
    place of [this.isChromosomeSolvable]; the generator itself instantiates
    it with the physics of [isChromosomeSolvable] (see [calculateFitness]
    and [generatePuzzle] below). *)
Section Judged.

Variable judge : Chromosome -> bool.

(** [calculateFitness(chromosome)] sets [solvable] and [fitness]. *)
Definition calculateFitnessBy (i : Individual) : Individual :=
  let solvable := judge (chromosome i) in
  mkIndividual (chromosome i) (fitnessOf solvable (chromosome i)) solvable.

(** [evaluatePopulation(population)]. *)
Definition evaluatePopulationBy (population : list Individual) : list Individual :=
  map calculateFitnessBy population.

End Judged.

Definition calculateFitness (cos sin sqrt : Q -> Q) : Individual -> Individual :=
  calculateFitnessBy (isChromosomeSolvable cos sin sqrt).

Definition evaluatePopulation (cos sin sqrt : Q -> Q) : list Individual -> list Individual :=
  evaluatePopulationBy (isChromosomeSolvable cos sin sqrt).

(** [b.fitness - a.fitness > 0]: the comparator of
    [population.sort((a, b) => b.fitness - a.fitness)] asks for [b] before
    [a].  A [NaN] difference counts as zero. *)
Definition fitter (b a : Individual) : bool :=
  match fitness b, fitness a with
  | Some fb, Some fa => JS.Qltb fa fb
  | _, _ => false
  end.

(** The stable sort, best first. *)
Fixpoint insertByFitness (x : Individual) (l : list Individual) : list Individual :=
  match l with
  | [] => [x]
  | y :: l' => if fitter x y then x :: l else y :: insertByFitness x l'
  end.

Definition sortByFitness (population : list Individual) : list Individual :=
  fold_left (fun sorted x => insertByFitness x sorted) population [].

(** *** The generation loop *)

Local Close Scope Q_scope.

Record Config : Type := mkConfig {
  c_litEdges : Z * Z;
  c_totalEmitters : Z * Z;
  c_totalBlockers : Z * Z
}.

Definition easy : Config := mkConfig (3, 4) (4, 6) (1, 2).
Definition medium : Config := mkConfig (3, 5) (5, 7) (2, 3).
Definition hard : Config := mkConfig (4, 6) (6, 8) (3, 4).

(** The property names every object literal inherits from
    [Object.prototype]: [configs[name]] is then a function (or, for
    [__proto__], the prototype object), which is truthy. *)
Definition object_prototype_names : list string :=
  ["constructor"; "__proto__"; "hasOwnProperty"; "isPrototypeOf";
   "propertyIsEnumerable"; "toLocaleString"; "toString"; "valueOf";
   "__defineGetter__"; "__defineSetter__"; "__lookupGetter__";
   "__lookupSetter__"]%string.

(** What [configs[difficulty] || configs.medium] evaluates to. *)
Inductive Lookup : Type :=
| Preset (config : Config)
| Inherited.

(** [getDifficultyConfig(difficulty)]. *)
Definition getDifficultyConfig (difficulty : string) : Lookup :=
  if String.eqb difficulty "easy" then Preset easy
  else if String.eqb difficulty "medium" then Preset medium
  else if String.eqb difficulty "hard" then Preset hard
  else if existsb (String.eqb difficulty) object_prototype_names then Inherited
  else Preset medium.

Definition populationSize : nat := 20.
Definition maxGenerations : nat := 15.
(** [Math.floor(this.populationSize * this.eliteRatio)] with [eliteRatio = 0.3]. *)
Definition eliteCount : nat := 6.

Definition createCircle (numEmitters numBlockers : Z) : JS.Rand Circle :=
  emitters <- fillSlots numEmitters [] [] ;;
  blockers <- fillSlots numBlockers [] emitters ;;
  JS.ret (mkCircle emitters blockers).

(** [createRandomChromosome(config)]. *)
Definition createRandomChromosome (config : Config) : JS.Rand Individual :=
  numLitEdges <- randomInRange (c_litEdges config) ;;
  litEdges <- pickEdges numLitEdges [] ;;
  let litEdges := JS.sortAsc litEdges in
  totalEmitters <- randomInRange (c_totalEmitters config) ;;
  totalBlockers <- randomInRange (c_totalBlockers config) ;;
  emitterDistribution <- distributeLoop (Z.to_nat (totalEmitters - 3)) (mkRings 1 1 1) ;;
  blockerDistribution <- distributeLoop (Z.to_nat totalBlockers) (mkRings 0 0 0) ;;
  c0 <- createCircle (ring0 emitterDistribution) (ring0 blockerDistribution) ;;
  c1 <- createCircle (ring1 emitterDistribution) (ring1 blockerDistribution) ;;
  c2 <- createCircle (ring2 emitterDistribution) (ring2 blockerDistribution) ;;
  JS.ret (mkIndividual (mkChromosome litEdges (mkRings c0 c1 c2)) (Some 0%Q) false).

(** [createInitialPopulation(config)]. *)
Fixpoint createPopulation (n : nat) (config : Config) : JS.Rand (list Individual) :=
  match n with
  | O => JS.ret []
  | S n' =>
      chromosome <- createRandomChromosome config ;;
      population <- createPopulation n' config ;;
      JS.ret (chromosome :: population)
  end.

Definition createInitialPopulation (config : Config) : JS.Rand (list Individual) :=
  createPopulation populationSize config.

(** [candidate.fitness > best.fitness]. *)
Definition betterThan (candidate best : Individual) : bool := fitter candidate best.

(** [selectParent(population)]: a tournament of three; reading
    [candidate.fitness] of a missing candidate raises. *)
Fixpoint tournament (rounds : nat) (population : list Individual) (best : option Individual)
  : JS.Rand Individual :=
  match rounds with
  | O => match best with
         | Some b => JS.ret b
         | None => JS.throw
         end
  | S rounds' =>
      r <- JS.random ;;
      match nth_error population
              (Z.to_nat (JS.randomInt r (Z.of_nat (length population)))) with
      | None => JS.throw
      | Some candidate =>
          match best with
          | None => tournament rounds' population (Some candidate)
          | Some b =>
              if betterThan candidate b
              then tournament rounds' population (Some candidate)
              else tournament rounds' population best
          end
      end
  end.

Definition selectParent (population : list Individual) : JS.Rand Individual :=
  tournament 3 population None.

(** [crossover(parent1, parent2)]. *)
Definition crossover (parent1 parent2 : Individual) : JS.Rand Individual :=
  let p1 := chromosome parent1 in
  let p2 := chromosome parent2 in
  let allEdges := JS.dedup (litEdges p1 ++ litEdges p2) [] in
  let targetSize :=
    Z.min (Z.of_nat (length allEdges)) (Z.max 3 (Z.of_nat (length (litEdges p1)))) in
  let edges := JS.sortAsc (firstn (Z.to_nat targetSize) allEdges) in
  let inherit (i : nat) : JS.Rand Circle :=
    r <- JS.random ;;
    let sourceParent := if JS.Qltb r (5 # 10) then p1 else p2 in
    JS.ret (mkCircle (emitters (ring_at (circles sourceParent) i))
                     (blockers (ring_at (circles sourceParent) i))) in
  c0 <- inherit 0%nat ;;
  c1 <- inherit 1%nat ;;
  c2 <- inherit 2%nat ;;
  JS.ret (mkIndividual (mkChromosome edges (mkRings c0 c1 c2)) (Some 0%Q) false).

(** The lit-edge mutation. *)
Definition mutateLitEdges (litEdges : list Z) : JS.Rand (list Z) :=
  r <- JS.random ;;
  if JS.Qltb r ((3 # 10) * (5 # 10)) then
    r' <- JS.random ;;
    if JS.Qltb r' (5 # 10) && (Z.of_nat (length litEdges) >? 3) then
      index <- randomIndex litEdges ;;
      JS.ret (JS.removeAt index litEdges)
    else if Z.of_nat (length litEdges) <? 6 then
      newEdge <- JS.drawUntil 12 (JS.includes litEdges) ;;
      JS.ret (JS.sortAsc (litEdges ++ [newEdge]))
    else JS.ret litEdges
  else JS.ret litEdges.

(** The emitter mutation of one circle. *)
Definition mutateEmitters (circle : Circle) : JS.Rand Circle :=
  r <- JS.random ;;
  if JS.Qltb r (3 # 10) then
    r' <- JS.random ;;
    if JS.Qltb r' (7 # 10) && (Z.of_nat (length (emitters circle)) >? 0) then
      index <- randomIndex (emitters circle) ;;
      newPos <- freeSlot circle ;;
      JS.ret (mkCircle (JS.setAt index newPos (emitters circle)) (blockers circle))
    else
      r'' <- JS.random ;;
      if JS.Qltb r'' (3 # 10) && (Z.of_nat (length (emitters circle)) >? 1) then
        index <- randomIndex (emitters circle) ;;
        JS.ret (mkCircle (JS.removeAt index (emitters circle)) (blockers circle))
      else if Z.of_nat (length (emitters circle)) <? 4 then
        newPos <- freeSlot circle ;;
        JS.ret (mkCircle (emitters circle ++ [newPos]) (blockers circle))
      else JS.ret circle
  else JS.ret circle.

(** The blocker mutation of one circle. *)
Definition mutateBlockers (circle : Circle) : JS.Rand Circle :=
  r <- JS.random ;;
  if JS.Qltb r ((3 # 10) * (5 # 10)) then
    r' <- JS.random ;;
    if JS.Qltb r' (5 # 10) && (Z.of_nat (length (blockers circle)) >? 0) then
      index <- randomIndex (blockers circle) ;;
      newPos <- freeSlot circle ;;
      JS.ret (mkCircle (emitters circle) (JS.setAt index newPos (blockers circle)))
    else
      r'' <- JS.random ;;
      if JS.Qltb r'' (5 # 10) && (Z.of_nat (length (blockers circle)) >? 0) then
        index <- randomIndex (blockers circle) ;;
        JS.ret (mkCircle (emitters circle) (JS.removeAt index (blockers circle)))
      else if Z.of_nat (length (blockers circle)) <? 3 then
        newPos <- freeSlot circle ;;
        JS.ret (mkCircle (emitters circle) (blockers circle ++ [newPos]))
      else JS.ret circle
  else JS.ret circle.

Definition mutateCircle (circle : Circle) : JS.Rand Circle :=
  circle <- mutateEmitters circle ;;
  mutateBlockers circle.

(** "Ensure each circle has at least one emitter". *)
Definition ensureEmitter (circle : Circle) : JS.Rand Circle :=
  match emitters circle with
  | [] =>
      newPos <- JS.drawUntil 12 (JS.includes (blockers circle)) ;;
      JS.ret (mkCircle (emitters circle ++ [newPos]) (blockers circle))
  | _ :: _ => JS.ret circle
  end.

(** [mutate(chromosome, config)]. *)
Definition mutate (offspring : Individual) (config : Config) : JS.Rand Individual :=
  let c := chromosome offspring in
  litEdges <- mutateLitEdges (litEdges c) ;;
  c0 <- mutateCircle (ring0 (circles c)) ;;
  c1 <- mutateCircle (ring1 (circles c)) ;;
  c2 <- mutateCircle (ring2 (circles c)) ;;
  c0 <- ensureEmitter c0 ;;
  c1 <- ensureEmitter c1 ;;
  c2 <- ensureEmitter c2 ;;
  JS.ret (mkIndividual (mkChromosome litEdges (mkRings c0 c1 c2))
                       (fitness offspring) (solvable offspring)).

(** The elite copies [{ ...population[i], circles: ... }] for [i < eliteCount]. *)
Fixpoint elites (count : nat) (population : list Individual) : JS.Rand (list Individual) :=
  match count with
  | O => JS.ret []
  | S count' =>
      match population with
      | [] => JS.throw
      | individual :: population' =>
          rest <- elites count' population' ;;
          JS.ret (individual :: rest)
      end
  end.

(** [while (newPopulation.length < this.populationSize) { ... }] *)
Fixpoint offspringLoop (missing : nat) (population : list Individual) (config : Config)
  : JS.Rand (list Individual) :=
  match missing with
  | O => JS.ret []
  | S missing' =>
      parent1 <- selectParent population ;;
      parent2 <- selectParent population ;;
      offspring <- crossover parent1 parent2 ;;
      offspring <- mutate offspring config ;;
      rest <- offspringLoop missing' population config ;;
      JS.ret (offspring :: rest)
  end.

(** [evolvePopulation(population, config)]. *)
Definition evolvePopulation (population : list Individual) (config : Config)
  : JS.Rand (list Individual) :=
  kept <- elites eliteCount population ;;
  offspring <- offspringLoop (populationSize - length kept) population config ;;
  JS.ret (kept ++ offspring).

(** What [generatePuzzle] returns, together with the chromosomes that were
    handed to [calculateFitness] on the way (a ghost field). *)
Record Result : Type := mkResult {
  puzzle : Puzzle.Puzzle;
  best : Individual;
  generations : nat;
  evaluated : list Chromosome
}.

Section Generation.

Variable judge : Chromosome -> bool.

(** [while (generation < this.maxGenerations) { ... }]; [remaining] counts
    the generations left. *)
Fixpoint generationLoop (remaining : nat) (generation : nat) (config : Config)
    (population : list Individual) (seen : list Chromosome)
  : JS.Rand (list Individual * nat * list Chromosome) :=
  match remaining with
  | O => JS.ret (population, generation, seen)
  | S remaining' =>
      let seen := seen ++ map chromosome population in
      let population := sortByFitness (evaluatePopulationBy judge population) in
      match population with
      | [] => JS.throw
      | currentBest :: _ =>
          if solvable currentBest &&
             match fitness currentBest with
             | Some f => JS.Qltb (7 # 10) f
             | None => false
             end
          then JS.ret (population, generation, seen)
          else
            population <- evolvePopulation population config ;;
            generationLoop remaining' (S generation) config population seen
      end
  end.

(** [generatePuzzle(difficulty)]. *)
Definition generatePuzzleBy (difficulty : string) : JS.Rand Result :=
  match getDifficultyConfig difficulty with
  | Inherited => JS.throw
  | Preset config =>
      population <- createInitialPopulation config ;;
      final <- generationLoop maxGenerations 0 config population [] ;;
      let '(population, generation, seen) := final in
      match sortByFitness population with
      | [] => JS.throw
      | bestPuzzle :: _ =>
          JS.ret (mkResult (chromosomeToPuzzle (chromosome bestPuzzle))
                           bestPuzzle generation seen)
      end
  end.

End Generation.

Definition generatePuzzle (cos sin sqrt : Q -> Q) : string -> JS.Rand Result :=
  generatePuzzleBy (isChromosomeSolvable cos sin sqrt).

End Simplified.

(** ** evolutionary-generator.js: the solvability score *)

Module Evolutionary.

Import Genome.

(** [angleIntersectsEdge(beamAngle, edgeStart, edgeEnd)]. *)
Definition angleIntersectsEdge (beamAngle edgeStart edgeEnd : Z) : bool :=
  let beamAngle := Z.rem (Z.rem beamAngle 360 + 360) 360 in
  let edgeStart := Z.rem (Z.rem edgeStart 360 + 360) 360 in
  let edgeEnd := Z.rem (Z.rem edgeEnd 360 + 360) 360 in
  if edgeEnd <? edgeStart
  then (beamAngle >=? edgeStart) || (beamAngle <=? edgeEnd)
  else (beamAngle >=? edgeStart) && (beamAngle <=? edgeEnd).

(** [canEmitterHitEdge(emitterPos, edge, circleIdx)]: some rotation of the
    ring aligns the beam with the edge's angular window. *)
Definition canEmitterHitEdge (emitterPos edge : Z) (circleIdx : nat) : bool :=
  let edgeStartAngle := edge * 30 in
  let edgeEndAngle := (edge + 1) * 30 in
  existsb (fun rotation =>
    let rotatedEmitterPos := Z.rem (emitterPos + rotation) 12 in
    let emitterAngle := rotatedEmitterPos * 30 in
    let beamAngle := Z.rem (emitterAngle + 180) 360 in
    angleIntersectsEdge beamAngle edgeStartAngle edgeEndAngle) (JS.range 12).

(** [heuristicSolvabilityCheckChromosome(chromosome)]. *)
Definition heuristicSolvabilityCheckChromosome (c : Chromosome) : bool :=
  forallb (fun edge =>
    existsb (fun circleIdx =>
      existsb (fun emitterPos => canEmitterHitEdge emitterPos edge circleIdx)
              (emitters (ring_at (circles c) circleIdx)))
      [0; 1; 2]%nat)
    (litEdges c).

(** [isBeamBlockedChromosome(emitterCircle, emitterPos, rotations, chromosome)]:
    only blockers on rings outside the emitter's ring are looked at. *)
Definition isBeamBlockedChromosome
    (emitterCircle : nat) (emitterPos : Z) (rotations : Rings Z) (c : Chromosome) : bool :=
  let beamAngle := Z.rem (emitterPos * 30 + 180) 360 in
  existsb (fun circleIdx =>
    let circle := ring_at (circles c) circleIdx in
    let rotation := ring_at rotations circleIdx in
    existsb (fun blockerPos =>
      let rotatedBlockerPos := Z.rem (blockerPos + rotation) 12 in
      let blockerAngle := rotatedBlockerPos * 30 in
      let angleDiff := Z.abs (Z.rem (beamAngle - blockerAngle + 180) 360 - 180) in
      angleDiff <? 15) (blockers circle))
    (seq (S emitterCircle) (2 - emitterCircle)).

(** [hitEdges.add(edge)] on a [Set] kept as a duplicate-free list. *)
Definition set_add (s : list Z) (x : Z) : list Z :=
  if JS.includes s x then s else s ++ [x].

(** The body of the loop over one ring's emitters in
    [isPuzzleSolvedWithRotationsChromosome]: the beam lands on the first
    edge whose window contains it ([break] after the first match). *)
Definition beamStep (c : Chromosome) (rotations : Rings Z) (circleIdx : nat)
    (hitEdges : list Z) (emitterPos : Z) : list Z :=
  let rotation := ring_at rotations circleIdx in
  let rotatedPos := Z.rem (emitterPos + rotation) 12 in
  let emitterAngle := rotatedPos * 30 in
  let beamAngle := Z.rem (emitterAngle + 180) 360 in
  match find (fun edge => angleIntersectsEdge beamAngle (edge * 30) ((edge + 1) * 30))
             (JS.range 12) with
  | Some edge =>
      if isBeamBlockedChromosome circleIdx rotatedPos rotations c
      then hitEdges
      else set_add hitEdges edge
  | None => hitEdges
  end.

Definition hitEdgesOf (c : Chromosome) (rotations : Rings Z) : list Z :=
  fold_left (fun hitEdges circleIdx =>
    fold_left (beamStep c rotations circleIdx)
              (emitters (ring_at (circles c) circleIdx)) hitEdges)
    [0; 1; 2]%nat [].

(** [isPuzzleSolvedWithRotationsChromosome(chromosome, rotations)]. *)
Definition isPuzzleSolvedWithRotationsChromosome (c : Chromosome) (rotations : Rings Z) : bool :=
  let hitEdges := hitEdgesOf c rotations in
  forallb (fun edge => JS.includes hitEdges edge) (litEdges c).

(** [bruteForceSolvabilityCheckChromosome(chromosome)]: all [12^3] rotations. *)
Definition bruteForceSolvabilityCheckChromosome (c : Chromosome) : bool :=
  existsb (fun r1 =>
    existsb (fun r2 =>
      existsb (fun r3 =>
        isPuzzleSolvedWithRotationsChromosome c (mkRings r1 r2 r3))
        (JS.range 12)) (JS.range 12)) (JS.range 12).

(** [calculateSolvabilityFromChromosome(chromosome)]. *)
Definition calculateSolvabilityFromChromosome (c : Chromosome) : Q :=
  if negb (heuristicSolvabilityCheckChromosome c) then 0%Q
  else if bruteForceSolvabilityCheckChromosome c then 1%Q else 0%Q.

(** *** The other fitness components *)

Record Weights : Type := mkWeights {
  w_solvability : Q;
  w_difficulty : Q;
  w_distribution : Q;
  w_aesthetics : Q
}.

Record Config : Type := mkConfig {
  litEdgeRange : Z * Z;
  targetRotations : Z * Z;
  emitterRange : Z * Z;
  blockerRange : Z * Z;
  weights : Weights
}.

Definition easy : Config :=
  mkConfig (3, 4) (2, 4) (4, 6) (1, 3) (mkWeights (5 # 10) (2 # 10) (2 # 10) (1 # 10)).
Definition medium : Config :=
  mkConfig (3, 5) (4, 7) (5, 8) (2, 4) (mkWeights (4 # 10) (3 # 10) (2 # 10) (1 # 10)).
Definition hard : Config :=
  mkConfig (4, 6) (6, 10) (6, 9) (3, 6) (mkWeights (4 # 10) (3 # 10) (2 # 10) (1 # 10)).

(** [Math.min(minRotations, x)] where both may be [Infinity] ([None]). *)
Definition minInf (a b : option Z) : option Z :=
  match a, b with
  | None, _ => b
  | _, None => a
  | Some x, Some y => Some (Z.min x y)
  end.

(** [calculateRotationsToHitEdge(emitterPos, edge)]. *)
Definition calculateRotationsToHitEdge (emitterPos edge : Z) : option Z :=
  let edgeAngle := edge * 30 + 15 in
  let currentBeamAngle := Z.rem (emitterPos * 30 + 180) 360 in
  fold_left (fun minRotations rotation =>
    let newBeamAngle := Z.rem (currentBeamAngle + rotation * 30) 360 in
    let angleDiff := Z.abs (Z.rem (newBeamAngle - edgeAngle + 180) 360 - 180) in
    if angleDiff <? 15 then minInf minRotations (Some rotation) else minRotations)
    (JS.range 12) None.

(** [estimateRequiredRotationsChromosome(chromosome)]. *)
Definition estimateRequiredRotationsChromosome (c : Chromosome) : Z :=
  fold_left (fun totalRotations edge =>
    let minRotations :=
      fold_left (fun minRotations circle =>
        fold_left (fun minRotations emitterPos =>
          minInf minRotations (calculateRotationsToHitEdge emitterPos edge))
          (emitters circle) minRotations)
        (rings_list (circles c)) None in
    totalRotations + match minRotations with None => 3 | Some m => m end)
    (litEdges c) 0.

Section Fitness.

Variable exp : Q -> Q.

Local Open Scope Q_scope.

(** [calculateDifficultyFromChromosome(chromosome, config)]. *)
Definition calculateDifficultyFromChromosome (c : Chromosome) (config : Config) : Q :=
  let estimatedRotations := estimateRequiredRotationsChromosome c in
  let targetRange := targetRotations config in
  if ((estimatedRotations >=? fst targetRange) && (estimatedRotations <=? snd targetRange))%Z
  then 1
  else
    let center := inject_Z (fst targetRange + snd targetRange) / 2 in
    let distance := Qabs (inject_Z estimatedRotations - center) in
    exp (- distance * distance / (2 * 2 * 2)).

(** The [evenness] of [calculateDistributionFitness]. *)
Definition evenness (counts : Rings Z) : Q :=
  let totalEmitters := total counts in
  let idealDistribution := inject_Z totalEmitters / 3 in
  let variance :=
    fold_left (fun sum count =>
      sum + (inject_Z count - idealDistribution) * (inject_Z count - idealDistribution))
      (rings_list counts) 0 / 3 in
  exp (- variance / (inject_Z totalEmitters * (5 # 10))).

(** [calculateDistributionFitness(chromosome)]. *)
Definition calculateDistributionFitness (c : Chromosome) : Q :=
  let counts := emitterCounts c in
  let totalEmitters := total counts in
  if (totalEmitters =? 0)%Z then 0
  else
    let emptyPenalty := inject_Z (emptyCircles counts) * (3 # 10) in
    Qmax 0 (evenness counts - emptyPenalty).

(** [calculateSymmetryScore(chromosome)]: [NaN] ([None]) when there is no
    lit edge ([0 / 0]). *)
Definition calculateSymmetryScore (c : Chromosome) : option Q :=
  match litEdges c with
  | [] => None
  | _ :: _ =>
      Some (fold_left (fun bestSymmetryScore fold =>
        let angleStep := (12 / fold)%Z in
        let symmetryScore :=
          fold_left (fun symmetryScore edge =>
            let hasSymmetricPartner :=
              existsb (fun i =>
                let symmetricEdge := Z.rem (edge + i * angleStep) 12 in
                JS.includes (litEdges c) symmetricEdge)
                (map (fun k => Z.of_nat (S k)) (seq 0 (Z.to_nat fold - 1))) in
            if hasSymmetricPartner then (symmetryScore + 1)%Z else symmetryScore)
            (litEdges c) 0%Z in
        let symmetryScore := inject_Z symmetryScore / inject_Z (Z.of_nat (length (litEdges c))) in
        Qmax bestSymmetryScore symmetryScore) [2; 3; 4; 6]%Z 0)
  end.

(** [calculateBalanceScore(chromosome)]. *)
Definition calculateBalanceScore (c : Chromosome) : Q :=
  let circleCounts :=
    rings_map (fun circle =>
      (Z.of_nat (length (emitters circle)) + Z.of_nat (length (blockers circle)))%Z)
      (circles c) in
  let totalElements := total circleCounts in
  if (totalElements =? 0)%Z then 0
  else
    let maxCount := JS.max3 (ring0 circleCounts) (ring1 circleCounts) (ring2 circleCounts) in
    let minCount := JS.min3 (ring0 circleCounts) (ring1 circleCounts) (ring2 circleCounts) in
    1 - inject_Z (maxCount - minCount) / inject_Z totalElements.

(** [calculateAestheticsFitness(chromosome)]. *)
Definition calculateAestheticsFitness (c : Chromosome) : option Q :=
  match calculateSymmetryScore c with
  | Some symmetryScore => Some ((symmetryScore + calculateBalanceScore c) / 2)
  | None => None
  end.

(** [calculateFitness(chromosome, config)]. *)
Definition calculateFitness (c : Chromosome) (config : Config) : option Q :=
  let solvability := calculateSolvabilityFromChromosome c in
  let difficulty := calculateDifficultyFromChromosome c config in
  let distribution := calculateDistributionFitness c in
  match calculateAestheticsFitness c with
  | Some aesthetics =>
      let weights := weights config in
      Some (w_solvability weights * solvability +
            w_difficulty weights * difficulty +
            w_distribution weights * distribution +
            w_aesthetics weights * aesthetics)
  | None => None
  end.

End Fitness.

(** *** The generation loop, on a store of shared objects

    [{ ...parent1 }] copies the references held by a chromosome object, so
    an offspring made without crossover shares its [litEdges] array and its
    three circle objects with the parent (and with every elite copy of it);
    [mutate] and [repairChromosome] then change those objects in place.  The
    store holds the circle objects (with their two arrays) and the
    [litEdges] arrays; a chromosome object holds references into it.  The
    [circles] array of a chromosome is never changed after it is built, so
    it is the triple of its references. *)

Record Store : Type := mkStore {
  circleObjs : list Circle;
  edgeArrays : list (list Z);
  (** ghost: the chromosomes handed to [calculateFitness] so far *)
  evaluatedLog : list Chromosome
}.

Record Individual : Type := mkIndividual {
  litRef : nat;
  circleRefs : Rings nat;
  fitness : option Q
}.

Definition Gen (A : Type) : Type := Store -> JS.Rand (A * Store).

Definition gret {A} (a : A) : Gen A := fun st => JS.ret (a, st).

Definition gbind {A B} (m : Gen A) (k : A -> Gen B) : Gen B :=
  fun st => JS.bind (m st) (fun x => k (fst x) (snd x)).

Definition glift {A} (m : JS.Rand A) : Gen A :=
  fun st => JS.bind m (fun a => JS.ret (a, st)).

Definition gthrow {A} : Gen A := fun _ => JS.throw.

Notation "x <~ m ;; k" := (gbind m (fun x => k))
  (at level 61, m at next level, right associativity).

(** Reading through a dangling reference raises. *)
Definition readCircle (ref : nat) : Gen Circle :=
  fun st =>
    match nth_error (circleObjs st) ref with
    | Some circle => JS.ret (circle, st)
    | None => JS.throw
    end.

Definition writeCircle (ref : nat) (circle : Circle) : Gen unit :=
  fun st =>
    JS.ret (tt, mkStore (JS.setAt ref circle (circleObjs st)) (edgeArrays st) (evaluatedLog st)).

Definition allocCircle (circle : Circle) : Gen nat :=
  fun st =>
    JS.ret (length (circleObjs st),
            mkStore (circleObjs st ++ [circle]) (edgeArrays st) (evaluatedLog st)).

Definition readEdges (ref : nat) : Gen (list Z) :=
  fun st =>
    match nth_error (edgeArrays st) ref with
    | Some edges => JS.ret (edges, st)
    | None => JS.throw
    end.

Definition writeEdges (ref : nat) (edges : list Z) : Gen unit :=
  fun st =>
    JS.ret (tt, mkStore (circleObjs st) (JS.setAt ref edges (edgeArrays st)) (evaluatedLog st)).

Definition allocEdges (edges : list Z) : Gen nat :=
  fun st =>
    JS.ret (length (edgeArrays st),
            mkStore (circleObjs st) (edgeArrays st ++ [edges]) (evaluatedLog st)).

Definition logEvaluated (c : Chromosome) : Gen unit :=
  fun st =>
    JS.ret (tt, mkStore (circleObjs st) (edgeArrays st) (evaluatedLog st ++ [c])).

(** A change made in place to the circle object behind [ref]. *)
Definition modifyCircle (ref : nat) (change : Circle -> JS.Rand Circle) : Gen unit :=
  circle <~ readCircle ref ;;
  circle' <~ glift (change circle) ;;
  writeCircle ref circle'.

(** A change made in place to the [litEdges] array behind [ref]. *)
Definition modifyEdges (ref : nat) (change : list Z -> JS.Rand (list Z)) : Gen unit :=
  edges <~ readEdges ref ;;
  edges' <~ glift (change edges) ;;
  writeEdges ref edges'.

(** The chromosome an individual denotes in the current store. *)
Definition snapshot (i : Individual) : Gen Chromosome :=
  edges <~ readEdges (litRef i) ;;
  c0 <~ readCircle (ring0 (circleRefs i)) ;;
  c1 <~ readCircle (ring1 (circleRefs i)) ;;
  c2 <~ readCircle (ring2 (circleRefs i)) ;;
  gret (mkChromosome edges (mkRings c0 c1 c2)).

Definition POPULATION_SIZE : nat := 60.
Definition MAX_GENERATIONS : nat := 50.
(** [Math.floor(POPULATION_SIZE * ELITE_RATIO)] with [ELITE_RATIO = 0.2]. *)
Definition eliteCount : nat := 12.

Definition object_prototype_names : list string :=
  ["constructor"; "__proto__"; "hasOwnProperty"; "isPrototypeOf";
   "propertyIsEnumerable"; "toLocaleString"; "toString"; "valueOf";
   "__defineGetter__"; "__defineSetter__"; "__lookupGetter__";
   "__lookupSetter__"]%string.

Inductive Lookup : Type :=
| Preset (config : Config)
| Inherited.

(** [getDifficultyConfig(difficulty)]. *)
Definition getDifficultyConfig (difficulty : string) : Lookup :=
  if String.eqb difficulty "easy" then Preset easy
  else if String.eqb difficulty "medium" then Preset medium
  else if String.eqb difficulty "hard" then Preset hard
  else if existsb (String.eqb difficulty) object_prototype_names then Inherited
  else Preset medium.

(** [distributeElements(total, 3, minPerContainer)]. *)
Definition distributeElements (total minPerContainer : Z) : JS.Rand (Rings Z) :=
  distributeLoop (Z.to_nat (total - 3 * minPerContainer))
                 (mkRings minPerContainer minPerContainer minPerContainer).

Definition createCircle (numEmitters numBlockers : Z) : Gen nat :=
  emitters <~ glift (fillSlots numEmitters [] []) ;;
  blockers <~ glift (fillSlots numBlockers [] emitters) ;;
  allocCircle (mkCircle emitters blockers).

(** [createRandomChromosome(config)]. *)
Definition createRandomChromosome (config : Config) : Gen Individual :=
  numLitEdges <~ glift (randomInRange (litEdgeRange config)) ;;
  litEdges <~ glift (pickEdges numLitEdges []) ;;
  totalEmitters <~ glift (randomInRange (emitterRange config)) ;;
  totalBlockers <~ glift (randomInRange (blockerRange config)) ;;
  emitterDistribution <~ glift (distributeElements totalEmitters 1) ;;
  blockerDistribution <~ glift (distributeElements totalBlockers 0) ;;
  c0 <~ createCircle (ring0 emitterDistribution) (ring0 blockerDistribution) ;;
  c1 <~ createCircle (ring1 emitterDistribution) (ring1 blockerDistribution) ;;
  c2 <~ createCircle (ring2 emitterDistribution) (ring2 blockerDistribution) ;;
  edges <~ allocEdges (JS.sortAsc litEdges) ;;
  gret (mkIndividual edges (mkRings c0 c1 c2) (Some 0%Q)).

(** [initializePopulation(config)]. *)
Fixpoint createPopulation (n : nat) (config : Config) : Gen (list Individual) :=
  match n with
  | O => gret []
  | S n' =>
      chromosome <~ createRandomChromosome config ;;
      population <~ createPopulation n' config ;;
      gret (chromosome :: population)
  end.

Definition initializePopulation (config : Config) : Gen (list Individual) :=
  createPopulation POPULATION_SIZE config.

(** [b.fitness - a.fitness > 0], also [candidate.fitness > best.fitness]. *)
Definition fitter (b a : Individual) : bool :=
  match fitness b, fitness a with
  | Some fb, Some fa => JS.Qltb fa fb
  | _, _ => false
  end.

Fixpoint insertByFitness (x : Individual) (l : list Individual) : list Individual :=
  match l with
  | [] => [x]
  | y :: l' => if fitter x y then x :: l else y :: insertByFitness x l'
  end.

(** [population.sort((a, b) => b.fitness - a.fitness)]. *)
Definition sortByFitness (population : list Individual) : list Individual :=
  fold_left (fun sorted x => insertByFitness x sorted) population [].

(** [tournamentSelection(population, tournamentSize)]. *)
Fixpoint tournament (rounds : nat) (population : list Individual) (best : option Individual)
  : JS.Rand Individual :=
  match rounds with
  | O => match best with
         | Some b => JS.ret b
         | None => JS.throw
         end
  | S rounds' =>
      r <- JS.random ;;
      match nth_error population
              (Z.to_nat (JS.randomInt r (Z.of_nat (length population)))) with
      | None => JS.throw
      | Some candidate =>
          match best with
          | None => tournament rounds' population (Some candidate)
          | Some b =>
              if fitter candidate b
              then tournament rounds' population (Some candidate)
              else tournament rounds' population best
          end
      end
  end.

Definition tournamentSelection (population : list Individual) (tournamentSize : nat)
  : JS.Rand Individual :=
  tournament tournamentSize population None.

(** [arr.slice(0, n)]. *)
Definition slice0 {A} (n : Z) (l : list A) : list A :=
  if n <? 0 then firstn (Z.to_nat (Z.of_nat (length l) + n)) l
  else firstn (Z.to_nat n) l.

(** [crossover(parent1, parent2, config)]: fresh arrays and fresh circle
    objects. *)
Definition crossover (parent1 parent2 : Individual) (config : Config) : Gen Individual :=
  edges1 <~ readEdges (litRef parent1) ;;
  edges2 <~ readEdges (litRef parent2) ;;
  let allEdges := JS.dedup (edges1 ++ edges2) [] in
  targetSize <~ glift (randomInRange (litEdgeRange config)) ;;
  let inherit (i : nat) : Gen nat :=
    r <~ glift JS.random ;;
    let sourceParent := if JS.Qltb r (5 # 10) then parent1 else parent2 in
    circle <~ readCircle (ring_at (circleRefs sourceParent) i) ;;
    allocCircle (mkCircle (emitters circle) (blockers circle)) in
  c0 <~ inherit 0%nat ;;
  c1 <~ inherit 1%nat ;;
  c2 <~ inherit 2%nat ;;
  edges <~ allocEdges (JS.sortAsc (slice0 targetSize allEdges)) ;;
  gret (mkIndividual edges (mkRings c0 c1 c2) (Some 0%Q)).

(** The lit-edge mutation of [mutate]. *)
Definition mutateLitEdges (config : Config) (litEdges : list Z) : JS.Rand (list Z) :=
  r <- JS.random ;;
  if JS.Qltb r (1 # 10) then
    r' <- JS.random ;;
    if JS.Qltb r' (5 # 10) && (Z.of_nat (length litEdges) >? fst (litEdgeRange config)) then
      index <- randomIndex litEdges ;;
      JS.ret (JS.removeAt index litEdges)
    else if Z.of_nat (length litEdges) <? snd (litEdgeRange config) then
      newEdge <- JS.drawUntil 12 (JS.includes litEdges) ;;
      JS.ret (JS.sortAsc (litEdges ++ [newEdge]))
    else JS.ret litEdges
  else JS.ret litEdges.

(** The emitter mutation of one circle. *)
Definition mutateEmitters (circle : Circle) : JS.Rand Circle :=
  r <- JS.random ;;
  if JS.Qltb r (15 # 100) then
    r' <- JS.random ;;
    if JS.Qltb r' (5 # 10) && (Z.of_nat (length (emitters circle)) >? 0) then
      index <- randomIndex (emitters circle) ;;
      newPos <- freeSlot circle ;;
      JS.ret (mkCircle (JS.setAt index newPos (emitters circle)) (blockers circle))
    else
      r'' <- JS.random ;;
      if JS.Qltb r'' (5 # 10) && (Z.of_nat (length (emitters circle)) >? 0) then
        index <- randomIndex (emitters circle) ;;
        JS.ret (mkCircle (JS.removeAt index (emitters circle)) (blockers circle))
      else
        newPos <- freeSlot circle ;;
        JS.ret (mkCircle (emitters circle ++ [newPos]) (blockers circle))
  else JS.ret circle.

(** The blocker mutation of one circle. *)
Definition mutateBlockers (circle : Circle) : JS.Rand Circle :=
  r <- JS.random ;;
  if JS.Qltb r (1 # 10) then
    r' <- JS.random ;;
    if JS.Qltb r' (5 # 10) && (Z.of_nat (length (blockers circle)) >? 0) then
      index <- randomIndex (blockers circle) ;;
      newPos <- freeSlot circle ;;
      JS.ret (mkCircle (emitters circle) (JS.setAt index newPos (blockers circle)))
    else
      r'' <- JS.random ;;
      if JS.Qltb r'' (5 # 10) && (Z.of_nat (length (blockers circle)) >? 0) then
        index <- randomIndex (blockers circle) ;;
        JS.ret (mkCircle (emitters circle) (JS.removeAt index (blockers circle)))
      else
        newPos <- freeSlot circle ;;
        JS.ret (mkCircle (emitters circle) (blockers circle ++ [newPos]))
  else JS.ret circle.

Definition mutateCircle (circle : Circle) : JS.Rand Circle :=
  circle <- mutateEmitters circle ;;
  mutateBlockers circle.

(** [mutate(chromosome, config)], in place. *)
Definition mutate (offspring : Individual) (config : Config) : Gen unit :=
  _ <~ modifyEdges (litRef offspring) (mutateLitEdges config) ;;
  _ <~ modifyCircle (ring0 (circleRefs offspring)) mutateCircle ;;
  _ <~ modifyCircle (ring1 (circleRefs offspring)) mutateCircle ;;
  modifyCircle (ring2 (circleRefs offspring)) mutateCircle.

(** [while (litEdges.length > n) { index = ...; litEdges.splice(index, 1); }] *)
Fixpoint trimEdges (n : Z) (litEdges : list Z) (tape : JS.Tape) : JS.Outcome (list Z) :=
  if Z.of_nat (length litEdges) >? n then
    match tape with
    | [] => JS.Starved
    | r :: rest =>
        if JS.legal r then
          let index := Z.to_nat (JS.randomInt r (Z.of_nat (length litEdges))) in
          trimEdges n (JS.removeAt index litEdges) rest
        else JS.Starved
    end
  else JS.Done litEdges tape.

(** The lit-edge part of [repairChromosome]. *)
Definition repairEdges (config : Config) (litEdges : list Z) : JS.Rand (list Z) :=
  litEdges <- pickEdges (fst (litEdgeRange config)) litEdges ;;
  litEdges <- trimEdges (snd (litEdgeRange config)) litEdges ;;
  JS.ret (JS.sortAsc litEdges).

(** The body of [for (const circle of chromosome.circles)] in
    [repairChromosome]. *)
Definition repairCircle (circle : Circle) : JS.Rand Circle :=
  emitters' <-
    match emitters circle with
    | [] =>
        newPos <- JS.drawUntil 12 (JS.includes (blockers circle)) ;;
        JS.ret (emitters circle ++ [newPos])
    | _ :: _ => JS.ret (emitters circle)
    end ;;
  JS.ret (mkCircle emitters'
            (filter (fun pos => negb (JS.includes emitters' pos)) (blockers circle))).

(** [repairChromosome(chromosome, config)], in place. *)
Definition repairChromosome (offspring : Individual) (config : Config) : Gen unit :=
  _ <~ modifyEdges (litRef offspring) (repairEdges config) ;;
  _ <~ modifyCircle (ring0 (circleRefs offspring)) repairCircle ;;
  _ <~ modifyCircle (ring1 (circleRefs offspring)) repairCircle ;;
  modifyCircle (ring2 (circleRefs offspring)) repairCircle.

(** The elite copies [{ ...population[i] }] for [i < eliteCount]: the same
    references (the population always has [POPULATION_SIZE] members). *)
Fixpoint elites (count : nat) (population : list Individual) : Gen (list Individual) :=
  match count with
  | O => gret []
  | S count' =>
      match population with
      | [] => gthrow
      | individual :: population' =>
          rest <~ elites count' population' ;;
          gret (individual :: rest)
      end
  end.

(** [while (newPopulation.length < POPULATION_SIZE) { ... }] *)
Fixpoint offspringLoop (missing : nat) (population : list Individual) (config : Config)
  : Gen (list Individual) :=
  match missing with
  | O => gret []
  | S missing' =>
      parent1 <~ glift (tournamentSelection population 3) ;;
      parent2 <~ glift (tournamentSelection population 3) ;;
      r <~ glift JS.random ;;
      offspring <~ (if JS.Qltb r (8 # 10)
                    then crossover parent1 parent2 config
                    else gret parent1) ;;
      r' <~ glift JS.random ;;
      _ <~ (if JS.Qltb r' (3 # 10) then mutate offspring config else gret tt) ;;
      _ <~ repairChromosome offspring config ;;
      rest <~ offspringLoop missing' population config ;;
      gret (offspring :: rest)
  end.

(** [evolvePopulation(population, config)]. *)
Definition evolvePopulation (population : list Individual) (config : Config)
  : Gen (list Individual) :=
  kept <~ elites eliteCount population ;;
  offspring <~ offspringLoop (POPULATION_SIZE - length kept) population config ;;
  gret (kept ++ offspring).

(** What [generatePuzzle] returns: the puzzle (lasers are slot indices in
    this generator) and the metadata, with the instance's
    [convergenceCounter] as it is left behind. *)
Record Result : Type := mkResult {
  puzzle : Chromosome;
  bestFitness : option Q;
  generations : nat;
  convergenceCounter : Z
}.

(** The loop is stated for an arbitrary score in the place of
    [this.calculateFitness]; [generatePuzzle] below instantiates it. *)
Section Generation.

Variable score : Chromosome -> Config -> option Q.

(** [evaluatePopulation(population, config)]. *)
Fixpoint evaluatePopulationBy (population : list Individual) (config : Config)
  : Gen (list Individual) :=
  match population with
  | [] => gret []
  | individual :: population' =>
      c <~ snapshot individual ;;
      _ <~ logEvaluated c ;;
      let individual := mkIndividual (litRef individual) (circleRefs individual)
                                     (score c config) in
      rest <~ evaluatePopulationBy population' config ;;
      gret (individual :: rest)
  end.

(** [while (generation < MAX_GENERATIONS && !this.shouldTerminate()) { ... }] *)
Fixpoint generationLoop (remaining : nat) (generation : nat) (config : Config)
    (population : list Individual) (bestIndividual : option Individual) (counter : Z)
  : Gen (option Individual * nat * Z) :=
  match remaining with
  | O => gret (bestIndividual, generation, counter)
  | S remaining' =>
      if counter >? 10 then gret (bestIndividual, generation, counter)
      else
        population <~ evaluatePopulationBy population config ;;
        let population := sortByFitness population in
        match population with
        | [] => gthrow
        | currentBest :: _ =>
            let improved :=
              match bestIndividual with
              | None => true
              | Some b => fitter currentBest b
              end in
            let bestIndividual := if improved then Some currentBest else bestIndividual in
            let counter := if improved then 0 else counter + 1 in
            population <~ evolvePopulation population config ;;
            generationLoop remaining' (S generation) config population bestIndividual counter
        end
  end.

(** [generatePuzzle(difficulty)], started with the instance's
    [convergenceCounter]. *)
Definition generatePuzzleBy (difficulty : string) (counter : Z) : Gen Result :=
  match getDifficultyConfig difficulty with
  | Inherited => gthrow
  | Preset config =>
      population <~ initializePopulation config ;;
      final <~ generationLoop MAX_GENERATIONS 0 config population None counter ;;
      let '(bestIndividual, generation, counter) := final in
      match bestIndividual with
      | None => gthrow
      | Some b =>
          c <~ snapshot b ;;
          gret (mkResult c (fitness b) generation counter)
      end
  end.

End Generation.

Definition emptyStore : Store := mkStore [] [] [].

Definition generatePuzzle (exp : Q -> Q) (difficulty : string) (counter : Z) : Gen Result :=
  generatePuzzleBy (calculateFitness exp) difficulty counter.

End Evolutionary.

(** ** puzzle-generator.js: the constraint-based generator *)

Module Constraint.

Import Puzzle.

Definition SHAPE_ROTATION : Z := 15.

(** [validateConstraintPuzzle(puzzle)]: every lit edge needs an emitter
    that some rotation by a multiple of 30 degrees turns to within 25
    degrees of the edge's target angle. *)
Definition validateConstraintPuzzle (p : Puzzle) : bool :=
  forallb (fun edge =>
    let edgeTargetAngle := Z.rem (edge * 30 + 15 + SHAPE_ROTATION) 360 in
    existsb (fun circle =>
      existsb (fun emitterAngle =>
        existsb (fun k =>
          let rotation := k * 30 in
          let actualAngle := Z.rem (emitterAngle + rotation + SHAPE_ROTATION) 360 in
          let firingDirection := Z.rem (actualAngle + 180) 360 in
          let angleDiff := Z.abs (firingDirection - edgeTargetAngle) in
          let angleDiff := if angleDiff >? 180 then 360 - angleDiff else angleDiff in
          angleDiff <=? 25) (JS.range 12))
        (lasers circle))
      (rings_list (circles p)))
    (litEdges p).

(** [for (let i = 0; i < count; i++) litEdges.push((startEdge + i) % SIDES)]. *)
Definition consecutiveEdges (startEdge count : Z) : list Z :=
  map (fun i => Z.rem (startEdge + i) SIDES) (JS.range (Z.to_nat count)).

(** Step 1 of [generateSimplifiedConstraintPuzzle], before the sort. *)
Definition selectLitEdges (numLit : Z) (targetDifficulty : string) : JS.Rand (list Z) :=
  if String.eqb targetDifficulty "easy" then
    r <- JS.random ;;
    JS.ret (consecutiveEdges (JS.randomInt r SIDES) numLit)
  else if String.eqb targetDifficulty "hard" then
    pickLitEdges numLit []
  else
    let consecutive := numLit / 2 in
    r <- JS.random ;;
    pickLitEdges numLit (consecutiveEdges (JS.randomInt r SIDES) consecutive).

Definition pushLaser (circles : Rings Circle) (circleIndex : nat) (angle : Z) : Rings Circle :=
  let circle := ring_at circles circleIndex in
  ring_set circles circleIndex
    (mkCircle (radius circle) (lasers circle ++ [angle]) (blockers circle)).

Definition pushBlocker (circles : Rings Circle) (circleIndex : nat) (angle : Z) : Rings Circle :=
  let circle := ring_at circles circleIndex in
  ring_set circles circleIndex
    (mkCircle (radius circle) (lasers circle) (blockers circle ++ [angle])).

(** One iteration of step 3: the emitter that covers lit edge number [i]. *)
Definition coverEdge (circles : Rings Circle) (i : nat) (edge : Z) : Rings Circle :=
  let circleIndex := (i mod 3)%nat in
  let edgeAngle := edge * 30 in
  let emitterAngle := Z.rem (edgeAngle + 180 - SHAPE_ROTATION + 360) 360 in
  let emitterAngle := JS.Math_round (inject_Z emitterAngle / 30)%Q * 30 in
  let emitterAngle := if emitterAngle >=? 360 then emitterAngle - 360 else emitterAngle in
  let emitterAngle := if emitterAngle <? 0 then emitterAngle + 360 else emitterAngle in
  if negb (JS.includes (lasers (ring_at circles circleIndex)) emitterAngle)
  then pushLaser circles circleIndex emitterAngle
  else circles.

(** [for (let angle = 0; angle < 360; angle += 30)]. *)
Definition gridAngles : list Z := map (fun k => k * 30) (JS.range 12).

(** The grid angles that neither an emitter nor a blocker of the circle
    uses. *)
Definition freeAngles (circle : Circle) : list Z :=
  filter (fun angle => negb (JS.includes (lasers circle ++ blockers circle) angle)) gridAngles.

(** The free grid angles that are at least 30 degrees away from the
    opposite of every emitter of the circle. *)
Definition safeAngles (circle : Circle) : list Z :=
  filter (fun angle =>
    negb (JS.includes (lasers circle ++ blockers circle) angle) &&
    forallb (fun emitterAngle =>
      let oppositeAngle := Z.rem (emitterAngle + 180) 360 in
      negb (Z.abs (angle - oppositeAngle) <? 30)) (lasers circle)) gridAngles.

(** [if (availableAngles.length > 0) { randomAngle = availableAngles[...]; ... }]:
    no draw is made when nothing is available; the index drawn is always
    inside the array. *)
Definition pickFrom (availableAngles : list Z) : JS.Rand (option Z) :=
  match availableAngles with
  | [] => JS.ret None
  | _ :: _ =>
      r <- JS.random ;;
      JS.ret (nth_error availableAngles
                (Z.to_nat (JS.randomInt r (Z.of_nat (length availableAngles)))))
  end.

(** Step 4: [for (let i = 0; i < additionalEmitters; i++)]. *)
Fixpoint addEmitters (remaining : nat) (circles : Rings Circle) : JS.Rand (Rings Circle) :=
  match remaining with
  | O => JS.ret circles
  | S remaining' =>
      r <- JS.random ;;
      let circleIndex := Z.to_nat (JS.randomInt r 3) in
      picked <- pickFrom (freeAngles (ring_at circles circleIndex)) ;;
      addEmitters remaining'
        match picked with
        | Some randomAngle => pushLaser circles circleIndex randomAngle
        | None => circles
        end
  end.

(** Step 5 for one circle: [for (let i = 0; i < numBlockers; i++)]. *)
Fixpoint addBlockers (remaining : nat) (circleIndex : nat) (circles : Rings Circle)
  : JS.Rand (Rings Circle) :=
  match remaining with
  | O => JS.ret circles
  | S remaining' =>
      picked <- pickFrom (safeAngles (ring_at circles circleIndex)) ;;
      addBlockers remaining' circleIndex
        match picked with
        | Some randomAngle => pushBlocker circles circleIndex randomAngle
        | None => circles
        end
  end.

Definition blockCircle (circleIndex : nat) (circles : Rings Circle) : JS.Rand (Rings Circle) :=
  r <- JS.random ;;
  let numBlockers := JS.randomInt r 2 + 1 in
  addBlockers (Z.to_nat numBlockers) circleIndex circles.

(** Steps 1 to 5 of [generateSimplifiedConstraintPuzzle]: the puzzle that
    is handed to the validation. *)
Definition buildConstraintPuzzle (minLit maxLit : Z) (targetDifficulty : string)
  : JS.Rand Puzzle :=
  r <- JS.random ;;
  let numLit := numLitOf r minLit maxLit in
  litEdges <- selectLitEdges numLit targetDifficulty ;;
  let litEdges := JS.sortAsc litEdges in
  let circles := mkRings (mkCircle 50 [] []) (mkCircle 90 [] []) (mkCircle 130 [] []) in
  let circles :=
    fold_left (fun circles '(i, edge) => coverEdge circles i edge) (indexed litEdges) circles in
  r' <- JS.random ;;
  let additionalEmitters := JS.randomInt r' 3 + 1 in
  circles <- addEmitters (Z.to_nat additionalEmitters) circles ;;
  circles <- blockCircle 0 circles ;;
  circles <- blockCircle 1 circles ;;
  circles <- blockCircle 2 circles ;;
  JS.ret (mkPuzzle litEdges circles).

(** [generateFallbackPuzzle(minLit, maxLit)]. *)
Definition generateFallbackPuzzle (minLit maxLit : Z) : JS.Rand Puzzle :=
  r <- JS.random ;;
  let numLit := numLitOf r minLit maxLit in
  r' <- JS.random ;;
  let startEdge := JS.randomInt r' SIDES in
  let litEdges := consecutiveEdges startEdge numLit in
  let circles := mkRings (mkCircle 50 [] []) (mkCircle 90 [] []) (mkCircle 130 [] []) in
  let circles :=
    fold_left (fun circles '(i, edge) =>
      let circleIndex := (i mod 3)%nat in
      let targetAngle := Z.rem (edge * 30 + 15) 360 in
      let emitterAngle := Z.rem (targetAngle + 180 - SHAPE_ROTATION) 360 in
      let snappedAngle := JS.Math_round (inject_Z emitterAngle / 30)%Q * 30 in
      pushLaser circles circleIndex snappedAngle) (indexed litEdges) circles in
  let circles := pushBlocker circles 1 90 in
  JS.ret (mkPuzzle litEdges circles).

(** [generateSimplifiedConstraintPuzzle(minLit, maxLit, targetDifficulty)]. *)
Definition generateSimplifiedConstraintPuzzle (minLit maxLit : Z) (targetDifficulty : string)
  : JS.Rand Puzzle :=
  result <- buildConstraintPuzzle minLit maxLit targetDifficulty ;;
  if validateConstraintPuzzle result
  then JS.ret result
  else generateFallbackPuzzle minLit maxLit.

End Constraint.

(** * Part II — properties *)

(** ** List folds *)

Lemma fold_left_invariant {A B} (P : A -> Prop) (f : A -> B -> A) (l : list B) (a : A) :
  P a -> (forall acc x, P acc -> P (f acc x)) -> P (fold_left f l a).
Proof.
  intros Ha Hstep. revert a Ha.
  induction l as [| x l IH]; intros a Ha; simpl; [assumption |].
  apply IH, Hstep, Ha.
Qed.

(** ** Slots and angles *)

Section SlotAngles.

Import Puzzle.

(** A slot index is an integer of [[0,12)]; there are twelve of them. *)
Lemma slot_cases (s : Z) :
  0 <= s < 12 ->
  s = 0 \/ s = 1 \/ s = 2 \/ s = 3 \/ s = 4 \/ s = 5 \/
  s = 6 \/ s = 7 \/ s = 8 \/ s = 9 \/ s = 10 \/ s = 11.
Proof. lia. Qed.

(** The angle of a slot is [15 + 30 s] exactly: the [% 360] never wraps. *)
Lemma positionToAngle_slot (s : Z) :
  0 <= s < 12 -> positionToAngle s = 15 + 30 * s.
Proof.
  intros Hs. unfold positionToAngle.
  rewrite Z.rem_small by lia. lia.
Qed.

(** C3 — round trip: for every slot [s] of [[0,12)], converting the slot to
    its angle (the [15 + 30k] convention) and back gives [s] again. *)
Theorem angleToPosition_positionToAngle (s : Z) :
  0 <= s < 12 -> angleToPosition (positionToAngle s) = s.
Proof.
  intros Hs.
  destruct (slot_cases s Hs) as [-> | [-> | [-> | [-> | [-> | [-> |
    [-> | [-> | [-> | [-> | [-> | ->]]]]]]]]]]]; reflexivity.
Qed.

Lemma angleToPosition_positionToAngle_witness :
  0 <= 7 < 12 /\ angleToPosition (positionToAngle 7) = 7.
Proof.
  split; [lia | apply (angleToPosition_positionToAngle 7); lia].
Defined.

End SlotAngles.

(** ** The heuristic pre-filter of the evolutionary generator *)

Section HeuristicPrefilter.

Import Genome Evolutionary.

Lemma includes_In (l : list Z) (x : Z) : JS.includes l x = true <-> In x l.
Proof.
  unfold JS.includes. rewrite existsb_exists. split.
  - intros (y & Hy & Heq). apply Z.eqb_eq in Heq. now subst.
  - intros Hin. exists x. split; [assumption | apply Z.eqb_refl].
Qed.

Lemma In_set_add (s : list Z) (x y : Z) :
  In y (set_add s x) -> In y s \/ y = x.
Proof.
  unfold set_add. destruct (JS.includes s x); [now left |].
  rewrite in_app_iff. simpl. intuition.
Qed.

(** Whatever a beam adds to [hitEdges] is an edge its emitter can reach
    under the ring's current rotation. *)
Lemma beamStep_sound (c : Chromosome) (rotations : Rings Z) (circleIdx : nat)
    (hitEdges : list Z) (emitterPos edge : Z) :
  In (ring_at rotations circleIdx) (JS.range 12) ->
  In edge (beamStep c rotations circleIdx hitEdges emitterPos) ->
  In edge hitEdges \/ canEmitterHitEdge emitterPos edge circleIdx = true.
Proof.
  intros Hrot. unfold beamStep.
  destruct (find _ (JS.range 12)) as [e |] eqn:Hfind; [| now left].
  destruct (isBeamBlockedChromosome _ _ _ _); [now left |].
  intros Hin. apply In_set_add in Hin as [Hin | ->]; [now left |].
  right. apply find_some in Hfind as [_ Hhit].
  unfold canEmitterHitEdge. apply existsb_exists.
  exists (ring_at rotations circleIdx). split; assumption.
Qed.

Lemma ring_emitters_sound (c : Chromosome) (rotations : Rings Z) (circleIdx : nat)
    (l : list Z) (hitEdges : list Z) (edge : Z) :
  In (ring_at rotations circleIdx) (JS.range 12) ->
  In edge (fold_left (beamStep c rotations circleIdx) l hitEdges) ->
  In edge hitEdges \/
  exists emitterPos, In emitterPos l /\ canEmitterHitEdge emitterPos edge circleIdx = true.
Proof.
  intros Hrot. revert hitEdges.
  induction l as [| p l IH]; intros hitEdges Hin; simpl in Hin.
  - now left.
  - apply IH in Hin as [Hin | (q & Hq & Hcan)].
    + apply beamStep_sound in Hin as [Hin | Hcan]; [now left | | assumption].
      right. exists p. split; [now left | assumption].
    + right. exists q. split; [now right | assumption].
Qed.

Lemma hitEdgesOf_sound (c : Chromosome) (rotations : Rings Z) (edge : Z) :
  Forall (fun r => In r (JS.range 12)) (rings_list rotations) ->
  In edge (hitEdgesOf c rotations) ->
  exists circleIdx emitterPos,
    In circleIdx [0; 1; 2]%nat /\
    In emitterPos (emitters (ring_at (circles c) circleIdx)) /\
    canEmitterHitEdge emitterPos edge circleIdx = true.
Proof.
  intros Hrot Hin. unfold hitEdgesOf in Hin. simpl in Hin.
  inversion Hrot as [| ? ? H0 Hrot1]; subst.
  inversion Hrot1 as [| ? ? H1 Hrot2]; subst.
  inversion Hrot2 as [| ? ? H2 _]; subst.
  apply (ring_emitters_sound c rotations 2) in Hin as [Hin | (p & Hp & Hcan)];
    [| exists 2%nat, p; simpl; auto | exact H2].
  apply (ring_emitters_sound c rotations 1) in Hin as [Hin | (p & Hp & Hcan)];
    [| exists 1%nat, p; simpl; auto | exact H1].
  apply (ring_emitters_sound c rotations 0) in Hin as [Hin | (p & Hp & Hcan)];
    [| exists 0%nat, p; simpl; auto | exact H0].
  destruct Hin.
Qed.

(** The exhaustive check never accepts a chromosome the heuristic rejects. *)
Lemma bruteForce_heuristic (c : Chromosome) :
  bruteForceSolvabilityCheckChromosome c = true ->
  heuristicSolvabilityCheckChromosome c = true.
Proof.
  unfold bruteForceSolvabilityCheckChromosome.
  intros H.
  apply existsb_exists in H as (r1 & Hr1 & H).
  apply existsb_exists in H as (r2 & Hr2 & H).
  apply existsb_exists in H as (r3 & Hr3 & H).
  unfold isPuzzleSolvedWithRotationsChromosome in H.
  rewrite forallb_forall in H.
  unfold heuristicSolvabilityCheckChromosome.
  apply forallb_forall. intros edge Hedge.
  specialize (H edge Hedge). apply includes_In in H.
  apply hitEdgesOf_sound in H as (i & p & Hi & Hp & Hcan).
  - apply existsb_exists. exists i. split; [assumption |].
    apply existsb_exists. exists p. split; assumption.
  - unfold rings_list; cbn [ring0 ring1 ring2].
    repeat (apply List.Forall_cons; [assumption |]). apply List.Forall_nil.
Qed.

(** C6 — for every chromosome, [calculateSolvabilityFromChromosome] returns
    1.0 exactly when the full 1728-rotation check
    [bruteForceSolvabilityCheckChromosome] returns true: whenever the
    heuristic pre-filter returns false the brute-force check returns false
    too, so the short-circuit never changes the score. *)
Theorem calculateSolvability_bruteForce (c : Chromosome) :
  (calculateSolvabilityFromChromosome c = 1%Q <->
   bruteForceSolvabilityCheckChromosome c = true) /\
  (heuristicSolvabilityCheckChromosome c = false ->
   bruteForceSolvabilityCheckChromosome c = false).
Proof.
  assert (Hpre : heuristicSolvabilityCheckChromosome c = false ->
                 bruteForceSolvabilityCheckChromosome c = false).
  { intros Hh.
    destruct (bruteForceSolvabilityCheckChromosome c) eqn:Hb; [| reflexivity].
    apply bruteForce_heuristic in Hb. congruence. }
  split; [| exact Hpre].
  unfold calculateSolvabilityFromChromosome.
  destruct (heuristicSolvabilityCheckChromosome c) eqn:Hh; simpl.
  - destruct (bruteForceSolvabilityCheckChromosome c); split; intros H;
      try reflexivity; discriminate.
  - rewrite (Hpre eq_refl). split; intros H; discriminate.
Qed.

End HeuristicPrefilter.

(** ** The difficulty analyzer and puzzle density *)

Section DifficultyDensity.

Import Puzzle Analyzer.

(** The slot set [l] is contained in the slot set [l']. *)
Definition slots_subset (l l' : list Z) : Prop := NoDup l /\ incl l l'.

(** [dense] has the lit edges of [sparse], and ring by ring a superset of
    its emitters and of its blockers. *)
Definition denser (sparse dense : Puzzle) : Prop :=
  litEdges dense = litEdges sparse /\
  Forall2 (fun cs cd =>
    slots_subset (lasers cs) (lasers cd) /\ slots_subset (blockers cs) (blockers cd))
    (rings_list (circles sparse)) (rings_list (circles dense)).

Definition sparse_example : Puzzle :=
  mkPuzzle [0] (mkRings (mkCircle 50 [15] []) (mkCircle 90 [] []) (mkCircle 130 [] [])).

Definition dense_example : Puzzle :=
  mkPuzzle [0] (mkRings (mkCircle 50 [15; 195] []) (mkCircle 90 [] []) (mkCircle 130 [] [])).

Lemma denser_example : denser sparse_example dense_example.
Proof.
  assert (Hnil : slots_subset [] []).
  { split; [apply List.NoDup_nil | intros x Hx; exact Hx]. }
  split; [reflexivity |].
  unfold rings_list; simpl.
  repeat apply List.Forall2_cons; try apply List.Forall2_nil;
    try (split; exact Hnil).
  split; [| exact Hnil].
  split.
  - apply List.NoDup_cons; [intros [] | apply List.NoDup_nil].
  - intros x [<- | []]. now left.
Qed.

Lemma slots_subset_len (l l' : list Z) : slots_subset l l' -> (len l <= len l')%Z.
Proof.
  intros [Hnd Hincl]. unfold len.
  apply Nat2Z.inj_le. now apply NoDup_incl_length.
Qed.

Lemma denser_totalEmitters (sparse dense : Puzzle) :
  denser sparse dense -> (totalEmitters sparse <= totalEmitters dense)%Z.
Proof.
  intros [_ H]. unfold totalEmitters, rings_list in *. simpl.
  inversion H as [| ? ? ? ? [H0 _] H']; subst.
  inversion H' as [| ? ? ? ? [H1 _] H'']; subst.
  inversion H'' as [| ? ? ? ? [H2 _] _]; subst.
  apply slots_subset_len in H0, H1, H2. lia.
Qed.

Lemma denser_totalBlockers (sparse dense : Puzzle) :
  denser sparse dense -> (totalBlockers sparse <= totalBlockers dense)%Z.
Proof.
  intros [_ H]. unfold totalBlockers, rings_list in *. simpl.
  inversion H as [| ? ? ? ? [_ H0] H']; subst.
  inversion H' as [| ? ? ? ? [_ H1] H'']; subst.
  inversion H'' as [| ? ? ? ? [_ H2] _]; subst.
  apply slots_subset_len in H0, H1, H2. lia.
Qed.

Lemma capped_ratio_mono (a b : Z) (d : Q) :
  (0 < d)%Q -> (a <= b)%Z -> (Qmin (inZ a / d) 1 <= Qmin (inZ b / d) 1)%Q.
Proof.
  intros Hd Hab. apply Q.min_le_compat_r.
  unfold Qdiv. apply Qmult_le_compat_r.
  - unfold inZ. now rewrite <- Zle_Qle.
  - apply Qlt_le_weak, Qinv_lt_0_compat, Hd.
Qed.

(** C9 (as the code has it) — for two puzzles with the same lit edges where
    the denser one holds, ring by ring, a superset of the other's emitters
    and blockers, the element-count score [basicMetrics.score] of the
    denser puzzle is at least that of the sparser one.  (The other terms of
    [overallDifficulty] are not monotone: see [overallDifficulty_not_monotone].) *)
Theorem basicMetrics_monotone (sparse dense : Puzzle) :
  denser sparse dense ->
  (calculateBasicMetrics sparse <= calculateBasicMetrics dense)%Q.
Proof.
  intros Hd.
  pose proof (denser_totalEmitters _ _ Hd) as He.
  pose proof (denser_totalBlockers _ _ Hd) as Hb.
  destruct Hd as [Hlit _].
  unfold calculateBasicMetrics. rewrite Hlit.
  pose proof (capped_ratio_mono _ _ 12 ltac:(reflexivity) He) as H1.
  pose proof (capped_ratio_mono _ _ 8 ltac:(reflexivity) Hb) as H2.
  apply Qmult_le_compat_r; [| discriminate].
  lra.
Qed.

Lemma basicMetrics_monotone_witness :
  denser sparse_example dense_example /\
  (calculateBasicMetrics sparse_example <= calculateBasicMetrics dense_example)%Q.
Proof.
  split; [exact denser_example | exact (basicMetrics_monotone _ _ denser_example)].
Defined.

(** C9 as stated fails: adding the emitter at 195 degrees to the inner ring
    of [sparse_example] (one lit edge, one emitter at 15 degrees) lowers
    [overallDifficulty] from 4547/18000 to 8927/54000, because the new
    emitter already faces the lit edge (the rotation estimate drops from 6
    to 0) and raises the solution-uniqueness ratio. *)
Lemma overallDifficulty_not_monotone :
  denser sparse_example dense_example /\
  exists ds dd,
    overallDifficulty sparse_example = Some ds /\
    overallDifficulty dense_example = Some dd /\
    (ds == 4547 # 18000)%Q /\ (dd == 8927 # 54000)%Q /\ (dd < ds)%Q.
Proof.
  split; [exact denser_example |].
  eexists. eexists.
  split; [vm_compute; reflexivity |].
  split; [vm_compute; reflexivity |].
  split; [reflexivity |]. split; reflexivity.
Qed.

End DifficultyDensity.

(** ** The ray cast of the solvability oracle *)

Section RayCast.

Import Puzzle.

Variables cos sin sqrt : Q -> Q.

Lemma Qltb_lt (x y : Q) : JS.Qltb x y = true <-> (x < y)%Q.
Proof. unfold JS.Qltb, Qlt. apply Z.ltb_lt. Qed.

Lemma Qltb_ge (x y : Q) : JS.Qltb x y = false <-> (y <= x)%Q.
Proof. unfold JS.Qltb, Qle. apply Z.ltb_ge. Qed.

(** *** The running minimum *)

Lemma consider_le (cs : list (option (Q * HitObj))) :
  forall m hm, exists t h,
    fold_left consider cs (Some (m, hm)) = Some (t, h) /\ (t <= m)%Q.
Proof.
  induction cs as [| c cs IH]; intros m hm; simpl.
  - exists m, hm. split; [reflexivity | apply Qle_refl].
  - destruct c as [[t' h'] |]; simpl; [| apply IH].
    destruct (JS.Qltb t' m) eqn:Hlt; [| apply IH].
    apply Qltb_lt in Hlt.
    destruct (IH t' h') as (t & h & Hfold & Hle).
    exists t, h. split; [assumption | lra].
Qed.

Lemma consider_min (cs : list (option (Q * HitObj))) :
  forall n t' h', In (Some (t', h')) cs ->
    exists t h, fold_left consider cs n = Some (t, h) /\ (t <= t')%Q.
Proof.
  induction cs as [| c cs IH]; intros n t' h' Hin; [destruct Hin |].
  destruct Hin as [-> | Hin]; [| now apply (IH _ t' h')].
  simpl. destruct (closer t' n) eqn:Hcl.
  - apply consider_le.
  - destruct n as [[m hm] |]; [| discriminate]. simpl in Hcl.
    apply Qltb_ge in Hcl.
    destruct (consider_le cs m hm) as (t & h & Hfold & Hle).
    exists t, h. split; [assumption | lra].
Qed.

Lemma consider_origin (cs : list (option (Q * HitObj))) :
  forall n, fold_left consider cs n = n \/
            In (fold_left consider cs n) cs /\ fold_left consider cs n <> None.
Proof.
  induction cs as [| c cs IH]; intros n; simpl; [now left |].
  destruct (IH (consider n c)) as [Heq | [Hin Hne]].
  - rewrite Heq. unfold consider.
    destruct c as [[t h] |]; [| now left].
    destruct (closer t n); [| now left].
    right. split; [now left | discriminate].
  - right. split; [now right | assumption].
Qed.

Lemma fold_left_consider {A} (step : Nearest -> A -> Nearest) (cand : A -> option (Q * HitObj)) :
  (forall n x, step n x = consider n (cand x)) ->
  forall l n, fold_left step l n = fold_left consider (map cand l) n.
Proof.
  intros Hstep l. induction l as [| x l IH]; intros n; simpl; [reflexivity |].
  rewrite Hstep. apply IH.
Qed.

(** *** The candidate obstacles of one emitter *)

Variable emitter : Emitter.
Variable blockers : list Blocker.
Variable emitters : list Emitter.
Variable edges : list EdgeLine.

Let ex := e_x emitter.
Let ey := e_y emitter.
Let dx := beam_dx cos emitter.
Let dy := beam_dy sin emitter.

(** The slot test applied to a blocker of the emitter's own ring. *)
Definition sameOrOppositeSlot (blocker : Blocker) : bool :=
  areAtSamePosition (b_originalAngle blocker) (e_originalAngle emitter).

(** The candidate obstacles of the ray of [emitter], in the words of the
    specification: (a) blockers of the same ring at the same or opposite
    slot, (b) blockers of other rings, unconditionally, (c) every other
    emitter, with the larger collision radius 13, (d) the polygon edges. *)
Inductive obstacle : Q -> HitObj -> Prop :=
| obstacle_same_ring blocker t :
    In blocker blockers ->
    b_idx blocker = e_idx emitter ->
    sameOrOppositeSlot blocker = true ->
    rayCircle sqrt ex ey dx dy (b_x blocker) (b_y blocker) (12 * 12) = Some t ->
    obstacle t (HitBlocker blocker)
| obstacle_other_ring blocker t :
    In blocker blockers ->
    b_idx blocker <> e_idx emitter ->
    rayCircle sqrt ex ey dx dy (b_x blocker) (b_y blocker) (12 * 12) = Some t ->
    obstacle t (HitBlocker blocker)
| obstacle_emitter other t :
    In other emitters ->
    sameEmitter other emitter = false ->
    rayCircle sqrt ex ey dx dy (e_x other) (e_y other) (13 * 13) = Some t ->
    obstacle t (HitEmitter other)
| obstacle_edge edge t :
    In edge edges ->
    rayEdge ex ey dx dy edge = Some t ->
    obstacle t (HitEdge edge).

Definition blockerCand (blocker : Blocker) : option (Q * HitObj) :=
  if (negb (b_idx blocker =? e_idx emitter)%nat) || sameOrOppositeSlot blocker
  then option_map (fun t => (t, HitBlocker blocker))
         (rayCircle sqrt ex ey dx dy (b_x blocker) (b_y blocker) (12 * 12))
  else None.

Definition emitterCand (other : Emitter) : option (Q * HitObj) :=
  if sameEmitter other emitter then None
  else option_map (fun t => (t, HitEmitter other))
         (rayCircle sqrt ex ey dx dy (e_x other) (e_y other) (13 * 13)).

Definition edgeCand (edge : EdgeLine) : option (Q * HitObj) :=
  option_map (fun t => (t, HitEdge edge)) (rayEdge ex ey dx dy edge).

Definition candidates : list (option (Q * HitObj)) :=
  map blockerCand blockers ++ map emitterCand emitters ++ map edgeCand edges.

Lemma blockerStep_consider n blocker :
  blockerStep cos sin sqrt emitter n blocker = consider n (blockerCand blocker).
Proof.
  unfold blockerStep, blockerCand, sameOrOppositeSlot.
  fold ex ey dx dy.
  destruct (b_idx blocker =? e_idx emitter)%nat; simpl;
    destruct (areAtSamePosition (b_originalAngle blocker) (e_originalAngle emitter)); simpl;
    try reflexivity;
    destruct (rayCircle _ _ _ _ _ _ _ _); reflexivity.
Qed.

Lemma emitterStep_consider n other :
  emitterStep cos sin sqrt emitter n other = consider n (emitterCand other).
Proof.
  unfold emitterStep, emitterCand. fold ex ey dx dy.
  destruct (sameEmitter other emitter); [reflexivity |].
  destruct (rayCircle _ _ _ _ _ _ _ _); reflexivity.
Qed.

Lemma edgeStep_consider n edge :
  edgeStep cos sin emitter n edge = consider n (edgeCand edge).
Proof.
  unfold edgeStep, edgeCand. fold ex ey dx dy.
  destruct (rayEdge _ _ _ _ _); reflexivity.
Qed.

Lemma castRay_candidates :
  castRay cos sin sqrt emitter blockers emitters edges = fold_left consider candidates None.
Proof.
  unfold castRay, candidates.
  rewrite !fold_left_app.
  rewrite (fold_left_consider _ _ blockerStep_consider).
  rewrite (fold_left_consider _ _ emitterStep_consider).
  rewrite (fold_left_consider _ _ edgeStep_consider).
  reflexivity.
Qed.

Lemma obstacle_candidates t h : obstacle t h <-> In (Some (t, h)) candidates.
Proof.
  unfold candidates. rewrite !in_app_iff, !in_map_iff. split.
  - intros H. destruct H as [b t Hin Hidx Hslot Hray | b t Hin Hidx Hray
                            | o t Hin Hsame Hray | e t Hin Hray].
    + left. exists b. split; [| assumption].
      unfold blockerCand. rewrite Hslot, orb_true_r, Hray. reflexivity.
    + left. exists b. split; [| assumption].
      unfold blockerCand. apply Nat.eqb_neq in Hidx. rewrite Hidx, Hray. reflexivity.
    + right; left. exists o. split; [| assumption].
      unfold emitterCand. rewrite Hsame, Hray. reflexivity.
    + right; right. exists e. split; [| assumption].
      unfold edgeCand. rewrite Hray. reflexivity.
  - intros [(b & Hc & Hin) | [(o & Hc & Hin) | (e & Hc & Hin)]].
    + unfold blockerCand in Hc.
      destruct (b_idx b =? e_idx emitter)%nat eqn:Hidx; simpl in Hc.
      * destruct (sameOrOppositeSlot b) eqn:Hslot; [| discriminate].
        destruct (rayCircle _ _ _ _ _ _ _ _) as [t0 |] eqn:Hray; [| discriminate].
        injection Hc as <- <-. apply Nat.eqb_eq in Hidx.
        now apply obstacle_same_ring.
      * destruct (rayCircle _ _ _ _ _ _ _ _) as [t0 |] eqn:Hray; [| discriminate].
        injection Hc as <- <-. apply Nat.eqb_neq in Hidx.
        now apply obstacle_other_ring.
    + unfold emitterCand in Hc.
      destruct (sameEmitter o emitter) eqn:Hsame; [discriminate |].
      destruct (rayCircle _ _ _ _ _ _ _ _) as [t0 |] eqn:Hray; [| discriminate].
      injection Hc as <- <-. now apply obstacle_emitter.
    + unfold edgeCand in Hc.
      destruct (rayEdge _ _ _ _ _) as [t0 |] eqn:Hray; [| discriminate].
      injection Hc as <- <-. now apply obstacle_edge.
Qed.

(** The parameter of an obstacle is a function of the obstacle. *)
Lemma obstacle_functional t t' h : obstacle t h -> obstacle t' h -> t = t'.
Proof.
  intros H H'.
  inversion H; subst; inversion H'; subst; congruence.
Qed.

(** The ray cast returns an obstacle of minimal parameter. *)
Lemma castRay_nearest t h :
  castRay cos sin sqrt emitter blockers emitters edges = Some (t, h) ->
  obstacle t h /\ forall t' h', obstacle t' h' -> (t <= t')%Q.
Proof.
  rewrite castRay_candidates. intros Hcast. split.
  - apply obstacle_candidates.
    destruct (consider_origin candidates None) as [Heq | [Hin _]].
    + rewrite Hcast in Heq. discriminate.
    + now rewrite Hcast in Hin.
  - intros t' h' Hobs. apply obstacle_candidates in Hobs.
    destruct (consider_min candidates None t' h' Hobs) as (t0 & h0 & Hfold & Hle).
    rewrite Hcast in Hfold. now injection Hfold as <- <-.
Qed.

(** It returns nothing only when the ray meets no obstacle at all. *)
Lemma castRay_none :
  castRay cos sin sqrt emitter blockers emitters edges = None <->
  forall t h, ~ obstacle t h.
Proof.
  rewrite castRay_candidates. split.
  - intros Hnone t h Hobs. apply obstacle_candidates in Hobs.
    destruct (consider_min candidates None t h Hobs) as (t0 & h0 & Hfold & _).
    rewrite Hnone in Hfold. discriminate.
  - intros Hno.
    destruct (consider_origin candidates None) as [Heq | [Hin Hne]]; [assumption |].
    destruct (fold_left consider candidates None) as [[t h] |]; [| reflexivity].
    apply obstacle_candidates in Hin. now apply Hno in Hin.
Qed.

Lemma HitObj_eq_dec (h h' : HitObj) : {h = h'} + {h <> h'}.
Proof.
  assert (Hq : forall q q' : Q, {q = q'} + {q <> q'}).
  { decide equality; [apply Pos.eq_dec | apply Z.eq_dec]. }
  decide equality;
    decide equality; first [apply Hq | apply Z.eq_dec | apply Nat.eq_dec].
Qed.

(** An obstacle strictly nearer than every other one is the one returned. *)
Lemma castRay_strictly_nearest t h :
  obstacle t h ->
  (forall t' h', obstacle t' h' -> h' <> h -> (t < t')%Q) ->
  castRay cos sin sqrt emitter blockers emitters edges = Some (t, h).
Proof.
  intros Hobs Hstrict.
  destruct (castRay cos sin sqrt emitter blockers emitters edges) as [[t0 h0] |] eqn:Hcast.
  - apply castRay_nearest in Hcast as [Hobs0 Hmin].
    destruct (HitObj_eq_dec h0 h) as [-> | Hne].
    + now rewrite (obstacle_functional _ _ _ Hobs0 Hobs).
    + specialize (Hstrict _ _ Hobs0 Hne). specialize (Hmin _ _ Hobs). lra.
  - exfalso. destruct castRay_none as [Hnone _]. exact (Hnone Hcast t h Hobs).
Qed.

End RayCast.

Section OracleFacts.

Import Puzzle.

Variables cos sin sqrt : Q -> Q.

(** On slot angles the slot test of [areAtSamePosition] is the one-degree
    test of [hasAngleOrOpposite]: same slot or the slot six steps away. *)
Lemma areAtSamePosition_slots (p q : Z) :
  0 <= p < 12 -> 0 <= q < 12 ->
  (areAtSamePosition (positionToAngle q) (positionToAngle p) = true <->
   q = p \/ q = (p + 6) mod 12) /\
  areAtSamePosition (positionToAngle q) (positionToAngle p) =
  hasAngleOrOpposite [positionToAngle q] (positionToAngle p).
Proof.
  intros Hp Hq.
  destruct (slot_cases p Hp) as [-> | [-> | [-> | [-> | [-> | [-> |
    [-> | [-> | [-> | [-> | [-> | ->]]]]]]]]]]];
  destruct (slot_cases q Hq) as [-> | [-> | [-> | [-> | [-> | [-> |
    [-> | [-> | [-> | [-> | [-> | ->]]]]]]]]]]];
  (split; [vm_compute; split; [intros H; first [discriminate H | lia]
                              | intros [H | H]; first [reflexivity | discriminate H]]
          | vm_compute; reflexivity]).
Qed.

(** C2 — the per-emitter ray cast of the oracle.  A blocker of the
    emitter's own ring is tested only when it sits at the same or the
    opposite slot (on slot angles: within one degree of the emitter's angle
    or of its opposite); a blocker of another ring is always tested, with
    collision radius 12; every other emitter is tested with the strictly
    larger radius 13; the cast returns an obstacle of minimal ray parameter
    among blockers, emitters and edges; and a lit edge counts as hit exactly
    when the obstacle returned is that edge. *)
Theorem castRay_nearest_obstacle
    (emitter : Emitter) (blockers : list Blocker) (emitters : list Emitter)
    (edges : list EdgeLine) :
  let ex := e_x emitter in
  let ey := e_y emitter in
  let dx := beam_dx cos emitter in
  let dy := beam_dy sin emitter in
  let cast := castRay cos sin sqrt emitter blockers emitters edges in
  let obstacle := obstacle cos sin sqrt emitter blockers emitters edges in
  (* candidate blockers *)
  (forall n blocker,
      b_idx blocker = e_idx emitter ->
      areAtSamePosition (b_originalAngle blocker) (e_originalAngle emitter) = false ->
      blockerStep cos sin sqrt emitter n blocker = n) /\
  (forall n blocker,
      b_idx blocker <> e_idx emitter \/
      areAtSamePosition (b_originalAngle blocker) (e_originalAngle emitter) = true ->
      blockerStep cos sin sqrt emitter n blocker =
      consider n (option_map (fun t => (t, HitBlocker blocker))
                    (rayCircle sqrt ex ey dx dy (b_x blocker) (b_y blocker) (12 * 12)))) /\
  (forall p q, 0 <= p < 12 -> 0 <= q < 12 ->
      (areAtSamePosition (positionToAngle q) (positionToAngle p) = true <->
       q = p \/ q = (p + 6) mod 12) /\
      areAtSamePosition (positionToAngle q) (positionToAngle p) =
      hasAngleOrOpposite [positionToAngle q] (positionToAngle p)) /\
  (* candidate emitters *)
  (forall n other,
      sameEmitter other emitter = false ->
      emitterStep cos sin sqrt emitter n other =
      consider n (option_map (fun t => (t, HitEmitter other))
                    (rayCircle sqrt ex ey dx dy (e_x other) (e_y other) (13 * 13)))) /\
  (12 < 13)%Q /\
  (* the nearest obstacle decides *)
  (forall t h, cast = Some (t, h) ->
      obstacle t h /\ forall t' h', obstacle t' h' -> (t <= t')%Q) /\
  (cast = None <-> forall t h, ~ obstacle t h) /\
  (forall t h, obstacle t h ->
      (forall t' h', obstacle t' h' -> h' <> h -> (t < t')%Q) ->
      cast = Some (t, h)) /\
  (* a lit edge is hit only as the nearest obstacle *)
  (forall litIdx,
      emitterLights cos sin sqrt emitter blockers emitters edges litIdx = true <->
      exists t edge, cast = Some (t, HitEdge edge) /\ Z.of_nat (ed_i edge) = litIdx).
Proof.
  intros ex ey dx dy cast obstacle.
  refine (conj _ (conj _ (conj _ (conj _ (conj _ (conj _ (conj _ (conj _ _)))))))).
  - intros n blocker Hidx Hslot.
    unfold blockerStep. rewrite Hslot, andb_false_r.
    apply Nat.eqb_eq in Hidx. now rewrite Hidx.
  - intros n blocker Hcand.
    rewrite blockerStep_consider. unfold blockerCand, sameOrOppositeSlot.
    destruct Hcand as [Hidx | Hslot].
    + apply Nat.eqb_neq in Hidx. now rewrite Hidx.
    + now rewrite Hslot, orb_true_r.
  - apply areAtSamePosition_slots.
  - intros n other Hsame.
    rewrite emitterStep_consider. unfold emitterCand. now rewrite Hsame.
  - reflexivity.
  - apply castRay_nearest.
  - apply castRay_none.
  - apply castRay_strictly_nearest.
  - intros litIdx. unfold emitterLights. fold cast. split.
    + destruct cast as [[t [b | o | edge]] |]; try discriminate.
      intros H. apply Z.eqb_eq in H. now exists t, edge.
    + intros (t & edge & -> & <-). apply Z.eqb_refl.
Qed.

End OracleFacts.

(** ** The exhaustive rotation search *)

Section RotationSearch.

Import Puzzle.

Variables cos sin sqrt : Q -> Q.

Lemma range_In (n : nat) (r : Z) : In r (JS.range n) <-> 0 <= r < Z.of_nat n.
Proof.
  unfold JS.range. rewrite in_map_iff. split.
  - intros (k & <- & Hk). apply in_seq in Hk. lia.
  - intros Hr. exists (Z.to_nat r). split; [lia |]. apply in_seq. lia.
Qed.

Lemma getPolygonPoints_length (sides : Z) (radius center : Q) :
  length (getPolygonPoints cos sin sides radius center) = Z.to_nat sides.
Proof.
  unfold getPolygonPoints, JS.range. now rewrite !length_map, length_seq.
Qed.

(** On a list of twelve vertices every [points[(i + 1) % SIDES]] exists. *)
Lemma edgeLinesFrom_defined (points : list (Q * Q)) (l : list (nat * (Q * Q))) :
  length points = 12%nat ->
  exists edges, edgeLinesFrom points l = Some edges /\ length edges = length l.
Proof.
  intros Hlen. induction l as [| [i pt] l (edges & IH & IHlen)]; cbn [edgeLinesFrom].
  - now exists [].
  - destruct (nth_error points (S i mod Z.to_nat SIDES)) as [next |] eqn:Hnth.
    + rewrite IH. eexists. split; [reflexivity |].
      cbn [length]. now rewrite IHlen.
    + apply nth_error_None in Hnth. rewrite Hlen in Hnth.
      pose proof (Nat.mod_upper_bound (S i) (Z.to_nat SIDES)) as Hub.
      change (Z.to_nat SIDES) with 12%nat in *. lia.
Qed.

Lemma edgeLines_canonical :
  exists edges,
    edgeLines (getPolygonPoints cos sin SIDES RADIUS CENTER) = Some edges /\
    length edges = 12%nat.
Proof.
  unfold edgeLines.
  destruct (edgeLinesFrom_defined (getPolygonPoints cos sin SIDES RADIUS CENTER)
              (indexed (getPolygonPoints cos sin SIDES RADIUS CENTER)))
    as (edges & Hedges & Hlen).
  - apply getPolygonPoints_length.
  - exists edges. split; [assumption |].
    rewrite Hlen. unfold indexed.
    rewrite length_combine, length_seq, Nat.min_id.
    apply getPolygonPoints_length.
Qed.

Lemma Some_true_iff (b : bool) : Some b = Some true <-> b = true.
Proof. split; [now intros [= ->] | now intros ->]. Qed.

(** C1 — for every puzzle and the canonical 12-gon vertex list,
    [isPuzzleSolvable] returns true if and only if some rotation vector
    [r0, r1, r2] with each [ri] in [0..11] (applied as multiples of 30
    degrees) makes every lit edge the nearest obstacle of the ray of some
    emitter; a puzzle without lit edges is reported solvable. *)
Theorem isPuzzleSolvable_iff_rotation (puzzle : Puzzle) :
  let points := getPolygonPoints cos sin SIDES RADIUS CENTER in
  exists edges,
    edgeLines points = Some edges /\
    (isPuzzleSolvable cos sin sqrt puzzle points = Some true <->
     exists r0 r1 r2,
       0 <= r0 < 12 /\ 0 <= r1 < 12 /\ 0 <= r2 < 12 /\
       let rotations := mkRings (r0 * 30) (r1 * 30) (r2 * 30) in
       forall litIdx, In litIdx (litEdges puzzle) ->
         exists emitter t edge,
           In emitter (emittersOf cos sin puzzle rotations) /\
           castRay cos sin sqrt emitter (blockersOf cos sin puzzle rotations)
                   (emittersOf cos sin puzzle rotations) edges = Some (t, HitEdge edge) /\
           Z.of_nat (ed_i edge) = litIdx) /\
    (isPuzzleSolvable cos sin sqrt puzzle points = Some true \/
     isPuzzleSolvable cos sin sqrt puzzle points = Some false) /\
    (litEdges puzzle = [] -> isPuzzleSolvable cos sin sqrt puzzle points = Some true).
Proof.
  intros points.
  destruct edgeLines_canonical as (edges & Hedges & _). fold points in Hedges.
  exists edges. split; [assumption |].
  assert (Hlights : forall emitter bs es litIdx,
    emitterLights cos sin sqrt emitter bs es edges litIdx = true <->
    exists t edge, castRay cos sin sqrt emitter bs es edges = Some (t, HitEdge edge) /\
                   Z.of_nat (ed_i edge) = litIdx).
  { intros emitter bs es litIdx. unfold emitterLights. split.
    - destruct (castRay _ _ _ _ _ _ _) as [[t [b | o | edge]] |]; try discriminate.
      intros H. apply Z.eqb_eq in H. now exists t, edge.
    - intros (t & edge & -> & <-). apply Z.eqb_refl. }
  unfold isPuzzleSolvable. rewrite Hedges.
  split; [| split].
  - rewrite Some_true_iff. split.
    + intros H.
      apply existsb_exists in H as (r0 & Hr0 & H).
      apply existsb_exists in H as (r1 & Hr1 & H).
      apply existsb_exists in H as (r2 & Hr2 & H).
      apply range_In in Hr0, Hr1, Hr2.
      change (Z.of_nat (Z.to_nat SIDES)) with 12 in *.
      exists r0, r1, r2. repeat (split; [assumption |]).
      intros litIdx Hlit. unfold allLit in H.
      rewrite forallb_forall in H. specialize (H litIdx Hlit).
      apply existsb_exists in H as (emitter & Hin & Hhit).
      apply Hlights in Hhit as (t & edge & Hcast & Hidx).
      now exists emitter, t, edge.
    + intros (r0 & r1 & r2 & Hr0 & Hr1 & Hr2 & H).
      apply existsb_exists. exists r0. split; [now apply range_In |].
      apply existsb_exists. exists r1. split; [now apply range_In |].
      apply existsb_exists. exists r2. split; [now apply range_In |].
      unfold allLit. apply forallb_forall. intros litIdx Hlit.
      destruct (H litIdx Hlit) as (emitter & t & edge & Hin & Hcast & Hidx).
      apply existsb_exists. exists emitter. split; [assumption |].
      apply Hlights. now exists t, edge.
  - destruct (existsb _ _); [now left | now right].
  - intros Hempty. apply Some_true_iff.
    apply existsb_exists. exists 0. split; [apply range_In; now vm_compute |].
    apply existsb_exists. exists 0. split; [apply range_In; now vm_compute |].
    apply existsb_exists. exists 0. split; [apply range_In; now vm_compute |].
    unfold allLit. rewrite Hempty. reflexivity.
Qed.

End RotationSearch.

(** ** The distribution component of the fitness *)

Section Distribution.

Import Genome.

Variable exp : Q -> Q.

(** Some ring carries an emitter; some ring carries none. *)
Definition hasEmitter (c : Chromosome) : Prop :=
  Exists (fun circle => emitters circle <> []) (rings_list (circles c)).

Definition someRingEmpty (c : Chromosome) : Prop :=
  Exists (fun circle => emitters circle = []) (rings_list (circles c)).

Lemma Exists_rings {A} (P : A -> Prop) (r : Rings A) :
  Exists P (rings_list r) <-> P (ring0 r) \/ P (ring1 r) \/ P (ring2 r).
Proof.
  unfold rings_list. rewrite !Exists_cons, Exists_nil. tauto.
Qed.

Lemma length_zero_iff {A} (l : list A) : Z.of_nat (length l) = 0 <-> l = [].
Proof. destruct l; simpl; split; intros H; try reflexivity; try discriminate; lia. Qed.

Lemma total_emitterCounts (c : Chromosome) :
  total (emitterCounts c) =
  Z.of_nat (length (emitters (ring0 (circles c)))) +
  Z.of_nat (length (emitters (ring1 (circles c)))) +
  Z.of_nat (length (emitters (ring2 (circles c)))).
Proof. reflexivity. Qed.

Lemma hasEmitter_total (c : Chromosome) : hasEmitter c -> 0 < total (emitterCounts c).
Proof.
  unfold hasEmitter. rewrite Exists_rings, total_emitterCounts.
  pose proof (length_zero_iff (emitters (ring0 (circles c)))).
  pose proof (length_zero_iff (emitters (ring1 (circles c)))).
  pose proof (length_zero_iff (emitters (ring2 (circles c)))).
  intros [Hne | [Hne | Hne]];
    assert (Z.of_nat (length (emitters (ring0 (circles c)))) <> 0 \/
            Z.of_nat (length (emitters (ring1 (circles c)))) <> 0 \/
            Z.of_nat (length (emitters (ring2 (circles c)))) <> 0) by tauto;
    lia.
Qed.

Lemma someRingEmpty_emptyCircles (c : Chromosome) :
  someRingEmpty c -> 1 <= emptyCircles (emitterCounts c).
Proof.
  unfold someRingEmpty. rewrite Exists_rings.
  unfold emptyCircles, emitterCounts, rings_map, rings_list; cbn [ring0 ring1 ring2 filter].
  intros H.
  destruct (emitters (ring0 (circles c))), (emitters (ring1 (circles c))),
           (emitters (ring2 (circles c))); simpl;
    try lia; exfalso; destruct H as [H | [H | H]]; discriminate H.
Qed.

Definition lopsided : Chromosome :=
  mkChromosome [0; 4; 9] (mkRings (mkCircle [0] []) (mkCircle [0] []) (mkCircle [] [])).

(** C8 as stated fails: with one emitter on each of the two inner rings
    and none on the outer ring, the simplified generator scores the
    distribution 0.1 (its "heavy penalty"), not zero. *)
Lemma distribution_not_zero :
  hasEmitter lopsided /\ someRingEmpty lopsided /\
  Simplified.calculateDistributionScore lopsided = (1 # 10)%Q /\
  ~ (Simplified.calculateDistributionScore lopsided == 0)%Q.
Proof.
  split; [| split; [| split]].
  - apply Exists_cons_hd. discriminate.
  - apply Exists_cons_tl, Exists_cons_tl, Exists_cons_hd. reflexivity.
  - reflexivity.
  - discriminate.
Qed.

(** C8 (as the code has it) — for every chromosome that holds an emitter
    while some ring holds none, the distribution component is the fixed
    penalty score 0.1 in the simplified generator, and in the full
    generator it is the evenness lowered by 0.3 for every empty ring and
    floored at zero; it is zero there exactly when the evenness does not
    exceed that penalty. *)
Theorem distribution_with_empty_ring (c : Chromosome) :
  hasEmitter c -> someRingEmpty c ->
  let counts := emitterCounts c in
  let penalty := (inject_Z (emptyCircles counts) * (3 # 10))%Q in
  Simplified.calculateDistributionScore c = (1 # 10)%Q /\
  Evolutionary.calculateDistributionFitness exp c =
    Qmax 0 (Evolutionary.evenness exp counts - penalty) /\
  (3 # 10 <= penalty)%Q /\
  (Evolutionary.calculateDistributionFitness exp c == 0 <->
   Evolutionary.evenness exp counts <= penalty)%Q.
Proof.
  intros Hem Hempty counts penalty.
  pose proof (hasEmitter_total c Hem) as Htot.
  pose proof (someRingEmpty_emptyCircles c Hempty) as Hk.
  assert (Htot0 : (total (emitterCounts c) =? 0) = false) by (apply Z.eqb_neq; lia).
  assert (Heq : Evolutionary.calculateDistributionFitness exp c =
                Qmax 0 (Evolutionary.evenness exp counts - penalty)).
  { unfold Evolutionary.calculateDistributionFitness. now rewrite Htot0. }
  split; [| split; [exact Heq | split]].
  - unfold Simplified.calculateDistributionScore. rewrite Htot0.
    assert (Hgt : (emptyCircles (emitterCounts c) >? 0) = true) by (apply Z.gtb_lt; lia).
    now rewrite Hgt.
  - unfold penalty. fold counts in Hk.
    assert (H1 : (1 <= inject_Z (emptyCircles counts))%Q).
    { change 1%Q with (inject_Z 1). now rewrite <- Zle_Qle. }
    lra.
  - rewrite Heq.
    destruct (Q.max_spec 0 (Evolutionary.evenness exp counts - penalty)) as [[Hlt ->] | [Hle ->]];
      split; intros H; lra.
Qed.

End Distribution.

Lemma distribution_with_empty_ring_witness :
  hasEmitter lopsided /\ someRingEmpty lopsided /\
  Simplified.calculateDistributionScore lopsided = (1 # 10)%Q.
Proof.
  assert (Hem : hasEmitter lopsided) by (apply Exists_cons_hd; discriminate).
  assert (Hempty : someRingEmpty lopsided)
    by (apply Exists_cons_tl, Exists_cons_tl, Exists_cons_hd; reflexivity).
  split; [exact Hem | split; [exact Hempty |]].
  exact (proj1 (distribution_with_empty_ring (fun _ => 1%Q) lopsided Hem Hempty)).
Defined.

(** ** The fitness of the simplified generator *)

Section SimplifiedFitness.

Import Genome Simplified.

(** Every ring of the chromosome carries an emitter. *)
Definition ringsNonEmpty (c : Chromosome) : Prop :=
  Forall (fun circle => emitters circle <> []) (rings_list (circles c)).

Lemma Forall_rings {A} (P : A -> Prop) (r : Rings A) :
  Forall P (rings_list r) <-> P (ring0 r) /\ P (ring1 r) /\ P (ring2 r).
Proof.
  unfold rings_list. split.
  - intros H. inversion H as [| ? ? H0 H']; subst.
    inversion H' as [| ? ? H1 H'']; subst.
    inversion H'' as [| ? ? H2 _]; subst. auto.
  - intros (H0 & H1 & H2). repeat constructor; assumption.
Qed.

Lemma length_pos {A} (l : list A) : l <> [] -> 1 <= Z.of_nat (length l).
Proof. destruct l; [congruence | simpl; lia]. Qed.

(** *** The three sub-scores lie in [0,1] *)

Lemma distributionScore_bounds (c : Chromosome) :
  ringsNonEmpty c ->
  (0 <= calculateDistributionScore c <= 1)%Q.
Proof.
  intros Hne. apply Forall_rings in Hne as (H0 & H1 & H2).
  apply length_pos in H0, H1, H2.
  unfold calculateDistributionScore.
  rewrite total_emitterCounts.
  unfold emptyCircles, emitterCounts, rings_map, rings_list, JS.max3, JS.min3.
  cbn [ring0 ring1 ring2 filter].
  set (n0 := Z.of_nat (length (emitters (ring0 (circles c))))) in *.
  set (n1 := Z.of_nat (length (emitters (ring1 (circles c))))) in *.
  set (n2 := Z.of_nat (length (emitters (ring2 (circles c))))) in *.
  assert (E0 : (n0 =? 0) = false) by (apply Z.eqb_neq; lia).
  assert (E1 : (n1 =? 0) = false) by (apply Z.eqb_neq; lia).
  assert (E2 : (n2 =? 0) = false) by (apply Z.eqb_neq; lia).
  assert (Et : (n0 + n1 + n2 =? 0) = false) by (apply Z.eqb_neq; lia).
  rewrite E0, E1, E2, Et. cbn [length Z.of_nat Z.gtb Z.compare].
  set (spread := Z.max n0 (Z.max n1 n2) - Z.min n0 (Z.min n1 n2)).
  set (tot := n0 + n1 + n2).
  assert (Hs : 0 <= spread <= tot) by (unfold spread, tot; lia).
  assert (Ht : (0 < inject_Z tot)%Q).
  { change 0%Q with (inject_Z 0). rewrite <- Zlt_Qlt. unfold tot. lia. }
  assert (Hs0 : (0 <= inject_Z spread)%Q).
  { change 0%Q with (inject_Z 0). rewrite <- Zle_Qle. lia. }
  assert (Hs1 : (inject_Z spread <= inject_Z tot)%Q) by (rewrite <- Zle_Qle; lia).
  assert (Hq0 : (0 <= inject_Z spread / inject_Z tot)%Q).
  { apply Qle_shift_div_l; [assumption | lra]. }
  assert (Hq1 : (inject_Z spread / inject_Z tot <= 1)%Q).
  { apply Qle_shift_div_r; [assumption | lra]. }
  lra.
Qed.

Lemma aestheticScore_bounds (c : Chromosome) :
  (0 <= calculateAestheticScore c <= 1)%Q.
Proof.
  unfold calculateAestheticScore.
  match goal with |- (0 <= Qmin ?s 1 <= 1)%Q => set (score := s) end.
  assert (Hscore : (5 # 10 <= score)%Q).
  { unfold score.
    destruct (Z.of_nat (length (litEdges c)) >=? 2); [| lra].
    match goal with
    | |- (_ <= _ + inject_Z ?a * _ + inject_Z ?b * _)%Q =>
        assert (Ha : 0 <= a); [| assert (Hb : 0 <= b)]
    end.
    - apply (fold_left_invariant (fun x => 0 <= x)); [lia |].
      intros acc x Hacc. destruct (JS.includes _ _); lia.
    - apply (fold_left_invariant (fun x => 0 <= x)); [lia |].
      intros acc x Hacc. destruct (_ =? _); lia.
    - match goal with
      | |- (_ <= _ + inject_Z ?a * _ + inject_Z ?b * _)%Q =>
          assert (Ha' : (0 <= inject_Z a)%Q)
            by (change 0%Q with (inject_Z 0); now rewrite <- Zle_Qle);
          assert (Hb' : (0 <= inject_Z b)%Q)
            by (change 0%Q with (inject_Z 0); now rewrite <- Zle_Qle)
      end.
      lra. }
  clearbody score.
  destruct (Q.min_spec score 1) as [[Hlt Heq] | [Hle Heq]]; rewrite Heq; lra.
Qed.

Lemma dedup_length (l seen : list Z) : (length (JS.dedup l seen) <= length l)%nat.
Proof.
  revert seen. induction l as [| x l IH]; intros seen; simpl; [lia |].
  destruct (JS.includes seen x); simpl.
  - specialize (IH seen). lia.
  - specialize (IH (seen ++ [x])). lia.
Qed.

Lemma varietyScore_bounds (c : Chromosome) :
  ringsNonEmpty c ->
  exists v, calculateVarietyScore c = Some v /\ (0 <= v <= 1)%Q.
Proof.
  intros Hne. apply Forall_rings in Hne as (H0 & _).
  unfold calculateVarietyScore.
  set (vs := fold_left _ (rings_list (circles c)) 1%Q).
  assert (Hvs : (vs <= 1)%Q).
  { unfold vs. apply (fold_left_invariant (fun x => (x <= 1)%Q)); [lra |].
    intros acc circle Hacc. destruct (_ >? 4); lra. }
  clearbody vs.
  set (allPositions := flat_map emitters (rings_list (circles c))).
  assert (Hall : allPositions <> []).
  { unfold allPositions, rings_list. simpl.
    destruct (emitters (ring0 (circles c))); [congruence | discriminate]. }
  pose proof (dedup_length allPositions []) as Hdedup.
  destruct allPositions as [| p ps] eqn:Hpos; [congruence |].
  rewrite <- Hpos in *. clear Hpos.
  eexists. split; [reflexivity |].
  set (u := Z.of_nat (length (JS.dedup allPositions []))).
  set (n := Z.of_nat (length allPositions)).
  assert (Hn : 1 <= n) by (unfold n; now apply length_pos).
  assert (Hu : 0 <= u <= n) by (unfold u, n; lia).
  assert (HnQ : (0 < inject_Z n)%Q).
  { change 0%Q with (inject_Z 0). rewrite <- Zlt_Qlt. lia. }
  assert (HuQ : (0 <= inject_Z u)%Q).
  { change 0%Q with (inject_Z 0). rewrite <- Zle_Qle. lia. }
  assert (HunQ : (inject_Z u <= inject_Z n)%Q) by (rewrite <- Zle_Qle; lia).
  set (db := (inject_Z u / inject_Z n)%Q).
  assert (Hdb0 : (0 <= db)%Q) by (apply Qle_shift_div_l; [assumption | lra]).
  assert (Hdb1 : (db <= 1)%Q) by (apply Qle_shift_div_r; [assumption | lra]).
  clearbody db.
  assert (Hprod : (vs * db <= 1)%Q).
  { destruct (Qlt_le_dec vs 0) as [Hneg | Hpos].
    - assert ((- vs) * db >= 0)%Q by (apply Qmult_le_0_compat; lra). lra.
    - assert (vs * db <= 1 * 1)%Q by (apply Qmult_le_compat_nonneg; split; lra). lra. }
  destruct (Q.max_spec 0 (vs * db)) as [[Hlt Heq] | [Hle Heq]]; rewrite Heq; lra.
Qed.

(** What [calculateFitness] leaves in an individual whose rings all carry
    an emitter. *)
Definition scored (i : Individual) : Prop :=
  exists f, fitness i = Some f /\
            (solvable i = true -> (6 # 10 <= f)%Q) /\
            (solvable i = false -> (f <= 5 # 10)%Q).

Lemma fitnessOf_bounds (c : Chromosome) (verdict : bool) :
  ringsNonEmpty c ->
  scored (mkIndividual c (fitnessOf verdict c) verdict).
Proof.
  intros Hne.
  pose proof (distributionScore_bounds c Hne) as Hd.
  pose proof (aestheticScore_bounds c) as Ha.
  destruct (varietyScore_bounds c Hne) as (v & Hv & Hvb).
  unfold scored, fitnessOf. cbn [fitness solvable]. rewrite Hv.
  destruct verdict; eexists; (split; [reflexivity |]); split; intros H;
    try discriminate; lra.
Qed.

(** *** Sorting by fitness *)

(** [a] may stand before [b] in a population sorted best first. *)
Definition ranksAbove (a b : Individual) : Prop :=
  exists fa fb, fitness a = Some fa /\ fitness b = Some fb /\ (fb <= fa)%Q.

Definition hasFitness (i : Individual) : Prop := exists f, fitness i = Some f.

Lemma insertByFitness_In (x y : Individual) (l : list Individual) :
  In y (insertByFitness x l) <-> y = x \/ In y l.
Proof.
  induction l as [| z l IH]; simpl.
  - intuition.
  - destruct (fitter x z); simpl; rewrite ?IH; intuition.
Qed.

Lemma insertByFitness_sorted (x : Individual) (l : list Individual) :
  hasFitness x -> Forall hasFitness l ->
  StronglySorted ranksAbove l ->
  StronglySorted ranksAbove (insertByFitness x l).
Proof.
  intros [fx Hfx] Hall Hsorted.
  induction Hsorted as [| y l Hsorted IH Hy]; simpl.
  - repeat constructor.
  - inversion Hall as [| ? ? [fy Hfy] Hall']; subst.
    unfold fitter. rewrite Hfx, Hfy.
    destruct (JS.Qltb fy fx) eqn:Hlt.
    + apply Qltb_lt in Hlt.
      constructor; [now constructor |].
      constructor.
      * exists fx, fy. repeat split; try assumption. lra.
      * rewrite Forall_forall in *. intros z Hz.
        destruct (Hy z Hz) as (fy' & fz & Hfy' & Hfz & Hle).
        exists fx, fz. repeat split; try assumption.
        rewrite Hfy in Hfy'. injection Hfy' as <-. lra.
    + apply Qltb_ge in Hlt.
      constructor; [now apply IH |].
      rewrite Forall_forall in *. intros z Hz.
      apply insertByFitness_In in Hz as [-> | Hz]; [| now apply Hy].
      exists fy, fx. repeat split; assumption.
Qed.

Lemma sortByFitness_spec (population : list Individual) :
  Forall hasFitness population ->
  StronglySorted ranksAbove (sortByFitness population) /\
  forall i, In i (sortByFitness population) <-> In i population.
Proof.
  unfold sortByFitness.
  assert (Hgen : forall sorted,
    Forall hasFitness population -> Forall hasFitness sorted ->
    StronglySorted ranksAbove sorted ->
    StronglySorted ranksAbove
      (fold_left (fun sorted x => insertByFitness x sorted) population sorted) /\
    forall i, In i (fold_left (fun sorted x => insertByFitness x sorted) population sorted)
              <-> In i sorted \/ In i population).
  { induction population as [| x population IH]; intros sorted Hpop Hs Hsorted; simpl.
    - split; [assumption | intuition].
    - inversion Hpop as [| ? ? Hx Hpop']; subst.
      destruct (IH (insertByFitness x sorted)) as [IHs IHin].
      + assumption.
      + rewrite Forall_forall in *. intros z Hz.
        apply insertByFitness_In in Hz as [-> | Hz]; auto.
      + now apply insertByFitness_sorted.
      + split; [assumption |].
        intros i. rewrite IHin, insertByFitness_In. intuition. }
  intros Hpop. destruct (Hgen [] Hpop) as [Hs Hin].
  - constructor.
  - constructor.
  - split; [assumption |]. intros i. rewrite Hin. simpl. intuition.
Qed.

Lemma StronglySorted_split {A} (R : A -> A -> Prop) (l1 l2 : list A) (a b : A) :
  StronglySorted R (l1 ++ a :: l2) -> In b l2 -> R a b.
Proof.
  induction l1 as [| x l1 IH]; simpl; intros Hs Hb.
  - inversion Hs as [| ? ? _ Hall]; subst.
    rewrite Forall_forall in Hall. now apply Hall.
  - inversion Hs; subst. now apply IH.
Qed.

Variables cos sin sqrt : Q -> Q.

Lemma evaluatePopulation_scored (population : list Individual) :
  Forall (fun i => ringsNonEmpty (chromosome i)) population ->
  Forall scored (evaluatePopulation cos sin sqrt population).
Proof.
  intros Hpop. unfold evaluatePopulation, evaluatePopulationBy.
  apply Forall_map. rewrite Forall_forall in *.
  intros i Hi. unfold calculateFitnessBy.
  apply fitnessOf_bounds. now apply Hpop.
Qed.

(** C10 — in the simplified generator, after [evaluatePopulation] every
    chromosome whose three rings each carry an emitter has a fitness of at
    least 0.6 when judged solvable and of at most 0.5 when judged
    unsolvable; consequently, in the population sorted by fitness no
    unsolvable chromosome stands before a solvable one, and the solvable
    one's fitness is strictly larger. *)
Theorem solvable_ranked_first (population : list Individual) :
  Forall (fun i => ringsNonEmpty (chromosome i)) population ->
  let ranked := sortByFitness (evaluatePopulation cos sin sqrt population) in
  (forall i, In i ranked ->
     exists f, fitness i = Some f /\
               (solvable i = true -> (6 # 10 <= f)%Q) /\
               (solvable i = false -> (f <= 5 # 10)%Q)) /\
  (forall a b fa fb, In a ranked -> In b ranked ->
     solvable a = true -> solvable b = false ->
     fitness a = Some fa -> fitness b = Some fb -> (fb < fa)%Q) /\
  (forall before a after b,
     ranked = before ++ a :: after -> In b after ->
     solvable b = true -> solvable a = true).
Proof.
  intros Hpop ranked.
  pose proof (evaluatePopulation_scored population Hpop) as Hscored.
  assert (Hfit : Forall hasFitness (evaluatePopulation cos sin sqrt population)).
  { eapply Forall_impl; [| exact Hscored]. intros i (f & Hf & _). now exists f. }
  destruct (sortByFitness_spec _ Hfit) as [Hsorted Hin]. fold ranked in Hsorted, Hin.
  assert (Hranked : forall i, In i ranked -> scored i).
  { intros i Hi. apply Hin in Hi. rewrite Forall_forall in Hscored. now apply Hscored. }
  split; [exact Hranked | split].
  - intros a b fa fb Ha Hb Hsa Hsb Hfa Hfb.
    destruct (Hranked a Ha) as (fa' & Hfa' & Hlo & _).
    destruct (Hranked b Hb) as (fb' & Hfb' & _ & Hhi).
    rewrite Hfa in Hfa'. injection Hfa' as <-.
    rewrite Hfb in Hfb'. injection Hfb' as <-.
    specialize (Hlo Hsa). specialize (Hhi Hsb). lra.
  - intros before a after b Hsplit Hb Hsb.
    rewrite Hsplit in Hsorted.
    destruct (StronglySorted_split _ _ _ _ _ Hsorted Hb) as (fa & fb & Hfa & Hfb & Hle).
    assert (Ha : In a ranked) by (rewrite Hsplit; apply in_elt).
    assert (Hb' : In b ranked) by (rewrite Hsplit; apply in_or_app; right; now right).
    destruct (solvable a) eqn:Hsa; [reflexivity | exfalso].
    destruct (Hranked a Ha) as (fa' & Hfa' & _ & Hhi).
    destruct (Hranked b Hb') as (fb' & Hfb' & Hlo & _).
    rewrite Hfa in Hfa'. injection Hfa' as <-.
    rewrite Hfb in Hfb'. injection Hfb' as <-.
    specialize (Hlo Hsb). specialize (Hhi Hsa). lra.
Qed.

End SimplifiedFitness.

Definition balanced_example : Genome.Chromosome :=
  Genome.mkChromosome [0; 4; 9]
    (mkRings (Genome.mkCircle [0] [3]) (Genome.mkCircle [5] []) (Genome.mkCircle [7; 9] [])).

Lemma ringsNonEmpty_balanced_example : ringsNonEmpty balanced_example.
Proof. repeat constructor; discriminate. Qed.

Lemma solvable_ranked_first_witness :
  let population :=
    [Simplified.mkIndividual balanced_example None false;
     Simplified.mkIndividual balanced_example None false] in
  Forall (fun i => ringsNonEmpty (Simplified.chromosome i)) population /\
  forall i,
    In i (Simplified.sortByFitness
            (Simplified.evaluatePopulation (fun _ => 0%Q) (fun _ => 0%Q) (fun _ => 0%Q)
               population)) ->
    exists f, Simplified.fitness i = Some f /\
              (Simplified.solvable i = true -> (6 # 10 <= f)%Q) /\
              (Simplified.solvable i = false -> (f <= 5 # 10)%Q).
Proof.
  intros population.
  assert (Hpop : Forall (fun i => ringsNonEmpty (Simplified.chromosome i)) population).
  { repeat constructor; discriminate. }
  split; [exact Hpop |].
  exact (proj1 (solvable_ranked_first (fun _ => 0%Q) (fun _ => 0%Q) (fun _ => 0%Q)
                  population Hpop)).
Defined.

(** ** Randomised computations *)

Section RandFacts.

Lemma legal_spec (r : Q) : JS.legal r = true <-> (0 <= r /\ r < 1)%Q.
Proof.
  unfold JS.legal. rewrite andb_true_iff, Qle_bool_iff, Qltb_lt. tauto.
Qed.

(** A legal draw scaled to [n] slots falls on one of them. *)
Lemma randomInt_range (r : Q) (n : Z) :
  JS.legal r = true -> 0 < n -> 0 <= JS.randomInt r n < n.
Proof.
  intros Hr Hn. apply legal_spec in Hr as [H0 H1].
  unfold JS.randomInt, JS.Math_floor.
  assert (Hn' : (0 < inject_Z n)%Q).
  { change 0%Q with (inject_Z 0). now rewrite <- Zlt_Qlt. }
  split.
  - rewrite <- (Qfloor_Z 0). apply Qfloor_resp_le.
    change (inject_Z 0) with 0%Q. apply Qmult_le_0_compat; lra.
  - assert (Hlt : (r * inject_Z n < inject_Z n)%Q).
    { setoid_replace (inject_Z n) with (1 * inject_Z n)%Q at 2 by ring.
      apply Qmult_lt_compat_r; assumption. }
    pose proof (Qfloor_le (r * inject_Z n)) as Hfl.
    rewrite Zlt_Qlt. lra.
Qed.

(** [m] never raises. *)
Definition nothrow {A} (m : JS.Rand A) : Prop := forall tape, m tape <> JS.Threw.

Lemma nothrow_ret {A} (a : A) : nothrow (JS.ret a).
Proof. intros tape. discriminate. Qed.

Lemma nothrow_random : nothrow JS.random.
Proof. intros [| r tape]; simpl; [discriminate |]. destruct (JS.legal r); discriminate. Qed.

Lemma nothrow_bind {A B} (m : JS.Rand A) (k : A -> JS.Rand B) :
  nothrow m -> (forall a, nothrow (k a)) -> nothrow (JS.bind m k).
Proof.
  intros Hm Hk tape. unfold JS.bind.
  destruct (m tape) as [a rest | |] eqn:Hrun.
  - apply Hk.
  - discriminate.
  - now apply Hm in Hrun.
Qed.

(** What a finished computation returned satisfies [Q]. *)
Definition post {A} (m : JS.Rand A) (Q : A -> Prop) : Prop :=
  forall tape a rest, m tape = JS.Done a rest -> Q a.

(** On this tape [m] finishes, and what it returned satisfies [Q]. *)
Definition returns {A} (m : JS.Rand A) (tape : JS.Tape) (Q : A -> Prop) : Prop :=
  match m tape with
  | JS.Done a _ => Q a
  | _ => False
  end.

Lemma returns_intro {A} (m : JS.Rand A) (tape : JS.Tape) (Q : A -> Prop) :
  match m tape with JS.Done _ _ => true | _ => false end = true ->
  (forall a rest, m tape = JS.Done a rest -> Q a) ->
  returns m tape Q.
Proof.
  unfold returns. intros Hdone HQ.
  destruct (m tape) as [a rest | |]; [now apply (HQ a rest) | discriminate | discriminate].
Qed.

Lemma post_ret {A} (a : A) (Q : A -> Prop) : Q a -> post (JS.ret a) Q.
Proof. intros Ha tape a' rest [= <- _]. exact Ha. Qed.

Lemma post_throw {A} (Q : A -> Prop) : post JS.throw Q.
Proof. intros tape a rest H. discriminate H. Qed.

Lemma post_bind {A B} (m : JS.Rand A) (k : A -> JS.Rand B) (P : A -> Prop) (Q : B -> Prop) :
  post m P -> (forall a, P a -> post (k a) Q) -> post (JS.bind m k) Q.
Proof.
  intros Hm Hk tape b rest. unfold JS.bind.
  destruct (m tape) as [a rest' | |] eqn:Hrun; try discriminate.
  intros Hk'. exact (Hk a (Hm _ _ _ Hrun) _ _ _ Hk').
Qed.

Lemma post_weaken {A} (m : JS.Rand A) (P Q : A -> Prop) :
  post m P -> (forall a, P a -> Q a) -> post m Q.
Proof. intros Hm Himp tape a rest Hrun. exact (Himp a (Hm _ _ _ Hrun)). Qed.

Lemma post_random : post JS.random (fun r => JS.legal r = true).
Proof.
  intros [| r tape] a rest; simpl; [discriminate |].
  destruct (JS.legal r) eqn:Hr; [| discriminate].
  now intros [= <- _].
Qed.

Lemma post_drawUntil (n : Z) (rejected : Z -> bool) :
  0 < n ->
  post (JS.drawUntil n rejected) (fun x => rejected x = false /\ 0 <= x < n).
Proof.
  intros Hn tape. induction tape as [| r tape IH]; intros x rest; simpl; [discriminate |].
  destruct (JS.legal r) eqn:Hr; [| discriminate].
  destruct (rejected (JS.randomInt r n)) eqn:Hrej; [apply IH |].
  intros [= <- _]. split; [assumption | now apply randomInt_range].
Qed.

Lemma nothrow_drawUntil (n : Z) (rejected : Z -> bool) : nothrow (JS.drawUntil n rejected).
Proof.
  intros tape. induction tape as [| r tape IH]; simpl; [discriminate |].
  destruct (JS.legal r); [| discriminate].
  destruct (rejected _); [exact IH | discriminate].
Qed.

End RandFacts.

(** ** Sorting lit edges *)

Section SortFacts.

Lemma insertAsc_perm (x : Z) (l : list Z) : Permutation (JS.insertAsc x l) (x :: l).
Proof.
  induction l as [| y l IH]; simpl; [reflexivity |].
  destruct (x <? y); [reflexivity |].
  rewrite IH. apply perm_swap.
Qed.

Lemma sortAsc_perm (l : list Z) : Permutation (JS.sortAsc l) l.
Proof.
  unfold JS.sortAsc.
  assert (Hgen : forall acc, Permutation (fold_left (fun acc x => JS.insertAsc x acc) l acc)
                                         (acc ++ l)).
  { induction l as [| x l IH]; intros acc; simpl.
    - now rewrite app_nil_r.
    - rewrite IH, insertAsc_perm. simpl. apply Permutation_middle. }
  apply (Hgen []).
Qed.

End SortFacts.

(** ** Out-of-range parameters of the generators *)

Section OutOfRange.

Import Puzzle.

(** An edge index of the dodecagon. *)
Definition edgeIndex (e : Z) : Prop := 0 <= e < 12.

(** The lit-edge count drawn from an inverted range lies strictly above
    [maxLit] and at most at [minLit]; from a proper range it lies inside. *)
Lemma numLitOf_bounds (r : Q) (minLit maxLit : Z) :
  JS.legal r = true ->
  (maxLit < minLit -> maxLit < numLitOf r minLit maxLit <= minLit) /\
  (minLit <= maxLit -> minLit <= numLitOf r minLit maxLit <= maxLit).
Proof.
  intros Hr. unfold numLitOf. split; intros Hrange.
  - apply legal_spec in Hr as [H0 H1].
    set (k := maxLit - minLit + 1). assert (Hk : k <= 0) by (unfold k; lia).
    assert (HkQ : (inject_Z k <= 0)%Q).
    { change 0%Q with (inject_Z 0). now rewrite <- Zle_Qle. }
    unfold JS.randomInt, JS.Math_floor.
    assert (Hlo : k <= Qfloor (r * inject_Z k)).
    { rewrite <- (Qfloor_Z k) at 1. apply Qfloor_resp_le.
      assert ((1 - r) * (- inject_Z k) >= 0)%Q by (apply Qmult_le_0_compat; lra). lra. }
    assert (Hhi : Qfloor (r * inject_Z k) <= 0).
    { rewrite <- (Qfloor_Z 0). apply Qfloor_resp_le.
      change (inject_Z 0) with 0%Q.
      assert (r * (- inject_Z k) >= 0)%Q by (apply Qmult_le_0_compat; lra). lra. }
    unfold k in *. lia.
  - pose proof (randomInt_range r (maxLit - minLit + 1) Hr ltac:(lia)). lia.
Qed.

Lemma includes_false (l : list Z) (x : Z) : JS.includes l x = false <-> ~ In x l.
Proof.
  rewrite <- includes_In. destruct (JS.includes l x); split; intros H; congruence.
Qed.

(** The rejection loop for lit edges: distinct edge indices, and as many as
    asked for (none when the count is not positive). *)
Lemma pickLitEdges_spec (numLit : Z) (tape : JS.Tape) :
  forall litEdges result rest,
    NoDup litEdges -> Forall edgeIndex litEdges ->
    pickLitEdges numLit litEdges tape = JS.Done result rest ->
    NoDup result /\ Forall edgeIndex result /\
    Z.of_nat (length result) = Z.max (Z.of_nat (length litEdges)) numLit.
Proof.
  induction tape as [| r tape IH]; intros litEdges result rest Hnd Hidx; simpl.
  - destruct (Z.of_nat (length litEdges) <? numLit) eqn:Hlt; [discriminate |].
    intros [= <- _]. apply Z.ltb_ge in Hlt. repeat split; try assumption. lia.
  - destruct (Z.of_nat (length litEdges) <? numLit) eqn:Hlt.
    + apply Z.ltb_lt in Hlt.
      destruct (JS.legal r) eqn:Hr; [| discriminate].
      destruct (JS.includes litEdges (JS.randomInt r SIDES)) eqn:Hinc; simpl.
      * intros Hrun. now apply IH in Hrun.
      * intros Hrun. apply IH in Hrun as (Hnd' & Hidx' & Hlen).
        -- repeat split; try assumption.
           rewrite Hlen, length_app. simpl. lia.
        -- apply includes_false in Hinc.
           apply NoDup_app; [assumption | repeat constructor; intros [] | ].
           intros x Hx [<- | []]. contradiction.
        -- apply Forall_app. split; [assumption |].
           constructor; [| constructor].
           now apply randomInt_range.
    + intros [= <- _]. apply Z.ltb_ge in Hlt. repeat split; try assumption. lia.
Qed.

Lemma nothrow_pickLitEdges (numLit : Z) (litEdges : list Z) :
  nothrow (pickLitEdges numLit litEdges).
Proof.
  intros tape. revert litEdges.
  induction tape as [| r tape IH]; intros litEdges; simpl.
  - destruct (_ <? _); discriminate.
  - destruct (_ <? _); [| discriminate].
    destruct (JS.legal r); [| discriminate].
    destruct (negb _); apply IH.
Qed.

Lemma nothrow_placeSlots (count : Z) (usedPositions placed : list Z) :
  nothrow (placeSlots count usedPositions placed).
Proof.
  intros tape. revert usedPositions placed.
  induction tape as [| r tape IH]; intros usedPositions placed; simpl.
  - destruct (_ <? _); discriminate.
  - destruct (_ <? _); [| discriminate].
    destruct (JS.legal r); [| discriminate].
    destruct (_ && _); apply IH.
Qed.

Lemma nothrow_makeCircle (radius : Q) : nothrow (makeCircle radius).
Proof.
  unfold makeCircle.
  apply nothrow_bind; [apply nothrow_random | intros r1].
  apply nothrow_bind; [apply nothrow_random | intros r2].
  apply nothrow_bind; [apply nothrow_placeSlots | intros placedLasers].
  apply nothrow_bind; [apply nothrow_placeSlots | intros placedBlockers].
  apply nothrow_ret.
Qed.

Lemma nothrow_generatePuzzle (minLit maxLit : Z) : nothrow (generatePuzzle minLit maxLit).
Proof.
  unfold generatePuzzle.
  apply nothrow_bind; [apply nothrow_random | intros r].
  apply nothrow_bind; [apply nothrow_pickLitEdges | intros litEdges].
  repeat (apply nothrow_bind; [apply nothrow_makeCircle | intros ?]).
  apply nothrow_ret.
Qed.

(** Twelve distinct edge indices at most. *)
Lemma edgeIndex_NoDup_length (l : list Z) :
  NoDup l -> Forall edgeIndex l -> (length l <= 12)%nat.
Proof.
  intros Hnd Hidx.
  change 12%nat with (length (JS.range 12)).
  apply NoDup_incl_length; [assumption |].
  intros x Hx. rewrite Forall_forall in Hidx.
  apply range_In. exact (Hidx x Hx).
Qed.

(** The lit edges of a generated puzzle. *)
Lemma generatePuzzle_litEdges (minLit maxLit : Z) (tape : JS.Tape) (p : Puzzle)
    (rest : JS.Tape) :
  generatePuzzle minLit maxLit tape = JS.Done p rest ->
  exists r tape',
    tape = r :: tape' /\ JS.legal r = true /\
    NoDup (litEdges p) /\ Forall edgeIndex (litEdges p) /\
    Z.of_nat (length (litEdges p)) = Z.max 0 (numLitOf r minLit maxLit).
Proof.
  unfold generatePuzzle, JS.bind at 1.
  destruct tape as [| r tape']; simpl; [discriminate |].
  destruct (JS.legal r) eqn:Hr; [| discriminate].
  unfold JS.bind at 1.
  destruct (pickLitEdges _ [] tape') as [edges tape1 | |] eqn:Hpick; try discriminate.
  apply pickLitEdges_spec in Hpick as (Hnd & Hidx & Hlen);
    [| constructor | constructor].
  unfold JS.bind at 1.
  destruct (makeCircle 50 tape1) as [c0 tape2 | |]; try discriminate.
  unfold JS.bind at 1.
  destruct (makeCircle 90 tape2) as [c1 tape3 | |]; try discriminate.
  unfold JS.bind at 1.
  destruct (makeCircle 130 tape3) as [c2 tape4 | |]; try discriminate.
  intros [= <- _]. cbn [litEdges].
  exists r, tape'.
  split; [reflexivity |]. split; [exact Hr |]. split; [| split].
  - now rewrite (sortAsc_perm edges).
  - now rewrite (sortAsc_perm edges).
  - now rewrite (Permutation_length (sortAsc_perm edges)).
Qed.

(** *** A run that returns *)

(** The draw that lands on slot [k]. *)
Definition slotDraw (k : nat) : Q := (inject_Z (Z.of_nat k) / 12)%Q.

Lemma slotDraw_legal (k : nat) : (k < 12)%nat -> JS.legal (slotDraw k) = true.
Proof.
  intros Hk. apply legal_spec. unfold slotDraw.
  assert (H0 : (0 <= inject_Z (Z.of_nat k))%Q).
  { change 0%Q with (inject_Z 0). rewrite <- Zle_Qle. lia. }
  assert (H1 : (inject_Z (Z.of_nat k) < 12)%Q).
  { change 12%Q with (inject_Z 12). rewrite <- Zlt_Qlt. lia. }
  split.
  - apply Qle_shift_div_l; [reflexivity | lra].
  - apply Qlt_shift_div_r; [reflexivity | lra].
Qed.

Lemma slotDraw_randomInt (k : nat) : JS.randomInt (slotDraw k) 12 = Z.of_nat k.
Proof.
  unfold JS.randomInt, JS.Math_floor, slotDraw.
  rewrite <- (Qfloor_Z (Z.of_nat k)) at 2.
  apply Qfloor_comp. change (inject_Z 12) with 12%Q. field.
Qed.

Lemma range_S (k : nat) : JS.range (S k) = JS.range k ++ [Z.of_nat k].
Proof. unfold JS.range. now rewrite seq_S, map_app. Qed.

Lemma range_length (k : nat) : length (JS.range k) = k.
Proof. unfold JS.range. now rewrite length_map, length_seq. Qed.

Lemma pickLitEdges_done (numLit : Z) (litEdges : list Z) (tape : JS.Tape) :
  numLit <= Z.of_nat (length litEdges) ->
  pickLitEdges numLit litEdges tape = JS.Done litEdges tape.
Proof.
  intros Hle. apply Z.ltb_ge in Hle.
  destruct tape; simpl; now rewrite Hle.
Qed.

Lemma pickLitEdges_run (n : nat) :
  forall k rest,
    (k + n <= 12)%nat ->
    pickLitEdges (Z.of_nat (k + n)) (JS.range k) (map slotDraw (seq k n) ++ rest) =
    JS.Done (JS.range (k + n)) rest.
Proof.
  induction n as [| n IH]; intros k rest Hk.
  - rewrite Nat.add_0_r. apply pickLitEdges_done. rewrite range_length. lia.
  - cbn [seq map app pickLitEdges].
    rewrite range_length.
    assert (Hlt : (Z.of_nat k <? Z.of_nat (k + S n)) = true) by (apply Z.ltb_lt; lia).
    rewrite Hlt, slotDraw_legal by lia.
    change SIDES with 12. rewrite slotDraw_randomInt.
    assert (Hfresh : JS.includes (JS.range k) (Z.of_nat k) = false).
    { apply includes_false. rewrite range_In. lia. }
    rewrite Hfresh. cbn [negb]. rewrite <- range_S.
    replace (k + S n)%nat with (S k + n)%nat by lia.
    apply IH. lia.
Qed.

Lemma makeCircle_run (radius : Q) (rest : JS.Tape) :
  makeCircle radius (0%Q :: 0%Q :: 0%Q :: (1 # 12)%Q :: rest) =
  JS.Done (mkCircle radius [15] [45]) rest.
Proof. destruct rest; reflexivity. Qed.

(** With draws that never collide, [generatePuzzle] returns for every
    inverted range whose upper end [minLit] is at most twelve. *)
Lemma generatePuzzle_returns (minLit maxLit : Z) :
  maxLit < minLit -> minLit <= 12 ->
  exists tape p rest, generatePuzzle minLit maxLit tape = JS.Done p rest.
Proof.
  intros Hinv Hmax.
  set (circleDraws := [0%Q; 0%Q; 0%Q; (1 # 12)%Q]).
  exists (0%Q :: map slotDraw (seq 0 (Z.to_nat minLit))
               ++ circleDraws ++ circleDraws ++ circleDraws ++ []).
  assert (Hnum : numLitOf 0 minLit maxLit = minLit).
  { unfold numLitOf, JS.randomInt, JS.Math_floor.
    rewrite (Qfloor_comp _ (inject_Z 0)) by (change (inject_Z 0) with 0%Q; ring).
    rewrite Qfloor_Z. lia. }
  unfold generatePuzzle, JS.bind at 1. cbn [JS.random].
  change (JS.legal 0) with true. cbv iota. rewrite Hnum.
  unfold JS.bind at 1.
  assert (Hpick : pickLitEdges minLit []
                    (map slotDraw (seq 0 (Z.to_nat minLit))
                       ++ circleDraws ++ circleDraws ++ circleDraws ++ []) =
                  JS.Done (JS.range (Z.to_nat minLit))
                          (circleDraws ++ circleDraws ++ circleDraws ++ [])).
  { destruct (Z_le_gt_dec minLit 0) as [Hneg | Hpos].
    - replace (Z.to_nat minLit) with 0%nat by lia.
      apply pickLitEdges_done. simpl. lia.
    - pose proof (pickLitEdges_run (Z.to_nat minLit) 0
                    (circleDraws ++ circleDraws ++ circleDraws ++ []) ltac:(lia)) as Hrun.
      rewrite Nat.add_0_l, Z2Nat.id in Hrun by lia. exact Hrun. }
  rewrite Hpick. unfold circleDraws. cbn [app].
  unfold JS.bind at 1. rewrite makeCircle_run.
  unfold JS.bind at 1. rewrite makeCircle_run.
  unfold JS.bind at 1. rewrite makeCircle_run.
  eexists. eexists. reflexivity.
Qed.

(** *** The difficulty presets *)

Lemma getDifficultyConfig_fallback (difficulty : string) :
  difficulty <> "easy"%string -> difficulty <> "hard"%string ->
  ~ In difficulty Simplified.object_prototype_names ->
  Simplified.getDifficultyConfig difficulty = Simplified.Preset Simplified.medium.
Proof.
  intros Heasy Hhard Hproto. unfold Simplified.getDifficultyConfig.
  apply String.eqb_neq in Heasy, Hhard. rewrite Heasy, Hhard.
  destruct (String.eqb difficulty "medium"); [reflexivity |].
  destruct (existsb _ _) eqn:Hex; [| reflexivity].
  apply existsb_exists in Hex as (name & Hin & Heq).
  apply String.eqb_eq in Heq. subst. contradiction.
Qed.

(** C7 as stated fails: the inverted range [minLit = 1], [maxLit = -1] is
    not clamped.  With the first draw at 1/2 the lit-edge count is
    [floor(1/2 * (-1)) + 1 = 0] and the puzzle returned has no lit edge. *)
Lemma inverted_range_empty_litEdges :
  exists p rest,
    generatePuzzle 1 (-1)
      [(1 # 2)%Q; 0%Q; 0%Q; 0%Q; (1 # 12)%Q; 0%Q; 0%Q; 0%Q; (1 # 12)%Q;
       0%Q; 0%Q; 0%Q; (1 # 12)%Q] = JS.Done p rest /\
    -1 < 1 /\ litEdges p = [].
Proof.
  match goal with
  | |- exists p rest, ?run = _ /\ _ =>
      assert (H : match run with
                  | JS.Done p _ => litEdges p = []
                  | _ => False
                  end) by (vm_compute; reflexivity);
      destruct run as [p rest | |]; try contradiction
  end.
  exists p, rest. split; [reflexivity | split; [lia | exact H]].
Qed.

(** C7 (as the code has it) — the generators never raise on a reversed
    range or on an unknown difficulty, but nothing is clamped.
    [getDifficultyConfig] falls back to the medium preset for every string
    that is neither a preset name nor a property name inherited from
    [Object.prototype] (and the simplified generator then behaves as for
    ["medium"]).  [generatePuzzle(minLit, maxLit)] raises no error; when it
    returns, the count [numLit] it drew is at most 12 and the puzzle has
    exactly [max(0, numLit)] distinct lit edges of [0..11], where for
    [minLit > maxLit] the count lies in [maxLit + 1 .. minLit]; and for
    every reversed range with [minLit <= 12] some draws make it return. *)
Theorem generators_out_of_range :
  (forall difficulty,
      difficulty <> "easy"%string -> difficulty <> "hard"%string ->
      ~ In difficulty Simplified.object_prototype_names ->
      Simplified.getDifficultyConfig difficulty = Simplified.Preset Simplified.medium /\
      forall judge tape,
        Simplified.generatePuzzleBy judge difficulty tape =
        Simplified.generatePuzzleBy judge "medium" tape) /\
  (forall minLit maxLit tape, generatePuzzle minLit maxLit tape <> JS.Threw) /\
  (forall minLit maxLit tape p rest,
      generatePuzzle minLit maxLit tape = JS.Done p rest ->
      exists r tape',
        tape = r :: tape' /\ JS.legal r = true /\
        let numLit := numLitOf r minLit maxLit in
        (maxLit < minLit -> maxLit < numLit <= minLit) /\
        numLit <= 12 /\
        NoDup (litEdges p) /\ Forall edgeIndex (litEdges p) /\
        Z.of_nat (length (litEdges p)) = Z.max 0 numLit) /\
  (forall minLit maxLit,
      maxLit < minLit -> minLit <= 12 ->
      exists tape p rest, generatePuzzle minLit maxLit tape = JS.Done p rest).
Proof.
  refine (conj _ (conj _ (conj _ _))).
  - intros difficulty Heasy Hhard Hproto.
    pose proof (getDifficultyConfig_fallback difficulty Heasy Hhard Hproto) as Hcfg.
    split; [exact Hcfg |].
    intros judge tape. unfold Simplified.generatePuzzleBy. now rewrite Hcfg.
  - intros minLit maxLit. apply nothrow_generatePuzzle.
  - intros minLit maxLit tape p rest Hrun.
    apply generatePuzzle_litEdges in Hrun as (r & tape' & -> & Hr & Hnd & Hidx & Hlen).
    exists r, tape'. split; [reflexivity |]. split; [assumption |].
    intros numLit. fold numLit in Hlen.
    split; [apply (numLitOf_bounds r minLit maxLit Hr) |].
    split; [| auto].
    pose proof (edgeIndex_NoDup_length _ Hnd Hidx). lia.
  - apply generatePuzzle_returns.
Qed.

End OutOfRange.

Lemma generators_out_of_range_witness :
  Simplified.getDifficultyConfig "expert" = Simplified.Preset Simplified.medium /\
  exists tape p rest, Puzzle.generatePuzzle 5 2 tape = JS.Done p rest.
Proof.
  split.
  - apply (proj1 generators_out_of_range "expert"%string).
    + discriminate.
    + discriminate.
    + intros Hin. unfold Simplified.object_prototype_names in Hin.
      repeat (destruct Hin as [Hin | Hin]; [discriminate Hin |]). exact Hin.
  - apply (proj2 (proj2 (proj2 generators_out_of_range)) 5 2); lia.
Defined.

(** ** Well-formed rings *)

Section RingInvariants.

Import Genome.

(** No slot of the circle holds both an emitter and a blocker. *)
Definition disjointSlots (circle : Circle) : Prop :=
  forall pos, In pos (emitters circle) -> ~ In pos (blockers circle).

Definition circleOk (circle : Circle) : Prop :=
  emitters circle <> [] /\ disjointSlots circle.

(** Every ring keeps emitters and blockers apart. *)
Definition ringsDisjoint (c : Chromosome) : Prop :=
  Forall disjointSlots (rings_list (circles c)).

Definition chromosomeOk (c : Chromosome) : Prop :=
  Forall circleOk (rings_list (circles c)).

Lemma chromosomeOk_split (c : Chromosome) :
  chromosomeOk c <-> ringsNonEmpty c /\ ringsDisjoint c.
Proof.
  unfold chromosomeOk, ringsNonEmpty, ringsDisjoint, circleOk.
  rewrite !Forall_rings. tauto.
Qed.

Lemma removeAt_In {A} (index : nat) (l : list A) (x : A) :
  In x (JS.removeAt index l) -> In x l.
Proof.
  revert index. induction l as [| y l IH]; intros [| i]; simpl; auto.
  intros [-> | H]; [now left | right; eauto].
Qed.

Lemma removeAt_nonempty {A} (index : nat) (l : list A) :
  (1 < length l)%nat -> JS.removeAt index l <> [].
Proof.
  destruct l as [| x [| y l]]; simpl; try lia.
  intros _. destruct index; discriminate.
Qed.

Lemma setAt_In {A} (index : nat) (y : A) (l : list A) (x : A) :
  In x (JS.setAt index y l) -> x = y \/ In x l.
Proof.
  revert index. induction l as [| z l IH]; intros [| i]; simpl; auto.
  - intros [<- | H]; auto.
  - intros [<- | H]; auto. apply IH in H. tauto.
Qed.

Lemma setAt_nonempty {A} (index : nat) (y : A) (l : list A) :
  l <> [] -> JS.setAt index y l <> [].
Proof. destruct l, index; simpl; congruence. Qed.

Lemma app_nonempty {A} (l : list A) (x : A) : l ++ [x] <> [].
Proof. destruct l; discriminate. Qed.

(** *** The loops both generators share *)

Lemma fillSlots_spec (target : Z) (others : list Z) (tape : JS.Tape) :
  forall slots result rest,
    (forall pos, In pos slots -> ~ In pos others) ->
    fillSlots target slots others tape = JS.Done result rest ->
    (forall pos, In pos result -> ~ In pos others) /\
    target <= Z.of_nat (length result).
Proof.
  induction tape as [| r tape IH]; intros slots result rest Hfree; simpl.
  - destruct (Z.of_nat (length slots) <? target) eqn:Hlt; [discriminate |].
    intros [= <- _]. apply Z.ltb_ge in Hlt. auto.
  - destruct (Z.of_nat (length slots) <? target) eqn:Hlt.
    + destruct (JS.legal r); [| discriminate].
      destruct (negb (JS.includes slots _) && negb (JS.includes others _)) eqn:Hok.
      * apply IH. intros pos Hpos.
        apply in_app_or in Hpos as [Hpos | [<- | []]]; [now apply Hfree |].
        apply andb_true_iff in Hok as [_ Hok].
        apply negb_true_iff in Hok. now apply includes_false.
      * now apply IH.
    + intros [= <- _]. apply Z.ltb_ge in Hlt. auto.
Qed.

Lemma increment_mono (d : Rings Z) (circle : Z) :
  ring0 d <= ring0 (increment d circle) /\
  ring1 d <= ring1 (increment d circle) /\
  ring2 d <= ring2 (increment d circle).
Proof.
  unfold increment.
  destruct (circle =? 0); [simpl; lia |].
  destruct (circle =? 1); [simpl; lia |].
  destruct (circle =? 2); simpl; lia.
Qed.

Lemma distributeLoop_mono (remaining : nat) :
  forall d,
    post (distributeLoop remaining d)
         (fun d' => ring0 d <= ring0 d' /\ ring1 d <= ring1 d' /\ ring2 d <= ring2 d').
Proof.
  induction remaining as [| n IH]; intros d; simpl.
  - apply post_ret. lia.
  - eapply post_bind; [apply post_random |].
    intros r _. eapply post_weaken; [apply IH |].
    intros d' H. pose proof (increment_mono d (JS.randomInt r 3)). simpl in H. lia.
Qed.

Lemma post_freeSlot (circle : Circle) :
  post (freeSlot circle)
       (fun pos => ~ In pos (emitters circle) /\ ~ In pos (blockers circle)).
Proof.
  eapply post_weaken; [apply post_drawUntil; lia |].
  intros pos [Hrej _]. apply orb_false_iff in Hrej as [He Hb].
  split; now apply includes_false.
Qed.

End RingInvariants.

(** ** The simplified generator keeps its rings well formed *)

Section SimplifiedInvariant.

Import Genome Simplified.

Definition individualOk (i : Individual) : Prop := chromosomeOk (chromosome i).

Lemma post_True {A} (m : JS.Rand A) : post m (fun _ => True).
Proof. intros tape a rest _. exact I. Qed.

Lemma post_fillSlots (target : Z) (slots others : list Z) :
  (forall pos, In pos slots -> ~ In pos others) ->
  post (fillSlots target slots others)
       (fun result => (forall pos, In pos result -> ~ In pos others) /\
                      target <= Z.of_nat (length result)).
Proof. intros Hfree tape result rest. now apply fillSlots_spec. Qed.

Lemma post_createCircle (numEmitters numBlockers : Z) :
  1 <= numEmitters ->
  post (createCircle numEmitters numBlockers) circleOk.
Proof.
  intros Hpos. unfold createCircle.
  eapply post_bind; [apply post_fillSlots; intros pos [] |].
  intros ems [_ Hlen].
  eapply post_bind; [apply post_fillSlots; intros pos [] |].
  intros bls [Hfree _].
  apply post_ret. split; simpl.
  - destruct ems; [simpl in Hlen; lia | discriminate].
  - intros pos He Hb. exact (Hfree pos Hb He).
Qed.

Lemma post_createRandomChromosome (config : Config) :
  post (createRandomChromosome config) individualOk.
Proof.
  unfold createRandomChromosome.
  eapply post_bind; [apply post_True | intros numLitEdges _].
  eapply post_bind; [apply post_True | intros edges _].
  eapply post_bind; [apply post_True | intros totalEmitters _].
  eapply post_bind; [apply post_True | intros totalBlockers _].
  eapply post_bind; [apply distributeLoop_mono | intros ed (H0 & H1 & H2)].
  eapply post_bind; [apply post_True | intros bd _].
  simpl in H0, H1, H2.
  eapply post_bind; [apply post_createCircle; lia | intros c0 Hc0].
  eapply post_bind; [apply post_createCircle; lia | intros c1 Hc1].
  eapply post_bind; [apply post_createCircle; lia | intros c2 Hc2].
  apply post_ret. apply Forall_rings. simpl. auto.
Qed.

Lemma post_createPopulation (n : nat) (config : Config) :
  post (createPopulation n config) (Forall individualOk).
Proof.
  induction n as [| n IH]; simpl.
  - apply post_ret. constructor.
  - eapply post_bind; [apply post_createRandomChromosome | intros i Hi].
    eapply post_bind; [apply IH | intros population Hpop].
    apply post_ret. now constructor.
Qed.

Lemma post_tournament (population : list Individual) (rounds : nat) :
  forall best,
    (forall b, best = Some b -> In b population) ->
    post (tournament rounds population best) (fun i => In i population).
Proof.
  induction rounds as [| rounds IH]; intros best Hbest; simpl.
  - destruct best as [b |]; [apply post_ret; now apply Hbest | apply post_throw].
  - eapply post_bind; [apply post_True | intros r _].
    destruct (nth_error population _) as [candidate |] eqn:Hnth; [| apply post_throw].
    apply nth_error_In in Hnth.
    destruct best as [b |].
    + destruct (betterThan candidate b); apply IH; intros b' [= <-]; auto.
    + apply IH. now intros b' [= <-].
Qed.

Lemma post_selectParent (population : list Individual) :
  Forall individualOk population ->
  post (selectParent population) individualOk.
Proof.
  intros Hpop. eapply post_weaken; [apply post_tournament; discriminate |].
  intros i Hi. rewrite Forall_forall in Hpop. now apply Hpop.
Qed.

Lemma ring_at_ok (c : Chromosome) (i : nat) :
  chromosomeOk c -> circleOk (ring_at (circles c) i).
Proof.
  intros H. apply Forall_rings in H as (H0 & H1 & H2).
  destruct i as [| [| i]]; assumption.
Qed.

Lemma post_crossover (parent1 parent2 : Individual) :
  individualOk parent1 -> individualOk parent2 ->
  post (crossover parent1 parent2) individualOk.
Proof.
  intros H1 H2. unfold crossover.
  assert (Hinherit : forall i r,
    circleOk (mkCircle
      (emitters (ring_at (circles (if JS.Qltb r (5 # 10)
                                   then chromosome parent1 else chromosome parent2)) i))
      (blockers (ring_at (circles (if JS.Qltb r (5 # 10)
                                   then chromosome parent1 else chromosome parent2)) i)))).
  { intros i r. destruct (JS.Qltb r (5 # 10)).
    - exact (ring_at_ok _ i H1).
    - exact (ring_at_ok _ i H2). }
  eapply post_bind; [eapply post_bind; [apply post_True | intros r _; apply post_ret; apply Hinherit] |].
  intros c0 Hc0.
  eapply post_bind; [eapply post_bind; [apply post_True | intros r _; apply post_ret; apply Hinherit] |].
  intros c1 Hc1.
  eapply post_bind; [eapply post_bind; [apply post_True | intros r _; apply post_ret; apply Hinherit] |].
  intros c2 Hc2.
  apply post_ret. apply Forall_rings. simpl. auto.
Qed.

Lemma post_mutateEmitters (circle : Circle) :
  circleOk circle -> post (mutateEmitters circle) circleOk.
Proof.
  intros [Hne Hdis]. unfold mutateEmitters.
  eapply post_bind; [apply post_True | intros r _].
  destruct (JS.Qltb r (3 # 10)); [| apply post_ret; now split].
  eapply post_bind; [apply post_True | intros r' _].
  destruct (JS.Qltb r' (7 # 10) && _).
  - eapply post_bind; [apply post_True | intros index _].
    eapply post_bind; [apply post_freeSlot | intros newPos [_ Hfree]].
    apply post_ret. split; simpl.
    + now apply setAt_nonempty.
    + intros pos Hpos. apply setAt_In in Hpos as [-> | Hpos]; auto.
  - eapply post_bind; [apply post_True | intros r'' _].
    destruct (JS.Qltb r'' (3 # 10) && _) eqn:Hrem.
    + eapply post_bind; [apply post_True | intros index _].
      apply post_ret. split; simpl.
      * apply andb_true_iff in Hrem as [_ Hlen]. apply Z.gtb_lt in Hlen.
        apply removeAt_nonempty. lia.
      * intros pos Hpos. apply removeAt_In in Hpos. auto.
    + destruct (_ <? 4); [| apply post_ret; now split].
      eapply post_bind; [apply post_freeSlot | intros newPos [_ Hfree]].
      apply post_ret. split; simpl.
      * apply app_nonempty.
      * intros pos Hpos. apply in_app_or in Hpos as [Hpos | [<- | []]]; auto.
Qed.

Lemma post_mutateBlockers (circle : Circle) :
  circleOk circle -> post (mutateBlockers circle) circleOk.
Proof.
  intros [Hne Hdis]. unfold mutateBlockers.
  eapply post_bind; [apply post_True | intros r _].
  destruct (JS.Qltb r _); [| apply post_ret; now split].
  eapply post_bind; [apply post_True | intros r' _].
  destruct (JS.Qltb r' (5 # 10) && _).
  - eapply post_bind; [apply post_True | intros index _].
    eapply post_bind; [apply post_freeSlot | intros newPos [Hfree _]].
    apply post_ret. split; simpl; [assumption |].
    intros pos Hpos Hb. apply setAt_In in Hb as [-> | Hb]; [contradiction |].
    exact (Hdis pos Hpos Hb).
  - eapply post_bind; [apply post_True | intros r'' _].
    destruct (JS.Qltb r'' (5 # 10) && _).
    + eapply post_bind; [apply post_True | intros index _].
      apply post_ret. split; simpl; [assumption |].
      intros pos Hpos Hb. apply removeAt_In in Hb. exact (Hdis pos Hpos Hb).
    + destruct (_ <? 3); [| apply post_ret; now split].
      eapply post_bind; [apply post_freeSlot | intros newPos [Hfree _]].
      apply post_ret. split; simpl; [assumption |].
      intros pos Hpos Hb. apply in_app_or in Hb as [Hb | [<- | []]]; [| contradiction].
      exact (Hdis pos Hpos Hb).
Qed.

Lemma post_mutateCircle (circle : Circle) :
  circleOk circle -> post (mutateCircle circle) circleOk.
Proof.
  intros Hok. unfold mutateCircle.
  eapply post_bind; [now apply post_mutateEmitters |].
  intros c Hc. now apply post_mutateBlockers.
Qed.

Lemma post_ensureEmitter (circle : Circle) :
  circleOk circle -> post (ensureEmitter circle) circleOk.
Proof.
  intros [Hne Hdis]. unfold ensureEmitter.
  destruct (emitters circle) eqn:Hem; [congruence |].
  apply post_ret. split; [now rewrite Hem | assumption].
Qed.

Lemma post_mutate (offspring : Individual) (config : Config) :
  individualOk offspring -> post (mutate offspring config) individualOk.
Proof.
  intros Hok. apply Forall_rings in Hok as (H0 & H1 & H2). unfold mutate.
  eapply post_bind; [apply post_True | intros edges _].
  eapply post_bind; [now apply post_mutateCircle | intros c0 Hc0].
  eapply post_bind; [now apply post_mutateCircle | intros c1 Hc1].
  eapply post_bind; [now apply post_mutateCircle | intros c2 Hc2].
  eapply post_bind; [now apply post_ensureEmitter | intros c0' Hc0'].
  eapply post_bind; [now apply post_ensureEmitter | intros c1' Hc1'].
  eapply post_bind; [now apply post_ensureEmitter | intros c2' Hc2'].
  apply post_ret. apply Forall_rings. simpl. auto.
Qed.

Lemma post_elites (count : nat) :
  forall population,
    Forall individualOk population ->
    post (elites count population) (Forall individualOk).
Proof.
  induction count as [| count IH]; intros population Hpop; simpl.
  - apply post_ret. constructor.
  - destruct population as [| i population]; [apply post_throw |].
    inversion Hpop; subst.
    eapply post_bind; [now apply IH | intros rest Hrest].
    apply post_ret. now constructor.
Qed.

Lemma post_offspringLoop (missing : nat) (population : list Individual) (config : Config) :
  Forall individualOk population ->
  post (offspringLoop missing population config) (Forall individualOk).
Proof.
  intros Hpop. induction missing as [| missing IH]; simpl.
  - apply post_ret. constructor.
  - eapply post_bind; [now apply post_selectParent | intros parent1 Hp1].
    eapply post_bind; [now apply post_selectParent | intros parent2 Hp2].
    eapply post_bind; [now apply post_crossover | intros offspring Hoff].
    eapply post_bind; [now apply post_mutate | intros offspring' Hoff'].
    eapply post_bind; [apply IH | intros rest Hrest].
    apply post_ret. now constructor.
Qed.

Lemma post_evolvePopulation (population : list Individual) (config : Config) :
  Forall individualOk population ->
  post (evolvePopulation population config) (Forall individualOk).
Proof.
  intros Hpop. unfold evolvePopulation.
  eapply post_bind; [now apply post_elites | intros kept Hkept].
  eapply post_bind; [now apply post_offspringLoop | intros offspring Hoff].
  apply post_ret. apply Forall_app. now split.
Qed.

Lemma sortByFitness_In (population : list Individual) (i : Individual) :
  In i (sortByFitness population) <-> In i population.
Proof.
  unfold sortByFitness.
  assert (Hgen : forall sorted,
    In i (fold_left (fun sorted x => insertByFitness x sorted) population sorted) <->
    In i sorted \/ In i population).
  { induction population as [| x population IH]; intros sorted; simpl; [tauto |].
    rewrite IH, insertByFitness_In. intuition. }
  rewrite Hgen. simpl. tauto.
Qed.

Variable judge : Chromosome -> bool.

Lemma evaluated_sorted_ok (population : list Individual) :
  Forall individualOk population ->
  Forall individualOk (sortByFitness (evaluatePopulationBy judge population)).
Proof.
  intros Hpop. rewrite Forall_forall in *.
  intros i Hi. apply (proj1 (sortByFitness_In _ _)) in Hi.
  unfold evaluatePopulationBy in Hi. apply in_map_iff in Hi as (j & <- & Hj).
  exact (Hpop j Hj).
Qed.

Lemma post_generationLoop (remaining : nat) (config : Config) :
  forall generation population seen,
    Forall individualOk population -> Forall chromosomeOk seen ->
    post (generationLoop judge remaining generation config population seen)
         (fun final => Forall individualOk (fst (fst final)) /\
                       Forall chromosomeOk (snd final)).
Proof.
  induction remaining as [| remaining IH]; intros generation population seen Hpop Hseen;
    cbn [generationLoop].
  - apply post_ret. now split.
  - assert (Hseen' : Forall chromosomeOk (seen ++ map chromosome population)).
    { apply Forall_app. split; [assumption |].
      rewrite Forall_forall in *. intros c Hc.
      apply in_map_iff in Hc as (i & <- & Hi). exact (Hpop i Hi). }
    pose proof (evaluated_sorted_ok population Hpop) as Hsorted.
    destruct (sortByFitness (evaluatePopulationBy judge population)) as [| currentBest others];
      [apply post_throw |].
    destruct (solvable currentBest && _).
    + apply post_ret. now split.
    + eapply post_bind; [now apply post_evolvePopulation | intros population' Hpop'].
      now apply IH.
Qed.

(** What the simplified generator returns, and what it evaluated on the
    way, is well formed. *)
Lemma post_generatePuzzleBy (difficulty : string) :
  post (generatePuzzleBy judge difficulty)
       (fun result =>
          Forall chromosomeOk (evaluated result) /\
          chromosomeOk (chromosome (best result)) /\
          puzzle result = chromosomeToPuzzle (chromosome (best result))).
Proof.
  unfold generatePuzzleBy.
  destruct (getDifficultyConfig difficulty) as [config |]; [| apply post_throw].
  eapply post_bind; [apply post_createPopulation | intros population Hpop].
  eapply post_bind; [apply post_generationLoop; [assumption | constructor] |].
  intros [[population' generation] seen] [Hpop' Hseen]. cbn [fst snd] in *.
  assert (Hsorted : Forall individualOk (sortByFitness population')).
  { rewrite Forall_forall in *. intros i Hi. apply (proj1 (sortByFitness_In _ _)) in Hi. auto. }
  destruct (sortByFitness population') as [| bestPuzzle others]; [apply post_throw |].
  apply post_ret. cbn [evaluated best puzzle].
  inversion Hsorted; subst. auto.
Qed.

End SimplifiedInvariant.

(** ** The full generator keeps the shared circle objects well formed *)

Section StoreInvariant.

Import Genome Evolutionary.

(** Every circle object keeps emitters and blockers apart, every circle
    object outside [broken] holds an emitter, and every chromosome handed to
    the fitness function so far was well formed. *)
Definition storeOk (broken : nat -> Prop) (st : Store) : Prop :=
  (forall ref circle,
      nth_error (circleObjs st) ref = Some circle ->
      disjointSlots circle /\ (~ broken ref -> emitters circle <> [])) /\
  Forall chromosomeOk (evaluatedLog st).

Definition sound : Store -> Prop := storeOk (fun _ => False).

(** What a finished computation returned, and the store it left, satisfy
    [Q] when it was started in a store that satisfies [P]. *)
Definition hoare {A} (P : Store -> Prop) (m : Gen A) (Q : A -> Store -> Prop) : Prop :=
  forall st tape a st' rest, P st -> m st tape = JS.Done (a, st') rest -> Q a st'.

Lemma hoare_ret {A} (P : Store -> Prop) (a : A) (Q : A -> Store -> Prop) :
  (forall st, P st -> Q a st) -> hoare P (gret a) Q.
Proof. intros H st tape a' st' rest HP [= <- <- _]. now apply H. Qed.

Lemma hoare_throw {A} (P : Store -> Prop) (Q : A -> Store -> Prop) : hoare P gthrow Q.
Proof. intros st tape a st' rest _ H. discriminate H. Qed.

Lemma hoare_bind {A B} (P : Store -> Prop) (R : A -> Store -> Prop)
    (Q : B -> Store -> Prop) (m : Gen A) (k : A -> Gen B) :
  hoare P m R -> (forall a, hoare (R a) (k a) Q) -> hoare P (gbind m k) Q.
Proof.
  intros Hm Hk st tape b st' rest HP. unfold gbind, JS.bind.
  destruct (m st tape) as [[a st1] rest1 | |] eqn:Hrun; try discriminate.
  simpl. intros Hrun'. exact (Hk a _ _ _ _ _ (Hm _ _ _ _ _ HP Hrun) Hrun').
Qed.

Lemma hoare_bind_pure {A B} (P P' : Store -> Prop) (R : A -> Prop)
    (Q : B -> Store -> Prop) (m : Gen A) (k : A -> Gen B) :
  hoare P m (fun a st => P' st /\ R a) ->
  (forall a, R a -> hoare P' (k a) Q) ->
  hoare P (gbind m k) Q.
Proof.
  intros Hm Hk. eapply hoare_bind; [exact Hm |].
  intros a st tape b st' rest [HP HR]. now apply Hk.
Qed.

Lemma hoare_conseq {A} (P P' : Store -> Prop) (Q Q' : A -> Store -> Prop) (m : Gen A) :
  hoare P' m Q' -> (forall st, P st -> P' st) -> (forall a st, Q' a st -> Q a st) ->
  hoare P m Q.
Proof. intros Hm HP HQ st tape a st' rest H Hrun. eauto. Qed.

Lemma hoare_lift {A} (P : Store -> Prop) (R : A -> Prop) (m : JS.Rand A) :
  post m R -> hoare P (glift m) (fun a st => P st /\ R a).
Proof.
  intros Hm st tape a st' rest HP. unfold glift, JS.bind.
  destruct (m tape) as [a' rest' | |] eqn:Hrun; try discriminate.
  intros [= <- <- _]. split; [assumption | exact (Hm _ _ _ Hrun)].
Qed.

Lemma hoare_draw {A} (P : Store -> Prop) (m : JS.Rand A) :
  hoare P (glift m) (fun _ st => P st).
Proof.
  eapply hoare_conseq; [apply (hoare_lift P (fun _ => True)), post_True | auto |].
  now intros a st [H _].
Qed.

Lemma storeOk_weaken (broken broken' : nat -> Prop) (st : Store) :
  (forall ref, broken ref -> broken' ref) -> storeOk broken st -> storeOk broken' st.
Proof.
  intros Himp [Hobjs Hlog]. split; [| assumption].
  intros ref circle Hnth. destruct (Hobjs ref circle Hnth) as [Hdis Hne].
  split; [assumption |]. intros Hnot. apply Hne. intros Hb. exact (Hnot (Himp ref Hb)).
Qed.

Lemma sound_emptyStore : sound emptyStore.
Proof.
  split; [| constructor]. intros [| ref] circle Hnth; discriminate Hnth.
Qed.

Lemma nth_error_setAt {A} (index : nat) (x : A) (l : list A) :
  forall ref y,
    nth_error (JS.setAt index x l) ref = Some y ->
    (ref = index /\ y = x) \/ (ref <> index /\ nth_error l ref = Some y).
Proof.
  revert index. induction l as [| z l IH]; intros index ref y.
  - destruct index, ref; discriminate.
  - destruct index as [| index], ref as [| ref]; simpl.
    + intros [= <-]. now left.
    + intros H. right. split; [discriminate | assumption].
    + intros H. right. split; [discriminate | assumption].
    + intros H. apply IH in H as [[-> ->] | [Hneq H]]; [now left | right].
      split; [congruence | assumption].
Qed.

Lemma nth_error_snoc {A} (l : list A) (x : A) (ref : nat) (y : A) :
  nth_error (l ++ [x]) ref = Some y -> nth_error l ref = Some y \/ y = x.
Proof.
  revert ref. induction l as [| z l IH]; intros [| ref]; simpl; auto.
  - intros [= <-]. now right.
  - destruct ref; discriminate.
Qed.

(** *** The store operations *)

Lemma hoare_readCircle (broken : nat -> Prop) (ref : nat) :
  hoare (storeOk broken) (readCircle ref)
        (fun circle st => storeOk broken st /\
                          (disjointSlots circle /\ (~ broken ref -> emitters circle <> []))).
Proof.
  intros st tape circle st' rest Hok. unfold readCircle.
  destruct (nth_error (circleObjs st) ref) as [c |] eqn:Hnth; [| discriminate].
  intros [= <- <- _]. split; [assumption |]. exact (proj1 Hok ref c Hnth).
Qed.

Lemma hoare_allocCircle (broken : nat -> Prop) (circle : Circle) :
  circleOk circle ->
  hoare (storeOk broken) (allocCircle circle) (fun _ st => storeOk broken st).
Proof.
  intros [Hne Hdis] st tape ref st' rest [Hobjs Hlog] [= _ <- _].
  split; [| assumption]. simpl. intros r c Hnth.
  apply nth_error_snoc in Hnth as [Hnth | ->]; [now apply Hobjs | auto].
Qed.

Lemma hoare_readEdges (P : Store -> Prop) (ref : nat) :
  hoare P (readEdges ref) (fun _ st => P st).
Proof.
  intros st tape edges st' rest HP. unfold readEdges.
  destruct (nth_error (edgeArrays st) ref); [| discriminate].
  now intros [= _ <- _].
Qed.

Lemma hoare_writeEdges (broken : nat -> Prop) (ref : nat) (edges : list Z) :
  hoare (storeOk broken) (writeEdges ref edges) (fun _ st => storeOk broken st).
Proof. intros st tape u st' rest Hok [= _ <- _]. exact Hok. Qed.

Lemma hoare_allocEdges (broken : nat -> Prop) (edges : list Z) :
  hoare (storeOk broken) (allocEdges edges) (fun _ st => storeOk broken st).
Proof. intros st tape u st' rest Hok [= _ <- _]. exact Hok. Qed.

Lemma hoare_modifyEdges (broken : nat -> Prop) (ref : nat)
    (change : list Z -> JS.Rand (list Z)) :
  hoare (storeOk broken) (modifyEdges ref change) (fun _ st => storeOk broken st).
Proof.
  unfold modifyEdges.
  eapply hoare_bind; [apply hoare_readEdges | intros edges].
  eapply hoare_bind; [apply hoare_draw | intros edges'].
  apply hoare_writeEdges.
Qed.

Lemma hoare_logEvaluated (c : Chromosome) :
  chromosomeOk c -> hoare sound (logEvaluated c) (fun _ st => sound st).
Proof.
  intros Hc st tape u st' rest [Hobjs Hlog] [= _ <- _].
  split; [exact Hobjs |]. simpl. apply Forall_app. split; [assumption | now constructor].
Qed.

(** A change that keeps emitters and blockers apart may leave the circle
    object without an emitter. *)
Lemma hoare_modifyCircle_disjoint (broken : nat -> Prop) (ref : nat)
    (change : Circle -> JS.Rand Circle) :
  (forall circle, disjointSlots circle -> post (change circle) disjointSlots) ->
  hoare (storeOk broken) (modifyCircle ref change)
        (fun _ st => storeOk (fun x => x = ref \/ broken x) st).
Proof.
  intros Hchange. unfold modifyCircle.
  eapply hoare_bind_pure; [apply hoare_readCircle | intros circle [Hdis _]].
  eapply hoare_bind_pure; [apply hoare_lift, Hchange, Hdis | intros circle' Hdis'].
  intros st tape u st' rest [Hobjs Hlog] [= _ <- _].
  split; [| assumption]. simpl. intros r c Hnth.
  apply nth_error_setAt in Hnth as [[-> ->] | [Hneq Hnth]].
  - split; [assumption |]. intros Hnot. exfalso. apply Hnot. now left.
  - destruct (Hobjs r c Hnth) as [Hd Hne]. split; [assumption |].
    intros Hnot. apply Hne. intros Hb. apply Hnot. now right.
Qed.

(** A change that makes the circle well formed repairs the circle object. *)
Lemma hoare_modifyCircle_repair (broken : nat -> Prop) (ref : nat)
    (change : Circle -> JS.Rand Circle) :
  (forall circle, post (change circle) circleOk) ->
  hoare (storeOk broken) (modifyCircle ref change)
        (fun _ st => storeOk (fun x => x <> ref /\ broken x) st).
Proof.
  intros Hchange. unfold modifyCircle.
  eapply hoare_bind; [apply hoare_readCircle | intros circle].
  eapply hoare_bind_pure;
    [eapply hoare_conseq;
       [apply (hoare_lift (storeOk broken)), Hchange
       | now intros st [H _] | intros a st H; exact H] |].
  intros circle' [Hne' Hdis'].
  intros st tape u st' rest [Hobjs Hlog] [= _ <- _].
  split; [| assumption]. simpl. intros r c Hnth.
  apply nth_error_setAt in Hnth as [[-> ->] | [Hneq Hnth]].
  - split; [assumption |]. now intros _.
  - destruct (Hobjs r c Hnth) as [Hd Hne]. split; [assumption |].
    intros Hnot. apply Hne. intros Hb. apply Hnot. now split.
Qed.

Lemma hoare_snapshot (i : Individual) :
  hoare sound (snapshot i) (fun c st => sound st /\ chromosomeOk c).
Proof.
  unfold snapshot.
  eapply hoare_bind; [apply hoare_readEdges | intros edges].
  eapply hoare_bind_pure; [apply hoare_readCircle | intros c0 [Hd0 Hn0]].
  eapply hoare_bind_pure; [apply hoare_readCircle | intros c1 [Hd1 Hn1]].
  eapply hoare_bind_pure; [apply hoare_readCircle | intros c2 [Hd2 Hn2]].
  apply hoare_ret. intros st Hok. split; [assumption |].
  apply Forall_rings. simpl. unfold circleOk. tauto.
Qed.

(** *** The steps of the generator *)

Lemma hoare_createCircle (numEmitters numBlockers : Z) :
  1 <= numEmitters ->
  hoare sound (createCircle numEmitters numBlockers) (fun _ st => sound st).
Proof.
  intros Hpos. unfold createCircle.
  eapply hoare_bind_pure;
    [apply hoare_lift, post_fillSlots; intros pos [] | intros ems [_ Hlen]].
  eapply hoare_bind_pure;
    [apply hoare_lift, post_fillSlots; intros pos [] | intros bls [Hfree _]].
  apply hoare_allocCircle. split; simpl.
  - destruct ems; [simpl in Hlen; lia | discriminate].
  - intros pos He Hb. exact (Hfree pos Hb He).
Qed.

Lemma hoare_createRandomChromosome (config : Config) :
  hoare sound (createRandomChromosome config) (fun _ st => sound st).
Proof.
  unfold createRandomChromosome.
  eapply hoare_bind; [apply hoare_draw | intros numLitEdges].
  eapply hoare_bind; [apply hoare_draw | intros edges].
  eapply hoare_bind; [apply hoare_draw | intros totalEmitters].
  eapply hoare_bind; [apply hoare_draw | intros totalBlockers].
  eapply hoare_bind_pure;
    [apply hoare_lift, distributeLoop_mono | intros ed (H0 & H1 & H2)].
  simpl in H0, H1, H2.
  eapply hoare_bind; [apply hoare_draw | intros bd].
  eapply hoare_bind; [apply hoare_createCircle; lia | intros c0].
  eapply hoare_bind; [apply hoare_createCircle; lia | intros c1].
  eapply hoare_bind; [apply hoare_createCircle; lia | intros c2].
  eapply hoare_bind; [apply hoare_allocEdges | intros ref].
  now apply hoare_ret.
Qed.

Lemma hoare_createPopulation (n : nat) (config : Config) :
  hoare sound (createPopulation n config) (fun _ st => sound st).
Proof.
  induction n as [| n IH]; simpl.
  - now apply hoare_ret.
  - eapply hoare_bind; [apply hoare_createRandomChromosome | intros i].
    eapply hoare_bind; [apply IH | intros population].
    now apply hoare_ret.
Qed.

Lemma hoare_crossover (parent1 parent2 : Individual) (config : Config) :
  hoare sound (crossover parent1 parent2 config) (fun _ st => sound st).
Proof.
  unfold crossover.
  assert (Hinherit : forall ref,
    hoare sound (circle <~ readCircle ref ;;
                 allocCircle (mkCircle (emitters circle) (blockers circle)))
          (fun _ st => sound st)).
  { intros ref.
    eapply hoare_bind_pure; [apply hoare_readCircle | intros circle [Hdis Hne]].
    apply hoare_allocCircle. split; [apply Hne; tauto | exact Hdis]. }
  eapply hoare_bind; [apply hoare_readEdges | intros edges1].
  eapply hoare_bind; [apply hoare_readEdges | intros edges2].
  eapply hoare_bind; [apply hoare_draw | intros targetSize].
  eapply hoare_bind;
    [eapply hoare_bind; [apply hoare_draw | intros r; apply Hinherit] | intros c0].
  eapply hoare_bind;
    [eapply hoare_bind; [apply hoare_draw | intros r; apply Hinherit] | intros c1].
  eapply hoare_bind;
    [eapply hoare_bind; [apply hoare_draw | intros r; apply Hinherit] | intros c2].
  eapply hoare_bind; [apply hoare_allocEdges | intros ref].
  now apply hoare_ret.
Qed.

Lemma mutateEmitters_disjoint (circle : Circle) :
  disjointSlots circle -> post (mutateEmitters circle) disjointSlots.
Proof.
  intros Hdis. unfold mutateEmitters.
  eapply post_bind; [apply post_True | intros r _].
  destruct (JS.Qltb r _); [| now apply post_ret].
  eapply post_bind; [apply post_True | intros r' _].
  destruct (JS.Qltb r' (5 # 10) && _).
  - eapply post_bind; [apply post_True | intros index _].
    eapply post_bind; [apply post_freeSlot | intros newPos [_ Hfree]].
    apply post_ret. intros pos Hpos. simpl in *.
    apply setAt_In in Hpos as [-> | Hpos]; auto.
  - eapply post_bind; [apply post_True | intros r'' _].
    destruct (JS.Qltb r'' (5 # 10) && _).
    + eapply post_bind; [apply post_True | intros index _].
      apply post_ret. intros pos Hpos. simpl in *.
      apply removeAt_In in Hpos. auto.
    + eapply post_bind; [apply post_freeSlot | intros newPos [_ Hfree]].
      apply post_ret. intros pos Hpos. simpl in *.
      apply in_app_or in Hpos as [Hpos | [<- | []]]; auto.
Qed.

Lemma mutateBlockers_disjoint (circle : Circle) :
  disjointSlots circle -> post (mutateBlockers circle) disjointSlots.
Proof.
  intros Hdis. unfold mutateBlockers.
  eapply post_bind; [apply post_True | intros r _].
  destruct (JS.Qltb r _); [| now apply post_ret].
  eapply post_bind; [apply post_True | intros r' _].
  destruct (JS.Qltb r' (5 # 10) && _).
  - eapply post_bind; [apply post_True | intros index _].
    eapply post_bind; [apply post_freeSlot | intros newPos [Hfree _]].
    apply post_ret. intros pos Hpos Hb. simpl in *.
    apply setAt_In in Hb as [-> | Hb]; [contradiction | exact (Hdis pos Hpos Hb)].
  - eapply post_bind; [apply post_True | intros r'' _].
    destruct (JS.Qltb r'' (5 # 10) && _).
    + eapply post_bind; [apply post_True | intros index _].
      apply post_ret. intros pos Hpos Hb. simpl in *.
      apply removeAt_In in Hb. exact (Hdis pos Hpos Hb).
    + eapply post_bind; [apply post_freeSlot | intros newPos [Hfree _]].
      apply post_ret. intros pos Hpos Hb. simpl in *.
      apply in_app_or in Hb as [Hb | [<- | []]]; [exact (Hdis pos Hpos Hb) | contradiction].
Qed.

Lemma mutateCircle_disjoint (circle : Circle) :
  disjointSlots circle -> post (mutateCircle circle) disjointSlots.
Proof.
  intros Hdis. unfold mutateCircle.
  eapply post_bind; [now apply mutateEmitters_disjoint |].
  intros c Hc. now apply mutateBlockers_disjoint.
Qed.

(** Whatever the circle was, [repairChromosome] leaves it with an emitter
    and with no blocker on an emitter's slot. *)
Lemma repairCircle_ok (circle : Circle) : post (repairCircle circle) circleOk.
Proof.
  unfold repairCircle.
  eapply post_bind with (P := fun ems => ems <> []).
  - destruct (emitters circle) as [| e ems] eqn:Hem.
    + eapply post_bind; [apply post_True | intros newPos _].
      apply post_ret. discriminate.
    + apply post_ret. discriminate.
  - intros ems Hne. apply post_ret. split; simpl; [assumption |].
    intros pos Hpos Hb. apply filter_In in Hb as [_ Hb].
    apply negb_true_iff, includes_false in Hb. contradiction.
Qed.

Lemma hoare_mutate (offspring : Individual) (config : Config) :
  hoare sound (mutate offspring config)
        (fun _ st => storeOk (fun x => x = ring0 (circleRefs offspring) \/
                                       x = ring1 (circleRefs offspring) \/
                                       x = ring2 (circleRefs offspring)) st).
Proof.
  unfold mutate.
  eapply hoare_bind; [apply hoare_modifyEdges | intros ?].
  eapply hoare_bind;
    [apply hoare_modifyCircle_disjoint, mutateCircle_disjoint | intros ?].
  eapply hoare_bind;
    [apply hoare_modifyCircle_disjoint, mutateCircle_disjoint | intros ?].
  eapply hoare_conseq;
    [apply hoare_modifyCircle_disjoint, mutateCircle_disjoint | intros st H; exact H |].
  intros ? st Hst. eapply storeOk_weaken; [| exact Hst]. simpl. tauto.
Qed.

Lemma hoare_repairChromosome (broken : nat -> Prop) (offspring : Individual)
    (config : Config) :
  (forall x, broken x -> x = ring0 (circleRefs offspring) \/
                         x = ring1 (circleRefs offspring) \/
                         x = ring2 (circleRefs offspring)) ->
  hoare (storeOk broken) (repairChromosome offspring config) (fun _ st => sound st).
Proof.
  intros Hbroken. unfold repairChromosome.
  eapply hoare_bind; [apply hoare_modifyEdges | intros ?].
  eapply hoare_bind; [apply hoare_modifyCircle_repair, repairCircle_ok | intros ?].
  eapply hoare_bind; [apply hoare_modifyCircle_repair, repairCircle_ok | intros ?].
  eapply hoare_conseq; [apply hoare_modifyCircle_repair, repairCircle_ok | intros st H; exact H |].
  intros ? st Hst. eapply storeOk_weaken; [| exact Hst]. simpl.
  intros x (H2 & H1 & H0 & Hx). destruct (Hbroken x Hx) as [Heq | [Heq | Heq]]; congruence.
Qed.

Lemma hoare_elites (P : Store -> Prop) (count : nat) :
  forall population, hoare P (elites count population) (fun _ st => P st).
Proof.
  induction count as [| count IH]; intros population; simpl.
  - now apply hoare_ret.
  - destruct population as [| i population]; [apply hoare_throw |].
    eapply hoare_bind; [apply IH | intros rest].
    now apply hoare_ret.
Qed.

Lemma hoare_offspringLoop (missing : nat) (population : list Individual) (config : Config) :
  hoare sound (offspringLoop missing population config) (fun _ st => sound st).
Proof.
  induction missing as [| missing IH]; simpl.
  - now apply hoare_ret.
  - eapply hoare_bind; [apply hoare_draw | intros parent1].
    eapply hoare_bind; [apply hoare_draw | intros parent2].
    eapply hoare_bind; [apply hoare_draw | intros r].
    eapply hoare_bind with (R := fun _ st => sound st).
    { destruct (JS.Qltb r _); [apply hoare_crossover | now apply hoare_ret]. }
    intros offspring.
    eapply hoare_bind; [apply hoare_draw | intros r'].
    eapply hoare_bind
      with (R := fun _ st => storeOk (fun x => x = ring0 (circleRefs offspring) \/
                                               x = ring1 (circleRefs offspring) \/
                                               x = ring2 (circleRefs offspring)) st).
    { destruct (JS.Qltb r' _); [apply hoare_mutate |].
      apply hoare_ret. intros st. apply storeOk_weaken. intros x []. }
    intros u.
    eapply hoare_bind; [apply hoare_repairChromosome; auto | intros u'].
    eapply hoare_bind; [apply IH | intros rest].
    now apply hoare_ret.
Qed.

Lemma hoare_evolvePopulation (population : list Individual) (config : Config) :
  hoare sound (evolvePopulation population config) (fun _ st => sound st).
Proof.
  unfold evolvePopulation.
  eapply hoare_bind; [apply hoare_elites | intros kept].
  eapply hoare_bind; [apply hoare_offspringLoop | intros offspring].
  now apply hoare_ret.
Qed.

Variable score : Chromosome -> Config -> option Q.

Lemma hoare_evaluatePopulationBy (config : Config) (population : list Individual) :
  hoare sound (evaluatePopulationBy score population config) (fun _ st => sound st).
Proof.
  induction population as [| individual population IH]; simpl.
  - now apply hoare_ret.
  - eapply hoare_bind_pure; [apply hoare_snapshot | intros c Hc].
    eapply hoare_bind; [now apply hoare_logEvaluated | intros u].
    eapply hoare_bind; [apply IH | intros rest].
    now apply hoare_ret.
Qed.

Lemma hoare_generationLoop (config : Config) (remaining : nat) :
  forall generation population bestIndividual counter,
    hoare sound
          (generationLoop score remaining generation config population bestIndividual counter)
          (fun _ st => sound st).
Proof.
  induction remaining as [| remaining IH];
    intros generation population bestIndividual counter; cbn [generationLoop].
  - now apply hoare_ret.
  - destruct (counter >? 10); [now apply hoare_ret |].
    eapply hoare_bind; [apply hoare_evaluatePopulationBy | intros evaluated].
    destruct (sortByFitness evaluated) as [| currentBest others]; [apply hoare_throw |].
    eapply hoare_bind; [apply hoare_evolvePopulation | intros population'].
    apply IH.
Qed.

(** The puzzle the full generator returns, and every chromosome it handed
    to the fitness function, is well formed. *)
Lemma hoare_generatePuzzleBy (difficulty : string) (counter : Z) :
  hoare sound (generatePuzzleBy score difficulty counter)
        (fun result st => chromosomeOk (puzzle result) /\
                          Forall chromosomeOk (evaluatedLog st)).
Proof.
  unfold generatePuzzleBy.
  destruct (getDifficultyConfig difficulty) as [config |]; [| apply hoare_throw].
  eapply hoare_bind; [apply hoare_createPopulation | intros population].
  eapply hoare_bind; [apply hoare_generationLoop | intros [[bestIndividual generation] counter']].
  destruct bestIndividual as [b |]; [| apply hoare_throw].
  eapply hoare_bind_pure; [apply hoare_snapshot | intros c Hc].
  apply hoare_ret. intros st [_ Hlog]. now split.
Qed.

End StoreInvariant.

(** ** The basic generator keeps emitters and blockers apart *)

Section BasicPlacement.

Import Puzzle.

(** No angle of the circle holds both an emitter and a blocker. *)
Definition apart (circle : Circle) : Prop :=
  forall angle, In angle (lasers circle) -> ~ In angle (blockers circle).

Definition slotAngle (angle : Z) : Prop :=
  exists pos, 0 <= pos < 12 /\ angle = positionToAngle pos.

(** Blockers sit on slot angles, away from every emitter. *)
Definition placedApart (circle : Circle) : Prop :=
  Forall slotAngle (blockers circle) /\ apart circle.

Lemma angleToPosition_slotAngle (pos : Z) :
  0 <= pos < 12 -> angleToPosition (15 + 30 * pos) = pos.
Proof.
  intros Hpos.
  destruct (slot_cases pos Hpos) as [-> | [-> | [-> | [-> | [-> | [-> |
    [-> | [-> | [-> | [-> | [-> | ->]]]]]]]]]]]; reflexivity.
Qed.

Lemma positionToAngle_inj (p q : Z) :
  0 <= p < 12 -> 0 <= q < 12 -> positionToAngle p = positionToAngle q -> p = q.
Proof.
  intros Hp Hq. rewrite !positionToAngle_slot by assumption. lia.
Qed.

(** The placement loop: every angle it pushes is the angle of a slot it
    marked as used, and that slot was free when the loop started. *)
Lemma placeSlots_spec (count : Z) (used0 : list Z) (tape : JS.Tape) :
  forall used placed result rest,
    (forall pos, In pos used0 -> In pos used) ->
    (forall angle, In angle placed ->
       exists pos, 0 <= pos < 12 /\ angle = positionToAngle pos /\
                   In pos used /\ ~ In pos used0) ->
    placeSlots count used placed tape = JS.Done result rest ->
    forall angle, In angle (snd result) ->
      exists pos, 0 <= pos < 12 /\ angle = positionToAngle pos /\
                  In pos (fst result) /\ ~ In pos used0.
Proof.
  induction tape as [| r tape IH]; intros used placed result rest Hsub Hplaced; simpl.
  - destruct (Z.of_nat (length placed) <? count); [discriminate |].
    intros [= <- _]. exact Hplaced.
  - destruct (Z.of_nat (length placed) <? count); [| intros [= <- _]; exact Hplaced].
    destruct (JS.legal r) eqn:Hr; [| discriminate].
    pose proof (randomInt_range r SIDES Hr ltac:(reflexivity)) as Hrange.
    destruct (negb (JS.includes used _) && _) eqn:Hfree; [| now apply IH].
    apply IH.
    + intros pos Hpos. apply in_or_app. left. now apply Hsub.
    + apply andb_true_iff in Hfree as [Hfree _].
      apply negb_true_iff, includes_false in Hfree.
      intros angle Hangle. apply in_app_or in Hangle as [Hangle | [<- | []]].
      * destruct (Hplaced angle Hangle) as (pos & Hpos & Heq & Hin & Hout).
        exists pos. split; [assumption |]. split; [assumption |].
        split; [apply in_or_app; now left | assumption].
      * exists (JS.randomInt r SIDES). unfold SIDES in *.
        split; [assumption |]. split; [reflexivity |]. split.
        -- apply in_or_app. right. now left.
        -- intros Hin. apply Hfree. now apply Hsub.
Qed.

Lemma post_makeCircle (radius : Q) : post (makeCircle radius) placedApart.
Proof.
  unfold makeCircle.
  eapply post_bind; [apply post_True | intros r1 _].
  eapply post_bind; [apply post_True | intros r2 _].
  eapply post_bind with
    (P := fun placedLasers =>
            forall angle, In angle (snd placedLasers) ->
              exists pos, 0 <= pos < 12 /\ angle = positionToAngle pos /\
                          In pos (fst placedLasers) /\ ~ In pos []).
  { intros tape result rest. apply placeSlots_spec; [auto | intros angle []]. }
  intros placedLasers Hlasers.
  eapply post_bind with
    (P := fun placedBlockers =>
            forall angle, In angle (snd placedBlockers) ->
              exists pos, 0 <= pos < 12 /\ angle = positionToAngle pos /\
                          In pos (fst placedBlockers) /\ ~ In pos (fst placedLasers)).
  { intros tape result rest. apply placeSlots_spec; [auto | intros angle []]. }
  intros placedBlockers Hblockers.
  apply post_ret. split; simpl.
  - apply Forall_forall. intros angle Hangle.
    destruct (Hblockers angle Hangle) as (pos & Hpos & Heq & _).
    now exists pos.
  - intros angle Hl Hb. cbn [lasers blockers] in *.
    destruct (Hlasers angle Hl) as (p & Hp & Heqp & Hinp & _).
    destruct (Hblockers angle Hb) as (q & Hq & Heqq & _ & Houtq).
    assert (p = q) by (apply positionToAngle_inj; congruence).
    subst q. contradiction.
Qed.

Lemma setFirst_In (x : Z) (l : list Z) (y : Z) :
  In y (setFirst x l) -> y = x \/ In y l.
Proof.
  destruct l as [| z l]; simpl; intros [<- | H]; auto.
Qed.

Lemma takenPositions_blocker (circle : Circle) (angle : Z) :
  In angle (blockers circle) -> In (angleToPosition angle) (takenPositions circle).
Proof.
  intros Hin. unfold takenPositions. apply in_flat_map.
  exists angle. split; [apply in_or_app; now right | now left].
Qed.

Lemma Forall_ring_set {A} (P : A -> Prop) (r : Rings A) (i : nat) (a : A) :
  Forall P (rings_list r) -> P a -> Forall P (rings_list (ring_set r i a)).
Proof.
  rewrite !Forall_rings. intros (H0 & H1 & H2) Ha.
  destruct i as [| [| i]]; simpl; auto.
Qed.

Lemma Forall_ring_at {A} (P : A -> Prop) (r : Rings A) (i : nat) :
  Forall P (rings_list r) -> P (ring_at r i).
Proof.
  rewrite Forall_rings. intros (H0 & H1 & H2).
  destruct i as [| [| i]]; simpl; auto.
Qed.

(** The third step moves a first emitter only onto a slot no blocker
    holds. *)
Lemma alignEmitters_apart (litEdges : list Z) (circles : Rings Circle) :
  Forall edgeIndex litEdges ->
  Forall placedApart (rings_list circles) ->
  Forall placedApart (rings_list (alignEmitters litEdges circles)).
Proof.
  intros Hidx. unfold alignEmitters.
  assert (Htargets : Forall (fun it => edgeIndex (snd it)) (indexed litEdges)).
  { apply Forall_forall. intros [i target] Hin. simpl.
    apply in_combine_r in Hin. rewrite Forall_forall in Hidx. now apply Hidx. }
  revert circles. induction Htargets as [| [i target] targets Htarget _ IH];
    intros circles Hok; simpl; [assumption |].
  apply IH. simpl in Htarget.
  destruct (negb (JS.includes _ target) && _) eqn:Hfree; [| assumption].
  apply Forall_ring_set; [assumption |].
  pose proof (Forall_ring_at _ _ (i mod 3) Hok) as [Hslots Hapart].
  apply andb_true_iff in Hfree as [Hfree _].
  apply negb_true_iff, includes_false in Hfree.
  split; simpl; [assumption |].
  intros angle Hl Hb. cbn [lasers blockers] in *.
  apply setFirst_In in Hl as [-> | Hl].
  - rewrite Forall_forall in Hslots.
    destruct (Hslots _ Hb) as (q & Hq & Heq).
    apply positionToAngle_inj in Heq; [| assumption | assumption]. subst q.
    apply Hfree. apply takenPositions_blocker in Hb.
    rewrite positionToAngle_slot in Hb by assumption.
    now rewrite angleToPosition_slotAngle in Hb.
  - exact (Hapart angle Hl Hb).
Qed.

(** Every puzzle of the basic generator keeps emitters and blockers apart
    on every ring. *)
Lemma post_generatePuzzle_apart (minLit maxLit : Z) :
  post (generatePuzzle minLit maxLit)
       (fun p => Forall apart (rings_list (circles p))).
Proof.
  unfold generatePuzzle.
  eapply post_bind; [apply post_True | intros r _].
  eapply post_bind with (P := Forall edgeIndex).
  { intros tape result rest Hpick.
    apply pickLitEdges_spec in Hpick as (_ & Hidx & _); [assumption | constructor | constructor]. }
  intros edges Hidx.
  eapply post_bind; [apply post_makeCircle | intros c0 H0].
  eapply post_bind; [apply post_makeCircle | intros c1 H1].
  eapply post_bind; [apply post_makeCircle | intros c2 H2].
  apply post_ret. cbn [circles].
  assert (Hall : Forall placedApart
                   (rings_list (alignEmitters (JS.sortAsc edges) (mkRings c0 c1 c2)))).
  { apply alignEmitters_apart.
    - now rewrite (sortAsc_perm edges).
    - apply Forall_rings. simpl. auto. }
  eapply Forall_impl; [| exact Hall]. now intros circle [_ Hapart].
Qed.

End BasicPlacement.

(** ** What the generators evaluate and return *)

Section GeneratedPuzzles.

Import Genome.

(** Every ring of the puzzle carries an emitter. *)
Definition lasersNonEmpty (p : Puzzle.Puzzle) : Prop :=
  Forall (fun circle => Puzzle.lasers circle <> []) (rings_list (Puzzle.circles p)).

(** No ring of the puzzle holds an emitter and a blocker at one angle. *)
Definition lasersApart (p : Puzzle.Puzzle) : Prop :=
  Forall apart (rings_list (Puzzle.circles p)).

Lemma chromosomeToPuzzle_nonEmpty (c : Chromosome) :
  ringsNonEmpty c -> lasersNonEmpty (Simplified.chromosomeToPuzzle c).
Proof.
  unfold ringsNonEmpty, lasersNonEmpty. rewrite !Forall_rings.
  unfold Simplified.chromosomeToPuzzle.
  cbn [Puzzle.circles Puzzle.lasers ring0 ring1 ring2].
  intros (H0 & H1 & H2).
  repeat split; intros Hnil; apply map_eq_nil in Hnil; contradiction.
Qed.

Lemma chromosomeToPuzzle_apart (c : Chromosome) :
  ringsDisjoint c -> lasersApart (Simplified.chromosomeToPuzzle c).
Proof.
  unfold ringsDisjoint, lasersApart. rewrite !Forall_rings.
  unfold Simplified.chromosomeToPuzzle. cbn [Puzzle.circles ring0 ring1 ring2].
  assert (Hconvert : forall radius circle,
    disjointSlots circle ->
    apart (Puzzle.mkCircle radius
             (map (fun pos => 15 + 30 * pos) (emitters circle))
             (map (fun pos => 15 + 30 * pos) (blockers circle)))).
  { intros radius circle Hdis angle Hl Hb. cbn [Puzzle.lasers Puzzle.blockers] in Hl, Hb.
    apply in_map_iff in Hl as (e & Hangle & He).
    apply in_map_iff in Hb as (b & Heq & Hb).
    cbv beta in Hangle, Heq.
    assert (b = e) by lia. subst b. exact (Hdis e He Hb). }
  intros (H0 & H1 & H2). auto.
Qed.

(** A reproducible tape of draws: a linear congruential sequence, twelve
    bits of each state scaled into [[0,1)]. *)
Fixpoint lcgTape (n : nat) (x : Z) : JS.Tape :=
  match n with
  | O => []
  | S n' =>
      let x' := (x * 1103515245 + 12345) mod 2147483648 in
      ((x' / 65536) mod 4096 # 4096)%Q :: lcgTape n' x'
  end.

(** C4 — every chromosome handed to the fitness evaluation of the two
    evolutionary generators, and the puzzle each of them returns, has at
    least one emitter on each of the three rings; this holds whatever the
    fitness function is, so in particular for [generatePuzzle]. *)
Theorem evaluated_rings_non_empty :
  (forall judge difficulty tape result rest,
      Simplified.generatePuzzleBy judge difficulty tape = JS.Done result rest ->
      Forall ringsNonEmpty (Simplified.evaluated result) /\
      lasersNonEmpty (Simplified.puzzle result)) /\
  (forall score difficulty counter tape result st rest,
      Evolutionary.generatePuzzleBy score difficulty counter Evolutionary.emptyStore tape
        = JS.Done (result, st) rest ->
      Forall ringsNonEmpty (Evolutionary.evaluatedLog st) /\
      ringsNonEmpty (Evolutionary.puzzle result)).
Proof.
  split.
  - intros judge difficulty tape result rest Hrun.
    destruct (post_generatePuzzleBy judge difficulty _ _ _ Hrun) as (Hseen & Hbest & ->).
    split.
    + eapply Forall_impl; [| exact Hseen].
      intros c Hc. now apply chromosomeOk_split in Hc.
    + apply chromosomeToPuzzle_nonEmpty. now apply chromosomeOk_split in Hbest.
  - intros score difficulty counter tape result st rest Hrun.
    destruct (hoare_generatePuzzleBy score difficulty counter _ _ _ _ _
                sound_emptyStore Hrun) as [Hbest Hlog].
    split.
    + eapply Forall_impl; [| exact Hlog].
      intros c Hc. now apply chromosomeOk_split in Hc.
    + now apply chromosomeOk_split in Hbest.
Qed.

Lemma evaluated_rings_non_empty_witness :
  returns (Simplified.generatePuzzleBy (fun _ => true) "medium")
          (lcgTape (Z.to_nat 600) 42)
          (fun result =>
             Forall ringsNonEmpty (Simplified.evaluated result) /\
             lasersNonEmpty (Simplified.puzzle result)) /\
  returns (Evolutionary.generatePuzzleBy (fun _ _ => Some 0%Q) "medium" 0
             Evolutionary.emptyStore)
          (lcgTape (Z.to_nat 12000) 42)
          (fun out =>
             Forall ringsNonEmpty (Evolutionary.evaluatedLog (snd out)) /\
             ringsNonEmpty (Evolutionary.puzzle (fst out))).
Proof.
  split.
  - apply returns_intro; [vm_compute; reflexivity |].
    intros result rest Hrun.
    exact (proj1 evaluated_rings_non_empty _ _ _ _ _ Hrun).
  - apply returns_intro; [vm_compute; reflexivity |].
    intros [result st] rest Hrun.
    exact (proj2 evaluated_rings_non_empty _ _ _ _ _ _ _ Hrun).
Defined.

(** C5 — in every puzzle the generators produce (the basic generator and
    the two evolutionary ones), on every ring, no slot holds both an emitter
    and a blocker. *)
Theorem generated_slots_disjoint :
  (forall minLit maxLit tape p rest,
      Puzzle.generatePuzzle minLit maxLit tape = JS.Done p rest ->
      lasersApart p) /\
  (forall judge difficulty tape result rest,
      Simplified.generatePuzzleBy judge difficulty tape = JS.Done result rest ->
      lasersApart (Simplified.puzzle result)) /\
  (forall score difficulty counter tape result st rest,
      Evolutionary.generatePuzzleBy score difficulty counter Evolutionary.emptyStore tape
        = JS.Done (result, st) rest ->
      ringsDisjoint (Evolutionary.puzzle result)).
Proof.
  split; [| split].
  - intros minLit maxLit tape p rest Hrun.
    exact (post_generatePuzzle_apart minLit maxLit _ _ _ Hrun).
  - intros judge difficulty tape result rest Hrun.
    destruct (post_generatePuzzleBy judge difficulty _ _ _ Hrun) as (_ & Hbest & ->).
    apply chromosomeToPuzzle_apart. now apply chromosomeOk_split in Hbest.
  - intros score difficulty counter tape result st rest Hrun.
    destruct (hoare_generatePuzzleBy score difficulty counter _ _ _ _ _
                sound_emptyStore Hrun) as [Hbest _].
    now apply chromosomeOk_split in Hbest.
Qed.

Lemma generated_slots_disjoint_witness :
  returns (Puzzle.generatePuzzle 3 4) (lcgTape (Z.to_nat 200) 7) lasersApart /\
  returns (Simplified.generatePuzzleBy (fun _ => true) "hard")
          (lcgTape (Z.to_nat 800) 7)
          (fun result => lasersApart (Simplified.puzzle result)) /\
  returns (Evolutionary.generatePuzzleBy (fun _ _ => Some 0%Q) "easy" 0
             Evolutionary.emptyStore)
          (lcgTape (Z.to_nat 12000) 7)
          (fun out => ringsDisjoint (Evolutionary.puzzle (fst out))).
Proof.
  split; [| split].
  - apply returns_intro; [vm_compute; reflexivity |].
    intros p rest Hrun.
    exact (proj1 generated_slots_disjoint _ _ _ _ _ Hrun).
  - apply returns_intro; [vm_compute; reflexivity |].
    intros result rest Hrun.
    exact (proj1 (proj2 generated_slots_disjoint) _ _ _ _ _ Hrun).
  - apply returns_intro; [vm_compute; reflexivity |].
    intros [result st] rest Hrun.
    exact (proj2 (proj2 generated_slots_disjoint) _ _ _ _ _ _ _ Hrun).
Defined.

End GeneratedPuzzles.

(** ** Angles, slots and sectors *)

Section AngleArithmetic.

Import Puzzle.

(** [((a % m) + m) % m] with the truncated remainder of JavaScript is the
    remainder of the floored division. *)
Lemma rem_rem_mod (a m : Z) : 0 < m -> Z.rem (Z.rem a m + m) m = a mod m.
Proof.
  intros Hm.
  pose proof (Z.rem_bound_abs a m ltac:(lia)) as Hbound.
  pose proof (Z.quot_rem' a m) as Hquot.
  rewrite Z.rem_mod_nonneg by lia.
  apply (Z.mod_unique a m (Z.quot a m - 1 + (Z.rem a m + m) / m)).
  - left. apply Z.mod_pos_bound. lia.
  - pose proof (Z.div_mod (Z.rem a m + m) m ltac:(lia)). lia.
Qed.

Lemma mod360_spec (angle : Z) : mod360 angle = angle mod 360.
Proof. unfold mod360. apply rem_rem_mod. lia. Qed.

(** X1 — [mod360] brings every integer angle, negative ones too, to its
    representative in [[0,360)]: the same angle up to whole turns. *)
Theorem mod360_normalises (angle : Z) :
  0 <= mod360 angle < 360 /\ (mod360 angle - angle) mod 360 = 0 /\
  mod360 (mod360 angle) = mod360 angle.
Proof.
  rewrite !mod360_spec.
  pose proof (Z.mod_pos_bound angle 360 ltac:(lia)).
  split; [assumption |]. split.
  - Z.to_euclidean_division_equations. lia.
  - apply Z.mod_small. assumption.
Qed.

(** [Math.round(n / 30)] on an integer [n] is [floor((n + 15) / 30)]. *)
Lemma Math_round_div30 (n : Z) : JS.Math_round (inject_Z n / 30)%Q = (n + 15) / 30.
Proof.
  unfold JS.Math_round, Qfloor, Qdiv, Qmult, Qplus, Qinv, inject_Z. cbn [Qnum Qden].
  change (Z.pos (1 * 30 * 2)) with (2 * 30).
  replace (n * 1 * 2 + 1 * Z.pos (1 * 30)) with (2 * (n + 15)) by lia.
  apply Z.div_mul_cancel_l; lia.
Qed.

Lemma angleToPosition_sector_of (angle : Z) :
  -345 <= angle -> angleToPosition angle = (angle mod 360) / 30.
Proof.
  intros Hangle. unfold angleToPosition. cbv zeta.
  rewrite Math_round_div30.
  rewrite (Z.rem_mod_nonneg (angle - 15 + 360) 360) by lia.
  pose proof (Z.mod_pos_bound angle 360 ltac:(lia)) as Ha.
  pose proof (Z.mod_pos_bound (angle - 15 + 360) 360 ltac:(lia)) as Hn.
  assert (Hcases :
    (15 <= angle mod 360 /\ (angle - 15 + 360) mod 360 = angle mod 360 - 15) \/
    (angle mod 360 < 15 /\ (angle - 15 + 360) mod 360 = angle mod 360 + 345)).
  { Z.to_euclidean_division_equations. lia. }
  destruct Hcases as [[Hge ->] | [Hlt ->]].
  - replace (angle mod 360 - 15 + 15) with (angle mod 360) by lia.
    apply Z.rem_small. split; [apply Z.div_pos; lia | apply Z.div_lt_upper_bound; lia].
  - replace (angle mod 360 + 345 + 15) with (angle mod 360 + 12 * 30) by lia.
    rewrite Z.div_add by lia.
    rewrite (Z.div_small (angle mod 360) 30) by lia. reflexivity.
Qed.

(** X2 — [angleToPosition] maps every angle from -345 degrees upwards to the
    slot whose 30-degree sector [30 s <= angle mod 360 < 30 s + 30] holds
    it; in particular the result is a slot of [[0,12)]. *)
Theorem angleToPosition_sector (angle : Z) :
  -345 <= angle ->
  angleToPosition angle = (angle mod 360) / 30 /\ 0 <= angleToPosition angle < 12.
Proof.
  intros Hangle. rewrite (angleToPosition_sector_of angle Hangle).
  split; [reflexivity |].
  pose proof (Z.mod_pos_bound angle 360 ltac:(lia)).
  split; [apply Z.div_pos; lia | apply Z.div_lt_upper_bound; lia].
Qed.

Lemma angleToPosition_sector_witness :
  -345 <= 374 /\
  (angleToPosition 374 = (374 mod 360) / 30 /\ 0 <= angleToPosition 374 < 12).
Proof.
  split; [lia | apply (angleToPosition_sector 374); lia].
Defined.

(** X3 — below -345 degrees the remainder [(angle - 15 + 360) % 360] is
    negative, and [angleToPosition] returns zero or a negative number, never
    one of the slots 1 to 11. *)
Theorem angleToPosition_below (angle : Z) :
  angle < -345 -> -12 < angleToPosition angle <= 0.
Proof.
  intros Hangle. unfold angleToPosition. cbv zeta.
  rewrite Math_round_div30.
  pose proof (Z.rem_bound_abs (angle - 15 + 360) 360 ltac:(lia)) as Habs.
  pose proof (Z.rem_nonpos (angle - 15 + 360) 360 ltac:(lia) ltac:(lia)) as Hneg.
  set (n := Z.rem (angle - 15 + 360) 360) in *.
  assert (Hq : (n + 15) / 30 <= 0).
  { clearbody n. Z.to_euclidean_division_equations. lia. }
  pose proof (Z.rem_bound_abs ((n + 15) / 30) 12 ltac:(lia)).
  pose proof (Z.rem_nonpos ((n + 15) / 30) 12 ltac:(lia) Hq).
  lia.
Qed.

Lemma angleToPosition_below_witness :
  -400 < -345 /\ -12 < angleToPosition (-400) <= 0.
Proof.
  split; [lia | apply (angleToPosition_below (-400)); lia].
Defined.

End AngleArithmetic.

Section SlotRelations.

Import Puzzle.

(** X4 — for angles from -345 degrees upwards, [areAtSamePosition] holds
    exactly when the two angles fall on the same slot or on two slots that
    lie opposite each other (six slots apart). *)
Theorem areAtSamePosition_same_or_opposite (angle1 angle2 : Z) :
  -345 <= angle1 -> -345 <= angle2 ->
  (areAtSamePosition angle1 angle2 = true <->
   angleToPosition angle1 = angleToPosition angle2 \/
   angleToPosition angle1 = angleToPosition angle2 + 6 \/
   angleToPosition angle2 = angleToPosition angle1 + 6).
Proof.
  intros H1 H2. unfold areAtSamePosition. cbv zeta.
  rewrite !(angleToPosition_sector_of angle1 H1), !(angleToPosition_sector_of angle2 H2).
  pose proof (Z.mod_pos_bound angle1 360 ltac:(lia)) as Ha.
  pose proof (Z.mod_pos_bound angle2 360 ltac:(lia)) as Hb.
  set (p := angle1 mod 360 / 30). set (q := angle2 mod 360 / 30).
  assert (Hp : 0 <= p < 12) by (unfold p; Z.to_euclidean_division_equations; lia).
  assert (Hq : 0 <= q < 12) by (unfold q; Z.to_euclidean_division_equations; lia).
  clearbody p q.
  rewrite !orb_true_iff, !Z.eqb_eq.
  rewrite !Z.rem_mod_nonneg by lia.
  Z.to_euclidean_division_equations. lia.
Qed.

Lemma areAtSamePosition_same_or_opposite_witness :
  -345 <= 45 /\ -345 <= 225 /\
  (areAtSamePosition 45 225 = true <->
   angleToPosition 45 = angleToPosition 225 \/
   angleToPosition 45 = angleToPosition 225 + 6 \/
   angleToPosition 225 = angleToPosition 45 + 6).
Proof.
  split; [lia |]. split; [lia |].
  apply (areAtSamePosition_same_or_opposite 45 225); lia.
Defined.

(** X5 — [hasAngleOrOpposite] finds an element of the list exactly when one
    of them equals the angle or its opposite modulo a full turn, that is,
    differs from the angle by a multiple of 180 degrees. *)
Theorem hasAngleOrOpposite_half_turn (l : list Z) (angle : Z) :
  hasAngleOrOpposite l angle = true <->
  exists a, In a l /\ (a - angle) mod 180 = 0.
Proof.
  unfold hasAngleOrOpposite. cbv zeta. rewrite existsb_exists.
  split; intros (a & Hin & Ha); exists a; (split; [assumption |]).
  - rewrite !mod360_spec in Ha.
    apply orb_true_iff in Ha. rewrite !Z.ltb_lt in Ha.
    Z.to_euclidean_division_equations. lia.
  - rewrite !mod360_spec.
    apply orb_true_iff. rewrite !Z.ltb_lt.
    Z.to_euclidean_division_equations. lia.
Qed.

End SlotRelations.

(** ** The angular model of the full generator's solvability check *)

Section AngularModel.

Import Genome Evolutionary.

Lemma angleIntersectsEdge_modulo (beamAngle edgeStart edgeEnd : Z) :
  angleIntersectsEdge beamAngle edgeStart edgeEnd =
  if edgeEnd mod 360 <? edgeStart mod 360
  then (beamAngle mod 360 >=? edgeStart mod 360) || (beamAngle mod 360 <=? edgeEnd mod 360)
  else (beamAngle mod 360 >=? edgeStart mod 360) && (beamAngle mod 360 <=? edgeEnd mod 360).
Proof.
  unfold angleIntersectsEdge. cbv zeta.
  now rewrite !rem_rem_mod by lia.
Qed.

(** Some rotation of the ring points the beam at the start of the edge's
    window. *)
Lemma canEmitterHitEdge_always (emitterPos edge : Z) (circleIdx : nat) :
  canEmitterHitEdge emitterPos edge circleIdx = true.
Proof.
  unfold canEmitterHitEdge. cbv zeta. apply existsb_exists.
  exists ((edge - emitterPos - 6) mod 12). split.
  - apply range_In. pose proof (Z.mod_pos_bound (edge - emitterPos - 6) 12 ltac:(lia)). lia.
  - rewrite angleIntersectsEdge_modulo.
    set (rotation := (edge - emitterPos - 6) mod 12).
    assert (Hbeam : Z.rem (Z.rem (emitterPos + rotation) 12 * 30 + 180) 360 mod 360
                    = (edge * 30) mod 360).
    { unfold rotation. Z.to_euclidean_division_equations. lia. }
    rewrite Hbeam.
    destruct (((edge + 1) * 30) mod 360 <? (edge * 30) mod 360) eqn:Hwrap.
    + apply orb_true_iff. left. apply Z.geb_le. lia.
    + apply Z.ltb_ge in Hwrap. apply andb_true_iff. split.
      * apply Z.geb_le. lia.
      * apply Z.leb_le. exact Hwrap.
Qed.

(** X6 — the heuristic pre-filter accepts a chromosome exactly when it has
    no lit edge or at least one emitter, whatever the slots and the edges
    are: every emitter can be turned towards every edge. *)
Theorem heuristic_accepts_any_emitter (c : Chromosome) :
  heuristicSolvabilityCheckChromosome c = true <->
  litEdges c = [] \/
  exists circle, In circle (rings_list (circles c)) /\ emitters circle <> [].
Proof.
  unfold heuristicSolvabilityCheckChromosome. rewrite forallb_forall. split.
  - intros Hall. destruct (litEdges c) as [| edge edges]; [now left | right].
    specialize (Hall edge (or_introl eq_refl)).
    apply existsb_exists in Hall as (circleIdx & Hidx & Hsome).
    apply existsb_exists in Hsome as (emitterPos & Hpos & _).
    exists (ring_at (circles c) circleIdx). split.
    + unfold rings_list. destruct circleIdx as [| [| circleIdx]]; simpl; auto.
    + intros Hnil. rewrite Hnil in Hpos. destruct Hpos.
  - intros [Hnil | (circle & Hin & Hne)] edge Hedge.
    + rewrite Hnil in Hedge. destruct Hedge.
    + destruct (emitters circle) as [| emitterPos rest] eqn:Hems; [congruence |].
      apply existsb_exists.
      assert (Hidx : exists circleIdx,
                 In circleIdx [0; 1; 2]%nat /\ ring_at (circles c) circleIdx = circle).
      { unfold rings_list in Hin.
        destruct Hin as [<- | [<- | [<- | []]]];
          [exists 0%nat | exists 1%nat | exists 2%nat]; simpl; auto. }
      destruct Hidx as (circleIdx & Hidx & Heq).
      exists circleIdx. split; [assumption |].
      apply existsb_exists. exists emitterPos. split.
      * rewrite Heq, Hems. now left.
      * apply canEmitterHitEdge_always.
Qed.

(** The window search of a beam never ends on edge 11: a beam at 330
    degrees is claimed by edge 10, a beam at 0 degrees by edge 0. *)
Lemma beam_never_lands_on_11 (x : Z) :
  find (fun edge =>
          angleIntersectsEdge (Z.rem (Z.rem x 12 * 30 + 180) 360) (edge * 30) ((edge + 1) * 30))
       (JS.range 12) <> Some 11.
Proof.
  pose proof (Z.rem_bound_abs x 12 ltac:(lia)) as Hbound.
  set (rotatedPos := Z.rem x 12) in *. clearbody rotatedPos.
  assert (Hall :
    forallb (fun rp =>
      match find (fun edge =>
                    angleIntersectsEdge (Z.rem (rp * 30 + 180) 360) (edge * 30) ((edge + 1) * 30))
                 (JS.range 12) with
      | Some edge => negb (edge =? 11)
      | None => true
      end) (map (fun k => Z.of_nat k - 11) (seq 0 23)) = true)
    by (vm_compute; reflexivity).
  rewrite forallb_forall in Hall.
  specialize (Hall rotatedPos).
  assert (Hin : In rotatedPos (map (fun k => Z.of_nat k - 11) (seq 0 23))).
  { apply in_map_iff. exists (Z.to_nat (rotatedPos + 11)). split; [lia |].
    apply in_seq. lia. }
  specialize (Hall Hin). intros Hfind. rewrite Hfind in Hall. discriminate Hall.
Qed.

Lemma set_add_In (s : list Z) (x y : Z) : In y (set_add s x) -> In y s \/ y = x.
Proof.
  unfold set_add. destruct (JS.includes s x); [now left |].
  intros Hin. apply in_app_or in Hin as [Hin | [<- | []]]; auto.
Qed.

Lemma hitEdges_never_11 (c : Chromosome) (rotations : Rings Z) :
  ~ In 11 (hitEdgesOf c rotations).
Proof.
  unfold hitEdgesOf.
  apply (fold_left_invariant (fun hitEdges => ~ In 11 hitEdges)); [intros [] |].
  intros hitEdges circleIdx Hacc.
  apply (fold_left_invariant (fun hitEdges => ~ In 11 hitEdges)); [assumption |].
  intros acc emitterPos Hnot. unfold beamStep. cbv zeta.
  pose proof (beam_never_lands_on_11 (emitterPos + ring_at rotations circleIdx)) as Hnever.
  destruct (find _ (JS.range 12)) as [edge |]; [| assumption].
  destruct (isBeamBlockedChromosome _ _ _ _); [assumption |].
  intros Hin. apply set_add_In in Hin as [Hin | Heq]; [contradiction | congruence].
Qed.

(** X7 — the full generator's solvability check can never light edge 11: a
    chromosome whose lit edges include 11 gets the solvability score 0,
    whatever its emitters and blockers are. *)
Theorem edge_11_never_lit (c : Chromosome) :
  In 11 (litEdges c) -> calculateSolvabilityFromChromosome c = 0%Q.
Proof.
  intros Hlit. unfold calculateSolvabilityFromChromosome.
  destruct (negb (heuristicSolvabilityCheckChromosome c)); [reflexivity |].
  assert (Hbrute : bruteForceSolvabilityCheckChromosome c = false).
  { unfold bruteForceSolvabilityCheckChromosome.
    apply not_true_is_false. intros Htrue.
    apply existsb_exists in Htrue as (r1 & _ & Htrue).
    apply existsb_exists in Htrue as (r2 & _ & Htrue).
    apply existsb_exists in Htrue as (r3 & _ & Htrue).
    unfold isPuzzleSolvedWithRotationsChromosome in Htrue. cbv zeta in Htrue.
    rewrite forallb_forall in Htrue. specialize (Htrue 11 Hlit).
    apply includes_In in Htrue. exact (hitEdges_never_11 c _ Htrue). }
  now rewrite Hbrute.
Qed.

Definition last_edge_example : Chromosome :=
  mkChromosome [2; 11] (mkRings (mkCircle [0; 5] []) (mkCircle [3] []) (mkCircle [7] [])).

Lemma edge_11_never_lit_witness :
  In 11 (litEdges last_edge_example) /\
  calculateSolvabilityFromChromosome last_edge_example = 0%Q.
Proof.
  split; [simpl; auto |].
  apply (edge_11_never_lit last_edge_example). simpl. auto.
Defined.

(** The beam of a slot points at a multiple of 30 degrees and the centre
    of an edge lies 15 degrees off: the test [angleDiff < 15] never
    succeeds. *)
Lemma calculateRotationsToHitEdge_never (emitterPos edge : Z) :
  calculateRotationsToHitEdge emitterPos edge = None.
Proof.
  unfold calculateRotationsToHitEdge. cbv zeta.
  apply (fold_left_invariant (fun minRotations => minRotations = None)); [reflexivity |].
  intros acc rotation ->.
  assert (Hfar :
    (Z.abs (Z.rem (Z.rem (Z.rem (emitterPos * 30 + 180) 360 + rotation * 30) 360
                   - (edge * 30 + 15) + 180) 360 - 180) <? 15) = false).
  { apply Z.ltb_ge. Z.to_euclidean_division_equations. lia. }
  now rewrite Hfar.
Qed.

(** X8 — [estimateRequiredRotationsChromosome] is three times the number of
    lit edges for every chromosome: no emitter ever counts as aligned with
    an edge centre, so every edge contributes the default of 3 and the
    difficulty score depends on nothing but the number of lit edges. *)
Theorem estimateRequiredRotations_three_per_edge (c : Chromosome) :
  estimateRequiredRotationsChromosome c = 3 * Z.of_nat (length (litEdges c)).
Proof.
  unfold estimateRequiredRotationsChromosome.
  assert (Hgen : forall edges total,
    fold_left (fun totalRotations edge =>
      let minRotations :=
        fold_left (fun minRotations circle =>
          fold_left (fun minRotations emitterPos =>
            minInf minRotations (calculateRotationsToHitEdge emitterPos edge))
            (emitters circle) minRotations)
          (rings_list (circles c)) None in
      totalRotations + match minRotations with None => 3 | Some m => m end) edges total
    = total + 3 * Z.of_nat (length edges)).
  { induction edges as [| edge edges IH]; intros total.
    - simpl. lia.
    - cbn [fold_left]. rewrite IH. cbv zeta.
      assert (Hnone :
        fold_left (fun minRotations circle =>
          fold_left (fun minRotations emitterPos =>
            minInf minRotations (calculateRotationsToHitEdge emitterPos edge))
            (emitters circle) minRotations)
          (rings_list (circles c)) None = None).
      { apply (fold_left_invariant (fun minRotations => minRotations = None));
          [reflexivity |].
        intros acc circle ->.
        apply (fold_left_invariant (fun minRotations => minRotations = None));
          [reflexivity |].
        intros acc emitterPos ->.
        now rewrite calculateRotationsToHitEdge_never. }
      rewrite Hnone. cbn [length]. lia. }
  rewrite Hgen. lia.
Qed.

Lemma existsb_pointwise {A} (f g : A -> bool) (l : list A) :
  (forall x, f x = g x) -> existsb f l = existsb g l.
Proof.
  intros Hfg. induction l as [| x l IH]; simpl; [reflexivity | now rewrite Hfg, IH].
Qed.

(** [isBeamBlockedChromosome] reads the blockers of the rings outside the
    emitter's ring only. *)
Lemma isBeamBlocked_outer_rings (emitterCircle : nat) (emitterPos : Z)
    (rotations : Rings Z) (c c' : Chromosome) :
  blockers (ring1 (circles c')) = blockers (ring1 (circles c)) ->
  blockers (ring2 (circles c')) = blockers (ring2 (circles c)) ->
  isBeamBlockedChromosome emitterCircle emitterPos rotations c' =
  isBeamBlockedChromosome emitterCircle emitterPos rotations c.
Proof.
  intros H1 H2. unfold isBeamBlockedChromosome. cbv zeta.
  destruct emitterCircle as [| [| [| n]]]; cbn [seq Nat.sub existsb ring_at];
    rewrite ?H1, ?H2; reflexivity.
Qed.

(** X9 — the solvability score never depends on the blockers of the
    innermost ring: replacing them by any other list leaves
    [calculateSolvabilityFromChromosome] unchanged. *)
Theorem inner_blockers_ignored (c : Chromosome) (others : list Z) :
  let c' := mkChromosome (litEdges c)
              (mkRings (mkCircle (emitters (ring0 (circles c))) others)
                       (ring1 (circles c)) (ring2 (circles c))) in
  calculateSolvabilityFromChromosome c' = calculateSolvabilityFromChromosome c.
Proof.
  intros c'.
  assert (Hems : forall circleIdx,
    emitters (ring_at (circles c') circleIdx) = emitters (ring_at (circles c) circleIdx)).
  { intros [| [| n]]; reflexivity. }
  assert (Hheur : heuristicSolvabilityCheckChromosome c' =
                  heuristicSolvabilityCheckChromosome c).
  { unfold heuristicSolvabilityCheckChromosome. cbn [existsb].
    now rewrite !Hems. }
  assert (Hhit : forall rotations, hitEdgesOf c' rotations = hitEdgesOf c rotations).
  { intros rotations. unfold hitEdgesOf. cbn [fold_left]. rewrite !Hems.
    assert (Hstep : forall circleIdx hitEdges emitterPos,
      beamStep c' rotations circleIdx hitEdges emitterPos =
      beamStep c rotations circleIdx hitEdges emitterPos).
    { intros circleIdx hitEdges emitterPos. unfold beamStep. cbv zeta.
      now rewrite (isBeamBlocked_outer_rings _ _ _ c c'). }
    assert (Hfold : forall circleIdx l hitEdges,
      fold_left (beamStep c' rotations circleIdx) l hitEdges =
      fold_left (beamStep c rotations circleIdx) l hitEdges).
    { intros circleIdx l. induction l as [| x l IH]; intros hitEdges; simpl;
        [reflexivity | now rewrite Hstep, IH]. }
    now rewrite !Hfold. }
  unfold calculateSolvabilityFromChromosome. rewrite Hheur.
  unfold bruteForceSolvabilityCheckChromosome, isPuzzleSolvedWithRotationsChromosome.
  cbv zeta. 
  assert (Hbrute : forall rotations,
    forallb (fun edge => JS.includes (hitEdgesOf c' rotations) edge) (litEdges c') =
    forallb (fun edge => JS.includes (hitEdgesOf c rotations) edge) (litEdges c)).
  { intros rotations. now rewrite Hhit. }
  destruct (negb (heuristicSolvabilityCheckChromosome c)); [reflexivity |].
  assert (Hsame :
    existsb (fun r1 => existsb (fun r2 => existsb (fun r3 =>
      forallb (fun edge => JS.includes (hitEdgesOf c' (mkRings r1 r2 r3)) edge) (litEdges c'))
      (JS.range 12)) (JS.range 12)) (JS.range 12) =
    existsb (fun r1 => existsb (fun r2 => existsb (fun r3 =>
      forallb (fun edge => JS.includes (hitEdgesOf c (mkRings r1 r2 r3)) edge) (litEdges c))
      (JS.range 12)) (JS.range 12)) (JS.range 12)).
  { apply existsb_pointwise. intros r1. apply existsb_pointwise. intros r2.
    apply existsb_pointwise. intros r3. apply Hbrute. }
  now rewrite Hsame.
Qed.

End AngularModel.

(** ** Edge cases of the solvability oracle *)

Section OracleEdgeCases.

Import Puzzle.

Variables cos sin sqrt : Q -> Q.

Lemma combine_seq_In {A} (l : list A) :
  forall start i x,
    In (i, x) (combine (seq start (length l)) l) <->
    (start <= i)%nat /\ nth_error l (i - start) = Some x.
Proof.
  induction l as [| y l IH]; intros start i x; cbn [length seq combine].
  - split; [intros [] | intros [_ H]]. destruct (i - start)%nat; discriminate H.
  - cbn [In]. rewrite IH. split.
    + intros [[= <- <-] | [Hle Hnth]].
      * split; [lia |]. now rewrite Nat.sub_diag.
      * split; [lia |]. replace (i - start)%nat with (S (i - S start)) by lia. exact Hnth.
    + intros [Hle Hnth]. destruct (Nat.eq_dec i start) as [-> | Hneq].
      * left. rewrite Nat.sub_diag in Hnth. cbn in Hnth. congruence.
      * right. split; [lia |].
        replace (i - start)%nat with (S (i - S start)) in Hnth by lia. exact Hnth.
Qed.

Lemma indexed_In {A} (l : list A) (i : nat) (x : A) :
  In (i, x) (indexed l) <-> nth_error l i = Some x.
Proof.
  unfold indexed. rewrite combine_seq_In, Nat.sub_0_r. split; [tauto | split; [lia | assumption]].
Qed.

(** [edgeLines] fails exactly when some [points[(i + 1) % SIDES]] is
    missing. *)
Lemma edgeLinesFrom_None (points : list (Q * Q)) (l : list (nat * (Q * Q))) :
  edgeLinesFrom points l = None <->
  exists i pt, In (i, pt) l /\ nth_error points (S i mod Z.to_nat SIDES) = None.
Proof.
  induction l as [| [i pt] l IH]; cbn [edgeLinesFrom].
  - split; [discriminate | intros (i & pt & [] & _)].
  - destruct (nth_error points (S i mod Z.to_nat SIDES)) as [next |] eqn:Hnth.
    + destruct (edgeLinesFrom points l) as [edges |].
      * split; [discriminate |].
        intros (j & q & [[= <- <-] | Hin] & Hnone); [congruence |].
        assert (Hex : exists i pt, In (i, pt) l /\
                        nth_error points (S i mod Z.to_nat SIDES) = None) by eauto.
        apply IH in Hex. discriminate Hex.
      * split; [intros _ | reflexivity].
        destruct (proj1 IH eq_refl) as (j & q & Hin & Hnone).
        exists j, q. split; [now right | assumption].
    + split; [intros _ | reflexivity]. exists i, pt. split; [now left | assumption].
Qed.

(** X10 — [isPuzzleSolvable] raises a [TypeError] exactly when the vertex
    list has between 1 and 11 points (some [points[(i + 1) % 12]] is then
    [undefined]); on an empty list and on every list of 12 or more points
    it returns a boolean, whatever the puzzle is. *)
Theorem isPuzzleSolvable_TypeError (puzzle : Puzzle) (points : list (Q * Q)) :
  isPuzzleSolvable cos sin sqrt puzzle points = None <->
  (0 < length points < 12)%nat.
Proof.
  unfold isPuzzleSolvable.
  assert (Hlines : edgeLines points = None <-> (0 < length points < 12)%nat).
  { unfold edgeLines. rewrite edgeLinesFrom_None.
    change (Z.to_nat SIDES) with 12%nat. split.
    - intros (i & pt & Hin & Hnone).
      apply indexed_In in Hin.
      assert (Hi : (i < length points)%nat) by (apply nth_error_Some; congruence).
      apply nth_error_None in Hnone.
      pose proof (Nat.mod_upper_bound (S i) 12 ltac:(lia)). lia.
    - intros Hlen.
      destruct (nth_error points (length points - 1)) as [pt |] eqn:Hlast.
      + exists (length points - 1)%nat, pt. split; [now apply indexed_In |].
        apply nth_error_None.
        replace (S (length points - 1)) with (length points) by lia.
        rewrite Nat.mod_small by lia. lia.
      + apply nth_error_None in Hlast. lia. }
  destruct (edgeLines points) as [edges |] eqn:Hedges.
  - split; [discriminate |]. intros Hlen. apply Hlines in Hlen. discriminate Hlen.
  - split; [intros _; now apply Hlines | reflexivity].
Qed.

Lemma edgeLinesFrom_index (points : list (Q * Q)) :
  forall l edges,
    edgeLinesFrom points l = Some edges ->
    forall edge, In edge edges -> exists pt, In (ed_i edge, pt) l.
Proof.
  induction l as [| [i pt] l IH]; intros edges; cbn [edgeLinesFrom].
  - intros [= <-] edge [].
  - destruct (nth_error points _) as [next |]; [| discriminate].
    destruct (edgeLinesFrom points l) as [rest |] eqn:Hrest; [| discriminate].
    intros [= <-] edge [<- | Hin].
    + exists pt. now left.
    + destruct (IH rest eq_refl edge Hin) as (q & Hq). exists q. now right.
Qed.

Lemma fold_left_None_blockers (emitter : Emitter) (n : Nearest) (l : list Blocker) :
  forall t edge, fold_left (blockerStep cos sin sqrt emitter) l n = Some (t, HitEdge edge) ->
                 n = Some (t, HitEdge edge).
Proof.
  revert n. induction l as [| blocker l IH]; intros n t edge; cbn [fold_left]; [auto |].
  intros Hfold. apply IH in Hfold. unfold blockerStep in Hfold. cbv zeta in Hfold.
  repeat match type of Hfold with
         | context [if ?b then _ else _] => destruct b
         | context [match ?o with Some _ => _ | None => _ end] => destruct o
         end; congruence.
Qed.

Lemma fold_left_None_emitters (emitter : Emitter) (n : Nearest) (l : list Emitter) :
  forall t edge, fold_left (emitterStep cos sin sqrt emitter) l n = Some (t, HitEdge edge) ->
                 n = Some (t, HitEdge edge).
Proof.
  revert n. induction l as [| other l IH]; intros n t edge; cbn [fold_left]; [auto |].
  intros Hfold. apply IH in Hfold. unfold emitterStep in Hfold.
  repeat match type of Hfold with
         | context [if ?b then _ else _] => destruct b
         | context [match ?o with Some _ => _ | None => _ end] => destruct o
         end; congruence.
Qed.

Lemma fold_left_edges_In (emitter : Emitter) (l : list EdgeLine) :
  forall n t edge,
    fold_left (edgeStep cos sin emitter) l n = Some (t, HitEdge edge) ->
    n = Some (t, HitEdge edge) \/ In edge l.
Proof.
  induction l as [| e l IH]; intros n t edge; cbn [fold_left]; [auto |].
  intros Hfold. apply IH in Hfold as [Hn | Hin]; [| right; now right].
  unfold edgeStep in Hn.
  destruct (rayEdge _ _ _ _ e) as [t2 |]; [| now left].
  destruct (closer t2 n); [| now left].
  injection Hn as _ <-. right. now left.
Qed.

(** An edge reported by the ray cast is one of the edge lines. *)
Lemma castRay_edge_In (emitter : Emitter) (blockers : list Blocker)
    (emitters : list Emitter) (edges : list EdgeLine) (t : Q) (edge : EdgeLine) :
  castRay cos sin sqrt emitter blockers emitters edges = Some (t, HitEdge edge) ->
  In edge edges.
Proof.
  unfold castRay. cbv zeta. intros Hcast.
  apply fold_left_edges_In in Hcast as [Hn | Hin]; [| assumption].
  apply fold_left_None_emitters in Hn. apply fold_left_None_blockers in Hn. discriminate Hn.
Qed.

(** X11 — necessary conditions of solvability: when [isPuzzleSolvable]
    returns true, every lit edge is the index of a vertex of the list, and
    a puzzle with a lit edge has an emitter on some ring. *)
Theorem isPuzzleSolvable_necessary (puzzle : Puzzle) (points : list (Q * Q)) :
  isPuzzleSolvable cos sin sqrt puzzle points = Some true ->
  (forall litIdx, In litIdx (litEdges puzzle) -> 0 <= litIdx < Z.of_nat (length points)) /\
  (litEdges puzzle <> [] ->
   exists circle, In circle (rings_list (circles puzzle)) /\ lasers circle <> []).
Proof.
  unfold isPuzzleSolvable.
  destruct (edgeLines points) as [edges |] eqn:Hedges; [| discriminate].
  intros Hsolved. apply Some_true_iff in Hsolved.
  apply existsb_exists in Hsolved as (r0 & _ & Hsolved).
  apply existsb_exists in Hsolved as (r1 & _ & Hsolved).
  apply existsb_exists in Hsolved as (r2 & _ & Hsolved).
  unfold allLit in Hsolved. cbv zeta in Hsolved. rewrite forallb_forall in Hsolved.
  split.
  - intros litIdx Hlit. specialize (Hsolved litIdx Hlit).
    apply existsb_exists in Hsolved as (emitter & _ & Hlights).
    unfold emitterLights in Hlights.
    destruct (castRay _ _ _ _ _ _ _) as [[t [blocker | other | edge]] |] eqn:Hcast;
      try discriminate.
    apply Z.eqb_eq in Hlights. subst litIdx.
    apply castRay_edge_In in Hcast.
    destruct (edgeLinesFrom_index points _ _ Hedges edge Hcast) as (pt & Hpt).
    apply indexed_In in Hpt.
    assert (ed_i edge < length points)%nat by (apply nth_error_Some; congruence). lia.
  - intros Hne. destruct (litEdges puzzle) as [| litIdx rest]; [congruence |].
    specialize (Hsolved litIdx (or_introl eq_refl)).
    apply existsb_exists in Hsolved as (emitter & Hin & _).
    unfold emittersOf in Hin. apply in_flat_map in Hin as ([idx circle] & Hcircle & Hin).
    exists circle. split.
    + unfold indexed in Hcircle. now apply in_combine_r in Hcircle.
    + intros Hnil. rewrite Hnil in Hin. destruct Hin.
Qed.

(** X12 — dropping lit edges keeps a puzzle solvable: if [isPuzzleSolvable]
    returns true for a puzzle, it returns true for every puzzle with the
    same rings whose lit edges are among those of the first (in any order,
    repeated or not). *)
Theorem isPuzzleSolvable_fewer_edges (puzzle puzzle' : Puzzle) (points : list (Q * Q)) :
  circles puzzle' = circles puzzle ->
  incl (litEdges puzzle') (litEdges puzzle) ->
  isPuzzleSolvable cos sin sqrt puzzle points = Some true ->
  isPuzzleSolvable cos sin sqrt puzzle' points = Some true.
Proof.
  intros Hcircles Hincl. unfold isPuzzleSolvable.
  destruct (edgeLines points) as [edges |]; [| discriminate].
  rewrite !Some_true_iff. intros Hsolved.
  apply existsb_exists in Hsolved as (r0 & Hr0 & Hsolved).
  apply existsb_exists in Hsolved as (r1 & Hr1 & Hsolved).
  apply existsb_exists in Hsolved as (r2 & Hr2 & Hsolved).
  apply existsb_exists. exists r0. split; [assumption |].
  apply existsb_exists. exists r1. split; [assumption |].
  apply existsb_exists. exists r2. split; [assumption |].
  unfold allLit in *. cbv zeta in *.
  assert (Hems : forall rotations,
             emittersOf cos sin puzzle' rotations = emittersOf cos sin puzzle rotations).
  { intros rotations. unfold emittersOf. now rewrite Hcircles. }
  assert (Hbls : forall rotations,
             blockersOf cos sin puzzle' rotations = blockersOf cos sin puzzle rotations).
  { intros rotations. unfold blockersOf. now rewrite Hcircles. }
  rewrite Hems, Hbls. rewrite forallb_forall in *.
  intros litIdx Hlit. apply Hsolved, Hincl, Hlit.
Qed.

End OracleEdgeCases.

(** A degenerate world for running the oracle: every direction is the
    positive x axis, and the vertex list has one edge across it. *)
Definition wall_points : list (Q * Q) :=
  (500%Q, 0%Q) :: repeat (500%Q, 400%Q) 11.

Definition one_beam_puzzle (lit : list Z) : Puzzle.Puzzle :=
  Puzzle.mkPuzzle lit
    (mkRings (Puzzle.mkCircle 50 [15] []) (Puzzle.mkCircle 90 [] [])
             (Puzzle.mkCircle 130 [] [])).

Lemma isPuzzleSolvable_necessary_witness :
  Puzzle.isPuzzleSolvable (fun _ => 1%Q) (fun _ => 0%Q) (fun x => x)
    (one_beam_puzzle [0]) wall_points = Some true /\
  ((forall litIdx, In litIdx (Puzzle.litEdges (one_beam_puzzle [0])) ->
      0 <= litIdx < Z.of_nat (length wall_points)) /\
   (Puzzle.litEdges (one_beam_puzzle [0]) <> [] ->
    exists circle, In circle (rings_list (Puzzle.circles (one_beam_puzzle [0]))) /\
                   Puzzle.lasers circle <> [])).
Proof.
  split; [vm_compute; reflexivity |].
  apply (isPuzzleSolvable_necessary (fun _ => 1%Q) (fun _ => 0%Q) (fun x => x)).
  vm_compute. reflexivity.
Defined.

Lemma isPuzzleSolvable_fewer_edges_witness :
  Puzzle.isPuzzleSolvable (fun _ => 1%Q) (fun _ => 0%Q) (fun x => x)
    (one_beam_puzzle [0; 0]) wall_points = Some true.
Proof.
  apply (isPuzzleSolvable_fewer_edges (fun _ => 1%Q) (fun _ => 0%Q) (fun x => x)
           (one_beam_puzzle [0])).
  - reflexivity.
  - intros e [<- | [<- | []]]; now left.
  - vm_compute. reflexivity.
Defined.

(** ** The difficulty analysis is a score *)

Section AnalyzerBounds.

Import Puzzle Analyzer.

Local Open Scope Q_scope.

Lemma fold_left_invariant_In {A B} (P : A -> Prop) (f : A -> B -> A) (l : list B) (a : A) :
  P a -> (forall acc x, In x l -> P acc -> P (f acc x)) -> P (fold_left f l a).
Proof.
  revert a. induction l as [| x l IH]; intros a Ha Hstep; simpl; [assumption |].
  apply IH.
  - apply Hstep; [now left | assumption].
  - intros acc y Hy. apply Hstep. now right.
Qed.

(** Linear arithmetic with divisions by numerals written as products. *)
Ltac qlra := unfold Qdiv in *; cbn [Qinv Qnum Qden] in *; lra.

Lemma inZ_nonneg (z : Z) : (0 <= z)%Z -> 0 <= inZ z.
Proof. intros Hz. unfold inZ. change 0 with (inject_Z 0). now rewrite <- Zle_Qle. Qed.

Lemma inZ_pos (z : Z) : (0 < z)%Z -> 0 < inZ z.
Proof. intros Hz. unfold inZ. change 0 with (inject_Z 0). now rewrite <- Zlt_Qlt. Qed.

Lemma Qdiv_nonneg (a b : Q) : 0 <= a -> 0 <= b -> 0 <= a / b.
Proof.
  intros Ha Hb. unfold Qdiv. apply Qmult_le_0_compat; [assumption |].
  now apply Qinv_le_0_compat.
Qed.

Lemma Qsquare_nonneg (x : Q) : 0 <= x * x.
Proof.
  destruct (Qlt_le_dec x 0) as [Hneg | Hpos].
  - setoid_replace (x * x) with ((- x) * (- x)) by ring.
    apply Qmult_le_0_compat; lra.
  - now apply Qmult_le_0_compat.
Qed.

Lemma Qmin_unit (x : Q) : 0 <= x -> 0 <= Qmin x 1 <= 1.
Proof.
  intros Hx. split; [apply Q.min_glb; [assumption | lra] | apply Q.le_min_r].
Qed.

Lemma Qmax_unit (x : Q) : x <= 1 -> 0 <= Qmax 0 x <= 1.
Proof.
  intros Hx. split; [apply Q.le_max_l | apply Q.max_lub; [lra | assumption]].
Qed.

Lemma len_nonneg (l : list Z) : (0 <= len l)%Z.
Proof. unfold len. lia. Qed.

Lemma totalEmitters_nonneg (p : Puzzle) : (0 <= totalEmitters p)%Z.
Proof.
  unfold totalEmitters, rings_list. cbn [fold_left].
  pose proof (len_nonneg (lasers (ring0 (circles p)))).
  pose proof (len_nonneg (lasers (ring1 (circles p)))).
  pose proof (len_nonneg (lasers (ring2 (circles p)))). lia.
Qed.

Lemma totalBlockers_nonneg (p : Puzzle) : (0 <= totalBlockers p)%Z.
Proof.
  unfold totalBlockers, rings_list. cbn [fold_left].
  pose proof (len_nonneg (blockers (ring0 (circles p)))).
  pose proof (len_nonneg (blockers (ring1 (circles p)))).
  pose proof (len_nonneg (blockers (ring2 (circles p)))). lia.
Qed.

Lemma capped_unit (a : Z) (d : Q) :
  (0 <= a)%Z -> 0 <= d -> 0 <= Qmin (inZ a / d) 1 <= 1.
Proof.
  intros Ha Hd. apply Qmin_unit, Qdiv_nonneg; [now apply inZ_nonneg | assumption].
Qed.

Lemma calculateBasicMetrics_unit (p : Puzzle) : 0 <= calculateBasicMetrics p <= 1.
Proof.
  unfold calculateBasicMetrics. cbv zeta.
  pose proof (capped_unit (totalEmitters p) 12 (totalEmitters_nonneg p) ltac:(lra)).
  pose proof (capped_unit (totalBlockers p) 8 (totalBlockers_nonneg p) ltac:(lra)).
  pose proof (capped_unit (len (litEdges p)) 8 (len_nonneg _) ltac:(lra)).
  qlra.
Qed.

(** Lit edges and emitter angles as the generators produce them: not
    negative. *)
Definition nonNegative (p : Puzzle) : Prop :=
  Forall (fun edge => (0 <= edge)%Z) (litEdges p) /\
  Forall (fun circle => Forall (fun angle => (0 <= angle)%Z) (lasers circle))
         (rings_list (circles p)).

Lemma estimateMinimumRotations_nonneg (p : Puzzle) :
  nonNegative p -> 0 <= estimateMinimumRotations p.
Proof.
  intros [Hedges Hangles]. unfold estimateMinimumRotations. cbv zeta.
  apply Q.min_glb; [| lra].
  apply (fold_left_invariant_In (fun total => 0 <= total)); [lra |].
  intros total edge Hedge Htotal.
  rewrite Forall_forall in Hedges. specialize (Hedges edge Hedge).
  assert (Hmin : match
      fold_left (fun acc circle =>
        fold_left (fun acc emitterAngle =>
          minInf acc
            (inZ (Z.min (Z.abs (Z.rem (edge * 30 + 15) 360 - Z.rem (emitterAngle + 180) 360))
                        (360 - Z.abs (Z.rem (edge * 30 + 15) 360
                                      - Z.rem (emitterAngle + 180) 360))) / 30))
          (lasers circle) acc) (rings_list (circles p)) None
    with None => True | Some m => 0 <= m end).
  { apply (fold_left_invariant_In
             (fun acc => match acc with None => True | Some m => 0 <= m end)); [exact I |].
    intros acc circle Hcircle Hacc.
    rewrite Forall_forall in Hangles. specialize (Hangles circle Hcircle).
    apply (fold_left_invariant_In
             (fun acc => match acc with None => True | Some m => 0 <= m end)); [exact Hacc |].
    intros acc' angle Hangle Hacc'.
    rewrite Forall_forall in Hangles. specialize (Hangles angle Hangle).
    assert (Hneeded :
      0 <= inZ (Z.min (Z.abs (Z.rem (edge * 30 + 15) 360 - Z.rem (angle + 180) 360))
                      (360 - Z.abs (Z.rem (edge * 30 + 15) 360 - Z.rem (angle + 180) 360)))
           / 30).
    { apply Qdiv_nonneg; [| lra]. apply inZ_nonneg.
      Z.to_euclidean_division_equations. lia. }
    destruct acc' as [m |]; cbn [minInf]; [| exact Hneeded].
    apply Q.min_glb; assumption. }
  destruct (fold_left _ (rings_list (circles p)) None) as [m |]; lra.
Qed.

Lemma pairInterdependency_nonneg (circle1 circle2 : Circle) :
  0 <= pairInterdependency circle1 circle2.
Proof.
  unfold pairInterdependency. cbv zeta.
  apply Qdiv_nonneg.
  - apply inZ_nonneg.
    apply (fold_left_invariant (fun conflicts => (0 <= conflicts)%Z)); [lia |].
    intros conflicts emitter1 Hc.
    apply (fold_left_invariant (fun conflicts => (0 <= conflicts)%Z)); [assumption |].
    intros acc blocker2 Hacc. destruct (_ <? 45)%Z; lia.
  - apply inZ_nonneg.
    pose proof (len_nonneg (lasers circle1)). pose proof (len_nonneg (blockers circle2)).
    destruct (_ =? 0)%Z; nia.
Qed.

Lemma calculateCircleInterdependency_unit (p : Puzzle) :
  0 <= calculateCircleInterdependency p <= 1.
Proof.
  unfold calculateCircleInterdependency. cbv zeta. apply Qmin_unit.
  pose proof (pairInterdependency_nonneg (ring0 (circles p)) (ring1 (circles p))).
  pose proof (pairInterdependency_nonneg (ring0 (circles p)) (ring2 (circles p))).
  pose proof (pairInterdependency_nonneg (ring1 (circles p)) (ring2 (circles p))).
  lra.
Qed.

Lemma calculateSolutionUniqueness_unit (p : Puzzle) :
  0 <= calculateSolutionUniqueness p <= 1.
Proof.
  unfold calculateSolutionUniqueness. cbv zeta.
  destruct (_ =? 0)%Z; [lra |].
  apply Qmin_unit. apply Qdiv_nonneg; [| lra].
  apply Qdiv_nonneg; apply inZ_nonneg; [apply totalEmitters_nonneg | apply len_nonneg].
Qed.

Lemma calculateSolutionComplexity_le (p : Puzzle) : calculateSolutionComplexity p <= 1.
Proof.
  unfold calculateSolutionComplexity. cbv zeta.
  pose proof (Q.le_min_r (estimateMinimumRotations p / 10) 1).
  pose proof (calculateCircleInterdependency_unit p).
  pose proof (calculateSolutionUniqueness_unit p).
  lra.
Qed.

Lemma calculateSolutionComplexity_ge (p : Puzzle) :
  nonNegative p -> 0 <= calculateSolutionComplexity p.
Proof.
  intros Hp. unfold calculateSolutionComplexity. cbv zeta.
  pose proof (Qmin_unit (estimateMinimumRotations p / 10)
                (Qdiv_nonneg _ 10 (estimateMinimumRotations_nonneg p Hp) ltac:(lra))).
  pose proof (calculateCircleInterdependency_unit p).
  pose proof (calculateSolutionUniqueness_unit p).
  lra.
Qed.

Lemma calculateWorkingMemoryLoad_unit (p : Puzzle) : 0 <= calculateWorkingMemoryLoad p <= 1.
Proof.
  unfold calculateWorkingMemoryLoad. cbv zeta. apply Qmin_unit.
  pose proof (inZ_nonneg _ (len_nonneg (litEdges p))).
  pose proof (inZ_nonneg _ (totalEmitters_nonneg p)).
  pose proof (inZ_nonneg _ (totalBlockers_nonneg p)).
  apply Qdiv_nonneg; [| lra].
  assert (0 <= inZ (totalEmitters p) * (5 # 10)) by (apply Qmult_le_0_compat; lra).
  assert (0 <= inZ (totalBlockers p) * (3 # 10)) by (apply Qmult_le_0_compat; lra).
  lra.
Qed.

Lemma calculateSymmetryFactor_half (p : Puzzle) :
  0 <= calculateSymmetryFactor p <= 1 # 2.
Proof.
  unfold calculateSymmetryFactor. cbn [fold_left].
  destruct (hasRotationalSymmetry (litEdges p) 2);
    destruct (hasRotationalSymmetry (litEdges p) 3);
    destruct (hasRotationalSymmetry (litEdges p) 4);
    destruct (hasRotationalSymmetry (litEdges p) 6);
    vm_compute; split; discriminate.
Qed.

Lemma calculateVisualComplexity_unit (p : Puzzle) : 0 <= calculateVisualComplexity p <= 1.
Proof.
  unfold calculateVisualComplexity. cbv zeta.
  pose proof (calculateSymmetryFactor_half p) as Hsym.
  set (sym := calculateSymmetryFactor p) in *. clearbody sym.
  assert (Hbase : 0 <= Qmin (inZ (len (litEdges p) +
      fold_left (fun sum circle => sum + len (lasers circle) + len (blockers circle))%Z
                (rings_list (circles p)) 0%Z) / 20) 1 <= 1).
  { apply capped_unit; [| lra].
    unfold rings_list. cbn [fold_left].
    pose proof (len_nonneg (litEdges p)).
    pose proof (len_nonneg (lasers (ring0 (circles p)))).
    pose proof (len_nonneg (lasers (ring1 (circles p)))).
    pose proof (len_nonneg (lasers (ring2 (circles p)))).
    pose proof (len_nonneg (blockers (ring0 (circles p)))).
    pose proof (len_nonneg (blockers (ring1 (circles p)))).
    pose proof (len_nonneg (blockers (ring2 (circles p)))). lia. }
  set (base := Qmin _ 1) in *. clearbody base.
  split; [apply Qmult_le_0_compat; lra |].
  nra.
Qed.

Lemma checkForCommonPatterns_unit (p : Puzzle) : 0 <= checkForCommonPatterns p <= 1.
Proof.
  unfold checkForCommonPatterns.
  destruct (fold_left _ (JS.range 12) (0%Z, 0%Z)) as [consecutiveGroups currentGroup].
  cbv zeta.
  destruct (currentGroup >? 0)%Z;
    destruct (_ <=? 2)%Z; destruct (_ >=? 2)%Z; vm_compute; split; discriminate.
Qed.

Lemma calculateSpacingRegularity_unit (p : Puzzle) : 0 <= calculateSpacingRegularity p <= 1.
Proof.
  unfold calculateSpacingRegularity.
  destruct (len (litEdges p) <? 2)%Z; [lra |]. cbv zeta.
  apply Qmax_unit.
  set (spacings := map _ (seq 0 (length (JS.sortAsc (litEdges p))))).
  set (mean := inZ (fold_left Z.add spacings 0%Z) / inZ (len spacings)).
  assert (Hvar : 0 <= fold_left (fun sum s => sum + (inZ s - mean) * (inZ s - mean))
                                spacings 0 / inZ (len spacings)).
  { apply Qdiv_nonneg; [| apply inZ_nonneg, len_nonneg].
    apply (fold_left_invariant (fun sum => 0 <= sum)); [lra |].
    intros sum s Hsum.
    pose proof (Qsquare_nonneg (inZ s - mean)). lra. }
  qlra.
Qed.

Lemma calculatePatternDifficulty_unit (p : Puzzle) : 0 <= calculatePatternDifficulty p <= 1.
Proof.
  unfold calculatePatternDifficulty. cbv zeta.
  pose proof (checkForCommonPatterns_unit p).
  pose proof (calculateSpacingRegularity_unit p). lra.
Qed.

Lemma calculateCognitiveLoad_unit (p : Puzzle) : 0 <= calculateCognitiveLoad p <= 1.
Proof.
  unfold calculateCognitiveLoad.
  pose proof (calculateWorkingMemoryLoad_unit p).
  pose proof (calculateVisualComplexity_unit p).
  pose proof (calculatePatternDifficulty_unit p). qlra.
Qed.

Lemma calculateVisualBalance_unit (p : Puzzle) : 0 <= calculateVisualBalance p <= 1.
Proof.
  unfold calculateVisualBalance. cbv zeta. apply Qmax_unit.
  assert (Hspread : forall d : Rings Z,
    0 <= inZ (JS.max3 (ring0 d) (ring1 d) (ring2 d) - JS.min3 (ring0 d) (ring1 d) (ring2 d))).
  { intros d. apply inZ_nonneg. unfold JS.max3, JS.min3. lia. }
  pose proof (Hspread (rings_map (fun circle => len (lasers circle)) (circles p))).
  pose proof (Hspread (rings_map (fun circle => len (blockers circle)) (circles p))).
  qlra.
Qed.

Lemma calculateElegance_unit (p : Puzzle) (elegance : Q) :
  calculateElegance p = Some elegance -> 0 <= elegance <= 1.
Proof.
  unfold calculateElegance. cbv zeta.
  destruct (_ =? 0)%Z.
  - destruct (_ =? 0)%Z; [discriminate |]. intros [= <-]. lra.
  - intros [= <-]. split; [apply Q.le_max_l |].
    apply Q.max_lub; [lra | apply Q.le_min_l].
Qed.

Lemma calculateAestheticScore_unit (p : Puzzle) (score : Q) :
  calculateAestheticScore p = Some score -> 0 <= score <= 1.
Proof.
  unfold calculateAestheticScore. cbv zeta.
  destruct (calculateElegance p) as [elegance |] eqn:Hel; [| discriminate].
  intros [= <-].
  pose proof (calculateElegance_unit p elegance Hel).
  pose proof (calculateSymmetryFactor_half p).
  pose proof (calculateVisualBalance_unit p). qlra.
Qed.

(** X13 — for a puzzle whose lit edges and emitter angles are not negative,
    [overallDifficulty], whenever it is a number, lies between 0 and 1 (the
    thresholds 0.3 and 0.7 of the difficulty level cut this interval). *)
Theorem overallDifficulty_unit (p : Puzzle) (overall : Q) :
  nonNegative p -> overallDifficulty p = Some overall -> 0 <= overall <= 1.
Proof.
  intros Hp. unfold overallDifficulty.
  destruct (calculateAestheticScore p) as [aesthetic |] eqn:Hae; [| discriminate].
  intros [= <-].
  pose proof (calculateAestheticScore_unit p aesthetic Hae).
  pose proof (calculateBasicMetrics_unit p).
  pose proof (calculateSolutionComplexity_le p).
  pose proof (calculateSolutionComplexity_ge p Hp).
  pose proof (calculateCognitiveLoad_unit p). lra.
Qed.

(** X14 — [overallDifficulty] is [NaN] exactly for the puzzle with no lit
    edge, no emitter and no blocker (the elegance is then [0 / 0]), and a
    puzzle whose score is [NaN] is labelled "hard". *)
Theorem overallDifficulty_NaN (p : Puzzle) :
  (overallDifficulty p = None <->
   litEdges p = [] /\
   Forall (fun circle => lasers circle = [] /\ blockers circle = [])
          (rings_list (circles p))) /\
  (overallDifficulty p = None -> difficultyLevel p = "hard"%string).
Proof.
  split.
  - unfold overallDifficulty, calculateAestheticScore, calculateElegance. cbv zeta.
    rewrite Forall_rings. unfold rings_list. cbn [fold_left].
    unfold len.
    destruct (litEdges p) as [| e es];
      destruct (lasers (ring0 (circles p))) as [| a0 l0];
      destruct (lasers (ring1 (circles p))) as [| a1 l1];
      destruct (lasers (ring2 (circles p))) as [| a2 l2];
      destruct (blockers (ring0 (circles p))) as [| b0 k0];
      destruct (blockers (ring1 (circles p))) as [| b1 k1];
      destruct (blockers (ring2 (circles p))) as [| b2 k2];
      cbn [length];
      match goal with
      | |- context [(?n =? 0)%Z] =>
          first [ replace (n =? 0)%Z with false by (symmetry; apply Z.eqb_neq; lia)
                | replace (n =? 0)%Z with true by (symmetry; apply Z.eqb_eq; lia) ]
      end;
      try (cbn [Z.of_nat Z.eqb]);
      split; intros H; try discriminate H; try tauto;
      destruct H as (H0 & H1 & H2 & H3); intuition discriminate.
  - unfold difficultyLevel. now intros ->.
Qed.

End AnalyzerBounds.

Lemma overallDifficulty_unit_witness :
  nonNegative sparse_example /\
  exists overall,
    Analyzer.overallDifficulty sparse_example = Some overall /\ (0 <= overall <= 1)%Q.
Proof.
  assert (Hp : nonNegative sparse_example).
  { split; [repeat constructor; lia |].
    unfold rings_list. cbn. repeat constructor; lia. }
  split; [exact Hp |].
  destruct (Analyzer.overallDifficulty sparse_example) as [overall |] eqn:Hrun.
  - exists overall. split; [reflexivity |].
    exact (overallDifficulty_unit sparse_example overall Hp Hrun).
  - vm_compute in Hrun. discriminate Hrun.
Defined.

(** ** Well-formed lit edges and slots *)

Section IndexLists.

(** Distinct integers of [0..11]: edge indices, or the slots of one kind
    on a ring. *)
Definition distinctIndices (l : list Z) : Prop := NoDup l /\ Forall edgeIndex l.

(** In ascending order. *)
Definition ascending (l : list Z) : Prop := StronglySorted Z.le l.

Lemma distinctIndices_nil : distinctIndices [].
Proof. split; constructor. Qed.

Lemma distinctIndices_snoc (l : list Z) (x : Z) :
  distinctIndices l -> ~ In x l -> edgeIndex x -> distinctIndices (l ++ [x]).
Proof.
  intros [Hnd Hidx] Hnew Hx. split.
  - apply NoDup_app; [assumption | constructor; [intros [] | constructor] |].
    intros y Hy [<- | []]. contradiction.
  - apply Forall_app. split; [assumption | constructor; [assumption | constructor]].
Qed.

Lemma distinctIndices_perm (l l' : list Z) :
  Permutation l l' -> distinctIndices l -> distinctIndices l'.
Proof.
  intros Hperm [Hnd Hidx]. split.
  - exact (Permutation_NoDup Hperm Hnd).
  - exact (Permutation_Forall Hperm Hidx).
Qed.

Lemma distinctIndices_length (l : list Z) : distinctIndices l -> (length l <= 12)%nat.
Proof. intros [Hnd Hidx]. now apply edgeIndex_NoDup_length. Qed.

Lemma removeAt_NoDup {A} (index : nat) (l : list A) : NoDup l -> NoDup (JS.removeAt index l).
Proof.
  revert index. induction l as [| x l IH]; intros index Hnd; [destruct index; assumption |].
  inversion Hnd as [| ? ? Hx Hl]; subst.
  destruct index as [| index]; cbn [JS.removeAt]; [assumption |].
  constructor; [| now apply IH].
  intros Hin. apply removeAt_In in Hin. contradiction.
Qed.

Lemma removeAt_Forall {A} (P : A -> Prop) (index : nat) (l : list A) :
  Forall P l -> Forall P (JS.removeAt index l).
Proof.
  intros Hall. rewrite Forall_forall in *. intros x Hx. apply Hall.
  exact (removeAt_In index l x Hx).
Qed.

Lemma removeAt_length {A} (index : nat) (l : list A) :
  (length l - 1 <= length (JS.removeAt index l) <= length l)%nat.
Proof.
  revert index. induction l as [| x l IH]; intros index; [destruct index; simpl; lia |].
  destruct index as [| index]; cbn [JS.removeAt length]; [lia |].
  specialize (IH index). lia.
Qed.

Lemma removeAt_ascending (index : nat) (l : list Z) :
  ascending l -> ascending (JS.removeAt index l).
Proof.
  unfold ascending. revert index.
  induction l as [| x l IH]; intros index Hs; [destruct index; assumption |].
  inversion Hs as [| ? ? Hl Hx]; subst.
  destruct index as [| index]; cbn [JS.removeAt]; [assumption |].
  constructor; [now apply IH | now apply removeAt_Forall].
Qed.

Lemma distinctIndices_removeAt (index : nat) (l : list Z) :
  distinctIndices l -> distinctIndices (JS.removeAt index l).
Proof.
  intros [Hnd Hidx]. split; [now apply removeAt_NoDup | now apply removeAt_Forall].
Qed.

Lemma setAt_NoDup {A} (index : nat) (y : A) (l : list A) :
  NoDup l -> ~ In y l -> NoDup (JS.setAt index y l).
Proof.
  revert index. induction l as [| x l IH]; intros index Hnd Hy; [destruct index; assumption |].
  inversion Hnd as [| ? ? Hx Hl]; subst.
  destruct index as [| index]; cbn [JS.setAt].
  - constructor; [| assumption]. intros Hin. apply Hy. now right.
  - constructor.
    + intros Hin. apply setAt_In in Hin as [-> | Hin]; [apply Hy; now left | contradiction].
    + apply IH; [assumption |]. intros Hin. apply Hy. now right.
Qed.

Lemma setAt_Forall {A} (P : A -> Prop) (index : nat) (y : A) (l : list A) :
  Forall P l -> P y -> Forall P (JS.setAt index y l).
Proof.
  intros Hall Hy. rewrite Forall_forall in *. intros x Hx.
  apply setAt_In in Hx as [-> | Hx]; auto.
Qed.

Lemma distinctIndices_setAt (index : nat) (y : Z) (l : list Z) :
  distinctIndices l -> ~ In y l -> edgeIndex y -> distinctIndices (JS.setAt index y l).
Proof.
  intros [Hnd Hidx] Hnew Hy. split; [now apply setAt_NoDup | now apply setAt_Forall].
Qed.

Lemma insertAsc_ascending (x : Z) (l : list Z) : ascending l -> ascending (JS.insertAsc x l).
Proof.
  unfold ascending. induction l as [| y l IH]; intros Hs; cbn [JS.insertAsc].
  - repeat constructor.
  - inversion Hs as [| ? ? Hl Hy]; subst.
    destruct (x <? y) eqn:Hlt.
    + apply Z.ltb_lt in Hlt. constructor; [assumption |].
      constructor; [lia |]. eapply Forall_impl; [| exact Hy]. intros z Hz. simpl in Hz. lia.
    + apply Z.ltb_ge in Hlt. constructor; [now apply IH |].
      apply (Permutation_Forall (Permutation_sym (insertAsc_perm x l))).
      constructor; assumption.
Qed.

Lemma sortAsc_ascending (l : list Z) : ascending (JS.sortAsc l).
Proof.
  unfold JS.sortAsc.
  apply (fold_left_invariant ascending); [constructor |].
  intros acc x Hacc. now apply insertAsc_ascending.
Qed.

Lemma distinctIndices_sortAsc (l : list Z) : distinctIndices l -> distinctIndices (JS.sortAsc l).
Proof. apply distinctIndices_perm, Permutation_sym, sortAsc_perm. Qed.

Lemma sortAsc_length (l : list Z) : length (JS.sortAsc l) = length l.
Proof. apply Permutation_length, sortAsc_perm. Qed.

(** [[...new Set(arr)]] keeps one copy of every element. *)
Lemma dedup_spec (l : list Z) :
  forall seen,
    NoDup (JS.dedup l seen) /\
    forall x, In x (JS.dedup l seen) <-> In x l /\ ~ In x seen.
Proof.
  induction l as [| y l IH]; intros seen; cbn [JS.dedup].
  - split; [constructor | intros x; simpl; tauto].
  - destruct (JS.includes seen y) eqn:Hinc.
    + apply includes_In in Hinc. destruct (IH seen) as [Hnd Hin]. split; [assumption |].
      intros x. rewrite Hin. simpl. split; [tauto |].
      intros [[-> | Hx] Hnot]; [contradiction | tauto].
    + apply includes_false in Hinc. destruct (IH (seen ++ [y])) as [Hnd Hin]. split.
      * constructor; [| assumption]. rewrite Hin. intros [_ Hnot].
        apply Hnot, in_or_app. right. now left.
      * intros x. simpl. rewrite Hin. rewrite in_app_iff. simpl.
        destruct (Z.eq_dec y x) as [-> | Hneq]; [tauto |]. intuition.
Qed.

Lemma firstn_NoDup {A} (n : nat) (l : list A) : NoDup l -> NoDup (firstn n l).
Proof.
  intros Hnd. rewrite <- (firstn_skipn n l) in Hnd. now apply NoDup_app_remove_r in Hnd.
Qed.

Lemma firstn_incl {A} (n : nat) (l : list A) : incl (firstn n l) l.
Proof.
  intros x Hx. rewrite <- (firstn_skipn n l). apply in_or_app. now left.
Qed.

End IndexLists.

Section GenomeLoops.

Import Genome.

Lemma post_randomInRange (range : Z * Z) :
  fst range <= snd range ->
  post (randomInRange range) (fun n => fst range <= n <= snd range).
Proof.
  intros Hrange. unfold randomInRange.
  eapply post_bind; [apply post_random | intros r Hr].
  apply post_ret.
  pose proof (randomInt_range r (snd range - fst range + 1) Hr ltac:(lia)). lia.
Qed.

(** The rejection loop for lit edges keeps what it started from and adds
    distinct edge indices until there are [n] of them. *)
Lemma post_pickEdges (n : Z) (start : list Z) :
  distinctIndices start ->
  post (pickEdges n start)
       (fun l => distinctIndices l /\
                 Z.of_nat (length l) = Z.max (Z.of_nat (length start)) n).
Proof.
  intros Hstart tape. revert start Hstart.
  induction tape as [| r tape IH]; intros start Hstart l rest; cbn [pickEdges].
  - destruct (Z.of_nat (length start) <? n) eqn:Hlt; [discriminate |].
    intros [= <- _]. apply Z.ltb_ge in Hlt. split; [assumption | lia].
  - destruct (Z.of_nat (length start) <? n) eqn:Hlt.
    + apply Z.ltb_lt in Hlt.
      destruct (JS.legal r) eqn:Hr; [| discriminate].
      destruct (JS.includes start (JS.randomInt r 12)) eqn:Hinc; cbn [negb].
      * intros Hrun. destruct (IH start Hstart l rest Hrun) as [Hd Hlen]. now split.
      * intros Hrun. apply includes_false in Hinc.
        assert (Hnew : distinctIndices (start ++ [JS.randomInt r 12])).
        { apply distinctIndices_snoc; [assumption | assumption |].
          apply (randomInt_range r 12 Hr). lia. }
        destruct (IH _ Hnew l rest Hrun) as [Hd Hlen]. split; [assumption |].
        rewrite length_app in Hlen. cbn [length] in Hlen. lia.
    + intros [= <- _]. apply Z.ltb_ge in Hlt. split; [assumption | lia].
Qed.

Lemma post_fillSlots_distinct (target : Z) (others : list Z) (slots : list Z) :
  distinctIndices slots ->
  post (fillSlots target slots others) distinctIndices.
Proof.
  intros Hslots tape. revert slots Hslots.
  induction tape as [| r tape IH]; intros slots Hslots l rest; cbn [fillSlots].
  - destruct (Z.of_nat (length slots) <? target); [discriminate |].
    now intros [= <- _].
  - destruct (Z.of_nat (length slots) <? target); [| now intros [= <- _]].
    destruct (JS.legal r) eqn:Hr; [| discriminate].
    destruct (negb (JS.includes slots _) && _) eqn:Hfree; [| now apply IH].
    apply IH. apply andb_true_iff in Hfree as [Hfree _].
    apply negb_true_iff, includes_false in Hfree.
    apply distinctIndices_snoc; [assumption | assumption |].
    apply (randomInt_range r 12 Hr). lia.
Qed.

Lemma post_freeSlot_index (circle : Circle) :
  post (freeSlot circle)
       (fun pos => edgeIndex pos /\ ~ In pos (emitters circle) /\ ~ In pos (blockers circle)).
Proof.
  eapply post_weaken; [apply post_drawUntil; lia |].
  intros pos [Hrej Hrange]. apply orb_false_iff in Hrej as [He Hb].
  split; [exact Hrange |]. split; now apply includes_false.
Qed.

(** The emitters of a ring are distinct slots, and so are its blockers. *)
Definition circleWf (circle : Circle) : Prop :=
  distinctIndices (emitters circle) /\ distinctIndices (blockers circle).

(** Distinct edge indices in ascending order, between [lo] and [hi] of
    them. *)
Definition edgesWf (lo hi : Z) (l : list Z) : Prop :=
  distinctIndices l /\ ascending l /\ lo <= Z.of_nat (length l) <= hi.

Definition chromosomeWf (lo hi : Z) (c : Chromosome) : Prop :=
  edgesWf lo hi (litEdges c) /\ Forall circleWf (rings_list (circles c)).

Lemma edgesWf_sortAsc (lo hi : Z) (l : list Z) :
  distinctIndices l -> lo <= Z.of_nat (length l) <= hi -> edgesWf lo hi (JS.sortAsc l).
Proof.
  intros Hd Hlen. split; [now apply distinctIndices_sortAsc |].
  split; [apply sortAsc_ascending | now rewrite sortAsc_length].
Qed.

Lemma edgesWf_removeAt (lo hi : Z) (index : nat) (l : list Z) :
  edgesWf lo hi l -> lo < Z.of_nat (length l) -> edgesWf lo hi (JS.removeAt index l).
Proof.
  intros (Hd & Hs & Hlen) Hlo. split; [now apply distinctIndices_removeAt |].
  split; [now apply removeAt_ascending |].
  pose proof (removeAt_length index l). lia.
Qed.

Lemma edgesWf_add (lo hi : Z) (l : list Z) (x : Z) :
  edgesWf lo hi l -> Z.of_nat (length l) < hi -> edgeIndex x -> ~ In x l ->
  edgesWf lo hi (JS.sortAsc (l ++ [x])).
Proof.
  intros (Hd & Hs & Hlen) Hhi Hx Hnew. apply edgesWf_sortAsc.
  - now apply distinctIndices_snoc.
  - rewrite length_app. cbn [length]. lia.
Qed.

End GenomeLoops.

(** ** What every chromosome of the simplified generator satisfies *)

Section SimplifiedPreservation.

Import Genome Simplified.

(** A property of chromosomes that the three operators of the generator
    establish or keep holds of everything the generator evaluates and
    returns. *)
Variable good : Chromosome -> Prop.

Hypothesis good_create :
  forall config, In config [easy; medium; hard] ->
    post (createRandomChromosome config) (fun i => good (chromosome i)).
Hypothesis good_crossover :
  forall parent1 parent2, good (chromosome parent1) -> good (chromosome parent2) ->
    post (crossover parent1 parent2) (fun i => good (chromosome i)).
Hypothesis good_mutate :
  forall offspring config, good (chromosome offspring) ->
    post (mutate offspring config) (fun i => good (chromosome i)).

Let goodIndividual (i : Individual) : Prop := good (chromosome i).

Lemma getDifficultyConfig_preset (difficulty : string) (config : Config) :
  getDifficultyConfig difficulty = Preset config -> In config [easy; medium; hard].
Proof.
  unfold getDifficultyConfig.
  repeat match goal with
         | |- context [if ?b then _ else _] => destruct b
         end; intros [= <-]; simpl; auto.
Qed.

Lemma good_createPopulation (n : nat) (config : Config) :
  In config [easy; medium; hard] ->
  post (createPopulation n config) (Forall goodIndividual).
Proof.
  intros Hconfig. induction n as [| n IH]; simpl.
  - apply post_ret. constructor.
  - eapply post_bind; [now apply good_create | intros i Hi].
    eapply post_bind; [apply IH | intros population Hpop].
    apply post_ret. now constructor.
Qed.

Lemma good_selectParent (population : list Individual) :
  Forall goodIndividual population -> post (selectParent population) goodIndividual.
Proof.
  intros Hpop. eapply post_weaken; [apply post_tournament; discriminate |].
  intros i Hi. rewrite Forall_forall in Hpop. now apply Hpop.
Qed.

Lemma good_elites (count : nat) :
  forall population,
    Forall goodIndividual population ->
    post (elites count population) (Forall goodIndividual).
Proof.
  induction count as [| count IH]; intros population Hpop; simpl.
  - apply post_ret. constructor.
  - destruct population as [| i population]; [apply post_throw |].
    inversion Hpop; subst.
    eapply post_bind; [now apply IH | intros rest Hrest].
    apply post_ret. now constructor.
Qed.

Lemma good_offspringLoop (missing : nat) (population : list Individual) (config : Config) :
  Forall goodIndividual population ->
  post (offspringLoop missing population config) (Forall goodIndividual).
Proof.
  intros Hpop. induction missing as [| missing IH]; simpl.
  - apply post_ret. constructor.
  - eapply post_bind; [now apply good_selectParent | intros parent1 Hp1].
    eapply post_bind; [now apply good_selectParent | intros parent2 Hp2].
    eapply post_bind; [now apply good_crossover | intros offspring Hoff].
    eapply post_bind; [now apply good_mutate | intros offspring' Hoff'].
    eapply post_bind; [apply IH | intros rest Hrest].
    apply post_ret. now constructor.
Qed.

Lemma good_evolvePopulation (population : list Individual) (config : Config) :
  Forall goodIndividual population ->
  post (evolvePopulation population config) (Forall goodIndividual).
Proof.
  intros Hpop. unfold evolvePopulation.
  eapply post_bind; [now apply good_elites | intros kept Hkept].
  eapply post_bind; [now apply good_offspringLoop | intros offspring Hoff].
  apply post_ret. apply Forall_app. now split.
Qed.

Variable judge : Chromosome -> bool.

Lemma good_evaluated_sorted (population : list Individual) :
  Forall goodIndividual population ->
  Forall goodIndividual (sortByFitness (evaluatePopulationBy judge population)).
Proof.
  intros Hpop. rewrite Forall_forall in *.
  intros i Hi. apply (proj1 (sortByFitness_In _ _)) in Hi.
  unfold evaluatePopulationBy in Hi. apply in_map_iff in Hi as (j & <- & Hj).
  exact (Hpop j Hj).
Qed.

Lemma good_generationLoop (remaining : nat) (config : Config) :
  forall generation population seen,
    Forall goodIndividual population -> Forall good seen ->
    post (generationLoop judge remaining generation config population seen)
         (fun final => Forall goodIndividual (fst (fst final)) /\ Forall good (snd final)).
Proof.
  induction remaining as [| remaining IH]; intros generation population seen Hpop Hseen;
    cbn [generationLoop].
  - apply post_ret. now split.
  - assert (Hseen' : Forall good (seen ++ map chromosome population)).
    { apply Forall_app. split; [assumption |].
      rewrite Forall_forall in *. intros c Hc.
      apply in_map_iff in Hc as (i & <- & Hi). exact (Hpop i Hi). }
    pose proof (good_evaluated_sorted population Hpop) as Hsorted.
    destruct (sortByFitness (evaluatePopulationBy judge population)) as [| currentBest others];
      [apply post_throw |].
    destruct (solvable currentBest && _).
    + apply post_ret. now split.
    + eapply post_bind; [now apply good_evolvePopulation | intros population' Hpop'].
      now apply IH.
Qed.

Lemma good_generatePuzzleBy (difficulty : string) :
  post (generatePuzzleBy judge difficulty)
       (fun result =>
          Forall good (evaluated result) /\
          good (chromosome (best result)) /\
          puzzle result = chromosomeToPuzzle (chromosome (best result))).
Proof.
  unfold generatePuzzleBy.
  destruct (getDifficultyConfig difficulty) as [config |] eqn:Hconfig; [| apply post_throw].
  apply getDifficultyConfig_preset in Hconfig.
  eapply post_bind; [now apply good_createPopulation | intros population Hpop].
  eapply post_bind; [apply good_generationLoop; [assumption | constructor] |].
  intros [[population' generation] seen] [Hpop' Hseen]. cbn [fst snd] in *.
  assert (Hsorted : Forall goodIndividual (sortByFitness population')).
  { rewrite Forall_forall in *. intros i Hi.
    apply (proj1 (sortByFitness_In _ _)) in Hi. auto. }
  destruct (sortByFitness population') as [| bestPuzzle others]; [apply post_throw |].
  apply post_ret. cbn [evaluated best puzzle].
  inversion Hsorted; subst. auto.
Qed.

End SimplifiedPreservation.

Section SimplifiedWellFormed.

Import Genome Simplified.

Lemma createCircle_wf (numEmitters numBlockers : Z) :
  post (createCircle numEmitters numBlockers) circleWf.
Proof.
  unfold createCircle.
  eapply post_bind;
    [apply post_fillSlots_distinct, distinctIndices_nil | intros ems Hems].
  eapply post_bind;
    [apply post_fillSlots_distinct, distinctIndices_nil | intros bls Hbls].
  apply post_ret. now split.
Qed.

Lemma createRandomChromosome_wf (config : Config) :
  In config [easy; medium; hard] ->
  post (createRandomChromosome config) (fun i => chromosomeWf 3 6 (chromosome i)).
Proof.
  intros Hconfig.
  assert (Hrange : 3 <= fst (c_litEdges config) /\
                   fst (c_litEdges config) <= snd (c_litEdges config) /\
                   snd (c_litEdges config) <= 6).
  { destruct Hconfig as [<- | [<- | [<- | []]]]; simpl; lia. }
  unfold createRandomChromosome.
  eapply post_bind; [apply post_randomInRange; lia | intros numLitEdges Hnum].
  eapply post_bind;
    [apply post_pickEdges, distinctIndices_nil | intros edges [Hedges Hlen]].
  eapply post_bind; [apply post_True | intros totalEmitters _].
  eapply post_bind; [apply post_True | intros totalBlockers _].
  eapply post_bind; [apply post_True | intros ed _].
  eapply post_bind; [apply post_True | intros bd _].
  eapply post_bind; [apply createCircle_wf | intros c0 Hc0].
  eapply post_bind; [apply createCircle_wf | intros c1 Hc1].
  eapply post_bind; [apply createCircle_wf | intros c2 Hc2].
  apply post_ret. split; cbn [chromosome litEdges circles].
  - apply edgesWf_sortAsc; [assumption |]. cbv beta in Hnum. cbn [length] in Hlen. lia.
  - apply Forall_rings. simpl. auto.
Qed.

Lemma crossover_edges_wf (edges1 edges2 : list Z) :
  edgesWf 3 6 edges1 -> edgesWf 3 6 edges2 ->
  edgesWf 3 6
    (JS.sortAsc
       (firstn (Z.to_nat (Z.min (Z.of_nat (length (JS.dedup (edges1 ++ edges2) [])))
                                (Z.max 3 (Z.of_nat (length edges1)))))
               (JS.dedup (edges1 ++ edges2) []))).
Proof.
  intros ([Hnd1 Hidx1] & _ & Hlen1) ([Hnd2 Hidx2] & _ & _).
  destruct (dedup_spec (edges1 ++ edges2) []) as [Hnd Hin].
  set (allEdges := JS.dedup (edges1 ++ edges2) []) in *.
  assert (Hsize : (length edges1 <= length allEdges)%nat).
  { apply NoDup_incl_length; [assumption |].
    intros x Hx. apply Hin. split; [apply in_or_app; now left | intros []]. }
  apply edgesWf_sortAsc.
  - split; [now apply firstn_NoDup |].
    apply Forall_forall. intros x Hx. apply firstn_incl in Hx.
    apply Hin in Hx as [Hx _]. rewrite Forall_forall in Hidx1, Hidx2.
    apply in_app_or in Hx as [Hx | Hx]; auto.
  - rewrite length_firstn. lia.
Qed.

Lemma crossover_wf (parent1 parent2 : Individual) :
  chromosomeWf 3 6 (chromosome parent1) -> chromosomeWf 3 6 (chromosome parent2) ->
  post (crossover parent1 parent2) (fun i => chromosomeWf 3 6 (chromosome i)).
Proof.
  intros [He1 Hc1] [He2 Hc2]. unfold crossover. cbv zeta.
  assert (Hinherit : forall i r,
    circleWf (mkCircle
      (emitters (ring_at (circles (if JS.Qltb r (5 # 10)
                                   then chromosome parent1 else chromosome parent2)) i))
      (blockers (ring_at (circles (if JS.Qltb r (5 # 10)
                                   then chromosome parent1 else chromosome parent2)) i)))).
  { intros i r. destruct (JS.Qltb r (5 # 10)).
    - exact (Forall_ring_at _ _ i Hc1).
    - exact (Forall_ring_at _ _ i Hc2). }
  eapply post_bind;
    [eapply post_bind; [apply post_True | intros r _; apply post_ret; apply Hinherit] |].
  intros c0 Hc0.
  eapply post_bind;
    [eapply post_bind; [apply post_True | intros r _; apply post_ret; apply Hinherit] |].
  intros c1 Hc1'.
  eapply post_bind;
    [eapply post_bind; [apply post_True | intros r _; apply post_ret; apply Hinherit] |].
  intros c2 Hc2'.
  apply post_ret. split; cbn [chromosome litEdges circles].
  - now apply crossover_edges_wf.
  - apply Forall_rings. simpl. auto.
Qed.

Lemma mutateLitEdges_wf (edges : list Z) :
  edgesWf 3 6 edges -> post (mutateLitEdges edges) (edgesWf 3 6).
Proof.
  intros Hwf. unfold mutateLitEdges.
  eapply post_bind; [apply post_True | intros r _].
  destruct (JS.Qltb r _); [| now apply post_ret].
  eapply post_bind; [apply post_True | intros r' _].
  destruct (JS.Qltb r' (5 # 10) && _) eqn:Hremove.
  - eapply post_bind; [apply post_True | intros index _].
    apply post_ret. apply andb_true_iff in Hremove as [_ Hlen].
    apply edgesWf_removeAt; [assumption | lia].
  - destruct (_ <? 6) eqn:Hadd; [| now apply post_ret].
    eapply post_bind; [apply post_drawUntil; lia | intros newEdge [Hnew Hrange]].
    apply post_ret. apply includes_false in Hnew.
    apply edgesWf_add; [assumption | lia | exact Hrange | assumption].
Qed.

Lemma mutateEmitters_wf (circle : Circle) :
  circleWf circle -> post (mutateEmitters circle) circleWf.
Proof.
  intros [He Hb]. unfold mutateEmitters.
  eapply post_bind; [apply post_True | intros r _].
  destruct (JS.Qltb r (3 # 10)); [| apply post_ret; now split].
  eapply post_bind; [apply post_True | intros r' _].
  destruct (JS.Qltb r' (7 # 10) && _).
  - eapply post_bind; [apply post_True | intros index _].
    eapply post_bind; [apply post_freeSlot_index | intros newPos (Hidx & Hfe & Hfb)].
    apply post_ret. split; cbn [emitters blockers]; [| assumption].
    now apply distinctIndices_setAt.
  - eapply post_bind; [apply post_True | intros r'' _].
    destruct (JS.Qltb r'' (3 # 10) && _).
    + eapply post_bind; [apply post_True | intros index _].
      apply post_ret. split; cbn [emitters blockers]; [| assumption].
      now apply distinctIndices_removeAt.
    + destruct (_ <? 4); [| apply post_ret; now split].
      eapply post_bind; [apply post_freeSlot_index | intros newPos (Hidx & Hfe & Hfb)].
      apply post_ret. split; cbn [emitters blockers]; [| assumption].
      now apply distinctIndices_snoc.
Qed.

Lemma mutateBlockers_wf (circle : Circle) :
  circleWf circle -> post (mutateBlockers circle) circleWf.
Proof.
  intros [He Hb]. unfold mutateBlockers.
  eapply post_bind; [apply post_True | intros r _].
  destruct (JS.Qltb r _); [| apply post_ret; now split].
  eapply post_bind; [apply post_True | intros r' _].
  destruct (JS.Qltb r' (5 # 10) && _).
  - eapply post_bind; [apply post_True | intros index _].
    eapply post_bind; [apply post_freeSlot_index | intros newPos (Hidx & Hfe & Hfb)].
    apply post_ret. split; cbn [emitters blockers]; [assumption |].
    now apply distinctIndices_setAt.
  - eapply post_bind; [apply post_True | intros r'' _].
    destruct (JS.Qltb r'' (5 # 10) && _).
    + eapply post_bind; [apply post_True | intros index _].
      apply post_ret. split; cbn [emitters blockers]; [assumption |].
      now apply distinctIndices_removeAt.
    + destruct (_ <? 3); [| apply post_ret; now split].
      eapply post_bind; [apply post_freeSlot_index | intros newPos (Hidx & Hfe & Hfb)].
      apply post_ret. split; cbn [emitters blockers]; [assumption |].
      now apply distinctIndices_snoc.
Qed.

Lemma ensureEmitter_wf (circle : Circle) :
  circleWf circle -> post (ensureEmitter circle) circleWf.
Proof.
  intros [He Hb]. unfold ensureEmitter.
  destruct (emitters circle) eqn:Hem; [| apply post_ret; split; [now rewrite Hem | assumption]].
  eapply post_bind; [apply post_drawUntil; lia | intros newPos [_ Hrange]].
  apply post_ret. split; cbn [emitters blockers]; [| assumption].
  apply distinctIndices_snoc; [apply distinctIndices_nil | intros [] | exact Hrange].
Qed.

Lemma mutate_wf (offspring : Individual) (config : Config) :
  chromosomeWf 3 6 (chromosome offspring) ->
  post (mutate offspring config) (fun i => chromosomeWf 3 6 (chromosome i)).
Proof.
  intros [Hedges Hrings]. apply Forall_rings in Hrings as (H0 & H1 & H2).
  unfold mutate. cbv zeta.
  assert (Hcircle : forall circle, circleWf circle -> post (mutateCircle circle) circleWf).
  { intros circle Hc. unfold mutateCircle.
    eapply post_bind; [now apply mutateEmitters_wf |].
    intros c Hc'. now apply mutateBlockers_wf. }
  eapply post_bind; [now apply mutateLitEdges_wf | intros edges Hedges'].
  eapply post_bind; [now apply Hcircle | intros c0 Hc0].
  eapply post_bind; [now apply Hcircle | intros c1 Hc1].
  eapply post_bind; [now apply Hcircle | intros c2 Hc2].
  eapply post_bind; [now apply ensureEmitter_wf | intros c0' Hc0'].
  eapply post_bind; [now apply ensureEmitter_wf | intros c1' Hc1'].
  eapply post_bind; [now apply ensureEmitter_wf | intros c2' Hc2'].
  apply post_ret. split; cbn [chromosome litEdges circles]; [assumption |].
  apply Forall_rings. simpl. auto.
Qed.

(** X15 — in the simplified generator, whatever the difficulty, every
    chromosome handed to the fitness evaluation and the chromosome behind
    the returned puzzle have between 3 and 6 lit edges, all distinct
    indices of [0..11] in ascending order; the bounds 3 and 6 are those of
    the mutation, not of the difficulty preset. *)
Theorem simplified_lit_edges (judge : Chromosome -> bool) (difficulty : string)
    (tape : JS.Tape) (result : Result) (rest : JS.Tape) :
  generatePuzzleBy judge difficulty tape = JS.Done result rest ->
  Forall (fun c => edgesWf 3 6 (litEdges c)) (evaluated result) /\
  edgesWf 3 6 (Puzzle.litEdges (puzzle result)).
Proof.
  intros Hrun.
  destruct (good_generatePuzzleBy (chromosomeWf 3 6) createRandomChromosome_wf
              crossover_wf mutate_wf judge difficulty _ _ _ Hrun) as (Hseen & Hbest & ->).
  split.
  - eapply Forall_impl; [| exact Hseen]. now intros c [Hc _].
  - exact (proj1 Hbest).
Qed.

(** X16 — in the simplified generator the emitters of every ring are
    distinct slots of [0..11], and so are its blockers, in every chromosome
    handed to the fitness evaluation and in the returned one. *)
Theorem simplified_slots_distinct (judge : Chromosome -> bool) (difficulty : string)
    (tape : JS.Tape) (result : Result) (rest : JS.Tape) :
  generatePuzzleBy judge difficulty tape = JS.Done result rest ->
  Forall (fun c => Forall circleWf (rings_list (circles c)))
         (chromosome (best result) :: evaluated result).
Proof.
  intros Hrun.
  destruct (good_generatePuzzleBy (chromosomeWf 3 6) createRandomChromosome_wf
              crossover_wf mutate_wf judge difficulty _ _ _ Hrun) as (Hseen & Hbest & _).
  constructor; [exact (proj2 Hbest) |].
  eapply Forall_impl; [| exact Hseen]. now intros c [_ Hc].
Qed.

End SimplifiedWellFormed.

Lemma simplified_lit_edges_witness :
  returns (Simplified.generatePuzzleBy (fun _ => true) "easy") (lcgTape (Z.to_nat 600) 11)
          (fun result =>
             Forall (fun c => edgesWf 3 6 (Genome.litEdges c)) (Simplified.evaluated result) /\
             edgesWf 3 6 (Puzzle.litEdges (Simplified.puzzle result))).
Proof.
  apply returns_intro; [vm_compute; reflexivity |].
  intros result rest Hrun.
  exact (simplified_lit_edges _ _ _ _ _ Hrun).
Defined.

Lemma simplified_slots_distinct_witness :
  returns (Simplified.generatePuzzleBy (fun _ => true) "hard") (lcgTape (Z.to_nat 800) 13)
          (fun result =>
             Forall (fun c => Forall circleWf (rings_list (Genome.circles c)))
                    (Simplified.chromosome (Simplified.best result)
                     :: Simplified.evaluated result)).
Proof.
  apply returns_intro; [vm_compute; reflexivity |].
  intros result rest Hrun.
  exact (simplified_slots_distinct _ _ _ _ _ Hrun).
Defined.

(** ** What every chromosome of the full generator satisfies *)

Section StoreWellFormed.

Import Genome Evolutionary.

Lemma removeAt_length_inside {A} (index : nat) (l : list A) :
  (index < length l)%nat -> length (JS.removeAt index l) = (length l - 1)%nat.
Proof.
  revert index. induction l as [| x l IH]; intros index Hi; [simpl in Hi; lia |].
  destruct index as [| index]; cbn [JS.removeAt length]; [lia |].
  cbn [length] in Hi. rewrite IH by lia. lia.
Qed.

(** The trimming loop removes one edge at a time until at most [n] are
    left. *)
Lemma post_trimEdges (n : Z) (edges : list Z) :
  0 <= n -> distinctIndices edges ->
  post (trimEdges n edges)
       (fun l => distinctIndices l /\
                 Z.of_nat (length l) = Z.min (Z.of_nat (length edges)) n).
Proof.
  intros Hn Hedges tape. revert edges Hedges.
  induction tape as [| r tape IH]; intros edges Hedges l rest; cbn [trimEdges].
  - destruct (Z.of_nat (length edges) >? n) eqn:Hgt; [discriminate |].
    intros [= <- _]. split; [assumption | lia].
  - destruct (Z.of_nat (length edges) >? n) eqn:Hgt.
    + destruct (JS.legal r) eqn:Hr; [| discriminate].
      intros Hrun.
      pose proof (randomInt_range r (Z.of_nat (length edges)) Hr ltac:(lia)) as Hindex.
      destruct (IH _ (distinctIndices_removeAt _ _ Hedges) l rest Hrun) as [Hd Hlen].
      split; [assumption |].
      rewrite removeAt_length_inside in Hlen by lia. lia.
    + intros [= <- _]. split; [assumption | lia].
Qed.

Lemma repairEdges_wf (config : Config) (edges : list Z) :
  0 <= fst (litEdgeRange config) <= snd (litEdgeRange config) ->
  distinctIndices edges ->
  post (repairEdges config edges)
       (edgesWf (fst (litEdgeRange config)) (snd (litEdgeRange config))).
Proof.
  intros Hrange Hedges. unfold repairEdges.
  eapply post_bind; [now apply post_pickEdges | intros padded [Hpadded Hlen]].
  eapply post_bind; [apply post_trimEdges; [lia | assumption] | intros trimmed [Htrimmed Hlen']].
  apply post_ret. apply edgesWf_sortAsc; [assumption | lia].
Qed.

(** X17 — the lit-edge repair of [repairChromosome] clamps: from any list of
    distinct edge indices it leaves between [lo] and [hi] distinct edge
    indices in ascending order, [lo] and [hi] being the difficulty's
    [litEdgeRange] (with [0 <= lo <= hi]). *)
Theorem repairEdges_clamps (config : Config) (edges : list Z) :
  0 <= fst (litEdgeRange config) <= snd (litEdgeRange config) ->
  distinctIndices edges ->
  post (repairEdges config edges)
       (edgesWf (fst (litEdgeRange config)) (snd (litEdgeRange config))).
Proof.
  intros Hrange Hedges tape l rest Hrun.
  exact (repairEdges_wf config edges Hrange Hedges tape l rest Hrun).
Qed.

Lemma repairEdges_clamps_witness :
  returns (repairEdges hard [7; 2]) (lcgTape (Z.to_nat 40) 5) (edgesWf 4 6).
Proof.
  apply returns_intro; [vm_compute; reflexivity |].
  intros l rest Hrun.
  refine (repairEdges_clamps hard [7; 2] _ _ _ l rest Hrun).
  - simpl. lia.
  - split; [repeat constructor; simpl; intuition lia |].
    repeat constructor; unfold edgeIndex; lia.
Defined.

(** Every circle object, every [litEdges] array and every evaluated
    chromosome is well formed. *)
Definition storeWf (lo hi : Z) (st : Store) : Prop :=
  Forall circleWf (circleObjs st) /\
  Forall (edgesWf lo hi) (edgeArrays st) /\
  Forall (chromosomeWf lo hi) (evaluatedLog st).

Variables lo hi : Z.

Lemma wf_readCircle (ref : nat) :
  hoare (storeWf lo hi) (readCircle ref) (fun circle st => storeWf lo hi st /\ circleWf circle).
Proof.
  intros st tape circle st' rest Hwf. unfold readCircle.
  destruct (nth_error (circleObjs st) ref) as [c |] eqn:Hnth; [| discriminate].
  intros [= <- <- _]. split; [assumption |].
  destruct Hwf as (Hobjs & _). rewrite Forall_forall in Hobjs.
  apply Hobjs. now apply nth_error_In in Hnth.
Qed.

Lemma wf_readEdges (ref : nat) :
  hoare (storeWf lo hi) (readEdges ref)
        (fun edges st => storeWf lo hi st /\ edgesWf lo hi edges).
Proof.
  intros st tape edges st' rest Hwf. unfold readEdges.
  destruct (nth_error (edgeArrays st) ref) as [e |] eqn:Hnth; [| discriminate].
  intros [= <- <- _]. split; [assumption |].
  destruct Hwf as (_ & Harrays & _). rewrite Forall_forall in Harrays.
  apply Harrays. now apply nth_error_In in Hnth.
Qed.

Lemma wf_allocCircle (circle : Circle) :
  circleWf circle ->
  hoare (storeWf lo hi) (allocCircle circle) (fun _ st => storeWf lo hi st).
Proof.
  intros Hc st tape ref st' rest (Hobjs & Harrays & Hlog) [= _ <- _].
  split; [| now split]. cbn [circleObjs].
  apply Forall_app. split; [assumption | now constructor].
Qed.

Lemma wf_allocEdges (edges : list Z) :
  edgesWf lo hi edges ->
  hoare (storeWf lo hi) (allocEdges edges) (fun _ st => storeWf lo hi st).
Proof.
  intros He st tape ref st' rest (Hobjs & Harrays & Hlog) [= _ <- _].
  split; [assumption |]. split; [| assumption]. cbn [edgeArrays].
  apply Forall_app. split; [assumption | now constructor].
Qed.

Lemma wf_modifyCircle (ref : nat) (change : Circle -> JS.Rand Circle) :
  (forall circle, circleWf circle -> post (change circle) circleWf) ->
  hoare (storeWf lo hi) (modifyCircle ref change) (fun _ st => storeWf lo hi st).
Proof.
  intros Hchange. unfold modifyCircle.
  eapply hoare_bind_pure; [apply wf_readCircle | intros circle Hc].
  eapply hoare_bind_pure; [apply hoare_lift, Hchange, Hc | intros circle' Hc'].
  intros st tape u st' rest (Hobjs & Harrays & Hlog) [= _ <- _].
  split; [| now split]. cbn [circleObjs]. now apply setAt_Forall.
Qed.

Lemma wf_modifyEdges (ref : nat) (change : list Z -> JS.Rand (list Z)) :
  (forall edges, edgesWf lo hi edges -> post (change edges) (edgesWf lo hi)) ->
  hoare (storeWf lo hi) (modifyEdges ref change) (fun _ st => storeWf lo hi st).
Proof.
  intros Hchange. unfold modifyEdges.
  eapply hoare_bind_pure; [apply wf_readEdges | intros edges He].
  eapply hoare_bind_pure; [apply hoare_lift, Hchange, He | intros edges' He'].
  intros st tape u st' rest (Hobjs & Harrays & Hlog) [= _ <- _].
  split; [assumption |]. split; [| assumption]. cbn [edgeArrays]. now apply setAt_Forall.
Qed.

Lemma wf_snapshot (i : Individual) :
  hoare (storeWf lo hi) (snapshot i) (fun c st => storeWf lo hi st /\ chromosomeWf lo hi c).
Proof.
  unfold snapshot.
  eapply hoare_bind_pure; [apply wf_readEdges | intros edges He].
  eapply hoare_bind_pure; [apply wf_readCircle | intros c0 H0].
  eapply hoare_bind_pure; [apply wf_readCircle | intros c1 H1].
  eapply hoare_bind_pure; [apply wf_readCircle | intros c2 H2].
  apply hoare_ret. intros st Hwf. split; [assumption |].
  split; [exact He |]. apply Forall_rings. simpl. auto.
Qed.

Lemma wf_logEvaluated (c : Chromosome) :
  chromosomeWf lo hi c ->
  hoare (storeWf lo hi) (logEvaluated c) (fun _ st => storeWf lo hi st).
Proof.
  intros Hc st tape u st' rest (Hobjs & Harrays & Hlog) [= _ <- _].
  split; [assumption |]. split; [assumption |]. cbn [evaluatedLog].
  apply Forall_app. split; [assumption | now constructor].
Qed.

End StoreWellFormed.

Section FullGeneratorWellFormed.

Import Genome Evolutionary.

Variable config : Config.

Let lo : Z := fst (litEdgeRange config).
Let hi : Z := snd (litEdgeRange config).

Hypothesis range_ok : 0 <= lo <= hi.

Lemma wf_createCircle (numEmitters numBlockers : Z) :
  hoare (storeWf lo hi) (createCircle numEmitters numBlockers)
        (fun _ st => storeWf lo hi st).
Proof.
  unfold createCircle.
  eapply hoare_bind_pure;
    [apply hoare_lift, post_fillSlots_distinct, distinctIndices_nil | intros ems Hems].
  eapply hoare_bind_pure;
    [apply hoare_lift, post_fillSlots_distinct, distinctIndices_nil | intros bls Hbls].
  apply wf_allocCircle. now split.
Qed.

Lemma wf_createRandomChromosome :
  hoare (storeWf lo hi) (createRandomChromosome config) (fun _ st => storeWf lo hi st).
Proof.
  unfold createRandomChromosome.
  eapply hoare_bind_pure;
    [apply hoare_lift, post_randomInRange; exact (proj2 range_ok) | intros numLitEdges Hnum].
  eapply hoare_bind_pure;
    [apply hoare_lift, post_pickEdges, distinctIndices_nil | intros edges [Hedges Hlen]].
  eapply hoare_bind; [apply hoare_draw | intros totalEmitters].
  eapply hoare_bind; [apply hoare_draw | intros totalBlockers].
  eapply hoare_bind; [apply hoare_draw | intros ed].
  eapply hoare_bind; [apply hoare_draw | intros bd].
  eapply hoare_bind; [apply wf_createCircle | intros c0].
  eapply hoare_bind; [apply wf_createCircle | intros c1].
  eapply hoare_bind; [apply wf_createCircle | intros c2].
  eapply hoare_bind; [apply wf_allocEdges | intros ref; now apply hoare_ret].
  apply edgesWf_sortAsc; [assumption |].
  cbv beta in Hnum. cbn [length] in Hlen. fold lo hi in Hnum. lia.
Qed.

Lemma wf_createPopulation (n : nat) :
  hoare (storeWf lo hi) (createPopulation n config) (fun _ st => storeWf lo hi st).
Proof.
  induction n as [| n IH]; simpl.
  - now apply hoare_ret.
  - eapply hoare_bind; [apply wf_createRandomChromosome | intros i].
    eapply hoare_bind; [apply IH | intros population].
    now apply hoare_ret.
Qed.

Lemma slice0_edges_wf (edges1 edges2 : list Z) (targetSize : Z) :
  edgesWf lo hi edges1 -> edgesWf lo hi edges2 -> lo <= targetSize <= hi ->
  edgesWf lo hi (JS.sortAsc (slice0 targetSize (JS.dedup (edges1 ++ edges2) []))).
Proof.
  intros ([Hnd1 Hidx1] & _ & Hlen1) ([Hnd2 Hidx2] & _ & _) Htarget.
  destruct (dedup_spec (edges1 ++ edges2) []) as [Hnd Hin].
  set (allEdges := JS.dedup (edges1 ++ edges2) []) in *.
  assert (Hsize : (length edges1 <= length allEdges)%nat).
  { apply NoDup_incl_length; [assumption |].
    intros x Hx. apply Hin. split; [apply in_or_app; now left | intros []]. }
  unfold slice0. replace (targetSize <? 0) with false by (symmetry; apply Z.ltb_ge; lia).
  apply edgesWf_sortAsc.
  - split; [now apply firstn_NoDup |].
    apply Forall_forall. intros x Hx. apply firstn_incl in Hx.
    apply Hin in Hx as [Hx _]. rewrite Forall_forall in Hidx1, Hidx2.
    apply in_app_or in Hx as [Hx | Hx]; auto.
  - rewrite length_firstn. lia.
Qed.

Lemma wf_crossover (parent1 parent2 : Individual) :
  hoare (storeWf lo hi) (crossover parent1 parent2 config) (fun _ st => storeWf lo hi st).
Proof.
  unfold crossover. cbv zeta.
  assert (Hinherit : forall ref,
    hoare (storeWf lo hi)
          (circle <~ readCircle ref ;;
           allocCircle (mkCircle (emitters circle) (blockers circle)))
          (fun _ st => storeWf lo hi st)).
  { intros ref.
    eapply hoare_bind_pure; [apply wf_readCircle | intros circle Hc].
    apply wf_allocCircle. exact Hc. }
  eapply hoare_bind_pure; [apply wf_readEdges | intros edges1 He1].
  eapply hoare_bind_pure; [apply wf_readEdges | intros edges2 He2].
  eapply hoare_bind_pure;
    [apply hoare_lift, post_randomInRange; exact (proj2 range_ok) | intros targetSize Htarget].
  eapply hoare_bind;
    [eapply hoare_bind; [apply hoare_draw | intros r; apply Hinherit] | intros c0].
  eapply hoare_bind;
    [eapply hoare_bind; [apply hoare_draw | intros r; apply Hinherit] | intros c1].
  eapply hoare_bind;
    [eapply hoare_bind; [apply hoare_draw | intros r; apply Hinherit] | intros c2].
  eapply hoare_bind; [apply wf_allocEdges | intros ref; now apply hoare_ret].
  now apply slice0_edges_wf.
Qed.

Lemma full_mutateLitEdges_wf (edges : list Z) :
  edgesWf lo hi edges -> post (mutateLitEdges config edges) (edgesWf lo hi).
Proof.
  intros Hwf. unfold mutateLitEdges.
  eapply post_bind; [apply post_True | intros r _].
  destruct (JS.Qltb r _); [| now apply post_ret].
  eapply post_bind; [apply post_True | intros r' _].
  destruct (JS.Qltb r' (5 # 10) && _) eqn:Hremove.
  - eapply post_bind; [apply post_True | intros index _].
    apply post_ret. apply andb_true_iff in Hremove as [_ Hlen].
    apply edgesWf_removeAt; [assumption | unfold lo; lia].
  - destruct (_ <? snd (litEdgeRange config)) eqn:Hadd; [| now apply post_ret].
    eapply post_bind; [apply post_drawUntil; lia | intros newEdge [Hnew Hrange]].
    apply post_ret. apply includes_false in Hnew.
    apply edgesWf_add; [assumption | unfold hi; lia | exact Hrange | assumption].
Qed.

Lemma full_mutateCircle_wf (circle : Circle) :
  circleWf circle -> post (mutateCircle circle) circleWf.
Proof.
  intros Hcircle. unfold mutateCircle.
  eapply post_bind with (P := circleWf).
  - destruct Hcircle as [He Hb]. unfold mutateEmitters.
    eapply post_bind; [apply post_True | intros r _].
    destruct (JS.Qltb r _); [| apply post_ret; now split].
    eapply post_bind; [apply post_True | intros r' _].
    destruct (JS.Qltb r' (5 # 10) && _).
    + eapply post_bind; [apply post_True | intros index _].
      eapply post_bind; [apply post_freeSlot_index | intros newPos (Hidx & Hfe & Hfb)].
      apply post_ret. split; cbn [emitters blockers]; [| assumption].
      now apply distinctIndices_setAt.
    + eapply post_bind; [apply post_True | intros r'' _].
      destruct (JS.Qltb r'' (5 # 10) && _).
      * eapply post_bind; [apply post_True | intros index _].
        apply post_ret. split; cbn [emitters blockers]; [| assumption].
        now apply distinctIndices_removeAt.
      * eapply post_bind; [apply post_freeSlot_index | intros newPos (Hidx & Hfe & Hfb)].
        apply post_ret. split; cbn [emitters blockers]; [| assumption].
        now apply distinctIndices_snoc.
  - intros circle' [He Hb]. unfold mutateBlockers.
    eapply post_bind; [apply post_True | intros r _].
    destruct (JS.Qltb r _); [| apply post_ret; now split].
    eapply post_bind; [apply post_True | intros r' _].
    destruct (JS.Qltb r' (5 # 10) && _).
    + eapply post_bind; [apply post_True | intros index _].
      eapply post_bind; [apply post_freeSlot_index | intros newPos (Hidx & Hfe & Hfb)].
      apply post_ret. split; cbn [emitters blockers]; [assumption |].
      now apply distinctIndices_setAt.
    + eapply post_bind; [apply post_True | intros r'' _].
      destruct (JS.Qltb r'' (5 # 10) && _).
      * eapply post_bind; [apply post_True | intros index _].
        apply post_ret. split; cbn [emitters blockers]; [assumption |].
        now apply distinctIndices_removeAt.
      * eapply post_bind; [apply post_freeSlot_index | intros newPos (Hidx & Hfe & Hfb)].
        apply post_ret. split; cbn [emitters blockers]; [assumption |].
        now apply distinctIndices_snoc.
Qed.

Lemma full_repairCircle_wf (circle : Circle) :
  circleWf circle -> post (repairCircle circle) circleWf.
Proof.
  intros [He Hb]. unfold repairCircle.
  eapply post_bind with (P := distinctIndices).
  - destruct (emitters circle) as [| e ems] eqn:Hem.
    + eapply post_bind; [apply post_drawUntil; lia | intros newPos [_ Hrange]].
      apply post_ret.
      apply distinctIndices_snoc; [apply distinctIndices_nil | intros [] | exact Hrange].
    + now apply post_ret.
  - intros ems Hems. apply post_ret. split; cbn [emitters blockers]; [assumption |].
    destruct Hb as [Hnd Hidx]. split.
    + now apply NoDup_filter.
    + apply Forall_forall. intros x Hx. apply filter_In in Hx as [Hx _].
      rewrite Forall_forall in Hidx. now apply Hidx.
Qed.

Lemma wf_mutate (offspring : Individual) :
  hoare (storeWf lo hi) (mutate offspring config) (fun _ st => storeWf lo hi st).
Proof.
  unfold mutate.
  eapply hoare_bind; [apply wf_modifyEdges, full_mutateLitEdges_wf | intros ?].
  eapply hoare_bind; [apply wf_modifyCircle, full_mutateCircle_wf | intros ?].
  eapply hoare_bind; [apply wf_modifyCircle, full_mutateCircle_wf | intros ?].
  apply wf_modifyCircle, full_mutateCircle_wf.
Qed.

Lemma wf_repairChromosome (offspring : Individual) :
  hoare (storeWf lo hi) (repairChromosome offspring config) (fun _ st => storeWf lo hi st).
Proof.
  unfold repairChromosome.
  eapply hoare_bind.
  { apply wf_modifyEdges. intros edges (Hd & _ & _).
    now apply repairEdges_wf. }
  intros ?.
  eapply hoare_bind; [apply wf_modifyCircle, full_repairCircle_wf | intros ?].
  eapply hoare_bind; [apply wf_modifyCircle, full_repairCircle_wf | intros ?].
  apply wf_modifyCircle, full_repairCircle_wf.
Qed.

Lemma wf_offspringLoop (missing : nat) (population : list Individual) :
  hoare (storeWf lo hi) (offspringLoop missing population config)
        (fun _ st => storeWf lo hi st).
Proof.
  induction missing as [| missing IH]; simpl.
  - now apply hoare_ret.
  - eapply hoare_bind; [apply hoare_draw | intros parent1].
    eapply hoare_bind; [apply hoare_draw | intros parent2].
    eapply hoare_bind; [apply hoare_draw | intros r].
    eapply hoare_bind with (R := fun _ st => storeWf lo hi st).
    { destruct (JS.Qltb r _); [apply wf_crossover | now apply hoare_ret]. }
    intros offspring.
    eapply hoare_bind; [apply hoare_draw | intros r'].
    eapply hoare_bind with (R := fun _ st => storeWf lo hi st).
    { destruct (JS.Qltb r' _); [apply wf_mutate | now apply hoare_ret]. }
    intros u.
    eapply hoare_bind; [apply wf_repairChromosome | intros u'].
    eapply hoare_bind; [apply IH | intros rest].
    now apply hoare_ret.
Qed.

Lemma wf_evolvePopulation (population : list Individual) :
  hoare (storeWf lo hi) (evolvePopulation population config) (fun _ st => storeWf lo hi st).
Proof.
  unfold evolvePopulation.
  eapply hoare_bind; [apply hoare_elites | intros kept].
  eapply hoare_bind; [apply wf_offspringLoop | intros offspring].
  now apply hoare_ret.
Qed.

Variable score : Chromosome -> Config -> option Q.

Lemma wf_evaluatePopulationBy (population : list Individual) :
  hoare (storeWf lo hi) (evaluatePopulationBy score population config)
        (fun _ st => storeWf lo hi st).
Proof.
  induction population as [| individual population IH]; simpl.
  - now apply hoare_ret.
  - eapply hoare_bind_pure; [apply wf_snapshot | intros c Hc].
    eapply hoare_bind; [now apply wf_logEvaluated | intros u].
    eapply hoare_bind; [apply IH | intros rest].
    now apply hoare_ret.
Qed.

Lemma wf_generationLoop (remaining : nat) :
  forall generation population bestIndividual counter,
    hoare (storeWf lo hi)
          (generationLoop score remaining generation config population bestIndividual counter)
          (fun _ st => storeWf lo hi st).
Proof.
  induction remaining as [| remaining IH];
    intros generation population bestIndividual counter; cbn [generationLoop].
  - now apply hoare_ret.
  - destruct (counter >? 10); [now apply hoare_ret |].
    eapply hoare_bind; [apply wf_evaluatePopulationBy | intros evaluated].
    destruct (sortByFitness evaluated) as [| currentBest others]; [apply hoare_throw |].
    eapply hoare_bind; [apply wf_evolvePopulation | intros population'].
    apply IH.
Qed.

End FullGeneratorWellFormed.

Section FullGeneratorResults.

Import Genome Evolutionary.

Lemma full_preset_range (difficulty : string) (config : Config) :
  getDifficultyConfig difficulty = Preset config ->
  3 <= fst (litEdgeRange config) <= snd (litEdgeRange config) /\
  snd (litEdgeRange config) <= 6.
Proof.
  unfold getDifficultyConfig.
  repeat match goal with
         | |- context [if ?b then _ else _] => destruct b
         end; intros [= <-]; simpl; lia.
Qed.

Lemma storeWf_emptyStore (lo hi : Z) : storeWf lo hi emptyStore.
Proof. repeat split; constructor. Qed.

Lemma wf_generatePuzzleBy (score : Chromosome -> Config -> option Q)
    (difficulty : string) (counter : Z) (tape : JS.Tape) (result : Result) (st : Store)
    (rest : JS.Tape) :
  generatePuzzleBy score difficulty counter emptyStore tape = JS.Done (result, st) rest ->
  exists config,
    getDifficultyConfig difficulty = Preset config /\
    Forall (chromosomeWf (fst (litEdgeRange config)) (snd (litEdgeRange config)))
           (puzzle result :: evaluatedLog st).
Proof.
  unfold generatePuzzleBy.
  destruct (getDifficultyConfig difficulty) as [config |] eqn:Hconfig; [| discriminate].
  intros Hrun. exists config. split; [reflexivity |].
  apply full_preset_range in Hconfig.
  assert (Hrange : 0 <= fst (litEdgeRange config) <= snd (litEdgeRange config)) by lia.
  set (lo := fst (litEdgeRange config)) in *. set (hi := snd (litEdgeRange config)) in *.
  revert Hrun.
  generalize (storeWf_emptyStore lo hi). generalize emptyStore. intros st0 Hst0 Hrun.
  refine ((_ : hoare (storeWf lo hi) _
                 (fun result st => Forall (chromosomeWf lo hi) (puzzle result :: evaluatedLog st)))
            st0 tape result st rest Hst0 Hrun).
  eapply hoare_bind; [apply wf_createPopulation; exact Hrange | intros population].
  eapply hoare_bind; [apply wf_generationLoop; exact Hrange |].
  intros [[bestIndividual generation] counter'].
  destruct bestIndividual as [b |]; [| apply hoare_throw].
  eapply hoare_bind_pure; [apply wf_snapshot | intros c Hc].
  apply hoare_ret. intros st1 (_ & _ & Hlog). cbn [puzzle]. now constructor.
Qed.

(** X18 — in the full generator every chromosome handed to the fitness
    function, and the returned puzzle, has its lit edges inside the
    difficulty's [litEdgeRange], all distinct indices of [0..11] in
    ascending order. *)
Theorem full_lit_edges_in_range (score : Chromosome -> Config -> option Q)
    (difficulty : string) (counter : Z) (tape : JS.Tape) (result : Result) (st : Store)
    (rest : JS.Tape) :
  generatePuzzleBy score difficulty counter emptyStore tape = JS.Done (result, st) rest ->
  exists config,
    getDifficultyConfig difficulty = Preset config /\
    Forall (fun c => edgesWf (fst (litEdgeRange config)) (snd (litEdgeRange config))
                             (litEdges c))
           (puzzle result :: evaluatedLog st).
Proof.
  intros Hrun. destruct (wf_generatePuzzleBy _ _ _ _ _ _ _ Hrun) as (config & Hconfig & Hall).
  exists config. split; [assumption |].
  eapply Forall_impl; [| exact Hall]. now intros c [Hc _].
Qed.

(** X19 — in the full generator the emitters of every ring are distinct
    slots of [0..11], and so are its blockers, in every chromosome handed
    to the fitness function and in the returned puzzle. *)
Theorem full_slots_distinct (score : Chromosome -> Config -> option Q)
    (difficulty : string) (counter : Z) (tape : JS.Tape) (result : Result) (st : Store)
    (rest : JS.Tape) :
  generatePuzzleBy score difficulty counter emptyStore tape = JS.Done (result, st) rest ->
  Forall (fun c => Forall circleWf (rings_list (circles c)))
         (puzzle result :: evaluatedLog st).
Proof.
  intros Hrun. destruct (wf_generatePuzzleBy _ _ _ _ _ _ _ Hrun) as (config & _ & Hall).
  eapply Forall_impl; [| exact Hall]. now intros c [_ Hc].
Qed.

End FullGeneratorResults.

Lemma full_lit_edges_in_range_witness :
  returns (Evolutionary.generatePuzzleBy (fun _ _ => Some 0%Q) "hard" 0
             Evolutionary.emptyStore)
          (lcgTape (Z.to_nat 14000) 3)
          (fun out =>
             exists config,
               Evolutionary.getDifficultyConfig "hard" = Evolutionary.Preset config /\
               Forall (fun c => edgesWf (fst (Evolutionary.litEdgeRange config))
                                        (snd (Evolutionary.litEdgeRange config))
                                        (Genome.litEdges c))
                      (Evolutionary.puzzle (fst out) :: Evolutionary.evaluatedLog (snd out))).
Proof.
  apply returns_intro; [vm_compute; reflexivity |].
  intros [result st] rest Hrun.
  exact (full_lit_edges_in_range _ _ _ _ _ _ _ Hrun).
Defined.

Lemma full_slots_distinct_witness :
  returns (Evolutionary.generatePuzzleBy (fun _ _ => Some 0%Q) "medium" 0
             Evolutionary.emptyStore)
          (lcgTape (Z.to_nat 12000) 19)
          (fun out =>
             Forall (fun c => Forall circleWf (rings_list (Genome.circles c)))
                    (Evolutionary.puzzle (fst out) :: Evolutionary.evaluatedLog (snd out))).
Proof.
  apply returns_intro; [vm_compute; reflexivity |].
  intros [result st] rest Hrun.
  exact (full_slots_distinct _ _ _ _ _ _ _ Hrun).
Defined.

(** ** The fitness values computed during a run *)

Section FitnessValues.

Import Genome.

(** X20 — in the simplified generator every chromosome handed to the
    fitness evaluation gets a fitness that is a number (never [NaN]) between
    0 and 1, whatever the solvability verdict is. *)
Theorem simplified_fitness_is_score (judge : Chromosome -> bool) (difficulty : string)
    (tape : JS.Tape) (result : Simplified.Result) (rest : JS.Tape) :
  Simplified.generatePuzzleBy judge difficulty tape = JS.Done result rest ->
  Forall (fun c => exists f,
            Simplified.fitness
              (Simplified.calculateFitnessBy judge (Simplified.mkIndividual c None false))
            = Some f /\ (0 <= f <= 1)%Q)
         (Simplified.evaluated result).
Proof.
  intros Hrun.
  destruct (post_generatePuzzleBy judge difficulty _ _ _ Hrun) as (Hseen & _ & _).
  eapply Forall_impl; [| exact Hseen].
  intros c Hc. apply chromosomeOk_split in Hc as [Hne _].
  pose proof (distributionScore_bounds c Hne) as Hd.
  pose proof (aestheticScore_bounds c) as Ha.
  destruct (varietyScore_bounds c Hne) as (v & Hv & Hvb).
  unfold Simplified.calculateFitnessBy, Simplified.fitnessOf.
  cbn [Simplified.fitness Simplified.chromosome]. rewrite Hv.
  destruct (judge c); eexists; (split; [reflexivity |]); lra.
Qed.

End FitnessValues.

Lemma simplified_fitness_is_score_witness :
  returns (Simplified.generatePuzzleBy (fun _ => false) "medium") (lcgTape (Z.to_nat 9000) 23)
          (fun result =>
             Forall (fun c => exists f,
                       Simplified.fitness
                         (Simplified.calculateFitnessBy (fun _ => false)
                            (Simplified.mkIndividual c None false))
                       = Some f /\ (0 <= f <= 1)%Q)
                    (Simplified.evaluated result)).
Proof.
  apply returns_intro; [vm_compute; reflexivity |].
  intros result rest Hrun.
  exact (simplified_fitness_is_score _ _ _ _ _ Hrun).
Defined.

Section FullFitness.

Import Genome Evolutionary.

Local Open Scope Q_scope.

Variable exp : Q -> Q.

(** What the bounds use of [Math.exp]: on arguments that are not positive
    its value lies between 0 and 1. *)
Hypothesis exp_unit : forall x, x <= 0 -> 0 <= exp x <= 1.

Ltac qarith := unfold Qdiv in *; cbn [Qinv Qnum Qden] in *; lra.

Lemma calculateSolvability_unit (c : Chromosome) :
  0 <= calculateSolvabilityFromChromosome c <= 1.
Proof.
  unfold calculateSolvabilityFromChromosome.
  destruct (negb _); [lra |]. destruct (bruteForceSolvabilityCheckChromosome c); lra.
Qed.

Lemma calculateDifficulty_unit (c : Chromosome) (config : Config) :
  0 <= calculateDifficultyFromChromosome exp c config <= 1.
Proof.
  unfold calculateDifficultyFromChromosome. cbv zeta.
  destruct (_ && _); [lra |].
  apply exp_unit.
  set (distance := Qabs _).
  pose proof (Qsquare_nonneg distance).
  setoid_replace (- distance * distance / (2 * 2 * 2))
    with (- (distance * distance) * (1 # 8)) by (unfold Qdiv; field).
  lra.
Qed.

Lemma total_counts (counts : Rings Z) :
  total counts = (ring0 counts + ring1 counts + ring2 counts)%Z.
Proof. unfold total, rings_list. cbn [fold_left]. lia. Qed.

Lemma calculateDistributionFitness_unit (c : Chromosome) :
  0 <= calculateDistributionFitness exp c <= 1.
Proof.
  unfold calculateDistributionFitness. cbv zeta.
  destruct (total (emitterCounts c) =? 0)%Z eqn:Htotal; [lra |].
  apply Z.eqb_neq in Htotal.
  apply Qmax_unit.
  assert (Hpos : (0 < total (emitterCounts c))%Z).
  { rewrite total_counts in *. unfold emitterCounts, rings_map in *.
    cbn [ring0 ring1 ring2] in *. lia. }
  assert (Heven : evenness exp (emitterCounts c) <= 1).
  { unfold evenness. cbv zeta. apply exp_unit.
    set (ideal := inject_Z (total (emitterCounts c)) / 3).
    assert (Hvar : 0 <= fold_left (fun sum count =>
                     sum + (inject_Z count - ideal) * (inject_Z count - ideal))
                     (rings_list (emitterCounts c)) 0).
    { apply (fold_left_invariant (fun sum => 0 <= sum)); [lra |].
      intros sum count Hsum. pose proof (Qsquare_nonneg (inject_Z count - ideal)). lra. }
    set (variance := fold_left _ (rings_list (emitterCounts c)) 0 / 3).
    assert (Hvariance : 0 <= variance) by (unfold variance; apply Qdiv_nonneg; lra).
    assert (Hden : 0 < inject_Z (total (emitterCounts c)) * (5 # 10)).
    { apply Qmult_lt_0_compat; [| lra].
      change 0 with (inject_Z 0). now rewrite <- Zlt_Qlt. }
    assert (Hquot : 0 <= variance / (inject_Z (total (emitterCounts c)) * (5 # 10))).
    { apply Qdiv_nonneg; lra. }
    setoid_replace (- variance / (inject_Z (total (emitterCounts c)) * (5 # 10)))
      with (- (variance / (inject_Z (total (emitterCounts c)) * (5 # 10))))
      by (unfold Qdiv; ring).
    lra. }
  assert (Hpenalty : 0 <= inject_Z (emptyCircles (emitterCounts c)) * (3 # 10)).
  { apply Qmult_le_0_compat; [| lra].
    change 0 with (inject_Z 0). rewrite <- Zle_Qle. unfold emptyCircles. lia. }
  lra.
Qed.

Lemma counted_le_length {A} (f : A -> bool) (l : list A) :
  (0 <= fold_left (fun count x => if f x then count + 1 else count) l 0
     <= Z.of_nat (length l))%Z.
Proof.
  assert (Hgen : forall acc,
    (acc <= fold_left (fun count x => if f x then count + 1 else count) l acc
         <= acc + Z.of_nat (length l))%Z).
  { induction l as [| x l IH]; intros acc; cbn [fold_left length]; [lia |].
    destruct (f x); [specialize (IH (acc + 1)%Z) | specialize (IH acc)]; lia. }
  specialize (Hgen 0%Z). lia.
Qed.

Lemma calculateSymmetryScore_unit (c : Chromosome) (symmetry : Q) :
  calculateSymmetryScore c = Some symmetry -> 0 <= symmetry <= 1.
Proof.
  unfold calculateSymmetryScore.
  destruct (litEdges c) as [| edge edges] eqn:Hedges; [discriminate |].
  rewrite <- Hedges.
  assert (Hlen : (0 < Z.of_nat (length (litEdges c)))%Z) by (rewrite Hedges; simpl; lia).
  match goal with |- Some ?v = Some symmetry -> _ => set (value := v) end.
  enough (Hvalue : 0 <= value <= 1) by (clearbody value; now intros [= <-]).
  unfold value.
  apply (fold_left_invariant (fun best => 0 <= best <= 1)); [lra |].
  intros best fold Hbest. cbv zeta.
  match goal with
  | |- 0 <= Qmax best (inject_Z ?count / _) <= 1 =>
      assert (Hcount : (0 <= count <= Z.of_nat (length (litEdges c)))%Z)
        by apply counted_le_length;
      set (n := count) in *; clearbody n
  end.
  assert (Hratio : 0 <= inject_Z n / inject_Z (Z.of_nat (length (litEdges c))) <= 1).
  { split.
    - apply Qdiv_nonneg; change 0 with (inject_Z 0); rewrite <- Zle_Qle; lia.
    - apply Qle_shift_div_r.
      + change 0 with (inject_Z 0). now rewrite <- Zlt_Qlt.
      + rewrite Qmult_1_l. rewrite <- Zle_Qle. lia. }
  split; [apply Q.max_le_iff; left; lra | apply Q.max_lub; lra].
Qed.

Lemma calculateBalanceScore_unit (c : Chromosome) : 0 <= calculateBalanceScore c <= 1.
Proof.
  unfold calculateBalanceScore. cbv zeta.
  set (counts := rings_map _ (circles c)).
  assert (H0 : (0 <= ring0 counts)%Z) by (unfold counts, rings_map; simpl; lia).
  assert (H1 : (0 <= ring1 counts)%Z) by (unfold counts, rings_map; simpl; lia).
  assert (H2 : (0 <= ring2 counts)%Z) by (unfold counts, rings_map; simpl; lia).
  clearbody counts.
  destruct (total counts =? 0)%Z eqn:Htotal; [lra |].
  apply Z.eqb_neq in Htotal. rewrite total_counts in *.
  set (spread := (JS.max3 (ring0 counts) (ring1 counts) (ring2 counts)
                  - JS.min3 (ring0 counts) (ring1 counts) (ring2 counts))%Z).
  assert (Hspread : (0 <= spread <= ring0 counts + ring1 counts + ring2 counts)%Z).
  { unfold spread, JS.max3, JS.min3. lia. }
  clearbody spread.
  assert (Hratio : 0 <= inject_Z spread
                        / inject_Z (ring0 counts + ring1 counts + ring2 counts) <= 1).
  { split.
    - apply Qdiv_nonneg; change 0 with (inject_Z 0); rewrite <- Zle_Qle; lia.
    - apply Qle_shift_div_r.
      + change 0 with (inject_Z 0). rewrite <- Zlt_Qlt. lia.
      + rewrite Qmult_1_l. rewrite <- Zle_Qle. lia. }
  lra.
Qed.

(** X21 — [calculateFitness] of the full generator is [NaN] exactly for a
    chromosome without lit edges; for every other chromosome and each of
    the three presets it is a number between 0 and 1. *)
Theorem full_fitness_is_score (c : Chromosome) (config : Config) :
  In config [easy; medium; hard] ->
  (litEdges c = [] -> calculateFitness exp c config = None) /\
  (litEdges c <> [] ->
   exists f, calculateFitness exp c config = Some f /\ 0 <= f <= 1).
Proof.
  intros Hconfig. unfold calculateFitness, calculateAestheticsFitness. cbv zeta. split.
  - intros Hnil. unfold calculateSymmetryScore. now rewrite Hnil.
  - intros Hne.
    destruct (calculateSymmetryScore c) as [symmetry |] eqn:Hsym.
    + eexists. split; [reflexivity |].
      pose proof (calculateSymmetryScore_unit c symmetry Hsym).
      pose proof (calculateBalanceScore_unit c).
      pose proof (calculateSolvability_unit c).
      pose proof (calculateDifficulty_unit c config).
      pose proof (calculateDistributionFitness_unit c).
      set (s := calculateSolvabilityFromChromosome c) in *.
      set (d := calculateDifficultyFromChromosome exp c config) in *.
      set (e := calculateDistributionFitness exp c) in *.
      set (b := calculateBalanceScore c) in *.
      clearbody s d e b.
      destruct Hconfig as [<- | [<- | [<- | []]]];
        cbn [weights easy medium hard w_solvability w_difficulty w_distribution w_aesthetics];
        qarith.
    + unfold calculateSymmetryScore in Hsym.
      destruct (litEdges c); [congruence | discriminate].
Qed.

End FullFitness.

Lemma full_fitness_is_score_witness :
  In Evolutionary.easy [Evolutionary.easy; Evolutionary.medium; Evolutionary.hard] /\
  exists f,
    Evolutionary.calculateFitness (fun _ => 1%Q) last_edge_example Evolutionary.easy = Some f /\
    (0 <= f <= 1)%Q.
Proof.
  split; [now left |].
  apply (full_fitness_is_score (fun _ => 1%Q)).
  - intros x _. lra.
  - now left.
  - discriminate.
Defined.

(** ** The rings of the basic generator *)

Section BasicRings.

Import Puzzle.

(** The slot opposite to [pos], and the class of a slot: two slots of
    [0..11] are equal or opposite exactly when they agree modulo 6. *)
Definition opposite (pos : Z) : Z := Z.rem (pos + 6) 12.
Definition slotClass (pos : Z) : Z := pos mod 6.

Lemma slotClass_same (p q : Z) :
  edgeIndex p -> edgeIndex q -> slotClass p = slotClass q -> q = p \/ q = opposite p.
Proof.
  unfold edgeIndex, slotClass, opposite. intros Hp Hq Hclass.
  rewrite Z.rem_mod_nonneg by lia.
  Z.to_euclidean_division_equations. lia.
Qed.

(** Every slot whose class is in [classes] is marked as used. *)
Definition covers (used classes : list Z) : Prop :=
  forall q, edgeIndex q -> In (slotClass q) classes -> In q used.

Lemma covers_step (used classes : list Z) (pos : Z) :
  edgeIndex pos -> covers used classes ->
  covers (used ++ [pos; opposite pos]) (classes ++ [slotClass pos]).
Proof.
  intros Hpos Hcov q Hq Hin. apply in_or_app.
  apply in_app_or in Hin as [Hin | [Heq | []]].
  - left. now apply Hcov.
  - right. destruct (slotClass_same pos q Hpos Hq Heq) as [-> | ->]; simpl; auto.
Qed.

(** The placement loop, with the slots behind the angles it pushes. *)
Lemma placeSlots_spaced (count : Z) (earlier : list Z) (tape : JS.Tape) :
  forall used slots result rest,
    Forall edgeIndex slots ->
    NoDup (earlier ++ map slotClass slots) ->
    covers used (earlier ++ map slotClass slots) ->
    placeSlots count used (map positionToAngle slots) tape = JS.Done result rest ->
    exists slots',
      snd result = map positionToAngle slots' /\
      Forall edgeIndex slots' /\
      NoDup (earlier ++ map slotClass slots') /\
      covers (fst result) (earlier ++ map slotClass slots') /\
      Z.of_nat (length slots') = Z.max (Z.of_nat (length slots)) count.
Proof.
  induction tape as [| r tape IH]; intros used slots result rest Hidx Hnd Hcov;
    cbn [placeSlots]; rewrite length_map.
  - destruct (Z.of_nat (length slots) <? count) eqn:Hlt; [discriminate |].
    intros [= <- _]. apply Z.ltb_ge in Hlt. exists slots. cbn [fst snd].
    repeat (split; [assumption || reflexivity |]). lia.
  - destruct (Z.of_nat (length slots) <? count) eqn:Hlt.
    + apply Z.ltb_lt in Hlt.
      destruct (JS.legal r) eqn:Hr; [| discriminate].
      pose proof (randomInt_range r SIDES Hr ltac:(reflexivity)) as Hrange.
      set (pos := JS.randomInt r SIDES) in *.
      destruct (negb (JS.includes used pos) && _) eqn:Hfree.
      * apply andb_true_iff in Hfree as [Hfree _].
        apply negb_true_iff, includes_false in Hfree.
        replace (map positionToAngle slots ++ [positionToAngle pos])
          with (map positionToAngle (slots ++ [pos])) by now rewrite map_app.
        intros Hrun.
        assert (Hclass : ~ In (slotClass pos) (earlier ++ map slotClass slots)).
        { intros Hin. apply Hfree. now apply Hcov. }
        destruct (IH (used ++ [pos; Z.rem (pos + 6) 12]) (slots ++ [pos]) result rest)
          as (slots' & Hres & Hidx' & Hnd' & Hcov' & Hlen).
        -- apply Forall_app. split; [assumption | constructor; [exact Hrange | constructor]].
        -- rewrite map_app, app_assoc. cbn [map].
           apply NoDup_app; [assumption | constructor; [intros [] | constructor] |].
           intros c Hc [<- | []]. contradiction.
        -- rewrite map_app, app_assoc. cbn [map]. now apply covers_step.
        -- exact Hrun.
        -- exists slots'. repeat (split; [assumption |]).
           rewrite length_app in Hlen. cbn [length] in Hlen. lia.
      * intros Hrun.
        destruct (IH used slots result rest Hidx Hnd Hcov Hrun)
          as (slots' & Hres & Hidx' & Hnd' & Hcov' & Hlen).
        exists slots'. repeat (split; [assumption |]). exact Hlen.
    + intros [= <- _]. apply Z.ltb_ge in Hlt. exists slots. cbn [fst snd].
      repeat (split; [assumption || reflexivity |]). lia.
Qed.

(** A ring as the basic generator builds it: 1 to 3 emitters and 1 or 2
    blockers on slot angles, no two of them on the same slot or on opposite
    slots. *)
Definition ringSpaced (circle : Circle) : Prop :=
  exists laserSlots blockerSlots,
    lasers circle = map positionToAngle laserSlots /\
    blockers circle = map positionToAngle blockerSlots /\
    Forall edgeIndex (laserSlots ++ blockerSlots) /\
    NoDup (map slotClass (laserSlots ++ blockerSlots)) /\
    (1 <= length laserSlots <= 3)%nat /\ (1 <= length blockerSlots <= 2)%nat.

Lemma post_makeCircle_spaced (radius : Q) : post (makeCircle radius) ringSpaced.
Proof.
  unfold makeCircle. cbv zeta.
  eapply post_bind; [apply post_random | intros r1 Hr1].
  eapply post_bind; [apply post_random | intros r2 Hr2].
  pose proof (randomInt_range r1 3 Hr1 ltac:(lia)) as Hemit.
  pose proof (randomInt_range r2 2 Hr2 ltac:(lia)) as Hblock.
  intros tape circle rest. unfold JS.bind.
  destruct (placeSlots _ [] [] tape) as [placedLasers tape1 | |] eqn:Hlasers; try discriminate.
  destruct (placeSlots _ (fst placedLasers) [] tape1) as [placedBlockers tape2 | |]
    eqn:Hblockers; try discriminate.
  intros [= <- _].
  destruct (placeSlots_spaced (JS.randomInt r1 3 + 1) [] tape [] [] placedLasers tape1)
    as (laserSlots & HL & HLidx & HLnd & HLcov & HLlen);
    [constructor | constructor | intros q _ [] | exact Hlasers |].
  destruct (placeSlots_spaced (JS.randomInt r2 2 + 1) (map slotClass laserSlots) tape1
              (fst placedLasers) [] placedBlockers tape2)
    as (blockerSlots & HB & HBidx & HBnd & HBcov & HBlen);
    [constructor | now rewrite app_nil_r | now rewrite app_nil_r | exact Hblockers |].
  exists laserSlots, blockerSlots. cbn [lasers blockers].
  split; [assumption |]. split; [assumption |].
  split; [apply Forall_app; now split |].
  split; [now rewrite map_app |].
  cbn [length] in HLlen, HBlen. lia.
Qed.

Lemma angleToPosition_of_slot (pos : Z) :
  edgeIndex pos -> angleToPosition (positionToAngle pos) = pos.
Proof.
  intros Hpos. rewrite positionToAngle_slot by exact Hpos.
  now apply angleToPosition_slotAngle.
Qed.

Lemma takenPositions_slots (circle : Circle) (laserSlots blockerSlots : list Z) (q : Z) :
  lasers circle = map positionToAngle laserSlots ->
  blockers circle = map positionToAngle blockerSlots ->
  Forall edgeIndex (laserSlots ++ blockerSlots) ->
  In q (tl laserSlots ++ blockerSlots) ->
  In q (takenPositions circle) /\ In (opposite q) (takenPositions circle).
Proof.
  intros HL HB Hidx Hq. unfold takenPositions. rewrite HL, HB.
  assert (Hangle : In (positionToAngle q)
                      (tl (map positionToAngle laserSlots) ++ map positionToAngle blockerSlots)).
  { replace (tl (map positionToAngle laserSlots)) with (map positionToAngle (tl laserSlots))
      by (destruct laserSlots; reflexivity).
    rewrite <- map_app. now apply in_map. }
  assert (Hqidx : edgeIndex q).
  { rewrite Forall_forall in Hidx. apply Hidx.
    apply in_app_or in Hq as [Hq | Hq]; apply in_or_app; [left | now right].
    destruct laserSlots; [destruct Hq | now right]. }
  split; apply in_flat_map; exists (positionToAngle q); (split; [exact Hangle |]);
    cbv zeta; rewrite (angleToPosition_of_slot q Hqidx); simpl; auto.
Qed.

Lemma alignEmitters_spaced (litEdges : list Z) (circles : Rings Circle) :
  Forall edgeIndex litEdges ->
  Forall ringSpaced (rings_list circles) ->
  Forall ringSpaced (rings_list (alignEmitters litEdges circles)).
Proof.
  intros Hidx. unfold alignEmitters.
  assert (Htargets : Forall (fun it => edgeIndex (snd it)) (indexed litEdges)).
  { apply Forall_forall. intros [i target] Hin. simpl.
    apply in_combine_r in Hin. rewrite Forall_forall in Hidx. now apply Hidx. }
  revert circles. induction Htargets as [| [i target] targets Htarget _ IH];
    intros circles Hok; cbn [fold_left]; [assumption |].
  apply IH. cbn [snd] in Htarget. cbv beta iota zeta.
  destruct (negb (JS.includes _ target) && _) eqn:Hfree; [| assumption].
  apply Forall_ring_set; [assumption |].
  destruct (Forall_ring_at _ _ (i mod 3) Hok)
    as (laserSlots & blockerSlots & HL & HB & Hslots & Hnd & HLlen & HBlen).
  apply andb_true_iff in Hfree as [Hfree _].
  apply negb_true_iff, includes_false in Hfree.
  destruct laserSlots as [| first others]; [simpl in HLlen; lia |].
  exists (target :: others), blockerSlots. cbn [lasers blockers].
  split; [rewrite HL; reflexivity |]. split; [assumption |].
  cbn [app] in Hslots. inversion Hslots as [| ? ? Hfirst Hrest]; subst.
  split; [constructor; assumption |].
  split; [| cbn [length] in *; lia].
  cbn [app map] in *. inversion Hnd as [| ? ? _ Hnd']; subst.
  constructor; [| assumption].
  intros Hin. apply in_map_iff in Hin as (q & Hclass & Hq).
  destruct (takenPositions_slots _ (first :: others) blockerSlots q HL HB
              ltac:(constructor; assumption) Hq) as [Hq1 Hq2].
  assert (Hqidx : edgeIndex q) by (rewrite Forall_forall in Hrest; now apply Hrest).
  destruct (slotClass_same q target Hqidx Htarget Hclass) as [-> | ->]; contradiction.
Qed.

(** X22 — every ring of a puzzle of the basic generator holds 1 to 3
    emitters and 1 or 2 blockers, all on slot angles [15 + 30 k], and no
    two of them share a slot or sit on opposite slots (their slots differ
    modulo 6), also after the third step has moved first emitters. *)
Theorem generatePuzzle_rings_spaced (minLit maxLit : Z) (tape : JS.Tape) (p : Puzzle)
    (rest : JS.Tape) :
  generatePuzzle minLit maxLit tape = JS.Done p rest ->
  Forall (fun circle =>
            (1 <= length (lasers circle) <= 3)%nat /\
            (1 <= length (blockers circle) <= 2)%nat /\
            Forall slotAngle (lasers circle ++ blockers circle) /\
            NoDup (map (fun angle => slotClass (angleToPosition angle))
                       (lasers circle ++ blockers circle)))
         (rings_list (circles p)).
Proof.
  revert tape p rest.
  change (post (generatePuzzle minLit maxLit)
            (fun p => Forall (fun circle =>
               (1 <= length (lasers circle) <= 3)%nat /\
               (1 <= length (blockers circle) <= 2)%nat /\
               Forall slotAngle (lasers circle ++ blockers circle) /\
               NoDup (map (fun angle => slotClass (angleToPosition angle))
                          (lasers circle ++ blockers circle)))
              (rings_list (circles p)))).
  unfold generatePuzzle. cbv zeta.
  eapply post_bind; [apply post_True | intros r _].
  eapply post_bind with (P := Forall edgeIndex).
  { intros tape result rest Hpick.
    apply pickLitEdges_spec in Hpick as (_ & Hidx & _); [assumption | constructor | constructor]. }
  intros edges Hidx.
  eapply post_bind; [apply post_makeCircle_spaced | intros c0 H0].
  eapply post_bind; [apply post_makeCircle_spaced | intros c1 H1].
  eapply post_bind; [apply post_makeCircle_spaced | intros c2 H2].
  apply post_ret. cbn [circles].
  assert (Hall : Forall ringSpaced
                   (rings_list (alignEmitters (JS.sortAsc edges) (mkRings c0 c1 c2)))).
  { apply alignEmitters_spaced.
    - now rewrite (sortAsc_perm edges).
    - apply Forall_rings. simpl. auto. }
  eapply Forall_impl; [| exact Hall].
  intros circle (laserSlots & blockerSlots & HL & HB & Hslots & Hnd & HLlen & HBlen).
  rewrite HL, HB, !length_map, <- map_app.
  split; [assumption |]. split; [assumption |]. split.
  - apply Forall_forall. intros angle Hangle.
    apply in_map_iff in Hangle as (pos & <- & Hpos).
    rewrite Forall_forall in Hslots. exists pos. split; [now apply Hslots | reflexivity].
  - rewrite map_map.
    replace (map (fun pos => slotClass (angleToPosition (positionToAngle pos)))
                 (laserSlots ++ blockerSlots))
      with (map slotClass (laserSlots ++ blockerSlots)); [assumption |].
    apply map_ext_in. intros pos Hpos. rewrite Forall_forall in Hslots.
    now rewrite angleToPosition_of_slot by now apply Hslots.
Qed.

End BasicRings.

Lemma generatePuzzle_rings_spaced_witness :
  returns (Puzzle.generatePuzzle 3 4) (lcgTape (Z.to_nat 200) 29)
          (fun p => Forall (fun circle =>
             (1 <= length (Puzzle.lasers circle) <= 3)%nat /\
             (1 <= length (Puzzle.blockers circle) <= 2)%nat /\
             Forall slotAngle (Puzzle.lasers circle ++ Puzzle.blockers circle) /\
             NoDup (map (fun angle => slotClass (Puzzle.angleToPosition angle))
                        (Puzzle.lasers circle ++ Puzzle.blockers circle)))
            (rings_list (Puzzle.circles p))).
Proof.
  apply returns_intro; [vm_compute; reflexivity |].
  intros p rest Hrun.
  exact (generatePuzzle_rings_spaced _ _ _ _ _ Hrun).
Defined.


(** ** The constraint-based generator of puzzle-generator.js *)

Section ConstraintValidation.

Import Puzzle Constraint.

(** Some multiple of 30 degrees turns any emitter to within the
    validation's tolerance of any edge. *)
Lemma some_rotation_fits (edge emitterAngle : Z) :
  existsb (fun k =>
    let rotation := k * 30 in
    let actualAngle := Z.rem (emitterAngle + rotation + SHAPE_ROTATION) 360 in
    let firingDirection := Z.rem (actualAngle + 180) 360 in
    let angleDiff :=
      Z.abs (firingDirection - Z.rem (edge * 30 + 15 + SHAPE_ROTATION) 360) in
    let angleDiff := if angleDiff >? 180 then 360 - angleDiff else angleDiff in
    angleDiff <=? 25) (JS.range 12) = true.
Proof.
  apply existsb_exists.
  set (s := emitterAngle + 165 - 30 * edge).
  exists ((- ((s + 15) / 30)) mod 12). split.
  - apply range_In. change (Z.of_nat 12) with 12. apply Z.mod_pos_bound. lia.
  - cbv zeta. unfold SHAPE_ROTATION.
    pose proof (Z.mod_pos_bound (- ((s + 15) / 30)) 12 ltac:(lia)) as Hk.
    set (k := (- ((s + 15) / 30)) mod 12) in *.
    assert (Hcong : exists j v, s + 30 * k = 360 * j + v /\ -15 <= v < 15).
    { exists (((s + 15) / 30 + k) / 12), ((s + 15) mod 30 - 15).
      subst k. Z.to_euclidean_division_equations. lia. }
    destruct Hcong as (j & v & Hj & Hv).
    subst s. clearbody k.
    destruct (Z.abs _ >? 180) eqn:Hbig; apply Z.leb_le;
      rewrite Z.gtb_ltb in Hbig;
      [apply Z.ltb_lt in Hbig | apply Z.ltb_ge in Hbig];
      revert Hbig; Z.to_euclidean_division_equations; lia.
Qed.

Lemma validate_of_emitter (p : Puzzle) (circle : Circle) :
  In circle (rings_list (circles p)) -> lasers circle <> [] ->
  validateConstraintPuzzle p = true.
Proof.
  intros Hin Hlasers. unfold validateConstraintPuzzle.
  apply forallb_forall. intros edge _. cbv zeta.
  apply existsb_exists. exists circle. split; [exact Hin |].
  destruct (lasers circle) as [| emitterAngle rest] eqn:Hl; [now elim Hlasers |].
  apply existsb_exists. exists emitterAngle. split; [now left |].
  apply some_rotation_fits.
Qed.

(** X23 — the validation of puzzle-generator.js checks nothing about angles: a
    puzzle passes exactly when it has no lit edge or some ring has an
    emitter, whatever the angles of the emitters and the lit edges are. *)
Theorem validateConstraintPuzzle_any_emitter (p : Puzzle) :
  validateConstraintPuzzle p = true <->
  litEdges p = [] \/
  exists circle, In circle (rings_list (circles p)) /\ lasers circle <> [].
Proof.
  split.
  - intros Hvalid. destruct (litEdges p) as [| edge rest] eqn:Hedges; [now left |].
    right. unfold validateConstraintPuzzle in Hvalid.
    rewrite forallb_forall in Hvalid.
    specialize (Hvalid edge). rewrite Hedges in Hvalid.
    specialize (Hvalid (or_introl eq_refl)). cbv zeta in Hvalid.
    apply existsb_exists in Hvalid as (circle & Hin & Hhit).
    exists circle. split; [exact Hin |].
    apply existsb_exists in Hhit as (emitterAngle & Hemitter & _).
    intros Hnone. rewrite Hnone in Hemitter. exact Hemitter.
  - intros [Hnone | (circle & Hin & Hlasers)].
    + unfold validateConstraintPuzzle. rewrite Hnone. reflexivity.
    + exact (validate_of_emitter p circle Hin Hlasers).
Qed.

End ConstraintValidation.

Section ConstraintGenerator.

Import Puzzle Constraint.

(** An angle of the 30-degree grid [0, 30, ..., 330]. *)
Definition gridAngle (angle : Z) : Prop := exists k, 0 <= k < 12 /\ angle = k * 30.

(** A ring as steps 3 and 4 leave it: distinct emitters on the grid and
    no blocker yet. *)
Definition emittersOnly (circle : Circle) : Prop :=
  blockers circle = [] /\ NoDup (lasers circle) /\ Forall gridAngle (lasers circle).

(** No angle of the ring is used twice, and all are on the grid. *)
Definition slotsTidy (circle : Circle) : Prop :=
  NoDup (lasers circle ++ blockers circle) /\
  Forall gridAngle (lasers circle ++ blockers circle).

(** Every blocker keeps 30 degrees from the opposite of every emitter of
    its ring. *)
Definition blockersClear (circle : Circle) : Prop :=
  forall blocker emitterAngle,
    In blocker (blockers circle) -> In emitterAngle (lasers circle) ->
    30 <= Z.abs (blocker - Z.rem (emitterAngle + 180) 360).

(** Lit edge number [i] has its emitter on ring [i % 3], half a turn from
    the start of the edge. *)
Definition covered (litEdges : list Z) (circles : Rings Circle) : Prop :=
  forall i edge,
    nth_error litEdges i = Some edge ->
    In (Z.rem (edge * 30 + 180) 360) (lasers (ring_at circles (i mod 3))).

(** The angle step 3 computes for an edge. *)
Definition coverAngle (edge : Z) : Z :=
  let edgeAngle := edge * 30 in
  let emitterAngle := Z.rem (edgeAngle + 180 - SHAPE_ROTATION + 360) 360 in
  let emitterAngle := JS.Math_round (inject_Z emitterAngle / 30)%Q * 30 in
  let emitterAngle := if emitterAngle >=? 360 then emitterAngle - 360 else emitterAngle in
  if emitterAngle <? 0 then emitterAngle + 360 else emitterAngle.

Lemma coverEdge_eq (circles : Rings Circle) (i : nat) (edge : Z) :
  coverEdge circles i edge =
  if negb (JS.includes (lasers (ring_at circles (i mod 3))) (coverAngle edge))
  then pushLaser circles (i mod 3) (coverAngle edge)
  else circles.
Proof. reflexivity. Qed.

Lemma coverAngle_spec (edge : Z) :
  edgeIndex edge -> coverAngle edge = Z.rem (edge * 30 + 180) 360.
Proof.
  intros Hedge.
  assert (Hall : forallb (fun edge => coverAngle edge =? Z.rem (edge * 30 + 180) 360)
                   (JS.range 12) = true) by (vm_compute; reflexivity).
  rewrite forallb_forall in Hall. apply Z.eqb_eq, Hall, range_In. exact Hedge.
Qed.

Lemma gridAngles_In (angle : Z) : In angle gridAngles <-> gridAngle angle.
Proof.
  unfold gridAngles, gridAngle. rewrite in_map_iff. split.
  - intros (k & <- & Hk). apply range_In in Hk. exists k. split; [exact Hk | reflexivity].
  - intros (k & Hk & ->). exists k. split; [reflexivity |]. apply range_In. exact Hk.
Qed.

Lemma gridAngle_rem (edge : Z) : edgeIndex edge -> gridAngle (Z.rem (edge * 30 + 180) 360).
Proof.
  unfold edgeIndex, gridAngle. intros Hedge. exists ((edge + 6) mod 12). split.
  - apply Z.mod_pos_bound. lia.
  - Z.to_euclidean_division_equations. lia.
Qed.

Lemma freeAngles_In (circle : Circle) (angle : Z) :
  In angle (freeAngles circle) <->
  gridAngle angle /\ ~ In angle (lasers circle ++ blockers circle).
Proof.
  unfold freeAngles. rewrite filter_In, gridAngles_In, negb_true_iff, includes_false.
  reflexivity.
Qed.

Lemma safeAngles_In (circle : Circle) (angle : Z) :
  In angle (safeAngles circle) <->
  gridAngle angle /\ ~ In angle (lasers circle ++ blockers circle) /\
  forall emitterAngle, In emitterAngle (lasers circle) ->
    30 <= Z.abs (angle - Z.rem (emitterAngle + 180) 360).
Proof.
  unfold safeAngles.
  rewrite filter_In, gridAngles_In, andb_true_iff, negb_true_iff, includes_false,
    forallb_forall.
  split.
  - intros (Hgrid & Hfree & Hsafe). repeat split; try assumption.
    intros emitterAngle Hin. specialize (Hsafe emitterAngle Hin). cbv zeta in Hsafe.
    apply negb_true_iff, Z.ltb_ge in Hsafe. exact Hsafe.
  - intros (Hgrid & Hfree & Hsafe). repeat split; try assumption.
    intros emitterAngle Hin. cbv zeta. apply negb_true_iff, Z.ltb_ge.
    exact (Hsafe emitterAngle Hin).
Qed.

Lemma post_pickFrom (availableAngles : list Z) :
  post (pickFrom availableAngles)
    (fun picked => forall angle, picked = Some angle -> In angle availableAngles).
Proof.
  destruct availableAngles as [| first others]; cbn [pickFrom].
  - apply post_ret. discriminate.
  - eapply post_bind; [apply post_random | intros r _].
    apply post_ret. intros angle Hnth. exact (nth_error_In _ _ Hnth).
Qed.

(** *** What pushing an angle does to the rings *)

Lemma lasers_pushLaser (circles : Rings Circle) (i j : nat) (angle x : Z) :
  In x (lasers (ring_at circles j)) ->
  In x (lasers (ring_at (pushLaser circles i angle) j)).
Proof.
  unfold pushLaser.
  destruct i as [| [| i]], j as [| [| j]]; cbn; rewrite ?in_app_iff; auto.
Qed.

Lemma lasers_pushLaser_new (circles : Rings Circle) (i : nat) (angle : Z) :
  In angle (lasers (ring_at (pushLaser circles i angle) i)).
Proof.
  unfold pushLaser. destruct i as [| [| i]]; cbn; rewrite in_app_iff; right; now left.
Qed.

Lemma lasers_pushBlocker (circles : Rings Circle) (i j : nat) (angle : Z) :
  lasers (ring_at (pushBlocker circles i angle) j) = lasers (ring_at circles j).
Proof. unfold pushBlocker. destruct i as [| [| i]], j as [| [| j]]; reflexivity. Qed.

Lemma covered_pushLaser (litEdges : list Z) (circles : Rings Circle) (i : nat) (angle : Z) :
  covered litEdges circles -> covered litEdges (pushLaser circles i angle).
Proof. intros Hc n edge Hnth. apply lasers_pushLaser. exact (Hc n edge Hnth). Qed.

Lemma covered_pushBlocker (litEdges : list Z) (circles : Rings Circle) (i : nat) (angle : Z) :
  covered litEdges circles -> covered litEdges (pushBlocker circles i angle).
Proof. intros Hc n edge Hnth. rewrite lasers_pushBlocker. exact (Hc n edge Hnth). Qed.

Lemma emittersOnly_pushLaser (circles : Rings Circle) (i : nat) (angle : Z) :
  Forall emittersOnly (rings_list circles) ->
  gridAngle angle -> ~ In angle (lasers (ring_at circles i)) ->
  Forall emittersOnly (rings_list (pushLaser circles i angle)).
Proof.
  intros Hall Hgrid Hfresh. unfold pushLaser.
  apply Forall_ring_set; [exact Hall |].
  destruct (Forall_ring_at _ _ i Hall) as (Hnone & Hnd & Hg).
  unfold emittersOnly. cbn [blockers lasers]. repeat split.
  - exact Hnone.
  - apply NoDup_app; [exact Hnd | repeat constructor; intros [] |].
    intros x Hx [<- | []]. exact (Hfresh Hx).
  - apply Forall_app. split; [exact Hg | repeat constructor; exact Hgrid].
Qed.

Lemma final_pushBlocker (circles : Rings Circle) (i : nat) (angle : Z) :
  Forall (fun circle => slotsTidy circle /\ blockersClear circle) (rings_list circles) ->
  In angle (safeAngles (ring_at circles i)) ->
  Forall (fun circle => slotsTidy circle /\ blockersClear circle)
    (rings_list (pushBlocker circles i angle)).
Proof.
  intros Hall Hsafe. unfold pushBlocker.
  apply Forall_ring_set; [exact Hall |].
  destruct (Forall_ring_at _ _ i Hall) as ((Hnd & Hg) & Hclear).
  apply safeAngles_In in Hsafe as (Hgrid & Hfree & Hopp).
  unfold slotsTidy, blockersClear. cbn [blockers lasers]. rewrite !app_assoc. repeat split.
  - apply NoDup_app; [exact Hnd | repeat constructor; intros [] |].
    intros x Hx [<- | []]. exact (Hfree Hx).
  - apply Forall_app. split; [exact Hg | repeat constructor; exact Hgrid].
  - intros blocker emitterAngle Hb He. apply in_app_iff in Hb as [Hb | [<- | []]].
    + exact (Hclear blocker emitterAngle Hb He).
    + exact (Hopp emitterAngle He).
Qed.

Lemma final_of_emittersOnly (circle : Circle) :
  emittersOnly circle -> slotsTidy circle /\ blockersClear circle.
Proof.
  intros (Hnone & Hnd & Hg). unfold slotsTidy, blockersClear.
  rewrite Hnone, app_nil_r. repeat split; try assumption. intros ? ? [].
Qed.

(** *** Step 3 *)

Lemma combine_seq_snoc {A} (l : list A) (x : A) :
  forall start,
    combine (seq start (length (l ++ [x]))) (l ++ [x]) =
    combine (seq start (length l)) l ++ [((start + length l)%nat, x)].
Proof.
  induction l as [| y l IH]; intros start; cbn [app length seq combine].
  - now rewrite Nat.add_0_r.
  - rewrite IH. now rewrite Nat.add_succ_r.
Qed.

Lemma indexed_snoc {A} (l : list A) (x : A) :
  indexed (l ++ [x]) = indexed l ++ [(length l, x)].
Proof. unfold indexed. now rewrite combine_seq_snoc. Qed.

Lemma coverEdge_keeps (circles : Rings Circle) (i : nat) (edge : Z) (litEdges : list Z) :
  edgeIndex edge ->
  Forall emittersOnly (rings_list circles) -> covered litEdges circles ->
  Forall emittersOnly (rings_list (coverEdge circles i edge)) /\
  covered litEdges (coverEdge circles i edge) /\
  In (Z.rem (edge * 30 + 180) 360) (lasers (ring_at (coverEdge circles i edge) (i mod 3))).
Proof.
  intros Hedge Hall Hc. rewrite coverEdge_eq, coverAngle_spec by exact Hedge.
  destruct (JS.includes _ _) eqn:Hinc; cbn [negb].
  - apply includes_In in Hinc. auto.
  - apply includes_false in Hinc. repeat split.
    + apply emittersOnly_pushLaser; [exact Hall | now apply gridAngle_rem | exact Hinc].
    + now apply covered_pushLaser.
    + apply lasers_pushLaser_new.
Qed.

Lemma coverEdges_spec (litEdges : list Z) (circles : Rings Circle) :
  Forall edgeIndex litEdges ->
  Forall emittersOnly (rings_list circles) ->
  let circles' :=
    fold_left (fun circles '(i, edge) => coverEdge circles i edge) (indexed litEdges) circles in
  Forall emittersOnly (rings_list circles') /\ covered litEdges circles'.
Proof.
  intros Hedges Hall. cbv zeta.
  induction litEdges as [| edge litEdges IH] using rev_ind.
  - cbn. split; [exact Hall |]. intros i edge Hnth. destruct i; discriminate Hnth.
  - apply Forall_app in Hedges as [Hedges Hedge]. inversion Hedge as [| ? ? Hlast _]; subst.
    destruct (IH Hedges) as [IHall IHc]. clear IH.
    rewrite indexed_snoc, fold_left_app. cbn [fold_left].
    set (before := fold_left _ (indexed litEdges) circles) in *.
    destruct (coverEdge_keeps before (length litEdges) edge litEdges Hlast IHall IHc)
      as (Hall' & Hc' & Hnew).
    split; [exact Hall' |].
    intros i e Hnth. destruct (Nat.lt_ge_cases i (length litEdges)) as [Hlt | Hge].
    + rewrite nth_error_app1 in Hnth by exact Hlt. exact (Hc' i e Hnth).
    + rewrite nth_error_app2 in Hnth by exact Hge.
      destruct (i - length litEdges)%nat as [| d] eqn:Hd.
      * cbn in Hnth. injection Hnth as <-.
        replace i with (length litEdges) by lia. exact Hnew.
      * cbn in Hnth. destruct d; discriminate Hnth.
Qed.

(** *** Steps 4 and 5 *)

Lemma post_addEmitters (litEdges : list Z) (remaining : nat) :
  forall circles,
    Forall emittersOnly (rings_list circles) -> covered litEdges circles ->
    post (addEmitters remaining circles)
      (fun circles' => Forall emittersOnly (rings_list circles') /\ covered litEdges circles').
Proof.
  induction remaining as [| remaining IH]; intros circles Hall Hc; cbn [addEmitters].
  - apply post_ret. auto.
  - eapply post_bind; [apply post_random | intros r _].
    eapply post_bind; [apply post_pickFrom | intros picked Hpicked].
    cbv beta in Hpicked.
    destruct picked as [randomAngle |]; [| now apply IH].
    specialize (Hpicked randomAngle eq_refl).
    apply freeAngles_In in Hpicked as [Hgrid Hfree].
    apply IH.
    + apply emittersOnly_pushLaser; [exact Hall | exact Hgrid |].
      intros Hin. apply Hfree, in_app_iff. now left.
    + now apply covered_pushLaser.
Qed.

Lemma post_addBlockers (litEdges : list Z) (circleIndex : nat) (remaining : nat) :
  forall circles,
    Forall (fun circle => slotsTidy circle /\ blockersClear circle) (rings_list circles) ->
    covered litEdges circles ->
    post (addBlockers remaining circleIndex circles)
      (fun circles' =>
         Forall (fun circle => slotsTidy circle /\ blockersClear circle) (rings_list circles') /\
         covered litEdges circles').
Proof.
  induction remaining as [| remaining IH]; intros circles Hall Hc; cbn [addBlockers].
  - apply post_ret. auto.
  - eapply post_bind; [apply post_pickFrom | intros picked Hpicked].
    cbv beta in Hpicked.
    destruct picked as [randomAngle |]; [| now apply IH].
    specialize (Hpicked randomAngle eq_refl).
    apply IH.
    + now apply final_pushBlocker.
    + now apply covered_pushBlocker.
Qed.

Lemma post_blockCircle (litEdges : list Z) (circleIndex : nat) (circles : Rings Circle) :
  Forall (fun circle => slotsTidy circle /\ blockersClear circle) (rings_list circles) ->
  covered litEdges circles ->
  post (blockCircle circleIndex circles)
    (fun circles' =>
       Forall (fun circle => slotsTidy circle /\ blockersClear circle) (rings_list circles') /\
       covered litEdges circles').
Proof.
  intros Hall Hc. unfold blockCircle.
  eapply post_bind; [apply post_random | intros r _].
  now apply post_addBlockers.
Qed.

(** *** Step 1 *)

Lemma consecutiveEdges_spec (startEdge count : Z) :
  0 <= startEdge -> Forall edgeIndex (consecutiveEdges startEdge count).
Proof.
  intros Hstart. unfold consecutiveEdges. apply Forall_forall. intros edge Hin.
  apply in_map_iff in Hin as (i & <- & Hi). apply range_In in Hi.
  unfold edgeIndex, SIDES. Z.to_euclidean_division_equations. lia.
Qed.

Lemma NoDup_map_on {A B} (f : A -> B) (l : list A) :
  (forall x y, In x l -> In y l -> f x = f y -> x = y) ->
  NoDup l -> NoDup (map f l).
Proof.
  intros Hinj Hnd. induction Hnd as [| x l Hx Hnd IH]; cbn [map]; constructor.
  - intros Hin. apply in_map_iff in Hin as (y & Hy & Hin).
    apply Hx. rewrite (Hinj x y); [exact Hin | now left | now right | now symmetry].
  - apply IH. intros a b Ha Hb. apply Hinj; now right.
Qed.

Lemma range_NoDup (n : nat) : NoDup (JS.range n).
Proof.
  unfold JS.range. apply NoDup_map_on; [| apply seq_NoDup].
  intros x y _ _. apply Nat2Z.inj.
Qed.

Lemma consecutiveEdges_distinct (startEdge count : Z) :
  0 <= startEdge -> count <= 12 ->
  NoDup (consecutiveEdges startEdge count) /\
  Z.of_nat (length (consecutiveEdges startEdge count)) = Z.max 0 count.
Proof.
  intros Hstart Hcount. unfold consecutiveEdges. split.
  - apply NoDup_map_on; [| apply range_NoDup].
    intros x y Hx Hy. apply range_In in Hx, Hy. unfold SIDES.
    Z.to_euclidean_division_equations. lia.
  - rewrite length_map, range_length. lia.
Qed.

Lemma pickLitEdges_edgeIndex (numLit : Z) (tape : JS.Tape) :
  forall litEdges result rest,
    Forall edgeIndex litEdges ->
    pickLitEdges numLit litEdges tape = JS.Done result rest ->
    Forall edgeIndex result.
Proof.
  induction tape as [| r tape IH]; intros litEdges result rest Hidx; cbn [pickLitEdges].
  - destruct (Z.of_nat (length litEdges) <? numLit); [discriminate |].
    now intros [= <- _].
  - destruct (Z.of_nat (length litEdges) <? numLit); [| now intros [= <- _]].
    destruct (JS.legal r) eqn:Hr; [| discriminate].
    cbv zeta. destruct (negb _).
    + apply IH. apply Forall_app. split; [exact Hidx |].
      constructor; [| constructor].
      exact (randomInt_range r SIDES Hr ltac:(reflexivity)).
    + now apply IH.
Qed.

Lemma post_selectLitEdges (numLit : Z) (targetDifficulty : string) :
  post (selectLitEdges numLit targetDifficulty)
    (fun litEdges =>
       Forall edgeIndex litEdges /\
       (numLit <= 12 ->
        NoDup litEdges /\ Z.of_nat (length litEdges) = Z.max 0 numLit)).
Proof.
  unfold selectLitEdges.
  destruct (String.eqb targetDifficulty "easy"); [| destruct (String.eqb targetDifficulty "hard")].
  - eapply post_bind; [apply post_random | intros r Hr]. cbv beta in Hr.
    pose proof (randomInt_range r SIDES Hr ltac:(reflexivity)) as Hstart.
    apply post_ret. split.
    + apply consecutiveEdges_spec. lia.
    + intros Hnum. apply consecutiveEdges_distinct; lia.
  - intros tape result rest Hrun.
    apply pickLitEdges_spec in Hrun as (Hnd & Hidx & Hlen); [| constructor | constructor].
    cbn [length] in Hlen. split; [exact Hidx |]. intros _. split; [exact Hnd | exact Hlen].
  - eapply post_bind; [apply post_random | intros r Hr]. cbv beta in Hr.
    pose proof (randomInt_range r SIDES Hr ltac:(reflexivity)) as Hstart.
    intros tape result rest Hrun. split.
    + apply pickLitEdges_edgeIndex in Hrun; [exact Hrun |].
      apply consecutiveEdges_spec. lia.
    + intros Hnum.
      destruct (consecutiveEdges_distinct (JS.randomInt r SIDES) (numLit / 2)) as [Hnd0 Hlen0];
        [lia | Z.to_euclidean_division_equations; lia |].
      apply pickLitEdges_spec in Hrun as (Hnd & Hidx & Hlen);
        [| exact Hnd0 | apply consecutiveEdges_spec; lia].
      split; [exact Hnd |].
      rewrite Hlen, Hlen0. Z.to_euclidean_division_equations. lia.
Qed.

(** *** The whole run *)

Lemma post_buildConstraintPuzzle (minLit maxLit : Z) (targetDifficulty : string) :
  post (buildConstraintPuzzle minLit maxLit targetDifficulty)
    (fun p =>
       Forall edgeIndex (litEdges p) /\ ascending (litEdges p) /\
       (0 <= minLit <= maxLit -> maxLit <= 12 ->
        NoDup (litEdges p) /\ minLit <= Z.of_nat (length (litEdges p)) <= maxLit) /\
       Forall (fun circle => slotsTidy circle /\ blockersClear circle)
         (rings_list (circles p)) /\
       covered (litEdges p) (circles p)).
Proof.
  unfold buildConstraintPuzzle.
  eapply post_bind; [apply post_random | intros r Hr]. cbv beta in Hr.
  eapply post_bind; [apply post_selectLitEdges | intros picked [Hidx Hdistinct]].
  cbv zeta.
  assert (Hsorted : Forall edgeIndex (JS.sortAsc picked)).
  { rewrite Forall_forall in *. intros edge Hin. apply Hidx.
    exact (Permutation_in _ (sortAsc_perm picked) Hin). }
  set (sorted := JS.sortAsc picked) in *.
  set (empty := mkRings (mkCircle 50 [] []) (mkCircle 90 [] []) (mkCircle 130 [] [])).
  assert (Hempty : Forall emittersOnly (rings_list empty)).
  { apply Forall_rings. cbn. unfold emittersOnly. cbn.
    repeat split; constructor. }
  destruct (coverEdges_spec sorted empty Hsorted Hempty) as [Hall Hc].
  set (placed := fold_left _ (indexed sorted) empty) in *.
  eapply post_bind; [apply post_random | intros r' _].
  eapply post_bind; [apply (post_addEmitters sorted); eassumption |].
  intros circles [Hall1 Hc1]. cbv beta in Hall1, Hc1.
  assert (Hfinal : Forall (fun circle => slotsTidy circle /\ blockersClear circle)
                     (rings_list circles)).
  { eapply Forall_impl; [| exact Hall1]. exact final_of_emittersOnly. }
  eapply post_bind; [apply (post_blockCircle sorted); eassumption |].
  intros circles0 [Hall2 Hc2]. cbv beta in Hall2, Hc2.
  eapply post_bind; [apply (post_blockCircle sorted); eassumption |].
  intros circles1 [Hall3 Hc3]. cbv beta in Hall3, Hc3.
  eapply post_bind; [apply (post_blockCircle sorted); eassumption |].
  intros circles2 [Hall4 Hc4]. cbv beta in Hall4, Hc4.
  apply post_ret. cbn [litEdges Puzzle.circles].
  split; [exact Hsorted |]. split; [apply sortAsc_ascending |].
  split; [| split; assumption].
  intros Hrange Hmax.
  destruct (numLitOf_bounds r minLit maxLit Hr) as [_ Hnum].
  specialize (Hnum ltac:(lia)).
  destruct (Hdistinct ltac:(lia)) as [Hnd Hlen]. split.
  - exact (Permutation_NoDup (Permutation_sym (sortAsc_perm picked)) Hnd).
  - unfold sorted. rewrite sortAsc_length. lia.
Qed.

Lemma validate_of_covered (p : Puzzle) :
  covered (litEdges p) (circles p) -> validateConstraintPuzzle p = true.
Proof.
  intros Hc. destruct (litEdges p) as [| edge rest] eqn:Hedges.
  - unfold validateConstraintPuzzle. now rewrite Hedges.
  - apply (validate_of_emitter p (ring0 (circles p))).
    + unfold rings_list. now left.
    + specialize (Hc 0%nat edge eq_refl). cbn in Hc.
      intros Hnone. rewrite Hnone in Hc. exact Hc.
Qed.

Lemma generateSimplified_is_build (minLit maxLit : Z) (targetDifficulty : string)
    (tape : JS.Tape) :
  generateSimplifiedConstraintPuzzle minLit maxLit targetDifficulty tape =
  buildConstraintPuzzle minLit maxLit targetDifficulty tape.
Proof.
  unfold generateSimplifiedConstraintPuzzle, JS.bind.
  destruct (buildConstraintPuzzle minLit maxLit targetDifficulty tape)
    as [p rest | |] eqn:Hrun; try reflexivity.
  destruct (post_buildConstraintPuzzle _ _ _ _ _ _ Hrun) as (_ & _ & _ & _ & Hc).
  now rewrite (validate_of_covered p Hc).
Qed.

(** X24 — [generateSimplifiedConstraintPuzzle] never reaches
    [generateFallbackPuzzle]: the puzzle built by its steps 1 to 5 always
    passes [validateConstraintPuzzle], so every run, finished or not, is the
    run of those steps and nothing else. *)
Theorem constraint_fallback_never_taken
    (minLit maxLit : Z) (targetDifficulty : string) (tape : JS.Tape) :
  generateSimplifiedConstraintPuzzle minLit maxLit targetDifficulty tape =
  buildConstraintPuzzle minLit maxLit targetDifficulty tape.
Proof.
  unfold generateSimplifiedConstraintPuzzle, JS.bind.
  destruct (buildConstraintPuzzle minLit maxLit targetDifficulty tape)
    as [p rest | |] eqn:Hrun; try reflexivity.
  destruct (post_buildConstraintPuzzle _ _ _ _ _ _ Hrun) as (_ & _ & _ & _ & Hc).
  now rewrite (validate_of_covered p Hc).
Qed.

(** X25 — on every ring of a puzzle returned by
    [generateSimplifiedConstraintPuzzle] the emitters and blockers sit on
    pairwise different angles, all of them on the grid 0, 30, ..., 330. *)
Theorem constraint_slots_distinct
    (minLit maxLit : Z) (targetDifficulty : string) (tape : JS.Tape)
    (p : Puzzle) (rest : JS.Tape) :
  generateSimplifiedConstraintPuzzle minLit maxLit targetDifficulty tape = JS.Done p rest ->
  Forall (fun circle =>
            NoDup (lasers circle ++ blockers circle) /\
            Forall gridAngle (lasers circle ++ blockers circle))
         (rings_list (circles p)).
Proof.
  intros Hrun. rewrite generateSimplified_is_build in Hrun.
  destruct (post_buildConstraintPuzzle _ _ _ _ _ _ Hrun) as (_ & _ & _ & Hall & _).
  eapply Forall_impl; [| exact Hall]. now intros circle [Htidy _].
Qed.

(** X26 — in a puzzle returned by [generateSimplifiedConstraintPuzzle] every
    blocker is at least 30 degrees away from the angle opposite to each
    emitter of its own ring. *)
Theorem constraint_blockers_clear
    (minLit maxLit : Z) (targetDifficulty : string) (tape : JS.Tape)
    (p : Puzzle) (rest : JS.Tape) :
  generateSimplifiedConstraintPuzzle minLit maxLit targetDifficulty tape = JS.Done p rest ->
  forall circle blocker emitterAngle,
    In circle (rings_list (circles p)) ->
    In blocker (blockers circle) -> In emitterAngle (lasers circle) ->
    30 <= Z.abs (blocker - Z.rem (emitterAngle + 180) 360).
Proof.
  intros Hrun circle blocker emitterAngle Hin. rewrite generateSimplified_is_build in Hrun.
  destruct (post_buildConstraintPuzzle _ _ _ _ _ _ Hrun) as (_ & _ & _ & Hall & _).
  rewrite Forall_forall in Hall. destruct (Hall circle Hin) as [_ Hclear].
  apply Hclear.
Qed.

(** X27 — in a puzzle returned by [generateSimplifiedConstraintPuzzle] the lit
    edge at index [i] of [litEdges] has an emitter on ring [i % 3] at the
    angle half a turn from the start of the edge, [(edge * 30 + 180) % 360]. *)
Theorem constraint_edges_covered
    (minLit maxLit : Z) (targetDifficulty : string) (tape : JS.Tape)
    (p : Puzzle) (rest : JS.Tape) :
  generateSimplifiedConstraintPuzzle minLit maxLit targetDifficulty tape = JS.Done p rest ->
  forall i edge,
    nth_error (litEdges p) i = Some edge ->
    In (Z.rem (edge * 30 + 180) 360) (lasers (ring_at (circles p) (i mod 3))).
Proof.
  intros Hrun. rewrite generateSimplified_is_build in Hrun.
  destruct (post_buildConstraintPuzzle _ _ _ _ _ _ Hrun) as (_ & _ & _ & _ & Hc).
  exact Hc.
Qed.

(** X28 — for a range [0 <= minLit <= maxLit <= 12] a puzzle returned by
    [generateSimplifiedConstraintPuzzle] has between [minLit] and [maxLit]
    lit edges: distinct indices of 0..11 in ascending order, whatever the
    target difficulty. *)
Theorem constraint_lit_edges
    (minLit maxLit : Z) (targetDifficulty : string) (tape : JS.Tape)
    (p : Puzzle) (rest : JS.Tape) :
  0 <= minLit <= maxLit -> maxLit <= 12 ->
  generateSimplifiedConstraintPuzzle minLit maxLit targetDifficulty tape = JS.Done p rest ->
  minLit <= Z.of_nat (length (litEdges p)) <= maxLit /\
  NoDup (litEdges p) /\ ascending (litEdges p) /\ Forall edgeIndex (litEdges p).
Proof.
  intros Hrange Hmax Hrun. rewrite generateSimplified_is_build in Hrun.
  destruct (post_buildConstraintPuzzle _ _ _ _ _ _ Hrun) as (Hidx & Hasc & Hcount & _).
  destruct (Hcount Hrange Hmax) as [Hnd Hlen]. auto.
Qed.

End ConstraintGenerator.

Lemma constraint_slots_distinct_witness :
  returns (Constraint.generateSimplifiedConstraintPuzzle 3 6 "medium")
          (lcgTape (Z.to_nat 60) 31)
          (fun p =>
             Forall (fun circle =>
                       NoDup (Puzzle.lasers circle ++ Puzzle.blockers circle) /\
                       Forall gridAngle (Puzzle.lasers circle ++ Puzzle.blockers circle))
                    (rings_list (Puzzle.circles p))).
Proof.
  apply returns_intro; [vm_compute; reflexivity |].
  intros p rest Hrun.
  exact (constraint_slots_distinct _ _ _ _ _ _ Hrun).
Defined.

Lemma constraint_blockers_clear_witness :
  returns (Constraint.generateSimplifiedConstraintPuzzle 2 4 "hard")
          (lcgTape (Z.to_nat 60) 37)
          (fun p =>
             forall circle blocker emitterAngle,
               In circle (rings_list (Puzzle.circles p)) ->
               In blocker (Puzzle.blockers circle) ->
               In emitterAngle (Puzzle.lasers circle) ->
               30 <= Z.abs (blocker - Z.rem (emitterAngle + 180) 360)).
Proof.
  apply returns_intro; [vm_compute; reflexivity |].
  intros p rest Hrun.
  exact (constraint_blockers_clear _ _ _ _ _ _ Hrun).
Defined.

Lemma constraint_edges_covered_witness :
  returns (Constraint.generateSimplifiedConstraintPuzzle 4 7 "easy")
          (lcgTape (Z.to_nat 60) 41)
          (fun p =>
             forall i edge,
               nth_error (Puzzle.litEdges p) i = Some edge ->
               In (Z.rem (edge * 30 + 180) 360)
                  (Puzzle.lasers (ring_at (Puzzle.circles p) (i mod 3)))).
Proof.
  apply returns_intro; [vm_compute; reflexivity |].
  intros p rest Hrun.
  exact (constraint_edges_covered _ _ _ _ _ _ Hrun).
Defined.

Lemma constraint_lit_edges_witness :
  returns (Constraint.generateSimplifiedConstraintPuzzle 3 5 "medium")
          (lcgTape (Z.to_nat 60) 43)
          (fun p =>
             3 <= Z.of_nat (length (Puzzle.litEdges p)) <= 5 /\
             NoDup (Puzzle.litEdges p) /\ ascending (Puzzle.litEdges p) /\
             Forall edgeIndex (Puzzle.litEdges p)).
Proof.
  apply returns_intro; [vm_compute; reflexivity |].
  intros p rest Hrun.
  apply (constraint_lit_edges 3 5 _ _ _ _ ltac:(lia) ltac:(lia) Hrun).
Defined.
